(** * The CNOT-dihedral group engine of qiskit-ignis

    A shallow embedding of
    [qiskit/ignis/verification/randomized_benchmarking/dihedral.py]:
    the phase polynomial [SpecialPolynomial], the group element
    [CNOTDihedral], the zero-CNOT enumeration [make_dict_0], the circuit
    transcription [append_circuit] and the synthesis
    [decompose_CNOTDihedral].

    Python integers are [Z]; Python lists are [list]; a raised exception
    is the [Raise] outcome of a small error monad; methods that mutate
    [self] thread the object through a state-and-error monad whose
    outcome keeps the object as it was left when the exception escaped. *)

From Stdlib Require Import ZArith QArith Qcanon Qround.
From stdpp Require Import prelude strings pretty sorting gmap.

Local Open Scope Z_scope.

(** ** Exceptions and the two monads *)

Inductive exn : Type :=
  | AssertionError (msg : string)
  | IndexError
  | ValueError (msg : string)
  | OverflowError (msg : string)
  | QiskitError (msg : string).

Inductive res (A : Type) : Type :=
  | Ok (a : A)
  | Raise (e : exn).
Arguments Ok {A} a.
Arguments Raise {A} e.

Definition res_bind {A B} (c : res A) (k : A → res B) : res B :=
  match c with
  | Ok a => k a
  | Raise e => Raise e
  end.

Global Instance res_mbind : MBind res := λ A B k c, res_bind c k.
Global Instance res_mret : MRet res := λ A a, Ok a.

(** [assert cond, msg] *)
Definition assert (cond : bool) (msg : string) : res unit :=
  if cond then Ok tt else Raise (AssertionError msg).

(** A loop [for x in l: acc = body(acc, x)] that an exception leaves. *)
Fixpoint res_fold {A B} (body : B → A → res B) (l : list A) (acc : B) : res B :=
  match l with
  | [] => Ok acc
  | x :: l' => acc' ← body acc x; res_fold body l' acc'
  end.

(** [[f(x) for x in l]] where [f] may raise. *)
Fixpoint res_map {A B} (f : A → res B) (l : list A) : res (list B) :=
  match l with
  | [] => Ok []
  | x :: l' => y ← f x; ys ← res_map f l'; Ok (y :: ys)
  end.

(** Code that mutates an object of type [S]: the outcome pairs the result
    (or the exception) with the object as the code left it. *)
Definition M (S A : Type) : Type := S → res A * S.

Definition st_ret {S A} (a : A) : M S A := λ s, (Ok a, s).
Definition st_raise {S A} (e : exn) : M S A := λ s, (Raise e, s).
Definition st_bind {S A B} (c : M S A) (k : A → M S B) : M S B :=
  λ s, match c s with
       | (Ok a, s') => k a s'
       | (Raise e, s') => (Raise e, s')
       end.
Definition st_get {S} : M S S := λ s, (Ok s, s).
Definition st_put {S} (s : S) : M S unit := λ _, (Ok tt, s).
Definition st_modify {S} (f : S → S) : M S unit := λ s, (Ok tt, f s).
(** A computation that only reads the object. *)
Definition st_read {S A} (f : S → res A) : M S A := λ s, (f s, s).
Definition st_assert {S} (cond : bool) (msg : string) : M S unit :=
  λ s, (assert cond msg, s).

Global Instance st_mbind {S} : MBind (M S) := λ A B k c, st_bind c k.
Global Instance st_mret {S} : MRet (M S) := λ A a, st_ret a.

(** [for x in l: body(x)] on a mutable object. *)
Fixpoint st_for {S A} (l : list A) (body : A → M S unit) : M S unit :=
  match l with
  | [] => st_ret tt
  | x :: l' => body x;; st_for l' body
  end.

(** The object after the code ran (whether or not it raised). *)
Definition state_after {S A} (c : M S A) (s : S) : S := snd (c s).
Definition outcome {S A} (c : M S A) (s : S) : res A := fst (c s).

(** A method run on a local object that is dropped when it raises. *)
Definition run_on {S} (c : M S unit) (s : S) : res S :=
  match c s with
  | (Ok _, s') => Ok s'
  | (Raise e, _) => Raise e
  end.

(** ** Python lists and integers *)

(** [range(n)] and [range(a, b)] *)
Definition py_range (n : Z) : list Z := seqZ 0 n.
Definition py_range2 (a b : Z) : list Z := seqZ a (b - a).

(** [n * [x]] *)
Definition py_repeat {A} (n : Z) (x : A) : list A := replicate (Z.to_nat n) x.

(** [l[i]]: a negative index counts from the end, an index outside the
    list raises [IndexError]. *)
Definition py_index {A} (l : list A) (i : Z) : option nat :=
  let len := Z.of_nat (length l) in
  if bool_decide (0 ≤ i < len) then Some (Z.to_nat i)
  else if bool_decide (- len ≤ i < 0) then Some (Z.to_nat (len + i))
  else None.

Definition getitem {A} (l : list A) (i : Z) : res A :=
  match py_index l i with
  | Some k => match l !! k with Some x => Ok x | None => Raise IndexError end
  | None => Raise IndexError
  end.

(** [l[i] = v] *)
Definition setitem {A} (l : list A) (i : Z) (v : A) : res (list A) :=
  match py_index l i with
  | Some k => Ok (<[k := v]> l)
  | None => Raise IndexError
  end.

(** [int(a / b)] where [a / b] is Python's true division of two integers:
    the quotient truncated towards zero.  It stands for the divisions in
    the numbers of terms and in the offsets of a polynomial, whose
    operands are of the order of the cube of the number of variables:
    the floating-point division is exact on them as long as they stay
    below 2^53, which is the case up to about 10^5 variables.  The loop
    of [make_dict_0] divides numbers beyond 2^53 and uses
    [truediv_multiple] below. *)
Definition int_div (a b : Z) : Z := Z.quot a b.

(** The double nearest to an integer: the integer itself when it has at
    most 53 significant bits, and otherwise the integer rounded to 53
    significant bits, a tie going to the even significand. *)
Definition nearest_double (m : Z) : Z :=
  let e := Z.log2 (Z.abs m) in
  if bool_decide (e < 53) then m
  else
    let ulp := 2 ^ (e - 52) in
    let q := Z.abs m `div` ulp in
    let r := Z.abs m `mod` ulp in
    let q' := if bool_decide (2 * r < ulp) then q
              else if bool_decide (ulp < 2 * r) then q + 1
              else if Z.even q then q else q + 1 in
    Z.sgn m * (q' * ulp).

(** [a / b] for two Python integers of which [b] divides [a]: the
    division is the true division, its result the float nearest to the
    quotient, here the integer [a div b], and it raises [OverflowError]
    when that float is beyond the largest double.  The float is kept as
    the integer that is its value. *)
Definition truediv_multiple (a b : Z) : res Z :=
  let x := nearest_double (a `div` b) in
  if bool_decide (Z.abs x < 2 ^ 1024) then Ok x
  else Raise (OverflowError "integer division result too large for a float").

(** [itertools.combinations(l, r)], in the order itertools yields them. *)
Fixpoint combinations {A} (r : nat) (l : list A) : list (list A) :=
  match r with
  | O => [[]]
  | S r' =>
      match l with
      | [] => []
      | x :: l' => ((x ::.) <$> combinations r' l') ++ combinations r l'
      end
  end.

(** [list(set(a).union(set(b)))]: the distinct elements of [a] and [b].
    CPython iterates a set of small non-negative integers in increasing
    order, which is the order taken here. *)
Fixpoint set_insert (x : Z) (l : list Z) : list Z :=
  match l with
  | [] => [x]
  | y :: l' =>
      if bool_decide (x < y) then x :: y :: l'
      else if bool_decide (x = y) then y :: l'
      else y :: set_insert x l'
  end.
Definition set_union (a b : list Z) : list Z :=
  foldr set_insert [] (a ++ b).

(** [[j for j, e in enumerate(row) if e != 0]] *)
Definition support_of (row : list Z) : list Z :=
  (λ je, Z.of_nat je.1) <$> filter (λ je, je.2 ≠ 0) (imap (λ j e, (j, e)) row).

(** [str] of an integer, of a tuple whose items are already printed, and
    [repr] of a string that holds no quote or escape. *)
Definition py_str_int (z : Z) : string := pretty z.

Fixpoint py_join (sep : string) (items : list string) : string :=
  match items with
  | [] => ""
  | [x] => x
  | x :: rest => x +:+ sep +:+ py_join sep rest
  end.

Definition py_str_tuple (items : list string) : string :=
  match items with
  | [x] => "(" +:+ x +:+ ",)"
  | _ => "(" +:+ py_join ", " items +:+ ")"
  end.

Definition py_repr_str (s : string) : string := "'" +:+ s +:+ "'".

(** ** [class SpecialPolynomial] *)

Module SpecialPolynomial.

Record t : Type := mk {
  n_vars : Z;
  nc2 : Z;
  nc3 : Z;
  weight_0 : Z;
  weight_1 : list Z;
  weight_2 : list Z;
  weight_3 : list Z
}.

Definition set_weight_0 (v : Z) (p : t) : t :=
  mk (n_vars p) (nc2 p) (nc3 p) v (weight_1 p) (weight_2 p) (weight_3 p).
Definition set_weight_1 (w : list Z) (p : t) : t :=
  mk (n_vars p) (nc2 p) (nc3 p) (weight_0 p) w (weight_2 p) (weight_3 p).
Definition set_weight_2 (w : list Z) (p : t) : t :=
  mk (n_vars p) (nc2 p) (nc3 p) (weight_0 p) (weight_1 p) w (weight_3 p).
Definition set_weight_3 (w : list Z) (p : t) : t :=
  mk (n_vars p) (nc2 p) (nc3 p) (weight_0 p) (weight_1 p) (weight_2 p) w.

(** [SpecialPolynomial(n_vars)]: the zero polynomial. *)
Definition __init__ (n : Z) : res t :=
  assert (bool_decide (1 ≤ n)) "n_vars too small!";;
  let c2 := int_div (n * (n - 1)) 2 in
  let c3 := int_div (n * (n - 1) * (n - 2)) 6 in
  Ok (mk n c2 c3 0 (py_repeat n 0) (py_repeat c2 0) (py_repeat c3 0)).

(** The term lists [terms0 + terms1 + terms2 + terms3] that
    [mul_monomial], [__mul__] and [evaluate] build. *)
Definition terms0 : list (list Z) := [[]].
Definition terms1 (n : Z) : list (list Z) := i ← py_range n; [[i]].
Definition terms2 (n : Z) : list (list Z) :=
  i ← py_range (n - 1); j ← py_range2 (i + 1) n; [[i; j]].
Definition terms3 (n : Z) : list (list Z) :=
  i ← py_range (n - 2); j ← py_range2 (i + 1) (n - 1);
  k ← py_range2 (j + 1) n; [[i; j; k]].
Definition all_terms (n : Z) : list (list Z) :=
  terms0 ++ terms1 n ++ terms2 n ++ terms3 n.

(** The three assertions that open [mul_monomial], [get_term] and
    [set_term]. *)
Definition check_indices (n : Z) (indices : list Z) : res unit :=
  let length := Z.of_nat (length indices) in
  assert (bool_decide (length < 4)) "no term!";;
  assert (negb (existsb (λ x, bool_decide (x < 0) || bool_decide (n ≤ x)) indices))
         "indices out of bounds!";;
  assert (forallb (λ ab, bool_decide (ab.1 < ab.2)) (zip indices (tail indices)))
         "indices non-increasing!".

(** The offsets into [weight_2] and [weight_3]. *)
Definition offset_2 (n i0 i1 : Z) : Z :=
  let offset_1 := int_div (2 * (i0 * n) - (i0 + 1) * i0) 2 in
  let offset_2 := i1 - i0 - 1 in
  offset_1 + offset_2.

Definition offset_3 (n i0 i1 i2 : Z) : Z :=
  let offset_1 :=
    int_div (i0 * (2 + i0 ^ 2 - 3 * i0 * (n - 1) - 6 * n + 3 * n ^ 2)) 6 in
  let offset_2 := int_div ((i1 - i0 - 1) * (2 * n - i1 + i0 - 2)) 2 in
  let offset_3 := i2 - i1 - 1 in
  offset_1 + offset_2 + offset_3.

Definition get_term (self : t) (indices : list Z) : res Z :=
  check_indices (n_vars self) indices;;
  match indices with
  | [] => Ok (weight_0 self)
  | [i0] => getitem (weight_1 self) i0
  | [i0; i1] => getitem (weight_2 self) (offset_2 (n_vars self) i0 i1)
  | i0 :: i1 :: i2 :: _ =>
      getitem (weight_3 self) (offset_3 (n_vars self) i0 i1 i2)
  end.

Definition set_term (indices : list Z) (value : Z) : M t unit :=
  self ← st_get;
  st_read (λ _, check_indices (n_vars self) indices);;
  let value := value `mod` 8 in
  match indices with
  | [] => st_put (set_weight_0 value self)
  | [i0] =>
      w ← st_read (λ _, setitem (weight_1 self) i0 value);
      st_put (set_weight_1 w self)
  | [i0; i1] =>
      w ← st_read (λ _, setitem (weight_2 self)
                           (offset_2 (n_vars self) i0 i1) value);
      st_put (set_weight_2 w self)
  | i0 :: i1 :: i2 :: _ =>
      w ← st_read (λ _, setitem (weight_3 self)
                           (offset_3 (n_vars self) i0 i1 i2) value);
      st_put (set_weight_3 w self)
  end.

(** [mul_monomial]: the product is accumulated in a fresh [result]. *)
Definition mul_monomial (self : t) (indices : list Z) : res t :=
  check_indices (n_vars self) indices;;
  result ← __init__ (n_vars self);
  if bool_decide (length indices = 0%nat) then Ok self
  else
    run_on
      (st_for (all_terms (n_vars self)) (λ term,
         value ← st_read (λ _, get_term self term);
         let new_term := set_union term indices in
         cur ← st_read (λ result, get_term result new_term);
         set_term new_term ((cur + value) `mod` 8)))
      result.

(** [__add__] *)
Definition __add__ (self other : t) : res t :=
  assert (bool_decide (n_vars self = n_vars other)) "different n_vars!";;
  result ← __init__ (n_vars self);
  Ok (mk (n_vars result) (nc2 result) (nc3 result)
        ((weight_0 self + weight_0 other) `mod` 8)
        (zip_with (λ x0 x1, (x0 + x1) `mod` 8) (weight_1 self) (weight_1 other))
        (zip_with (λ x0 x1, (x0 + x1) `mod` 8) (weight_2 self) (weight_2 other))
        (zip_with (λ x0 x1, (x0 + x1) `mod` 8) (weight_3 self) (weight_3 other))).

(** [__mul__] when [other] is an [int] (also [other * self], through
    [__rmul__]). *)
Definition __mul__int (self : t) (other : Z) : res t :=
  result ← __init__ (n_vars self);
  Ok (mk (n_vars result) (nc2 result) (nc3 result)
        ((weight_0 self * other) `mod` 8)
        ((λ x, (x * other) `mod` 8) <$> weight_1 self)
        ((λ x, (x * other) `mod` 8) <$> weight_2 self)
        ((λ x, (x * other) `mod` 8) <$> weight_3 self)).

(** [__mul__] when [other] is a [SpecialPolynomial]. *)
Definition __mul__ (self other : t) : res t :=
  result ← __init__ (n_vars self);
  assert (bool_decide (n_vars self = n_vars other)) "different n_vars!";;
  res_fold
    (λ result term,
       value ← get_term other term;
       if bool_decide (value ≠ 0) then
         temp ← mul_monomial self term;
         temp ← __mul__int temp value;
         __add__ result temp
       else Ok result)
    (all_terms (n_vars self)) result.

(** [evaluate] at a vector of polynomials (the mode that composition
    uses). *)
Definition evaluate (self : t) (xval : list t) : res t :=
  assert (bool_decide (Z.of_nat (length xval) = n_vars self))
         "wrong number of variables!";;
  assert (forallb (λ i, bool_decide (n_vars i = n_vars self)) xval)
         "incompatible polynomials!";;
  result ← __init__ (n_vars self);
  start ← __init__ (n_vars self);
  let start := set_weight_0 1 start in
  res_fold
    (λ result term,
       value ← get_term self term;
       if bool_decide (value ≠ 0) then
         factors ← res_map (getitem xval) term;
         newterm ← res_fold __mul__ factors start;
         scaled ← __mul__int newterm value;
         __add__ result scaled
       else Ok result)
    (all_terms (n_vars self)) result.

(** [evaluate] at a vector of integers: the value of the polynomial, an
    element of Z_8.  The entries of the vector are taken modulo 2, and
    [reduce(mul, [xval[j] for j in term], 1)] is the product of the
    entries that the term selects. *)
Definition evaluate_int (self : t) (xval : list Z) : res Z :=
  assert (bool_decide (Z.of_nat (length xval) = n_vars self))
         "wrong number of variables!";;
  let xval := (λ x, x `mod` 2) <$> xval in
  result ← res_fold
    (λ result term,
       value ← get_term self term;
       if bool_decide (value ≠ 0) then
         factors ← res_map (getitem xval) term;
         let newterm := foldl Z.mul 1 factors in
         Ok (result + value * newterm)
       else Ok result)
    (all_terms (n_vars self)) 0;
  Ok (result `mod` 8).

(** [set_pj]: p_J(x) = sum over the non-empty subsets a of J of
    (-2)^(|a|-1) x^a. *)
Definition set_pj (indices : list Z) : M t unit :=
  self ← st_get;
  st_assert (negb (existsb (λ x, bool_decide (x < 0) || bool_decide (n_vars self ≤ x))
                     indices)) "indices out of bounds!";;
  let indices := merge_sort (≤) indices in
  let subsets_2 := combinations 2 indices in
  let subsets_3 := combinations 3 indices in
  st_put (mk (n_vars self) (nc2 self) (nc3 self) 0
             (py_repeat (n_vars self) 0) (py_repeat (nc2 self) 0)
             (py_repeat (nc3 self) 0));;
  st_for indices (λ j, set_term [j] 1);;
  st_for subsets_2 (λ j, set_term j 6);;
  st_for subsets_3 (λ j, set_term j 4).

(** [key]: [str] of the tuple of the four weight tuples. *)
Definition key (self : t) : string :=
  py_str_tuple [py_str_int (weight_0 self);
                py_str_tuple (py_str_int <$> weight_1 self);
                py_str_tuple (py_str_int <$> weight_2 self);
                py_str_tuple (py_str_int <$> weight_3 self)].

End SpecialPolynomial.

(** ** [class CNOTDihedral] *)

Module CNOTDihedral.

Record t : Type := mk {
  num_qubits : Z;
  poly : SpecialPolynomial.t;
  linear : list (list Z);
  shift : list Z
}.

Definition set_poly (p : SpecialPolynomial.t) (e : t) : t :=
  mk (num_qubits e) p (linear e) (shift e).
Definition set_linear (l : list (list Z)) (e : t) : t :=
  mk (num_qubits e) (poly e) l (shift e).
Definition set_shift (s : list Z) (e : t) : t :=
  mk (num_qubits e) (poly e) (linear e) s.

(** [int(r == c)] *)
Definition int_eq (r c : Z) : Z := if bool_decide (r = c) then 1 else 0.

(** [CNOTDihedral(num_qubits)]: the identity element. *)
Definition __init__ (n : Z) : res t :=
  p ← SpecialPolynomial.__init__ n;
  Ok (mk n p
        ((λ r, (λ c, int_eq r c) <$> py_range n) <$> py_range n)
        (py_repeat n 0)).

(** [m[r][c]] and [v[r]] for operands that are n x n and of length n,
    which is what the class keeps them: no index is then out of range.
    Outside the operand the cell reads 0. *)
Definition cell (m : list (list Z)) (r c : Z) : Z :=
  default 0 (row ← m !! Z.to_nat r; row !! Z.to_nat c).
Definition item (v : list Z) (r : Z) : Z := default 0 (v !! Z.to_nat r).

(** [_z2matmul]: each cell [prod[i][j]] starts at 0 and is updated once
    for every [k] in [range(num_qubits)]. *)
Definition _z2matmul (n : Z) (left right : list (list Z)) : list (list Z) :=
  (λ i, (λ j,
     foldl (λ acc k, (acc + cell left i k * cell right k j) `mod` 2)
           0 (py_range n)) <$> py_range n) <$> py_range n.

(** [_z2matvecmul] *)
Definition _z2matvecmul (n : Z) (mat : list (list Z)) (vec : list Z) : list Z :=
  (λ i,
     foldl (λ acc j, (acc + cell mat i j * item vec j) `mod` 2)
           0 (py_range n)) <$> py_range n.

(** The substituted variable that [__mul__] and [__rmul__] build for
    row [i]: p_J on the support of the row, negated and incremented
    when the shift bit is 1. *)
Definition new_var (n : Z) (row : list Z) (shift_i : Z) : res SpecialPolynomial.t :=
  let support := support_of row in
  poly ← SpecialPolynomial.__init__ n;
  poly ← run_on (SpecialPolynomial.set_pj support) poly;
  if bool_decide (shift_i = 1) then
    poly ← SpecialPolynomial.__mul__int poly (-1);
    Ok (SpecialPolynomial.set_weight_0
          ((SpecialPolynomial.weight_0 poly + 1) `mod` 8) poly)
  else Ok poly.

(** [self * other] *)
Definition __mul__ (self other : t) : res t :=
  assert (bool_decide (num_qubits self = num_qubits other)) "not same num_qubits!";;
  let n := num_qubits self in
  result ← __init__ n;
  let result := set_shift
    (zip_with (λ x0 x1, (x0 + x1) `mod` 2)
       (_z2matvecmul n (linear self) (shift other)) (shift self)) result in
  let result := set_linear (_z2matmul n (linear self) (linear other)) result in
  new_vars ← res_map (λ i, row ← getitem (linear other) i;
                            s ← getitem (shift other) i;
                            new_var n row s) (py_range n);
  p ← SpecialPolynomial.evaluate (poly self) new_vars;
  p' ← SpecialPolynomial.__add__ (poly other) p;
  Ok (set_poly p' result).

(** [other * self] *)
Definition __rmul__ (self other : t) : res t :=
  assert (bool_decide (num_qubits self = num_qubits other)) "not same num_qubits!";;
  let n := num_qubits self in
  result ← __init__ n;
  let result := set_shift
    (zip_with (λ x0 x1, (x0 + x1) `mod` 2)
       (_z2matvecmul n (linear other) (shift self)) (shift other)) result in
  let result := set_linear (_z2matmul n (linear other) (linear self)) result in
  new_vars ← res_map (λ i, row ← getitem (linear self) i;
                            s ← getitem (shift other) i;
                            new_var n row s) (py_range n);
  p ← SpecialPolynomial.evaluate (poly other) new_vars;
  p' ← SpecialPolynomial.__add__ (poly self) p;
  Ok (set_poly p' result).

(** [key] *)
Definition key (self : t) : string :=
  py_str_tuple [py_repr_str (SpecialPolynomial.key (poly self));
                py_str_tuple ((λ row, py_str_tuple (py_str_int <$> row)) <$> linear self);
                py_str_tuple (py_str_int <$> shift self)].

(** [__eq__] *)
Definition __eq__ (self x : t) : bool := bool_decide (key self = key x).

(** A method of [self.poly] called from a method of the element. *)
Definition on_poly {A} (c : M SpecialPolynomial.t A) : M t A :=
  λ e, let '(r, p) := c (poly e) in (r, set_poly p e).

(** [cnot(i, j)] *)
Definition cnot (i j : Z) : M t unit :=
  self ← st_get;
  st_assert (bool_decide (0 ≤ i)) "i negative!";;
  st_assert (bool_decide (0 ≤ j)) "j negative!";;
  st_assert (bool_decide (i < num_qubits self)) "i too big!";;
  st_assert (bool_decide (j < num_qubits self)) "j too big!";;
  st_assert (bool_decide (i ≠ j)) "i == j!";;
  let row := (λ k, (cell (linear self) i k + cell (linear self) j k) `mod` 2)
               <$> py_range (num_qubits self) in
  st_modify (set_linear (<[Z.to_nat j := row]> (linear self)));;
  st_modify (set_shift (<[Z.to_nat j := (item (shift self) i + item (shift self) j) `mod` 2]>
                          (shift self))).

(** [phase(k, i)] *)
Definition phase (k i : Z) : M t unit :=
  self ← st_get;
  st_assert (bool_decide (0 ≤ i)) "i negative!";;
  st_assert (bool_decide (i < num_qubits self)) "i too big!";;
  let k := if bool_decide (item (shift self) i = 1) then (7 * k) `mod` 8 else k in
  let support := support_of (default [] (linear self !! Z.to_nat i)) in
  let subsets_2 := combinations 2 support in
  let subsets_3 := combinations 3 support in
  st_for support (λ j,
    value ← on_poly (st_read (λ p, SpecialPolynomial.get_term p [j]));
    on_poly (SpecialPolynomial.set_term [j] ((value + k) `mod` 8)));;
  st_for subsets_2 (λ j,
    value ← on_poly (st_read (λ p, SpecialPolynomial.get_term p j));
    on_poly (SpecialPolynomial.set_term j ((value + -2 * k) `mod` 8)));;
  st_for subsets_3 (λ j,
    value ← on_poly (st_read (λ p, SpecialPolynomial.get_term p j));
    on_poly (SpecialPolynomial.set_term j ((value + 4 * k) `mod` 8))).

(** [flip(i)] *)
Definition flip (i : Z) : M t unit :=
  self ← st_get;
  st_assert (bool_decide (0 ≤ i)) "i negative!";;
  st_assert (bool_decide (i < num_qubits self)) "i too big!";;
  st_modify (set_shift (<[Z.to_nat i := (item (shift self) i + 1) `mod` 2]> (shift self))).

End CNOTDihedral.

(** ** Circuits

    The part of Qiskit's [QuantumCircuit] that the transcriber uses: a
    named list of instructions, each with a name, parameters and the
    indices of the qubits it acts on.  The parameter of a [u1] gate is an
    angle; it is kept here in units of pi/4, so that the angle
    [l * np.pi / 4] is stored as [l] and [int(4 * theta / np.pi)] is the
    truncation of the stored value.  The values [l] that the synthesis
    forms are integers or half-integers (Python floats, exact), hence
    rationals. *)

Record Instruction : Type := mk_instr {
  name : string;
  params : list Qc;
  qregs : list Z
}.

Record QuantumCircuit : Type := mk_circuit {
  circ_name : string;
  circ_num_qubits : Z;
  definition : list Instruction
}.

Definition append_instr (i : Instruction) : M QuantumCircuit unit :=
  st_modify (λ c, mk_circuit (circ_name c) (circ_num_qubits c) (definition c ++ [i])).

(** [circuit.u1(theta, q)], [circuit.x(q)], [circuit.cx(c, t)],
    [circuit.id(q)] *)
Definition u1 (theta : Qc) (q : Z) : M QuantumCircuit unit :=
  append_instr (mk_instr "u1" [theta] [q]).
Definition x (q : Z) : M QuantumCircuit unit := append_instr (mk_instr "x" [] [q]).
Definition cx (c t : Z) : M QuantumCircuit unit := append_instr (mk_instr "cx" [] [c; t]).
Definition id (q : Z) : M QuantumCircuit unit := append_instr (mk_instr "id" [] [q]).

(** An integer used as a float. *)
Definition fl (z : Z) : Qc := Qc_of_Z z.

(** [int(x)] of a float: truncation towards zero. *)
Definition int_of (x : Qc) : Z := Z.quot (Qnum x) (Z.pos (Qden x)).

(** [x % d] of floats, for a positive [d]. *)
Definition float_mod (x d : Qc) : Qc :=
  (x - d * fl (Qfloor (x / d)))%Qc.

Definition when {S} (cond : bool) (c : M S unit) : M S unit :=
  if cond then c else st_ret tt.

Definition lift {S A} (r : res A) : M S A := st_read (λ _, r).

(** The body of the loop of [append_circuit] for one instruction;
    [gate_name] is the name of the whole circuit, which the error message
    quotes. *)
Definition apply_instruction (gate_name : string) (qargs : list Z) (instr : Instruction)
  : M CNOTDihedral.t unit :=
  new_qubits ← lift (res_map (getitem qargs) (qregs instr));
  if bool_decide (name instr = "x") then
    q ← lift (getitem new_qubits 0);
    CNOTDihedral.flip q
  else if bool_decide (name instr = "u1") then
    theta ← lift (getitem (params instr) 0);
    q ← lift (getitem new_qubits 0);
    CNOTDihedral.phase (int_of theta) q
  else if bool_decide (name instr = "cx") then
    q0 ← lift (getitem new_qubits 0);
    q1 ← lift (getitem new_qubits 1);
    CNOTDihedral.cnot q0 q1
  else if bool_decide (name instr = "id") then
    st_ret tt
  else
    st_raise (QiskitError ("Not a CNOT-Dihedral gate: " +:+ gate_name)).

(** [append_circuit(elem, circuit, qargs)] *)
Definition append_circuit (circuit : QuantumCircuit) (qargs : option (list Z))
  : M CNOTDihedral.t unit :=
  elem ← st_get;
  let qargs := match qargs with
               | None => py_range (CNOTDihedral.num_qubits elem)
               | Some q => q
               end in
  st_for (definition circuit) (apply_instruction (circ_name circuit) qargs).

(** The four lines that every class of the synthesis emits first. *)
Definition emit_local (l0 : Qc) (k0 : Z) (l1 : Qc) (k1 : Z) : M QuantumCircuit unit :=
  when (bool_decide (fl 0 < l0)%Qc) (u1 l0 0);;
  when (bool_decide (k0 = 1)) (x 0);;
  when (bool_decide (fl 0 < l1)%Qc) (u1 l1 1);;
  when (bool_decide (k1 = 1)) (x 1).

(** The values [m], [l0], [l1] of the five classes with a CNOT. *)
Definition cx_correction (k0 k1 : Z) (weight_1 weight_2 : list Z) : res (Qc * Qc * Qc) :=
  if bool_decide (k0 = k1) then
    w2 ← getitem weight_2 0;
    let m := float_mod (fl (8 - w2) / fl 2)%Qc (fl 4) in
    w10 ← getitem weight_1 0;
    let l0 := float_mod (fl w10 - m)%Qc (fl 8) in
    w11 ← getitem weight_1 1;
    let l1 := float_mod (fl w11 - m)%Qc (fl 8) in
    Ok (m, l0, l1)
  else
    w2 ← getitem weight_2 0;
    let m := float_mod (fl w2 / fl 2)%Qc (fl 4) in
    w10 ← getitem weight_1 0;
    let l0 := float_mod (fl w10 + m)%Qc (fl 8) in
    w11 ← getitem weight_1 1;
    let l1 := float_mod (fl w11 + m)%Qc (fl 8) in
    Ok (m, l0, l1).

(** [decompose_CNOTDihedral(elem)] *)
Definition decompose_1 (elem : CNOTDihedral.t) : M QuantumCircuit unit :=
  let p := CNOTDihedral.poly elem in
  lift (assert (bool_decide (SpecialPolynomial.weight_0 p = 0)) "");;
  lift (assert (bool_decide (CNOTDihedral.linear elem = [[1]])) "");;
  l0 ← lift (getitem (SpecialPolynomial.weight_1 p) 0);
  k0 ← lift (getitem (CNOTDihedral.shift elem) 0);
  when (bool_decide (0 < l0)) (u1 (fl l0) 0);;
  when (bool_decide (k0 = 1)) (x 0);;
  when (bool_decide (l0 = 0) && bool_decide (k0 = 0)) (id 0).

Definition decompose_2 (elem : CNOTDihedral.t) : M QuantumCircuit unit :=
  let p := CNOTDihedral.poly elem in
  lift (assert (bool_decide (SpecialPolynomial.weight_0 p = 0)) "");;
  let weight_1 := SpecialPolynomial.weight_1 p in
  let weight_2 := SpecialPolynomial.weight_2 p in
  let linear := CNOTDihedral.linear elem in
  let shift := CNOTDihedral.shift elem in
  (* CS subgroup *)
  when (bool_decide (linear = [[1; 0]; [0; 1]]))
    (match shift with
     | [k0; k1] =>
         (* Dihedral class *)
         when (bool_decide (weight_2 = [0]))
           (match weight_1 with
            | [l0; l1] =>
                when (bool_decide (0 < l0)) (u1 (fl l0) 0);;
                when (bool_decide (k0 = 1)) (x 0);;
                when (bool_decide (0 < l1)) (u1 (fl l1) 1);;
                when (bool_decide (k1 = 1)) (x 1);;
                when (bool_decide (l0 = 0) && bool_decide (l1 = 0) &&
                      bool_decide (k0 = 0) && bool_decide (k1 = 0))
                  (id 0;; id 1)
            | _ => st_raise (ValueError "unpack")
            end);;
         (* CS-like class *)
         when ((bool_decide (weight_2 = [2]) && bool_decide (k0 = k1)) ||
               (bool_decide (weight_2 = [6]) && bool_decide (k0 ≠ k1)))
           (w10 ← lift (getitem weight_1 0);
            let l0 := (w10 - 2 * k1 - 4 * k0 * k1) `mod` 8 in
            w11 ← lift (getitem weight_1 1);
            let l1 := (w11 - 2 * k0 - 4 * k0 * k1) `mod` 8 in
            emit_local (fl l0) k0 (fl l1) k1;;
            u1 (fl 1) 0;; u1 (fl 1) 1;; cx 0 1;; u1 (fl 7) 1;; cx 0 1);;
         (* CSdg-like class *)
         when ((bool_decide (weight_2 = [6]) && bool_decide (k0 = k1)) ||
               (bool_decide (weight_2 = [2]) && bool_decide (k0 ≠ k1)))
           (w10 ← lift (getitem weight_1 0);
            let l0 := (w10 - 6 * k1 - 4 * k0 * k1) `mod` 8 in
            w11 ← lift (getitem weight_1 1);
            let l1 := (w11 - 6 * k0 - 4 * k0 * k1) `mod` 8 in
            emit_local (fl l0) k0 (fl l1) k1;;
            u1 (fl 7) 0;; u1 (fl 7) 1;; cx 0 1;; u1 (fl 1) 1;; cx 0 1);;
         (* CZ-like class *)
         when (bool_decide (weight_2 = [4]))
           (w10 ← lift (getitem weight_1 0);
            let l0 := (w10 - 4 * k1) `mod` 8 in
            w11 ← lift (getitem weight_1 1);
            let l1 := (w11 - 4 * k0) `mod` 8 in
            emit_local (fl l0) k0 (fl l1) k1;;
            u1 (fl 7) 1;; u1 (fl 7) 0;; cx 1 0;; u1 (fl 2) 0;; cx 1 0;; u1 (fl 7) 1;; u1 (fl 7) 0)
     | _ => st_raise (ValueError "unpack")
     end);;
  (* CX01-like class *)
  when (bool_decide (linear = [[1; 0]; [1; 1]]))
    (k0 ← lift (getitem shift 0);
     s1 ← lift (getitem shift 1);
     let k1 := (s1 + k0) `mod` 2 in
     '(m, l0, l1) ← lift (cx_correction k0 k1 weight_1 weight_2);
     emit_local l0 k0 l1 k1;;
     cx 0 1;;
     when (bool_decide (fl 0 < m)%Qc) (u1 m 1));;
  (* CX10-like class *)
  when (bool_decide (linear = [[1; 1]; [0; 1]]))
    (k1 ← lift (getitem shift 1);
     s0 ← lift (getitem shift 0);
     let k0 := (s0 + k1) `mod` 2 in
     '(m, l0, l1) ← lift (cx_correction k0 k1 weight_1 weight_2);
     emit_local l0 k0 l1 k1;;
     cx 1 0;;
     when (bool_decide (fl 0 < m)%Qc) (u1 m 0));;
  (* CX01*CX10-like class *)
  when (bool_decide (linear = [[0; 1]; [1; 1]]))
    (k1 ← lift (getitem shift 0);
     s1 ← lift (getitem shift 1);
     let k0 := (s1 + k1) `mod` 2 in
     '(m, l0, l1) ← lift (cx_correction k0 k1 weight_1 weight_2);
     emit_local l0 k0 l1 k1;;
     cx 0 1;; cx 1 0;;
     when (bool_decide (fl 0 < m)%Qc) (u1 m 1));;
  (* CX10*CX01-like class *)
  when (bool_decide (linear = [[1; 1]; [1; 0]]))
    (k0 ← lift (getitem shift 1);
     s0 ← lift (getitem shift 0);
     let k1 := (s0 + k0) `mod` 2 in
     '(m, l0, l1) ← lift (cx_correction k0 k1 weight_1 weight_2);
     emit_local l0 k0 l1 k1;;
     cx 1 0;; cx 0 1;;
     when (bool_decide (fl 0 < m)%Qc) (u1 m 0));;
  (* CX01*CX10*CX01-like class *)
  when (bool_decide (linear = [[0; 1]; [1; 0]]))
    (k0 ← lift (getitem shift 1);
     k1 ← lift (getitem shift 0);
     '(m, l0, l1) ← lift (cx_correction k0 k1 weight_1 weight_2);
     emit_local l0 k0 l1 k1;;
     cx 0 1;; cx 1 0;;
     when (bool_decide (fl 0 < m)%Qc) (u1 m 1);;
     cx 0 1).

Definition decompose_CNOTDihedral (elem : CNOTDihedral.t) : res QuantumCircuit :=
  let circuit := mk_circuit "circuit" (CNOTDihedral.num_qubits elem) [] in
  assert (bool_decide (CNOTDihedral.num_qubits elem < 3))
    "cannot decompose a CNOT-Dihedral element with more than 2 qubits";;
  if bool_decide (CNOTDihedral.num_qubits elem = 1)
  then run_on (decompose_1 elem) circuit
  else run_on (decompose_2 elem) circuit.

(** ** The zero-CNOT dictionary *)

(** The tuples [("u1", tpower, j)], [("x", j)] and [("cx", i, j)] of the
    gate lists kept in the dictionaries. *)
Inductive gate_tuple : Type :=
  | Tu1 (tpower j : Z)
  | Tx (j : Z)
  | Tcx (i j : Z).

(** The body of the loop [for j in range(num_qubits)] of [make_dict_0],
    on the local variables [elem], [circ] and [num].  The two quotients
    [(num - num % 2) / 2] and [(num - num % 16) / 16] are floats: from
    2^53 on they are rounded, so that [tpower] and the next [num] are
    then not the digits of [num]. *)
Definition make_dict_0_step (st : CNOTDihedral.t * list gate_tuple * Z) (j : Z)
  : res (CNOTDihedral.t * list gate_tuple * Z) :=
  let '(elem, circ, num) := st in
  let xpower := num `mod` 2 in
  half ← truediv_multiple (num - num `mod` 2) 2;
  let tpower := half `mod` 8 in
  '(elem, circ) ←
    (if bool_decide (0 < tpower) then
       elem ← run_on (CNOTDihedral.phase tpower j) elem;
       Ok (elem, circ ++ [Tu1 tpower j])
     else Ok (elem, circ));
  '(elem, circ) ←
    (if bool_decide (xpower = 1) then
       elem ← run_on (CNOTDihedral.flip j) elem;
       Ok (elem, circ ++ [Tx j])
     else Ok (elem, circ));
  num ← truediv_multiple (num - num `mod` 16) 16;
  Ok (elem, circ, num).

(** The element and the gate list that [make_dict_0] builds for [i]. *)
Definition make_dict_0_entry (num_qubits i : Z) : res (CNOTDihedral.t * list gate_tuple) :=
  elem ← CNOTDihedral.__init__ num_qubits;
  '(elem, circ, _) ← res_fold make_dict_0_step (py_range num_qubits) (elem, [], i);
  Ok (elem, circ).

(** [make_dict_0(num_qubits)] *)
Definition make_dict_0 (num_qubits : Z)
  : res (gmap string (CNOTDihedral.t * list gate_tuple)) :=
  assert (bool_decide (1 ≤ num_qubits)) "num_qubits too small!";;
  res_fold
    (λ obj i,
       '(elem, circ) ← make_dict_0_entry num_qubits i;
       Ok (<[CNOTDihedral.key elem := (elem, circ)]> obj))
    (py_range (16 ^ num_qubits)) ∅.

(** ** The next CNOT dictionary *)

(** A Python dictionary as the list of its items in insertion order:
    [make_dict_next] iterates over the values of the last dictionary and
    keeps the first circuit it finds for a key, so the order matters. *)
Definition dict (V : Type) : Type := list (string * V).
Definition dict_has {V} (k : string) (d : dict V) : bool := bool_decide (k ∈ d.*1).
Definition dict_values {V} (d : dict V) : list V := d.*2.

(** [(i, j, tpower)] in the order of the three inner loops of
    [make_dict_next]. *)
Definition next_gates (num_qubits : Z) : list (Z * Z * Z) :=
  i ← py_range num_qubits; j ← py_range num_qubits;
  if bool_decide (i ≠ j) then tpower ← py_range 4; [(i, j, tpower)] else [].

(** [new_elem] and [new_circ] of one pass of the innermost loop. *)
Definition next_entry (entry : CNOTDihedral.t * list gate_tuple) (g : Z * Z * Z)
  : res (CNOTDihedral.t * list gate_tuple) :=
  let '(elem, circ) := entry in
  let '(i, j, tpower) := g in
  new_elem ← run_on (CNOTDihedral.cnot i j) elem;
  let new_circ := circ ++ [Tcx i j] in
  if bool_decide (0 < tpower) then
    new_elem ← run_on (CNOTDihedral.phase tpower j) new_elem;
    Ok (new_elem, new_circ ++ [Tu1 tpower j])
  else Ok (new_elem, new_circ).

(** One pass of the innermost loop on the dictionary [obj]. *)
Definition make_dict_next_step (dicts_prior : list (dict (CNOTDihedral.t * list gate_tuple)))
    (entry : CNOTDihedral.t * list gate_tuple)
    (obj : dict (CNOTDihedral.t * list gate_tuple)) (g : Z * Z * Z)
  : res (dict (CNOTDihedral.t * list gate_tuple)) :=
  '(new_elem, new_circ) ← next_entry entry g;
  if negb (existsb (dict_has (CNOTDihedral.key new_elem)) dicts_prior) &&
     negb (dict_has (CNOTDihedral.key new_elem) obj)
  then Ok (obj ++ [(CNOTDihedral.key new_elem, (new_elem, new_circ))])
  else Ok obj.

(** [make_dict_next(num_qubits, dicts_prior)] *)
Definition make_dict_next (num_qubits : Z)
    (dicts_prior : list (dict (CNOTDihedral.t * list gate_tuple)))
  : res (dict (CNOTDihedral.t * list gate_tuple)) :=
  assert (bool_decide (1 ≤ num_qubits)) "num_qubits too small!";;
  last ← getitem dicts_prior (-1);
  res_fold
    (λ obj entry,
       res_fold (make_dict_next_step dicts_prior entry) (next_gates num_qubits) obj)
    (dict_values last) [].

(** * Notions used to state the properties *)

(** ** Valid states *)

(** A term index list: at most three strictly increasing indices in
    [[0, n)]. *)
Definition valid_term (n : Z) (indices : list Z) : Prop :=
  (length indices ≤ 3)%nat ∧
  Forall (λ x, 0 ≤ x < n) indices ∧
  Forall (λ ab, ab.1 < ab.2) (zip indices (tail indices)).

Definition coefficients (w : list Z) : Prop := Forall (λ c, 0 ≤ c < 8) w.
Definition bits (w : list Z) : Prop := Forall (λ c, c = 0 ∨ c = 1) w.

(** A polynomial on [n] variables as the data model has it. *)
Record wf_poly (n : Z) (p : SpecialPolynomial.t) : Prop := {
  wf_n_pos : 1 ≤ n;
  wf_n_vars : SpecialPolynomial.n_vars p = n;
  wf_nc2 : SpecialPolynomial.nc2 p = int_div (n * (n - 1)) 2;
  wf_nc3 : SpecialPolynomial.nc3 p = int_div (n * (n - 1) * (n - 2)) 6;
  wf_weight_0 : 0 ≤ SpecialPolynomial.weight_0 p < 8;
  wf_len_1 : Z.of_nat (length (SpecialPolynomial.weight_1 p)) = n;
  wf_len_2 : Z.of_nat (length (SpecialPolynomial.weight_2 p)) = SpecialPolynomial.nc2 p;
  wf_len_3 : Z.of_nat (length (SpecialPolynomial.weight_3 p)) = SpecialPolynomial.nc3 p;
  wf_weight_1 : coefficients (SpecialPolynomial.weight_1 p);
  wf_weight_2 : coefficients (SpecialPolynomial.weight_2 p);
  wf_weight_3 : coefficients (SpecialPolynomial.weight_3 p)
}.

(** An n x n matrix over Z_2 and a length-n vector over Z_2. *)
Definition z2_matrix (n : Z) (m : list (list Z)) : Prop :=
  Z.of_nat (length m) = n ∧
  Forall (λ row, Z.of_nat (length row) = n ∧ bits row) m.
Definition z2_vector (n : Z) (v : list Z) : Prop :=
  Z.of_nat (length v) = n ∧ bits v.

(** The shape of a group element on [n] qubits. *)
Record wf_elem (n : Z) (e : CNOTDihedral.t) : Prop := {
  wf_num_qubits : CNOTDihedral.num_qubits e = n;
  wf_poly_of : wf_poly n (CNOTDihedral.poly e);
  wf_linear : z2_matrix n (CNOTDihedral.linear e);
  wf_shift : z2_vector n (CNOTDihedral.shift e)
}.

(** ** Linear algebra over Z_2 *)

(** The sum of [f 0], ..., [f (m - 1)]. *)
Fixpoint nsum (f : nat → Z) (m : nat) : Z :=
  match m with
  | O => 0
  | S m' => nsum f m' + f m'
  end.
Definition zsum (f : Z → Z) (n : Z) : Z := nsum (λ k, f (Z.of_nat k)) (Z.to_nat n).

(** The product of two n x n matrices over Z_2 and of a matrix and a
    vector, entry by entry. *)
Definition z2_matrix_product (n : Z) (a b : list (list Z)) : list (list Z) :=
  (λ i, (λ j, zsum (λ k, CNOTDihedral.cell a i k * CNOTDihedral.cell b k j) n `mod` 2)
          <$> py_range n) <$> py_range n.
Definition z2_matrix_vector (n : Z) (a : list (list Z)) (v : list Z) : list Z :=
  (λ i, zsum (λ k, CNOTDihedral.cell a i k * CNOTDihedral.item v k) n `mod` 2)
    <$> py_range n.

(** The identity matrix over Z_2, by Kronecker's delta: 1 on the
    diagonal and 0 elsewhere. *)
Definition kronecker (r c : Z) : Z := if bool_decide (r = c) then 1 else 0.
Definition z2_identity (n : Z) : list (list Z) :=
  (λ r, (λ c, kronecker r c) <$> py_range n) <$> py_range n.

(** Invertibility over Z_2: an n x n matrix over Z_2 with a two-sided
    inverse. *)
Definition z2_invertible (n : Z) (m : list (list Z)) : Prop :=
  z2_matrix n m ∧
  ∃ inv, z2_matrix n inv ∧
         z2_matrix_product n m inv = z2_identity n ∧
         z2_matrix_product n inv m = z2_identity n.

(** The row operation of [cnot(i, j)] on a matrix. *)
Definition cnot_rows (n i j : Z) (m : list (list Z)) : list (list Z) :=
  <[Z.to_nat j := (λ k, (CNOTDihedral.cell m i k + CNOTDihedral.cell m j k) `mod` 2)
                    <$> py_range n]> m.

(** ** Group elements *)

(** The elements that the three generators build from the identity. *)
Inductive generated (n : Z) : CNOTDihedral.t → Prop :=
  | generated_identity e :
      CNOTDihedral.__init__ n = Ok e → generated n e
  | generated_cnot e i j e' :
      generated n e → CNOTDihedral.cnot i j e = (Ok tt, e') → generated n e'
  | generated_phase e k i e' :
      generated n e → CNOTDihedral.phase k i e = (Ok tt, e') → generated n e'
  | generated_flip e i e' :
      generated n e → CNOTDihedral.flip i e = (Ok tt, e') → generated n e'.

(** Structural equality of two elements: the same polynomial, linear
    part and shift. *)
Definition structurally_equal (a b : CNOTDihedral.t) : Prop :=
  CNOTDihedral.poly a = CNOTDihedral.poly b ∧
  CNOTDihedral.linear a = CNOTDihedral.linear b ∧
  CNOTDihedral.shift a = CNOTDihedral.shift b.

(** ** The composition law as the specification words it *)

(** p_J for an index set [J], written down coefficient by coefficient:
    1 on the variables of [J], 6 on the pairs and 4 on the triples. *)
Definition special_form (n : Z) (J : list Z) : SpecialPolynomial.t :=
  let coeff (c : Z) (term : list Z) : Z :=
    if forallb (λ x, bool_decide (x ∈ J)) term then c else 0 in
  SpecialPolynomial.mk n (int_div (n * (n - 1)) 2) (int_div (n * (n - 1) * (n - 2)) 6)
    0
    (coeff 1 <$> SpecialPolynomial.terms1 n)
    (coeff 6 <$> SpecialPolynomial.terms2 n)
    (coeff 4 <$> SpecialPolynomial.terms3 n).

(** The substituted variable of a row: p_J of its support, negated and
    with 1 added to the constant term when the shift bit is 1. *)
Definition substituted_var (n : Z) (row : list Z) (shift_i : Z) : SpecialPolynomial.t :=
  let v := special_form n (support_of row) in
  if bool_decide (shift_i = 1) then
    SpecialPolynomial.mk n (SpecialPolynomial.nc2 v) (SpecialPolynomial.nc3 v)
      ((- SpecialPolynomial.weight_0 v + 1) `mod` 8)
      ((λ c, (- c) `mod` 8) <$> SpecialPolynomial.weight_1 v)
      ((λ c, (- c) `mod` 8) <$> SpecialPolynomial.weight_2 v)
      ((λ c, (- c) `mod` 8) <$> SpecialPolynomial.weight_3 v)
  else v.

(** The composition a o b, with the supports taken from the rows of
    [support_rows]. *)
Definition composition_with (support_rows : list (list Z)) (a b : CNOTDihedral.t)
  : res CNOTDihedral.t :=
  let n := CNOTDihedral.num_qubits a in
  let vs := (λ i, substituted_var n (default [] (support_rows !! Z.to_nat i))
                    (CNOTDihedral.item (CNOTDihedral.shift b) i)) <$> py_range n in
  pv ← SpecialPolynomial.evaluate (CNOTDihedral.poly a) vs;
  p ← SpecialPolynomial.__add__ (CNOTDihedral.poly b) pv;
  Ok (CNOTDihedral.mk n p
        (z2_matrix_product n (CNOTDihedral.linear a) (CNOTDihedral.linear b))
        (zip_with Z.lxor
           (z2_matrix_vector n (CNOTDihedral.linear a) (CNOTDihedral.shift b))
           (CNOTDihedral.shift a))).

(** As the specification has it: the support of row i of [a.linear]. *)
Definition composition_as_specified (a b : CNOTDihedral.t) : res CNOTDihedral.t :=
  composition_with (CNOTDihedral.linear a) a b.

(** With the support of row i of [b.linear]. *)
Definition composition_by_rows_of_b (a b : CNOTDihedral.t) : res CNOTDihedral.t :=
  composition_with (CNOTDihedral.linear b) a b.

(** [e'] has the linear part, the shift and the qubit count of [e]. *)
Definition same_affine_part (e e' : CNOTDihedral.t) : Prop :=
  CNOTDihedral.linear e' = CNOTDihedral.linear e ∧
  CNOTDihedral.shift e' = CNOTDihedral.shift e ∧
  CNOTDihedral.num_qubits e' = CNOTDihedral.num_qubits e.

(** Two lists of strings whose items have pairwise the same length. *)
Definition same_lengths (xs ys : list string) : Prop :=
  Forall2 (λ x y, String.length x = String.length y) xs ys.

(** The string of one row of the linear part inside the key. *)
Definition row_str (row : list Z) : string := py_str_tuple (py_str_int <$> row).

(** ** The elements on one and two qubits *)

Global Instance SpecialPolynomial_eq_dec : EqDecision SpecialPolynomial.t.
Proof. solve_decision. Defined.
Global Instance CNOTDihedral_eq_dec : EqDecision CNOTDihedral.t.
Proof. solve_decision. Defined.

(** The 16 elements on one qubit and the 6144 elements on two qubits:
    constant term 0, an even quadratic coefficient, one of the six
    invertible 2 x 2 matrices over Z_2. *)
Definition element_1 (a s : Z) : CNOTDihedral.t :=
  CNOTDihedral.mk 1 (SpecialPolynomial.mk 1 0 0 0 [a] [] []) [[1]] [s].
Definition element_2 (a b c : Z) (m : list (list Z)) (s0 s1 : Z) : CNOTDihedral.t :=
  CNOTDihedral.mk 2 (SpecialPolynomial.mk 2 1 0 0 [a; b] [c] []) m [s0; s1].

Definition invertible_2 : list (list (list Z)) :=
  [ [[1; 0]; [0; 1]]; [[1; 0]; [1; 1]]; [[1; 1]; [0; 1]];
    [[0; 1]; [1; 1]]; [[1; 1]; [1; 0]]; [[0; 1]; [1; 0]] ].

Definition elements (n : Z) : list CNOTDihedral.t :=
  if bool_decide (n = 1) then
    a ← py_range 8; s ← [0; 1]; [element_1 a s]
  else if bool_decide (n = 2) then
    a ← py_range 8; b ← py_range 8; c ← [0; 2; 4; 6]; m ← invertible_2;
    s0 ← [0; 1]; s1 ← [0; 1]; [element_2 a b c m s0 s1]
  else [].

Definition is_element (n : Z) (e : CNOTDihedral.t) : bool :=
  match SpecialPolynomial.weight_1 (CNOTDihedral.poly e),
        SpecialPolynomial.weight_2 (CNOTDihedral.poly e),
        CNOTDihedral.shift e with
  | [a], [], [s] =>
      bool_decide (n = 1) && bool_decide (e = element_1 a s) &&
      bool_decide (0 ≤ a < 8) && bool_decide (s ∈ [0; 1])
  | [a; b], [c], [s0; s1] =>
      bool_decide (n = 2) &&
      bool_decide (e = element_2 a b c (CNOTDihedral.linear e) s0 s1) &&
      bool_decide (0 ≤ a < 8) && bool_decide (0 ≤ b < 8) &&
      bool_decide (c ∈ [0; 2; 4; 6]) &&
      bool_decide (CNOTDihedral.linear e ∈ invertible_2) &&
      bool_decide (s0 ∈ [0; 1]) && bool_decide (s1 ∈ [0; 1])
  | _, _, _ => false
  end.

(** What one generator makes of [e]: every CNOT, every phase power below
    8 and every flip. *)
Definition generator_images (n : Z) (e : CNOTDihedral.t) : list CNOTDihedral.t :=
  (i ← py_range n; j ← py_range n;
   if bool_decide (i ≠ j) then [state_after (CNOTDihedral.cnot i j) e] else []) ++
  (k ← py_range 8; i ← py_range n; [state_after (CNOTDihedral.phase k i) e]) ++
  (i ← py_range n; [state_after (CNOTDihedral.flip i) e]).

(** Synthesis followed by transcription on a fresh identity. *)
Definition round_trip (e : CNOTDihedral.t) : res CNOTDihedral.t :=
  circuit ← decompose_CNOTDihedral e;
  fresh ← CNOTDihedral.__init__ (CNOTDihedral.num_qubits e);
  run_on (append_circuit circuit None) fresh.

Definition round_trips (e : CNOTDihedral.t) : bool :=
  match round_trip e with
  | Ok e' => bool_decide (e' = e)
  | Raise _ => false
  end.

(** The round trip as a property of one element. *)
Definition round_trip_holds (e : CNOTDihedral.t) : Prop :=
  ∃ e', round_trip e = Ok e' ∧ CNOTDihedral.key e' = CNOTDihedral.key e.

(** An operation validates before it mutates when every failure leaves
    the object as it was. *)
Definition validates_before_mutating {S A} (op : M S A) : Prop :=
  ∀ s err s', op s = (Raise err, s') → s' = s.

(** [l] is strictly increasing with all its items in [[lo, hi)]. *)
Fixpoint increasing_in (lo hi : Z) (l : list Z) : Prop :=
  match l with
  | [] => True
  | x :: l' => lo ≤ x < hi ∧ increasing_in (x + 1) hi l'
  end.

(** The outcome is not a failed assertion. *)
Definition not_assertion {A} (r : res A) : Prop :=
  ∀ msg, r ≠ Raise (AssertionError msg).

(** The precondition of [cnot] and of [flip]/[phase] that the arguments
    violate first, by the message of its assertion. *)
Definition cnot_violation (n i j : Z) : option string :=
  if bool_decide (i < 0) then Some "i negative!"
  else if bool_decide (j < 0) then Some "j negative!"
  else if bool_decide (n ≤ i) then Some "i too big!"
  else if bool_decide (n ≤ j) then Some "j too big!"
  else if bool_decide (i = j) then Some "i == j!"
  else None.
Definition qubit_violation (n i : Z) : option string :=
  if bool_decide (i < 0) then Some "i negative!"
  else if bool_decide (n ≤ i) then Some "i too big!"
  else None.

(** The check of [get_term] and [set_term] that an index list violates
    first, by the message of its assertion. *)
Definition term_violation (n : Z) (indices : list Z) : option string :=
  if bool_decide (4 ≤ length indices)%nat then Some "no term!"
  else if bool_decide (Exists (λ x, x < 0 ∨ n ≤ x) indices)
       then Some "indices out of bounds!"
  else if bool_decide (Forall (λ ab, ab.1 < ab.2) (zip indices (tail indices)))
       then None
  else Some "indices non-increasing!".

(** A circuit on one qubit: an X gate, then a gate outside the set. *)
Definition x_then_h : QuantumCircuit :=
  mk_circuit "circuit" 1 [mk_instr "x" [] [0]; mk_instr "h" [] [0]].

(** ** The elements without CNOT *)

(** The element with the identity as linear part, linear coefficients
    [w1], no other coefficient, and shift [sh]. *)
Definition diagonal_element (n : Z) (w1 sh : list Z) : CNOTDihedral.t :=
  CNOTDihedral.mk n
    (SpecialPolynomial.mk n (int_div (n * (n - 1)) 2) (int_div (n * (n - 1) * (n - 2)) 6)
       0 w1 (py_repeat (int_div (n * (n - 1)) 2) 0)
       (py_repeat (int_div (n * (n - 1) * (n - 2)) 6) 0))
    (z2_identity n) sh.

(** The phase power and the flip bit that the base-16 digit [q] of [i]
    encodes. *)
Definition tpower_of (i q : Z) : Z := ((i `div` 16 ^ q) `div` 2) `mod` 8.
Definition xpower_of (i q : Z) : Z := (i `div` 16 ^ q) `mod` 2.

(** The element of [make_dict_0] for [i] once the qubits below [m] are
    done. *)
Definition zero_cnot_element (n i m : Z) : CNOTDihedral.t :=
  diagonal_element n
    ((λ q, if bool_decide (q < m) then tpower_of i q else 0) <$> py_range n)
    ((λ q, if bool_decide (q < m) then xpower_of i q else 0) <$> py_range n).

(** ** Terms whose cell exists *)

(** The index list passes the three assertions and its offset falls
    inside the weight array of its degree. *)
Definition term_ok (n : Z) (indices : list Z) : bool :=
  match SpecialPolynomial.check_indices n indices with
  | Ok _ =>
      match indices with
      | [] | [_] => true
      | [i0; i1] =>
          bool_decide (0 ≤ SpecialPolynomial.offset_2 n i0 i1 < int_div (n * (n - 1)) 2)
      | [i0; i1; i2] =>
          bool_decide (0 ≤ SpecialPolynomial.offset_3 n i0 i1 i2
                       < int_div (n * (n - 1) * (n - 2)) 6)
      | _ => false
      end
  | Raise _ => false
  end.

(** Every term of the term lists has its cell, and so has the union of
    any two of them (the products that [mul_monomial] forms). *)
Definition terms_closed (n : Z) : bool :=
  forallb (λ t, term_ok n t &&
                forallb (λ u, term_ok n (set_union t u)) (SpecialPolynomial.all_terms n))
    (SpecialPolynomial.all_terms n).

(** ** Index sets and bit vectors *)

(** The sublists of a list, in the order of the list. *)
Fixpoint sublists {A} (l : list A) : list (list A) :=
  match l with
  | [] => [[]]
  | x :: l' => ((x ::.) <$> sublists l') ++ sublists l'
  end.

(** The vectors of [n] bits. *)
Fixpoint bit_vectors (n : nat) : list (list Z) :=
  match n with
  | O => [[]]
  | S n' => b ← [0; 1]; v ← bit_vectors n'; [b :: v]
  end.

(** The sum modulo 2 of the entries of [x] at the indices of [J]. *)
Definition xor_at (x : list Z) (J : list Z) : Z :=
  foldr (λ j acc, Z.lxor (CNOTDihedral.item x j) acc) 0 J.

(** ** The value of a polynomial at a vector *)

(** The coefficient that [get_term] returns (0 where it raises). *)
Definition coefficient (p : SpecialPolynomial.t) (t : list Z) : Z :=
  match SpecialPolynomial.get_term p t with
  | Ok v => v
  | Raise _ => 0
  end.

(** The product of the entries of [x] at the indices of [t]. *)
Definition monomial (x : list Z) (t : list Z) : Z :=
  foldl Z.mul 1 ((λ j, CNOTDihedral.item x j) <$> t).

Definition sum_over {A} (f : A → Z) (l : list A) : Z :=
  foldr (λ a acc, f a + acc) 0 l.

(** The sum over all terms of coefficient times monomial, in Z_8. *)
Definition value_of (p : SpecialPolynomial.t) (x : list Z) : Z :=
  sum_over (λ t, coefficient p t * monomial x t)
    (SpecialPolynomial.all_terms (SpecialPolynomial.n_vars p)) `mod` 8.

(** What [phase] adds, per unit of [k], to the coefficient of the term
    [t] when the row has support [J]: (-2)^(|t| - 1) on the non-empty
    subsets of [J], nothing elsewhere. *)
Definition subset_weight (J t : list Z) : Z :=
  if forallb (λ a, bool_decide (a ∈ J)) t then
    match t with
    | [_] => 1
    | [_; _] => -2
    | [_; _; _] => 4
    | _ => 0
    end
  else 0.

(** The image of the bit vector [x] under the affine map of an element:
    [linear . x] plus [shift], over Z_2. *)
Definition affine_image (e : CNOTDihedral.t) (x : list Z) : list Z :=
  zip_with Z.lxor
    (z2_matrix_vector (CNOTDihedral.num_qubits e) (CNOTDihedral.linear e) x)
    (CNOTDihedral.shift e).

(** ** Synthesised circuits *)

(** The gates that the synthesis emits on [n] qubits: [u1] with an
    angle of k * pi / 4 for 1 <= k <= 7, [x] and [id] on one qubit, and
    [cx] on two different qubits. *)
Definition qubit_of (n q : Z) : bool := bool_decide (0 ≤ q < n).
Definition synthesis_gate (n : Z) (instr : Instruction) : bool :=
  match params instr, qregs instr with
  | [theta], [q] =>
      bool_decide (name instr = "u1") && bool_decide (theta ∈ fl <$> py_range2 1 8) &&
      qubit_of n q
  | [], [q] =>
      (bool_decide (name instr = "x") || bool_decide (name instr = "id")) && qubit_of n q
  | [], [c; t] =>
      bool_decide (name instr = "cx") && qubit_of n c && qubit_of n t &&
      bool_decide (c ≠ t)
  | _, _ => false
  end.

(** The number of [cx] gates of a circuit. *)
Definition cx_count (c : QuantumCircuit) : nat :=
  length (filter (λ i, name i = "cx") (definition c)).

(** What the synthesis is checked for on one element. *)
Definition synthesis_check (n : Z) (e : CNOTDihedral.t) : bool :=
  match decompose_CNOTDihedral e with
  | Ok c =>
      bool_decide (circ_num_qubits c = n) &&
      forallb (synthesis_gate n) (definition c) &&
      bool_decide (1 ≤ length (definition c) ≤ 11)%nat &&
      bool_decide (cx_count c ≤ 3)%nat &&
      bool_decide (cx_count c = 0%nat ↔
                   CNOTDihedral.linear e = z2_identity n ∧
                   Forall (λ c, c = 0) (SpecialPolynomial.weight_2 (CNOTDihedral.poly e)))
  | Raise _ => false
  end.

(** ** The next CNOT dictionary *)

(** What holds of the dictionary [obj] of [make_dict_next] once the
    passes [done] (pairs of an entry of the last dictionary and a
    choice of [(i, j, tpower)]) are over: the keys are distinct, there
    is at most one per pass, each item is the result of a pass, stored
    under the key of its element, which no prior dictionary has, and the
    key of the result of every pass is in a prior dictionary or in
    [obj]. *)
Definition next_invariant (dicts_prior : list (dict (CNOTDihedral.t * list gate_tuple)))
    (passes : list ((CNOTDihedral.t * list gate_tuple) * (Z * Z * Z)))
    (obj : dict (CNOTDihedral.t * list gate_tuple)) : Prop :=
  NoDup obj.*1 ∧
  (length obj ≤ length passes)%nat ∧
  (∀ k new, (k, new) ∈ obj →
     k = CNOTDihedral.key new.1 ∧ (∀ d, d ∈ dicts_prior → k ∉ d.*1) ∧
     ∃ pass, pass ∈ passes ∧ next_entry pass.1 pass.2 = Ok new) ∧
  (∀ pass new, pass ∈ passes → next_entry pass.1 pass.2 = Ok new →
     (∃ d, d ∈ dicts_prior ∧ CNOTDihedral.key new.1 ∈ d.*1) ∨
     CNOTDihedral.key new.1 ∈ obj.*1).

(** A list of prior dictionaries with one dictionary, whose one entry
    is the identity on two qubits with the empty circuit. *)
Definition identity_dictionary : list (dict (CNOTDihedral.t * list gate_tuple)) :=
  [[(CNOTDihedral.key (element_2 0 0 0 [[1; 0]; [0; 1]] 0 0),
     (element_2 0 0 0 [[1; 0]; [0; 1]] 0 0, []))]].

(** ** The gate lists of the zero-CNOT dictionary *)

(** The gates that [make_dict_0] records on qubit [q] for the number
    [i], and the gate list of the entry of [i]. *)
Definition zero_cnot_gates (i q : Z) : list gate_tuple :=
  (if bool_decide (0 < tpower_of i q) then [Tu1 (tpower_of i q) q] else []) ++
  (if bool_decide (xpower_of i q = 1) then [Tx q] else []).
Definition zero_cnot_circuit (n i : Z) : list gate_tuple :=
  q ← py_range n; zero_cnot_gates i q.

(** The element of an entry of the loop of [make_dict_0], when the pass
    returns. *)
Definition entry_element (r : res (CNOTDihedral.t * list gate_tuple))
  : option CNOTDihedral.t :=
  match r with
  | Ok (e, _) => Some e
  | Raise _ => None
  end.

(** ** Examples *)

(** Five qubits, after [cnot(1, 4)], [cnot(2, 4)], [cnot(3, 4)]. *)
Definition five_qubit_example : res CNOTDihedral.t :=
  e ← CNOTDihedral.__init__ 5;
  run_on (CNOTDihedral.cnot 1 4;; CNOTDihedral.cnot 2 4;; CNOTDihedral.cnot 3 4) e.

(** Six qubits, after [cnot(2, 5)] and [cnot(4, 5)]. *)
Definition six_qubit_example : res CNOTDihedral.t :=
  e ← CNOTDihedral.__init__ 6;
  run_on (CNOTDihedral.cnot 2 5;; CNOTDihedral.cnot 4 5) e.

(** * Properties *)

(** ** The offsets of the cubic terms *)

Section CubicOffsets.
Import SpecialPolynomial.

(** For five variables the offset formula sends the terms
    x_1 x_3 x_4 and x_2 x_3 x_4 to the same cell of [weight_3], and no
    term to cell 8. *)
Lemma offset_3_five_variables :
  (λ t, offset_3 5 (t !!! 0%nat) (t !!! 1%nat) (t !!! 2%nat)) <$> terms3 5
  = [0; 1; 2; 3; 4; 5; 6; 7; 9; 9].
Proof. vm_compute. reflexivity. Qed.

(** C5 (as the code behaves): on the zero polynomial of five variables,
    [[1; 3; 4]] and [[2; 3; 4]] are valid index lists, yet
    [set_term([1, 3, 4], 1)] changes what [get_term([2, 3, 4])]
    returns from 0 to 1; on six variables [set_term([2, 4, 5], 1)]
    raises [IndexError]. *)
Theorem set_term_changes_another_term :
  check_indices 5 [1; 3; 4] = Ok () ∧
  check_indices 5 [2; 3; 4] = Ok () ∧
  (p ← __init__ 5; get_term p [2; 3; 4]) = Ok 0 ∧
  (p ← __init__ 5; p' ← run_on (set_term [1; 3; 4] 1) p; get_term p' [2; 3; 4])
    = Ok 1 ∧
  check_indices 6 [2; 4; 5] = Ok () ∧
  (p ← __init__ 6; run_on (set_term [2; 4; 5] 1) p) = Raise IndexError.
Proof. split_and!; vm_compute; reflexivity. Qed.

(** C9 (as the code behaves): on the zero polynomial of four variables
    the monomial x_0 passes the three assertions of [mul_monomial], and
    [mul_monomial] fails on it: the loop reaches the term x_1 x_2 x_3,
    whose union with the monomial has four indices, and [get_term]
    raises. *)
Theorem mul_monomial_fails_on_four_variables :
  check_indices 4 [0] = Ok () ∧
  set_union [1; 2; 3] [0] = [0; 1; 2; 3] ∧
  (p ← __init__ 4; mul_monomial p [0]) = Raise (AssertionError "no term!").
Proof. split_and!; vm_compute; reflexivity. Qed.
End CubicOffsets.

Section PhaseDefect.
Import CNOTDihedral.

(** C3 (as the code behaves): on five qubits, after [cnot(1, 4)],
    [cnot(2, 4)], [cnot(3, 4)] the support of row 4 is {1, 2, 3, 4} and
    [shift[4]] is 0; [phase(1, 4)] then leaves the coefficient of
    x_1 x_3 x_4 at 0 instead of adding 4 to it: both x_1 x_3 x_4 and
    x_2 x_3 x_4 are written to cell 9 of [weight_3]. *)
Theorem phase_misses_a_cubic_term :
  (e ← five_qubit_example; Ok (support_of (default [] (linear e !! 4%nat))))
    = Ok [1; 2; 3; 4] ∧
  (e ← five_qubit_example; Ok (item (shift e) 4)) = Ok 0 ∧
  (e ← five_qubit_example; SpecialPolynomial.get_term (poly e) [1; 3; 4]) = Ok 0 ∧
  (e ← five_qubit_example; e' ← run_on (phase 1 4) e;
   SpecialPolynomial.get_term (poly e') [1; 3; 4]) = Ok 0 ∧
  (e ← five_qubit_example; e' ← run_on (phase 1 4) e;
   Ok (SpecialPolynomial.weight_3 (poly e'))) = Ok [0; 0; 0; 0; 0; 0; 4; 4; 0; 0].
Proof. split_and!; vm_compute; reflexivity. Qed.
End PhaseDefect.

(** ** How the generators act *)

Ltac st_unfold :=
  unfold mbind, st_mbind, st_bind, st_get, st_put, st_modify, st_read,
    st_assert, st_ret, st_raise, assert, state_after, outcome in *.

Lemma st_for_preserves {S A} (P : S → Prop) (body : A → M S ()) (l : list A) (s : S) :
  (∀ x s0, P s0 → P (state_after (body x) s0)) →
  P s → P (state_after (st_for l body) s).
Proof.
  intros Hbody. revert s. induction l as [|x l IH]; intros s Hs; [done|].
  specialize (Hbody x s Hs). specialize (IH (state_after (body x) s)).
  unfold state_after in *. simpl. st_unfold.
  destruct (body x s) as [[[]|err] s']; simpl in *; auto.
Qed.

Lemma st_bind_preserves {S A B} (P : S → Prop) (c : M S A) (k : A → M S B) (s : S) :
  (∀ s0, P s0 → P (state_after c s0)) →
  (∀ a s0, P s0 → P (state_after (k a) s0)) →
  P s → P (state_after (c ≫= k) s).
Proof.
  intros Hc Hk Hs. specialize (Hc s Hs).
  unfold state_after in *. unfold mbind, st_mbind, st_bind.
  destruct (c s) as [[a|err] s']; simpl in *; auto.
Qed.

Section Frame.
Import CNOTDihedral.

Lemma on_poly_same_affine_part {A} (c : M SpecialPolynomial.t A) e0 e :
  same_affine_part e0 e → same_affine_part e0 (state_after (on_poly c) e).
Proof.
  unfold state_after, on_poly, same_affine_part.
  destruct (c (poly e)) as [r p]. by destruct e.
Qed.

Ltac frame_step :=
  lazymatch goal with
  | |- ∀ _, _ => intros
  | |- same_affine_part _ (state_after (mbind _ _) _) => apply st_bind_preserves
  | |- same_affine_part _ (state_after (st_for _ _) _) => apply st_for_preserves
  | |- same_affine_part _ (state_after (on_poly _) _) => apply on_poly_same_affine_part
  | |- same_affine_part _ (state_after _ _) => assumption
  | |- same_affine_part ?e ?e => done
  | |- same_affine_part _ _ => assumption
  end.

Lemma phase_same_affine_part k i e :
  same_affine_part e (state_after (phase k i) e).
Proof. unfold phase. repeat frame_step. Qed.

Lemma cnot_ok i j e :
  0 ≤ i < num_qubits e → 0 ≤ j < num_qubits e → i ≠ j →
  cnot i j e =
    (Ok (),
     mk (num_qubits e) (poly e)
        (<[Z.to_nat j := (λ k, (cell (linear e) i k + cell (linear e) j k) `mod` 2)
                           <$> py_range (num_qubits e)]> (linear e))
        (<[Z.to_nat j := (item (shift e) i + item (shift e) j) `mod` 2]> (shift e))).
Proof.
  intros Hi Hj Hij. unfold cnot. st_unfold.
  rewrite !bool_decide_eq_true_2 by lia. done.
Qed.

Lemma flip_ok i e :
  0 ≤ i < num_qubits e →
  flip i e =
    (Ok (),
     mk (num_qubits e) (poly e) (linear e)
        (<[Z.to_nat i := (item (shift e) i + 1) `mod` 2]> (shift e))).
Proof.
  intros Hi. unfold flip. st_unfold.
  rewrite !bool_decide_eq_true_2 by lia. done.
Qed.

(** C10: [cnot(i, j)] changes only row [j] of [linear] and entry [j] of
    [shift]; [phase(k, i)] changes only the polynomial, whether it
    returns or raises; [flip(i)] changes only entry [i] of [shift]. *)
Theorem generators_frame (n : Z) (e : t) :
  num_qubits e = n →
  (∀ i j, 0 ≤ i < n → 0 ≤ j < n → i ≠ j →
     ∃ e', cnot i j e = (Ok (), e') ∧
           poly e' = poly e ∧ num_qubits e' = n ∧
           length (linear e') = length (linear e) ∧
           length (shift e') = length (shift e) ∧
           (∀ r, r ≠ Z.to_nat j → linear e' !! r = linear e !! r) ∧
           (∀ r, r ≠ Z.to_nat j → shift e' !! r = shift e !! r)) ∧
  (∀ k i r e', phase k i e = (r, e') →
     linear e' = linear e ∧ shift e' = shift e ∧ num_qubits e' = n) ∧
  (∀ i, 0 ≤ i < n →
     ∃ e', flip i e = (Ok (), e') ∧
           poly e' = poly e ∧ linear e' = linear e ∧ num_qubits e' = n ∧
           length (shift e') = length (shift e) ∧
           (∀ r, r ≠ Z.to_nat i → shift e' !! r = shift e !! r)).
Proof.
  intros <-. split_and!.
  - intros i j Hi Hj Hij. eexists. split; [by apply cnot_ok|]. simpl.
    split_and!; try done.
    + by rewrite length_insert.
    + by rewrite length_insert.
    + intros r Hr. by rewrite list_lookup_insert_ne.
    + intros r Hr. by rewrite list_lookup_insert_ne.
  - intros k i r e' Hphase.
    pose proof (phase_same_affine_part k i e) as H.
    unfold state_after in H. rewrite Hphase in H. apply H.
  - intros i Hi. eexists. split; [by apply flip_ok|]. simpl.
    split_and!; try done.
    + by rewrite length_insert.
    + intros r Hr. by rewrite list_lookup_insert_ne.
Qed.
End Frame.

(** ** The canonical key *)

Section Keys.

Lemma string_length_app (s t : string) :
  String.length (s +:+ t) = (String.length s + String.length t)%nat.
Proof. induction s as [|c s IH]; simpl; [done|]. by rewrite IH. Qed.

Lemma string_app_inj_length (s1 t1 s2 t2 : string) :
  String.length s1 = String.length t1 →
  s1 +:+ s2 = t1 +:+ t2 → s1 = t1 ∧ s2 = t2.
Proof.
  revert t1. induction s1 as [|c s1 IH]; intros [|d t1] Hlen Heq;
    simplify_eq/=; [done|].
  destruct (IH t1) as [-> ->]; auto.
Qed.

Lemma same_lengths_length xs ys : same_lengths xs ys → length xs = length ys.
Proof. apply Forall2_length. Qed.

Lemma same_lengths_cases xs ys :
  same_lengths xs ys →
  (xs = [] ∧ ys = []) ∨
  (∃ x y, xs = [x] ∧ ys = [y] ∧ String.length x = String.length y) ∨
  (∃ x y xs' ys', xs = x :: xs' ∧ ys = y :: ys' ∧ xs' ≠ [] ∧ ys' ≠ [] ∧
                  String.length x = String.length y ∧ same_lengths xs' ys').
Proof.
  intros [|x y xs' ys' Hxy Hrest]; [by left|]. right.
  destruct Hrest as [|x' y' xs'' ys'' Hxy' Hrest].
  - left. by exists x, y.
  - right. exists x, y, (x' :: xs''), (y' :: ys''). split_and!; try done.
    by constructor.
Qed.

Lemma py_join_cons sep x xs :
  xs ≠ [] → py_join sep (x :: xs) = x +:+ sep +:+ py_join sep xs.
Proof. by destruct xs. Qed.

Lemma py_join_length sep xs ys :
  same_lengths xs ys →
  String.length (py_join sep xs) = String.length (py_join sep ys).
Proof.
  revert ys. induction xs as [|x0 xs IH]; intros ys H;
    destruct (same_lengths_cases _ _ H)
      as [[? ->]|[(x&y&?&->&Hxy)|(x&y&xs'&ys'&?&->&?&?&Hxy&Hrest)]];
    simplify_eq; [done..|].
  rewrite !py_join_cons, !string_length_app, Hxy by done.
  by rewrite (IH _ Hrest).
Qed.

Lemma py_join_inj sep xs ys :
  same_lengths xs ys → py_join sep xs = py_join sep ys → xs = ys.
Proof.
  revert ys. induction xs as [|x0 xs IH]; intros ys H;
    destruct (same_lengths_cases _ _ H)
      as [[? ->]|[(x&y&?&->&Hxy)|(x&y&xs'&ys'&?&->&?&?&Hxy&Hrest)]];
    simplify_eq; [done| simpl; by intros ->|].
  rewrite !py_join_cons by done. intros Heq.
  apply string_app_inj_length in Heq as [-> Heq]; [|done].
  apply string_app_inj_length in Heq as [_ Heq]; [|done].
  by rewrite (IH _ Hrest Heq).
Qed.

Lemma py_str_tuple_cons x xs :
  xs ≠ [] → py_str_tuple (x :: xs) = "(" +:+ py_join ", " (x :: xs) +:+ ")".
Proof. by destruct xs. Qed.

Lemma py_str_tuple_length xs ys :
  same_lengths xs ys →
  String.length (py_str_tuple xs) = String.length (py_str_tuple ys).
Proof.
  intros H. pose proof (py_join_length ", " _ _ H) as Hj.
  destruct (same_lengths_cases _ _ H)
    as [[-> ->]|[(x&y&->&->&Hxy)|(x&y&xs'&ys'&->&->&?&?&Hxy&Hrest)]]; [done|..].
  - simpl. by rewrite !string_length_app, Hxy.
  - rewrite !py_str_tuple_cons by done. by rewrite !string_length_app, Hj.
Qed.

Lemma py_str_tuple_inj xs ys :
  same_lengths xs ys → py_str_tuple xs = py_str_tuple ys → xs = ys.
Proof.
  intros H Heq. pose proof (py_join_length ", " _ _ H) as Hj.
  destruct (same_lengths_cases _ _ H)
    as [[-> ->]|[(x&y&->&->&Hxy)|(x&y&xs'&ys'&->&->&?&?&Hxy&Hrest)]]; [done|..].
  - simpl in Heq. simplify_eq.
    apply string_app_inj_length in Heq as [-> _]; done.
  - rewrite !py_str_tuple_cons in Heq by done. simplify_eq.
    apply string_app_inj_length in Heq as [Heq _]; [|done].
    by apply (py_join_inj ", ").
Qed.

Lemma digit_length c : 0 ≤ c < 8 → String.length (py_str_int c) = 1%nat.
Proof.
  intros H.
  assert (c = 0 ∨ c = 1 ∨ c = 2 ∨ c = 3 ∨ c = 4 ∨ c = 5 ∨ c = 6 ∨ c = 7)
    as Hc by lia.
  destruct_or!; subst; vm_compute; reflexivity.
Qed.

Lemma bits_coefficients w : bits w → coefficients w.
Proof. intros H. eapply Forall_impl; [done|]. simpl. lia. Qed.

Lemma same_lengths_digits w w' :
  length w = length w' → coefficients w → coefficients w' →
  same_lengths (py_str_int <$> w) (py_str_int <$> w').
Proof.
  intros Hlen Hw Hw'. apply Forall2_fmap, Forall2_same_length_lookup.
  split; [done|]. intros i c c' Hc Hc'.
  rewrite !digit_length; [done|..].
  - exact (Forall_lookup_1 _ _ _ _ Hw' Hc').
  - exact (Forall_lookup_1 _ _ _ _ Hw Hc).
Qed.

Lemma digits_inj (w w' : list Z) : py_str_int <$> w = py_str_int <$> w' → w = w'.
Proof. apply (inj (fmap py_str_int)). Qed.

(** The string of a tuple of coefficients determines them, among
    tuples of one length. *)
Lemma digit_tuple_inj w w' :
  length w = length w' → coefficients w → coefficients w' →
  py_str_tuple (py_str_int <$> w) = py_str_tuple (py_str_int <$> w') → w = w'.
Proof.
  intros Hlen Hw Hw' Heq. apply digits_inj, py_str_tuple_inj; [|done].
  by apply same_lengths_digits.
Qed.

Lemma digit_tuple_length w w' :
  length w = length w' → coefficients w → coefficients w' →
  String.length (py_str_tuple (py_str_int <$> w))
  = String.length (py_str_tuple (py_str_int <$> w')).
Proof. intros. by apply py_str_tuple_length, same_lengths_digits. Qed.

Lemma poly_key_parts n p q :
  wf_poly n p → wf_poly n q →
  same_lengths
    [py_str_int (SpecialPolynomial.weight_0 p);
     py_str_tuple (py_str_int <$> SpecialPolynomial.weight_1 p);
     py_str_tuple (py_str_int <$> SpecialPolynomial.weight_2 p);
     py_str_tuple (py_str_int <$> SpecialPolynomial.weight_3 p)]
    [py_str_int (SpecialPolynomial.weight_0 q);
     py_str_tuple (py_str_int <$> SpecialPolynomial.weight_1 q);
     py_str_tuple (py_str_int <$> SpecialPolynomial.weight_2 q);
     py_str_tuple (py_str_int <$> SpecialPolynomial.weight_3 q)].
Proof.
  intros [] []. repeat constructor.
  - by rewrite !digit_length.
  - apply digit_tuple_length; [lia|done..].
  - apply digit_tuple_length; [lia|done..].
  - apply digit_tuple_length; [lia|done..].
Qed.

Lemma poly_key_inj n p q :
  wf_poly n p → wf_poly n q →
  SpecialPolynomial.key p = SpecialPolynomial.key q → p = q.
Proof.
  intros Hp Hq Heq. unfold SpecialPolynomial.key in Heq.
  apply py_str_tuple_inj in Heq; [|by eapply poly_key_parts].
  destruct Hp, Hq. destruct p, q. simplify_eq/=.
  f_equal; apply digit_tuple_inj; (done || lia).
Qed.

Lemma poly_key_length n p q :
  wf_poly n p → wf_poly n q →
  String.length (SpecialPolynomial.key p) = String.length (SpecialPolynomial.key q).
Proof. intros. unfold SpecialPolynomial.key. by eapply py_str_tuple_length, poly_key_parts. Qed.

Lemma z2_matrix_row n m i row :
  z2_matrix n m → m !! i = Some row →
  Z.of_nat (length row) = n ∧ coefficients row.
Proof.
  intros [_ Hrows] Hrow.
  destruct (Forall_lookup_1 _ _ _ _ Hrows Hrow) as [? ?].
  split; [done|]. by apply bits_coefficients.
Qed.

Lemma rows_same_lengths n m m' :
  z2_matrix n m → z2_matrix n m' →
  same_lengths (row_str <$> m) (row_str <$> m').
Proof.
  intros Hm Hm'. apply Forall2_fmap, Forall2_same_length_lookup.
  split; [destruct Hm, Hm'; lia|]. intros i row row' Hrow Hrow'.
  destruct (z2_matrix_row _ _ _ _ Hm Hrow), (z2_matrix_row _ _ _ _ Hm' Hrow').
  apply digit_tuple_length; [lia|done..].
Qed.

Lemma rows_inj n m m' :
  z2_matrix n m → z2_matrix n m' → row_str <$> m = row_str <$> m' → m = m'.
Proof.
  intros Hm Hm' Heq.
  apply (list_eq_same_length _ _ (length m)); [destruct Hm, Hm'; lia|done|].
  intros i row row' _ Hrow Hrow'.
  destruct (z2_matrix_row _ _ _ _ Hm Hrow), (z2_matrix_row _ _ _ _ Hm' Hrow').
  apply digit_tuple_inj; [lia|done..|].
  assert ((row_str <$> m) !! i = Some (row_str row)) as Hi
    by (by rewrite list_lookup_fmap, Hrow).
  assert ((row_str <$> m') !! i = Some (row_str row')) as Hi'
    by (by rewrite list_lookup_fmap, Hrow').
  rewrite Heq in Hi. by simplify_eq.
Qed.

Lemma list3_inj {A} (a b c a' b' c' : A) :
  [a; b; c] = [a'; b'; c'] → a = a' ∧ b = b' ∧ c = c'.
Proof. by intros [= -> -> ->]. Qed.

Lemma py_repr_str_inj s t :
  String.length s = String.length t → py_repr_str s = py_repr_str t → s = t.
Proof.
  unfold py_repr_str. intros Hlen Heq.
  apply string_app_inj_length in Heq as [_ Heq]; [|done].
  by apply string_app_inj_length in Heq as [Heq _].
Qed.

Lemma elem_key_parts n a b :
  wf_elem n a → wf_elem n b →
  same_lengths
    [py_repr_str (SpecialPolynomial.key (CNOTDihedral.poly a));
     py_str_tuple (row_str <$> CNOTDihedral.linear a);
     py_str_tuple (py_str_int <$> CNOTDihedral.shift a)]
    [py_repr_str (SpecialPolynomial.key (CNOTDihedral.poly b));
     py_str_tuple (row_str <$> CNOTDihedral.linear b);
     py_str_tuple (py_str_int <$> CNOTDihedral.shift b)].
Proof.
  intros [? ? ? [? ?]] [? ? ? [? ?]]. repeat constructor.
  - unfold py_repr_str. rewrite !string_length_app.
    by rewrite (poly_key_length n (CNOTDihedral.poly a) (CNOTDihedral.poly b)).
  - by eapply py_str_tuple_length, rows_same_lengths.
  - apply digit_tuple_length; [lia|by apply bits_coefficients..].
Qed.

(** The key determines the element, among the valid elements on [n]
    qubits. *)
Lemma elem_key_inj (n : Z) (a b : CNOTDihedral.t) :
  wf_elem n a → wf_elem n b → CNOTDihedral.key a = CNOTDihedral.key b → a = b.
Proof.
  intros Ha Hb Heq. unfold CNOTDihedral.key in Heq.
  apply py_str_tuple_inj in Heq; [|by eapply elem_key_parts].
  apply list3_inj in Heq as (Hpoly & Hlin & Hshift).
  destruct Ha as [Hna Hpa Hla [Hsa Hba]], Hb as [Hnb Hpb Hlb [Hsb Hbb]].
  destruct a as [na pa la sa], b as [nb pb lb sb];
    cbn [CNOTDihedral.poly CNOTDihedral.linear CNOTDihedral.shift
         CNOTDihedral.num_qubits] in *.
  f_equal.
  - congruence.
  - apply (poly_key_inj n); [done..|].
    apply py_repr_str_inj; [|done]. by apply (poly_key_length n).
  - apply (rows_inj n); [done..|].
    apply py_str_tuple_inj; [by eapply rows_same_lengths|done].
  - apply digit_tuple_inj; [lia|by apply bits_coefficients..|done].
Qed.

(** C4: among the valid elements on [n] qubits, two elements have the
    same key exactly when they have the same polynomial, linear part
    and shift; the key is a function of the state alone and is
    injective. *)
Theorem key_characterises_structural_equality (n : Z) (a b : CNOTDihedral.t) :
  wf_elem n a → wf_elem n b →
  (CNOTDihedral.key a = CNOTDihedral.key b ↔ structurally_equal a b) ∧
  (CNOTDihedral.key a = CNOTDihedral.key b ↔ a = b) ∧
  (CNOTDihedral.__eq__ a b = true ↔ structurally_equal a b).
Proof.
  intros Ha Hb.
  pose proof (elem_key_inj n a b Ha Hb) as Hinj.
  assert (structurally_equal a b → a = b) as Hstruct.
  { intros (Hp & Hl & Hs). destruct Ha, Hb.
    destruct a, b. simplify_eq/=. done. }
  assert (a = b → structurally_equal a b) as Hrefl by (by intros ->).
  split_and!.
  - split; [auto|]. by intros ->%Hstruct.
  - split; [auto|]. by intros ->.
  - unfold CNOTDihedral.__eq__. rewrite bool_decide_eq_true.
    split; [auto|]. by intros ->%Hstruct.
Qed.
End Keys.

(** ** The round trip on one and two qubits *)

Section SmallElements.
Import CNOTDihedral.

Lemma round_trip_check n :
  n = 1 ∨ n = 2 → forallb round_trips (elements n) = true.
Proof. intros [-> | ->]; vm_compute; reflexivity. Qed.

Lemma closure_check n :
  n = 1 ∨ n = 2 →
  forallb (λ e, forallb (is_element n) (generator_images n e)) (elements n) = true.
Proof. intros [-> | ->]; vm_compute; reflexivity. Qed.

Lemma elem_of_py_range_8 a : 0 ≤ a < 8 → a ∈ py_range 8.
Proof. intros. apply elem_of_seqZ. lia. Qed.

Lemma is_element_elements n e : is_element n e = true → e ∈ elements n.
Proof.
  unfold is_element, elements.
  destruct (SpecialPolynomial.weight_1 (poly e)) as [|a [|b [|??]]];
    destruct (SpecialPolynomial.weight_2 (poly e)) as [|c [|??]];
    destruct (shift e) as [|s0 [|s1 [|??]]]; try done;
    rewrite ?andb_true_iff, ?bool_decide_eq_true; intros H; destruct_and!; subst n.
  - rewrite bool_decide_eq_true_2 by done.
    match goal with H : e = _ |- _ => rewrite H end.
    apply list_elem_of_bind. exists a. split; [|by apply elem_of_py_range_8].
    apply list_elem_of_bind. exists s0. split; [|done]. apply list_elem_of_singleton. done.
  - rewrite bool_decide_eq_false_2, bool_decide_eq_true_2 by done.
    match goal with H : e = _ |- _ => rewrite H end.
    apply list_elem_of_bind. exists a. split; [|by apply elem_of_py_range_8].
    apply list_elem_of_bind. exists b. split; [|by apply elem_of_py_range_8].
    apply list_elem_of_bind. exists c. split; [|done].
    apply list_elem_of_bind. exists (linear e). split; [|done].
    apply list_elem_of_bind. exists s0. split; [|done].
    apply list_elem_of_bind. exists s1. split; [|done].
    apply list_elem_of_singleton. done.
Qed.
End SmallElements.

Section GeneratorsOnSmallElements.
Import CNOTDihedral.

Lemma st_for_ext {S A} (f g : A → M S ()) (l : list A) (s : S) :
  (∀ x s0, f x s0 = g x s0) → st_for l f s = st_for l g s.
Proof.
  intros Hfg. revert s. induction l as [|x l IH]; intros s; [done|].
  simpl. unfold mbind, st_mbind, st_bind. rewrite Hfg.
  destruct (g x s) as [[[]|err] s']; [apply IH|done].
Qed.

Lemma st_bind_ext {S A B} (c c' : M S A) (k k' : A → M S B) (s : S) :
  c s = c' s → (∀ a s0, k a s0 = k' a s0) → (c ≫= k) s = (c' ≫= k') s.
Proof.
  intros Hc Hk. unfold mbind, st_mbind, st_bind. rewrite Hc.
  destruct (c' s) as [[a|err] s']; [apply Hk|done].
Qed.

Lemma mod_8_linear v c k : (v + c * (k `mod` 8)) `mod` 8 = (v + c * k) `mod` 8.
Proof.
  rewrite <- (Z.add_mod_idemp_r v (c * (k `mod` 8))) by done.
  rewrite Z.mul_mod_idemp_r by done.
  by rewrite Z.add_mod_idemp_r.
Qed.

(** [phase] uses its power modulo 8 only. *)
Lemma phase_mod_8 k i e : phase k i e = phase (k `mod` 8) i e.
Proof.
  unfold phase.
  apply st_bind_ext; [done|]. intros self s0.
  apply st_bind_ext; [done|]. intros _ s1.
  apply st_bind_ext; [done|]. intros _ s2.
  assert ((if bool_decide (item (shift self) i = 1) then (7 * k) `mod` 8 else k) `mod` 8
          = (if bool_decide (item (shift self) i = 1)
             then (7 * (k `mod` 8)) `mod` 8 else k `mod` 8) `mod` 8) as Hk.
  { case_bool_decide; [|by rewrite Z.mod_mod].
    by rewrite Z.mul_mod_idemp_r. }
  set (k1 := if bool_decide _ then _ else k) in *.
  set (k2 := if bool_decide _ then _ else k `mod` 8) in *.
  assert (∀ v c, (v + c * k1) `mod` 8 = (v + c * k2) `mod` 8) as Hlin.
  { intros v c. by rewrite <- (mod_8_linear v c k1), Hk, mod_8_linear. }
  apply st_bind_ext; [|intros _ s3; apply st_bind_ext; [|intros _ s4]];
    apply st_for_ext; intros j s; (apply st_bind_ext; [done|]); intros v s'.
  - by rewrite <- (Z.mul_1_l k1), <- (Z.mul_1_l k2), Hlin.
  - by rewrite Hlin.
  - by rewrite Hlin.
Qed.

Lemma cnot_ok_inv i j e e' :
  cnot i j e = (Ok (), e') →
  0 ≤ i < num_qubits e ∧ 0 ≤ j < num_qubits e ∧ i ≠ j.
Proof.
  unfold cnot. st_unfold. repeat (case_bool_decide; [|done]). intros _. lia.
Qed.

Lemma phase_ok_inv k i e e' :
  phase k i e = (Ok (), e') → 0 ≤ i < num_qubits e.
Proof.
  unfold phase. unfold mbind, st_mbind, st_bind, st_get, st_assert, assert.
  repeat (case_bool_decide; [|done]). intros _. lia.
Qed.

Lemma flip_ok_inv i e e' :
  flip i e = (Ok (), e') → 0 ≤ i < num_qubits e.
Proof.
  unfold flip. st_unfold. repeat (case_bool_decide; [|done]). intros _. lia.
Qed.

Lemma elements_forall n (P : t → bool) :
  forallb P (elements n) = true → ∀ e, is_element n e = true → P e = true.
Proof.
  rewrite forallb_forall. intros HP e He.
  by apply HP, list_elem_of_In, is_element_elements.
Qed.

Lemma is_element_num_qubits n e :
  n = 1 ∨ n = 2 → is_element n e = true → num_qubits e = n.
Proof.
  intros Hn He.
  apply (elements_forall n (λ e, bool_decide (num_qubits e = n))) in He.
  - by apply bool_decide_eq_true in He.
  - destruct Hn as [-> | ->]; vm_compute; reflexivity.
Qed.

Lemma generator_image_is_element n e e' :
  n = 1 ∨ n = 2 → is_element n e = true → e' ∈ generator_images n e →
  is_element n e' = true.
Proof.
  intros Hn He He'.
  pose proof (elements_forall n _ (closure_check n Hn) e He) as Hall.
  rewrite forallb_forall in Hall. by apply Hall, list_elem_of_In.
Qed.

Lemma elem_of_py_range n i : 0 ≤ i < n → i ∈ py_range n.
Proof. intros. apply elem_of_seqZ. lia. Qed.

Lemma generated_is_element n e :
  n = 1 ∨ n = 2 → generated n e → is_element n e = true.
Proof.
  intros Hn. induction 1 as [e Hinit|e i j e' _ IH Hop|e k i e' _ IH Hop|e i e' _ IH Hop].
  - destruct Hn as [-> | ->]; vm_compute in Hinit; simplify_eq; vm_compute; reflexivity.
  - pose proof (is_element_num_qubits n e Hn IH) as Hq.
    apply cnot_ok_inv in Hop as Hij. rewrite Hq in Hij.
    apply (generator_image_is_element n e); [done..|].
    unfold generator_images. apply elem_of_app. left.
    apply list_elem_of_bind. exists i. split; [|apply elem_of_py_range; lia].
    apply list_elem_of_bind. exists j. split; [|apply elem_of_py_range; lia].
    rewrite bool_decide_eq_true_2 by lia. apply list_elem_of_singleton.
    unfold state_after. by rewrite Hop.
  - pose proof (is_element_num_qubits n e Hn IH) as Hq.
    apply phase_ok_inv in Hop as Hi. rewrite Hq in Hi.
    apply (generator_image_is_element n e); [done..|].
    unfold generator_images. apply elem_of_app. right.
    apply elem_of_app. left.
    apply list_elem_of_bind. exists (k `mod` 8).
    split; [|by apply elem_of_py_range, Z.mod_pos_bound].
    apply list_elem_of_bind. exists i. split; [|apply elem_of_py_range; lia].
    apply list_elem_of_singleton.
    unfold state_after. by rewrite <- phase_mod_8, Hop.
  - pose proof (is_element_num_qubits n e Hn IH) as Hq.
    apply flip_ok_inv in Hop as Hi. rewrite Hq in Hi.
    apply (generator_image_is_element n e); [done..|].
    unfold generator_images. apply elem_of_app. right.
    apply elem_of_app. right.
    apply list_elem_of_bind. exists i. split; [|apply elem_of_py_range; lia].
    apply list_elem_of_singleton.
    unfold state_after. by rewrite Hop.
Qed.

(** C1, for the elements that the generators build: synthesis returns
    a circuit, and transcribing it on a fresh identity returns an
    element with the key of [e] (the element [e] itself). *)
Theorem round_trip_of_generated (n : Z) (e : t) :
  n = 1 ∨ n = 2 → generated n e →
  ∃ circuit fresh e',
    decompose_CNOTDihedral e = Ok circuit ∧
    __init__ n = Ok fresh ∧
    append_circuit circuit None fresh = (Ok (), e') ∧
    key e' = key e ∧ structurally_equal e' e.
Proof.
  intros Hn Hgen. pose proof (generated_is_element n e Hn Hgen) as He.
  pose proof (is_element_num_qubits n e Hn He) as Hq.
  pose proof (elements_forall n _ (round_trip_check n Hn) e He) as Hrt.
  unfold round_trips, round_trip in Hrt. rewrite Hq in Hrt.
  destruct (decompose_CNOTDihedral e) as [circuit|]; [|done].
  destruct (__init__ n) as [fresh|]; [|done].
  simpl in Hrt. unfold run_on in Hrt.
  destruct (append_circuit circuit None fresh) as [[[]|] e'] eqn:Happ; [|done].
  apply bool_decide_eq_true in Hrt as ->.
  exists circuit, fresh, e. by split_and!.
Qed.
End GeneratorsOnSmallElements.

(** Well-formedness of an element that is written out. *)
Ltac forall_concrete tac :=
  repeat (apply Forall_cons_2; [tac|]); apply Forall_nil_2.
Ltac wf_concrete :=
  split;
  [ done
  | split; simpl; try done; try lia; forall_concrete lia
  | split; [done|]; forall_concrete ltac:(split; [done|]; forall_concrete lia)
  | split; [done|]; forall_concrete lia ].

Section ComposedElement.
Import CNOTDihedral.

(** C1, as stated, fails on an element that composition returns: on one
    qubit, with [a] the identity after [phase(1, 0)] and [b] the
    identity after [flip(0)], the product [a * b] is the valid element
    with polynomial 1 + 7 x_0, and [decompose_CNOTDihedral] rejects its
    constant term by assertion. *)
Lemma round_trip_fails_on_a_composition :
  ∃ a b e,
    generated 1 a ∧ generated 1 b ∧ __mul__ a b = Ok e ∧
    wf_elem 1 e ∧ linear e = [[1]] ∧
    SpecialPolynomial.weight_0 (poly e) = 1 ∧
    decompose_CNOTDihedral e = Raise (AssertionError "") ∧
    ¬ round_trip_holds e.
Proof.
  exists (element_1 1 0), (element_1 0 1),
    (mk 1 (SpecialPolynomial.mk 1 0 0 1 [7] [] []) [[1]] [1]).
  split_and!.
  - apply (generated_phase 1 (element_1 0 0) 1 0); [by apply generated_identity|].
    vm_compute. reflexivity.
  - apply (generated_flip 1 (element_1 0 0) 0); [by apply generated_identity|].
    vm_compute. reflexivity.
  - vm_compute. reflexivity.
  - by wf_concrete.
  - done.
  - done.
  - vm_compute. reflexivity.
  - intros (e' & Hrt & _). vm_compute in Hrt. done.
Qed.
End ComposedElement.

(** ** Index lists built from the support of a row *)

Section Supports.

Lemma increasing_in_weaken lo lo' hi l :
  lo' ≤ lo → increasing_in lo hi l → increasing_in lo' hi l.
Proof. destruct l as [|x l]; simpl; [done|]. intros ? [? ?]. split; [lia|done]. Qed.

Lemma increasing_in_valid_term n l :
  (length l ≤ 3)%nat → increasing_in 0 n l → valid_term n l.
Proof.
  intros Hlen Hinc. split; [done|].
  assert (∀ lo, increasing_in lo n l →
            Forall (λ x, lo ≤ x < n) l ∧
            Forall (λ ab, ab.1 < ab.2) (zip l (tail l))) as Hgen.
  { clear. induction l as [|x l IH]; intros lo Hl; [by split|].
    destruct Hl as [Hx Hl]. destruct (IH _ Hl) as [Hall Hadj]. split.
    - constructor; [done|]. eapply Forall_impl; [done|]. simpl. lia.
    - destruct l as [|y l]; [constructor|]. simpl.
      constructor; [|done]. simpl. apply Forall_cons_1 in Hall as [? _]. lia. }
  apply (Hgen 0 Hinc).
Qed.

Lemma support_of_offset (k : nat) (row : list Z) :
  increasing_in (Z.of_nat k) (Z.of_nat (k + length row))
    ((λ je : nat * Z, Z.of_nat je.1)
       <$> filter (λ je, je.2 ≠ 0) (imap (λ j e, ((k + j)%nat, e)) row)).
Proof.
  revert k. induction row as [|x row IH]; intros k; [done|].
  rewrite imap_cons, filter_cons.
  assert (increasing_in (Z.of_nat (S k)) (Z.of_nat (k + length (x :: row)))
            ((λ je : nat * Z, Z.of_nat je.1)
               <$> filter (λ je, je.2 ≠ 0)
                     (imap ((λ j e, ((k + j)%nat, e)) ∘ S) row))) as Hrest.
  { rewrite (imap_ext _ (λ j e, ((S k + j)%nat, e))).
    - specialize (IH (S k)). simpl length.
      by replace (k + S (length row))%nat with (S k + length row)%nat by lia.
    - intros j e _. simpl. f_equal. lia. }
  case_decide; simpl.
  - split; [simpl length; lia|].
    eapply increasing_in_weaken; [|exact Hrest]. lia.
  - eapply increasing_in_weaken; [|exact Hrest]. lia.
Qed.

Lemma support_of_increasing (row : list Z) :
  increasing_in 0 (Z.of_nat (length row)) (support_of row).
Proof. apply (support_of_offset 0 row). Qed.

Lemma combinations_increasing r lo hi l t :
  increasing_in lo hi l → t ∈ combinations r l →
  increasing_in lo hi t ∧ length t = r.
Proof.
  revert r lo t. induction l as [|x l IH]; intros [|r] lo t Hl Ht; simpl in Ht.
  - apply list_elem_of_singleton in Ht as ->. done.
  - by apply elem_of_nil in Ht.
  - apply list_elem_of_singleton in Ht as ->. done.
  - destruct Hl as [Hx Hl].
    apply elem_of_app in Ht as [Ht|Ht].
    + apply list_elem_of_fmap in Ht as (t' & -> & Ht').
      destruct (IH r _ _ Hl Ht') as [? ?]. simpl. split; [done|]. by f_equal.
    + destruct (IH (S r) _ _ Hl Ht) as [? ?]. split; [|done].
      eapply increasing_in_weaken; [|done]. lia.
Qed.
End Supports.

(** ** Failures *)

Section Failures.
Import CNOTDihedral.

Lemma check_indices_ok n l :
  valid_term n l → SpecialPolynomial.check_indices n l = Ok ().
Proof.
  intros (Hlen & Hrange & Hadj). unfold SpecialPolynomial.check_indices, assert.
  rewrite bool_decide_eq_true_2 by lia. simpl.
  assert (existsb (λ x, bool_decide (x < 0) || bool_decide (n ≤ x)) l = false) as ->.
  { apply not_true_is_false. rewrite existsb_exists. intros (x & Hx & Hb).
    apply list_elem_of_In in Hx. rewrite Forall_forall in Hrange.
    specialize (Hrange x Hx). apply orb_true_iff in Hb as [Hb|Hb];
      apply bool_decide_eq_true in Hb; lia. }
  simpl.
  assert (forallb (λ ab, bool_decide (ab.1 < ab.2)) (zip l (tail l)) = true) as ->.
  { apply forallb_forall. intros ab Hab. apply list_elem_of_In in Hab.
    rewrite Forall_forall in Hadj. apply bool_decide_eq_true. by apply Hadj. }
  done.
Qed.

Lemma getitem_not_assertion {A} (l : list A) i : not_assertion (getitem l i).
Proof. unfold getitem. intros msg. by repeat case_match. Qed.

Lemma get_term_not_assertion p l :
  valid_term (SpecialPolynomial.n_vars p) l →
  not_assertion (SpecialPolynomial.get_term p l).
Proof.
  intros Hl. unfold SpecialPolynomial.get_term.
  rewrite (check_indices_ok _ _ Hl). simpl.
  destruct l as [|? [|? [|? ?]]]; try apply getitem_not_assertion. done.
Qed.

(** [set_term] either returns or raises without having changed the
    polynomial, and never changes the number of variables; on a valid
    index list it fails no assertion. *)
Lemma set_term_outcome l v p :
  (∃ p', SpecialPolynomial.set_term l v p = (Ok (), p') ∧
         SpecialPolynomial.n_vars p' = SpecialPolynomial.n_vars p) ∨
  (∃ err, SpecialPolynomial.set_term l v p = (Raise err, p) ∧
          (valid_term (SpecialPolynomial.n_vars p) l → err = IndexError)).
Proof.
  unfold SpecialPolynomial.set_term. st_unfold.
  destruct (SpecialPolynomial.check_indices _ l) as [[]|err] eqn:Hcheck.
  - destruct l as [|i0 [|i1 [|i2 ?]]]; unfold setitem;
      repeat case_match; simplify_eq; eauto.
  - right. exists err. split; [done|]. intros Hl.
    rewrite (check_indices_ok _ _ Hl) in Hcheck. done.
Qed.

Lemma set_term_validates l v :
  validates_before_mutating (SpecialPolynomial.set_term l v).
Proof.
  intros p err p' H.
  destruct (set_term_outcome l v p) as [(?&H'&_)|(?&H'&_)];
    rewrite H' in H; by simplify_eq.
Qed.

Lemma cnot_validates i j : validates_before_mutating (cnot i j).
Proof.
  intros e err e'. unfold cnot. st_unfold.
  repeat (case_bool_decide; [|by intros [= _ ->]]). done.
Qed.

Lemma flip_validates i : validates_before_mutating (flip i).
Proof.
  intros e err e'. unfold flip. st_unfold.
  repeat (case_bool_decide; [|by intros [= _ ->]]). done.
Qed.

Lemma increasing_in_elem lo hi l x : increasing_in lo hi l → x ∈ l → lo ≤ x < hi.
Proof.
  revert lo. induction l as [|y l IH]; intros lo Hl Hx; [by apply elem_of_nil in Hx|].
  destruct Hl as [Hy Hl]. apply elem_of_cons in Hx as [->|Hx]; [done|].
  specialize (IH _ Hl Hx). lia.
Qed.

Lemma on_poly_eta {A} (c : M SpecialPolynomial.t A) e :
  on_poly c e = ((c (poly e)).1, set_poly (c (poly e)).2 e).
Proof. unfold on_poly. by destruct (c (poly e)). Qed.

(** One pass of a loop of [phase] over valid index lists fails no
    assertion and keeps the number of variables. *)
Lemma phase_loop_outcome {X} n (term_of : X → list Z) (f : X → Z → Z) (l : list X) e r e' :
  SpecialPolynomial.n_vars (poly e) = n →
  (∀ x, x ∈ l → valid_term n (term_of x)) →
  st_for l (λ x,
    value ← on_poly (st_read (λ p, SpecialPolynomial.get_term p (term_of x)));
    on_poly (SpecialPolynomial.set_term (term_of x) (f x value))) e = (r, e') →
  not_assertion r ∧ SpecialPolynomial.n_vars (poly e') = n.
Proof.
  revert e. induction l as [|x l IH]; intros e Hn Hl; simpl.
  { unfold st_ret. by intros [= <- <-]. }
  assert (valid_term n (term_of x)) as Hx by (apply Hl; left).
  unfold mbind at 1, st_mbind, st_bind.
  unfold mbind at 1, st_mbind, st_bind.
  rewrite on_poly_eta. unfold st_read at 1. simpl.
  replace (set_poly (poly e) e) with e by (by destruct e).
  pose proof (get_term_not_assertion (poly e) (term_of x)) as Hget.
  rewrite Hn in Hget. specialize (Hget Hx).
  destruct (SpecialPolynomial.get_term (poly e) (term_of x)) as [v|err].
  2: { intros [= <- <-]. split; [|done]. intros msg [= ->]. by apply (Hget msg). }
  rewrite on_poly_eta.
  destruct (set_term_outcome (term_of x) (f x v) (poly e))
    as [(p' & -> & Hp')|(err & -> & Herr)]; simpl.
  - apply IH; [by rewrite <- Hn|]. intros y Hy. apply Hl. by right.
  - intros [= <- <-]. split; [|by destruct e].
    rewrite Herr by (by rewrite Hn). done.
Qed.

Lemma phase_assertion n k i e msg e' :
  wf_elem n e → phase k i e = (Raise (AssertionError msg), e') →
  e' = e ∧ ((i < 0 ∧ msg = "i negative!") ∨ (n ≤ i ∧ msg = "i too big!")).
Proof.
  intros [Hq Hpoly [Hlen Hrows] _]. unfold phase.
  unfold mbind at 1, st_mbind, st_bind, st_get.
  unfold mbind at 1, st_mbind, st_bind, st_assert, assert.
  case_bool_decide; [|intros [= <- <-]; split; [done|left; split; [lia|done]]].
  unfold mbind at 1, st_mbind, st_bind.
  case_bool_decide; [|intros [= <- <-]; split; [done|right; split; [lia|done]]].
  set (k' := if bool_decide _ then _ else k).
  destruct (lookup_lt_is_Some_2 (linear e) (Z.to_nat i)) as [row Hrow]; [lia|].
  rewrite Hrow. simpl default.
  destruct (Forall_lookup_1 _ _ _ _ Hrows Hrow) as [Hrowlen _].
  pose proof (support_of_increasing row) as Hsup. rewrite Hrowlen in Hsup.
  destruct Hpoly as [_ Hn _ _ _ _ _ _ _ _ _].
  unfold mbind at 1, st_mbind, st_bind.
  destruct (st_for (support_of row) _ e) as [r1 e1] eqn:Hloop1.
  apply (phase_loop_outcome n (λ j, [j]) (λ _ v, (v + k') `mod` 8)) in Hloop1
    as [H1 Hn1]; [|done|].
  2: { intros j Hj. apply increasing_in_valid_term; [simpl; lia|].
       pose proof (increasing_in_elem _ _ _ _ Hsup Hj). simpl. lia. }
  destruct r1 as [[]|err1]; [|intros [= -> <-]; by destruct (H1 msg)].
  unfold mbind at 1, st_mbind, st_bind.
  destruct (st_for (combinations 2 (support_of row)) _ e1) as [r2 e2] eqn:Hloop2.
  apply (phase_loop_outcome n (λ t, t) (λ _ v, (v + -2 * k') `mod` 8)) in Hloop2
    as [H2 Hn2]; [|done|].
  2: { intros t Ht. destruct (combinations_increasing _ _ _ _ _ Hsup Ht) as [? Hlt].
       apply increasing_in_valid_term; [lia|done]. }
  destruct r2 as [[]|err2]; [|intros [= -> <-]; by destruct (H2 msg)].
  intros Hloop3.
  apply (phase_loop_outcome n (λ t, t) (λ _ v, (v + 4 * k') `mod` 8)) in Hloop3
    as [H3 _]; [by destruct (H3 msg)|done|].
  intros t Ht. destruct (combinations_increasing _ _ _ _ _ Hsup Ht) as [? Hlt].
  apply increasing_in_valid_term; [lia|done].
Qed.

Lemma cnot_failure_kind i j e r e' :
  cnot i j e = (r, e') →
  match cnot_violation (num_qubits e) i j with
  | Some msg => r = Raise (AssertionError msg) ∧ e' = e
  | None => r = Ok ()
  end.
Proof.
  unfold cnot, cnot_violation. st_unfold.
  repeat (case_bool_decide; simpl);
    first [lia | by intros [= <- <-] | idtac].
Qed.

Lemma flip_failure_kind i e r e' :
  flip i e = (r, e') →
  match qubit_violation (num_qubits e) i with
  | Some msg => r = Raise (AssertionError msg) ∧ e' = e
  | None => r = Ok ()
  end.
Proof.
  unfold flip, qubit_violation. st_unfold.
  repeat (case_bool_decide; simpl);
    first [lia | by intros [= <- <-] | idtac].
Qed.

Lemma st_for_app_fail {S A} (body : A → M S ()) l1 x l2 s s1 err s2 :
  st_for l1 body s = (Ok (), s1) → body x s1 = (Raise err, s2) →
  st_for (l1 ++ x :: l2) body s = (Raise err, s2).
Proof.
  revert s. induction l1 as [|y l1 IH]; intros s; simpl.
  - unfold st_ret. intros [= ->] Hx. unfold mbind, st_mbind, st_bind. by rewrite Hx.
  - unfold mbind, st_mbind, st_bind.
    destruct (body y s) as [[[]|?] s']; [|done]. apply IH.
Qed.

(** C8, as stated, fails for [append_circuit]: on the one-qubit identity
    the circuit [x_then_h] raises for its second gate, and the element
    keeps the flip of the first. *)
Lemma append_circuit_mutates_before_failing :
  append_circuit x_then_h None (element_1 0 0)
    = (Raise (QiskitError "Not a CNOT-Dihedral gate: circuit"), element_1 0 1) ∧
  ¬ validates_before_mutating (append_circuit x_then_h None).
Proof.
  assert (append_circuit x_then_h None (element_1 0 0)
    = (Raise (QiskitError "Not a CNOT-Dihedral gate: circuit"), element_1 0 1)) as H
    by (vm_compute; reflexivity).
  split; [done|]. intros Hv. specialize (Hv _ _ _ H). done.
Qed.

End Failures.

(** ** Matrices over Z_2 *)

Section Sums.

Lemma nsum_ext (f g : nat → Z) m :
  (∀ k, (k < m)%nat → f k = g k) → nsum f m = nsum g m.
Proof.
  induction m as [|m IH]; intros H; simpl; [done|].
  rewrite IH, H by (intros; try apply H; lia). done.
Qed.

Lemma nsum_add (f g : nat → Z) m :
  nsum (λ k, f k + g k) m = nsum f m + nsum g m.
Proof. induction m as [|m IH]; simpl; [done|]. rewrite IH. lia. Qed.

Lemma nsum_mul_l c (f : nat → Z) m : nsum (λ k, c * f k) m = c * nsum f m.
Proof. induction m as [|m IH]; simpl; [lia|]. rewrite IH. lia. Qed.

Lemma nsum_mul_r c (f : nat → Z) m : nsum (λ k, f k * c) m = nsum f m * c.
Proof. induction m as [|m IH]; simpl; [lia|]. rewrite IH. lia. Qed.

Lemma nsum_swap (g : nat → nat → Z) m1 m2 :
  nsum (λ k, nsum (λ l, g k l) m2) m1 = nsum (λ l, nsum (λ k, g k l) m1) m2.
Proof.
  induction m1 as [|m1 IH]; simpl.
  - induction m2 as [|m2 IH2]; simpl; [done|]. by rewrite <- IH2.
  - by rewrite IH, nsum_add.
Qed.

(** A sum modulo 2 only depends on its terms modulo 2. *)
Lemma nsum_mod_2 (f g : nat → Z) m :
  (∀ k, (k < m)%nat → f k `mod` 2 = g k `mod` 2) →
  nsum f m `mod` 2 = nsum g m `mod` 2.
Proof.
  induction m as [|m IH]; intros H; simpl; [done|].
  rewrite Z.add_mod, IH, H, <- Z.add_mod by (intros; try apply H; lia). done.
Qed.

Lemma nsum_zero (f : nat → Z) m : (∀ k, (k < m)%nat → f k = 0) → nsum f m = 0.
Proof.
  induction m as [|m IH]; intros H; simpl; [done|].
  rewrite IH, H by (intros; try apply H; lia). done.
Qed.

(** A sum with one non-zero term. *)
Lemma nsum_single (f : nat → Z) m r :
  (r < m)%nat → (∀ k, (k < m)%nat → k ≠ r → f k = 0) → nsum f m = f r.
Proof.
  induction m as [|m IH]; intros Hr H; [lia|]. simpl.
  destruct (decide (r = m)) as [->|Hne].
  - rewrite nsum_zero; [lia|]. intros k Hk. apply H; lia.
  - rewrite IH, (H m) by (intros; try apply H; lia). lia.
Qed.

(** The accumulation of [_z2matmul] and [_z2matvecmul] is the sum
    modulo 2. *)
Lemma foldl_mod_2 (f : Z → Z) n :
  foldl (λ acc k, (acc + f k) `mod` 2) 0 (py_range n) = zsum f n `mod` 2.
Proof.
  unfold py_range, seqZ, zsum. rewrite Z.sub_0_r || idtac.
  induction (Z.to_nat n) as [|m IH]; [done|].
  rewrite seq_S, fmap_app, foldl_app, IH. simpl.
  rewrite Z.add_0_r, Z.add_mod_idemp_l by done. done.
Qed.
End Sums.

Section Matrices.
Import CNOTDihedral.

Lemma lookup_py_range n i : 0 ≤ i < n → py_range n !! Z.to_nat i = Some i.
Proof. intros. unfold py_range. rewrite lookup_seqZ_lt by lia. f_equal. lia. Qed.

Lemma length_py_range n : length (py_range n) = Z.to_nat n.
Proof. apply length_seqZ. Qed.

(** The cells of a matrix given by a function of the indices. *)
Lemma cell_tabulate (f : Z → Z → Z) n r c :
  0 ≤ r < n → 0 ≤ c < n →
  cell ((λ i, (λ j, f i j) <$> py_range n) <$> py_range n) r c = f r c.
Proof.
  intros Hr Hc. unfold cell.
  rewrite list_lookup_fmap, lookup_py_range by done. simpl.
  rewrite list_lookup_fmap, lookup_py_range by done. done.
Qed.

Lemma tabulate_z2_matrix (f : Z → Z → Z) n :
  0 ≤ n → (∀ i j, f i j = 0 ∨ f i j = 1) →
  z2_matrix n ((λ i, (λ j, f i j) <$> py_range n) <$> py_range n).
Proof.
  intros Hn Hf. split.
  - rewrite length_fmap, length_py_range. lia.
  - apply Forall_fmap, Forall_forall. intros i _. simpl. split.
    + rewrite length_fmap, length_py_range. lia.
    + apply Forall_fmap, Forall_forall. intros j _. apply Hf.
Qed.

Lemma z2_matrix_cell n m r c :
  z2_matrix n m → 0 ≤ r < n → 0 ≤ c < n →
  ∃ row, m !! Z.to_nat r = Some row ∧ row !! Z.to_nat c = Some (cell m r c) ∧
         (cell m r c = 0 ∨ cell m r c = 1).
Proof.
  intros [Hlen Hrows] Hr Hc.
  destruct (lookup_lt_is_Some_2 m (Z.to_nat r)) as [row Hrow]; [lia|].
  destruct (Forall_lookup_1 _ _ _ _ Hrows Hrow) as [Hrowlen Hbits].
  destruct (lookup_lt_is_Some_2 row (Z.to_nat c)) as [x Hx]; [lia|].
  exists row. unfold cell. rewrite Hrow. simpl. rewrite Hx. simpl.
  split_and!; [done..|]. exact (Forall_lookup_1 _ _ _ _ Hbits Hx).
Qed.

(** Two n x n matrices with the same cells are equal. *)
Lemma z2_matrix_ext n a b :
  z2_matrix n a → z2_matrix n b →
  (∀ r c, 0 ≤ r < n → 0 ≤ c < n → cell a r c = cell b r c) → a = b.
Proof.
  intros Ha Hb Hcells.
  apply (list_eq_same_length _ _ (Z.to_nat n)); [destruct Hb; lia|destruct Ha; lia|].
  intros i rowa rowb Hi Hrowa Hrowb.
  destruct Ha as [_ Ha], Hb as [_ Hb].
  destruct (Forall_lookup_1 _ _ _ _ Ha Hrowa) as [Hla _].
  destruct (Forall_lookup_1 _ _ _ _ Hb Hrowb) as [Hlb _].
  apply (list_eq_same_length _ _ (Z.to_nat n)); [lia..|].
  intros j x y Hj Hx Hy.
  specialize (Hcells (Z.of_nat i) (Z.of_nat j)). unfold cell in Hcells.
  rewrite !Nat2Z.id, Hrowa, Hrowb in Hcells. simpl in Hcells.
  rewrite Hx, Hy in Hcells. simpl in Hcells. apply Hcells; lia.
Qed.

Lemma mod_2_bit x : x `mod` 2 = 0 ∨ x `mod` 2 = 1.
Proof. pose proof (Z.mod_pos_bound x 2). lia. Qed.

Lemma bit_mod_2 x : x = 0 ∨ x = 1 → x `mod` 2 = x.
Proof. by intros [-> | ->]. Qed.

Lemma _z2matmul_product n a b : _z2matmul n a b = z2_matrix_product n a b.
Proof.
  unfold _z2matmul, z2_matrix_product.
  apply list_fmap_ext. intros ? i _. apply list_fmap_ext. intros ? j _.
  apply (foldl_mod_2 (λ k, cell a i k * cell b k j)).
Qed.

Lemma _z2matvecmul_product n a v : _z2matvecmul n a v = z2_matrix_vector n a v.
Proof.
  unfold _z2matvecmul, z2_matrix_vector.
  apply list_fmap_ext. intros ? i _.
  apply (foldl_mod_2 (λ k, cell a i k * item v k)).
Qed.

Lemma cell_product n a b r c :
  0 ≤ r < n → 0 ≤ c < n →
  cell (z2_matrix_product n a b) r c
  = zsum (λ k, cell a r k * cell b k c) n `mod` 2.
Proof.
  apply (cell_tabulate (λ i j, zsum (λ k, cell a i k * cell b k j) n `mod` 2)).
Qed.

Lemma product_z2_matrix n a b : 0 ≤ n → z2_matrix n (z2_matrix_product n a b).
Proof.
  intros Hn.
  apply (tabulate_z2_matrix (λ i j, zsum (λ k, cell a i k * cell b k j) n `mod` 2));
    [done|]. intros. apply mod_2_bit.
Qed.

Lemma cell_identity n r c :
  0 ≤ r < n → 0 ≤ c < n → cell (z2_identity n) r c = kronecker r c.
Proof. apply (cell_tabulate kronecker). Qed.

Lemma identity_z2_matrix n : 0 ≤ n → z2_matrix n (z2_identity n).
Proof.
  intros. apply (tabulate_z2_matrix kronecker); [done|].
  intros i j. unfold kronecker. case_bool_decide; auto.
Qed.

Lemma zsum_ext (f g : Z → Z) n :
  (∀ k, 0 ≤ k < n → f k = g k) → zsum f n = zsum g n.
Proof. intros H. apply nsum_ext. intros k Hk. apply H. lia. Qed.

Lemma zsum_mod_2 (f g : Z → Z) n :
  (∀ k, 0 ≤ k < n → f k `mod` 2 = g k `mod` 2) →
  zsum f n `mod` 2 = zsum g n `mod` 2.
Proof. intros H. apply nsum_mod_2. intros k Hk. apply H. lia. Qed.

Lemma zsum_delta (f : Z → Z) n r :
  0 ≤ r < n → zsum (λ k, kronecker r k * f k) n = f r.
Proof.
  intros Hr. unfold zsum.
  rewrite (nsum_single _ _ (Z.to_nat r)) by
    (try lia; intros k ? ?; unfold kronecker; rewrite bool_decide_eq_false_2 by lia; lia).
  rewrite Z2Nat.id by lia. unfold kronecker. rewrite bool_decide_eq_true_2 by done. lia.
Qed.

Lemma product_assoc n a b c :
  z2_matrix_product n (z2_matrix_product n a b) c
  = z2_matrix_product n a (z2_matrix_product n b c).
Proof.
  unfold z2_matrix_product at 1 3.
  apply list_fmap_ext. intros ? i Hi%lookup_seqZ.
  apply list_fmap_ext. intros ? j Hj%lookup_seqZ.
  rewrite (zsum_mod_2 _ (λ k, zsum (λ l, cell a i l * cell b l k * cell c k j) n)).
  2: { intros k Hk. rewrite cell_product by lia.
       rewrite Z.mul_mod_idemp_l by done. unfold zsum. by rewrite nsum_mul_r. }
  rewrite (zsum_mod_2 (λ k, cell a i k * cell _ k j)
             (λ l, zsum (λ k, cell a i l * cell b l k * cell c k j) n)).
  2: { intros l Hl. rewrite cell_product by lia.
       rewrite Z.mul_mod_idemp_r by done. unfold zsum. rewrite <- nsum_mul_l.
       f_equal. apply nsum_ext. intros. lia. }
  unfold zsum. by rewrite nsum_swap.
Qed.

Lemma product_identity_l n a :
  z2_matrix n a → z2_matrix_product n (z2_identity n) a = a.
Proof.
  intros Ha. assert (0 ≤ n) by (destruct Ha; lia).
  apply (z2_matrix_ext n); [by apply product_z2_matrix|done|].
  intros r c Hr Hc. rewrite cell_product by done.
  rewrite (zsum_ext _ (λ k, kronecker r k * cell a k c)).
  2: { intros k Hk. by rewrite cell_identity. }
  rewrite zsum_delta by done.
  destruct (z2_matrix_cell n a r c Ha Hr Hc) as (_ & _ & _ & Hbit).
  by apply bit_mod_2.
Qed.
End Matrices.

Section Invertibility.
Import CNOTDihedral.

Lemma identity_invertible n : 0 ≤ n → z2_invertible n (z2_identity n).
Proof.
  intros Hn. pose proof (identity_z2_matrix n Hn) as HI.
  split; [done|]. exists (z2_identity n).
  by rewrite product_identity_l.
Qed.


Lemma cell_cnot_rows n i j m r c :
  z2_matrix n m → 0 ≤ j < n → 0 ≤ r < n → 0 ≤ c < n →
  cell (cnot_rows n i j m) r c
  = if bool_decide (r = j) then (cell m i c + cell m j c) `mod` 2 else cell m r c.
Proof.
  intros [Hlen _] Hj Hr Hc. unfold cnot_rows. case_bool_decide as Hrj.
  - subst r. unfold cell at 1. rewrite list_lookup_insert_eq by lia. simpl.
    rewrite list_lookup_fmap, lookup_py_range by done. done.
  - unfold cell at 1. rewrite list_lookup_insert_ne by lia. done.
Qed.

Lemma cnot_rows_z2_matrix n i j m :
  z2_matrix n m → z2_matrix n (cnot_rows n i j m).
Proof.
  intros [Hlen Hrows]. unfold cnot_rows. split; [by rewrite length_insert|].
  destruct (decide (Z.to_nat j < length m)%nat) as [Hj|Hj].
  - apply Forall_insert; [done|]. split.
    + rewrite length_fmap, length_py_range. lia.
    + apply Forall_fmap, Forall_forall. intros k _. apply mod_2_bit.
  - by rewrite list_insert_ge by lia.
Qed.

(** The row operation is the product with the row operation of the
    identity. *)
Lemma cnot_rows_product n i j m :
  z2_matrix n m → 0 ≤ i < n → 0 ≤ j < n → i ≠ j →
  cnot_rows n i j m = z2_matrix_product n (cnot_rows n i j (z2_identity n)) m.
Proof.
  intros Hm Hi Hj Hij. assert (0 ≤ n) as Hn by lia.
  pose proof (identity_z2_matrix n Hn) as HI.
  apply (z2_matrix_ext n);
    [by apply cnot_rows_z2_matrix|by apply product_z2_matrix|].
  intros r c Hr Hc. rewrite cell_cnot_rows, cell_product by done.
  destruct (z2_matrix_cell n m r c Hm Hr Hc) as (_ & _ & _ & Hbit).
  case_bool_decide as Hrj.
  - subst r.
    rewrite (zsum_mod_2 _ (λ k, kronecker i k * cell m k c + kronecker j k * cell m k c)).
    2: { intros k Hk. rewrite cell_cnot_rows by done.
         rewrite bool_decide_eq_true_2 by done. rewrite !cell_identity by done.
         rewrite Z.mul_mod_idemp_l by done. f_equal. lia. }
    unfold zsum. rewrite nsum_add. fold (zsum (λ k, kronecker i k * cell m k c) n).
    fold (zsum (λ k, kronecker j k * cell m k c) n).
    by rewrite !zsum_delta.
  - rewrite (zsum_ext _ (λ k, kronecker r k * cell m k c)).
    2: { intros k Hk. rewrite cell_cnot_rows by done.
         rewrite bool_decide_eq_false_2 by done. by rewrite cell_identity. }
    rewrite zsum_delta by done. by rewrite bit_mod_2.
Qed.

Lemma cnot_rows_twice_identity n i j :
  0 ≤ i < n → 0 ≤ j < n → i ≠ j →
  cnot_rows n i j (cnot_rows n i j (z2_identity n)) = z2_identity n.
Proof.
  intros Hi Hj Hij. assert (0 ≤ n) as Hn by lia.
  pose proof (identity_z2_matrix n Hn) as HI.
  pose proof (cnot_rows_z2_matrix n i j _ HI) as HE.
  apply (z2_matrix_ext n); [by apply cnot_rows_z2_matrix|done|].
  intros r c Hr Hc. rewrite !cell_cnot_rows by done.
  rewrite (bool_decide_eq_false_2 (i = j)), (bool_decide_eq_true_2 (j = j)) by done.
  rewrite !cell_identity by done. unfold kronecker.
  repeat case_bool_decide; try done; lia.
Qed.

Lemma cnot_rows_invertible n i j m :
  0 ≤ i < n → 0 ≤ j < n → i ≠ j →
  z2_invertible n m → z2_invertible n (cnot_rows n i j m).
Proof.
  intros Hi Hj Hij [Hm (inv & Hinv & H1 & H2)]. assert (0 ≤ n) as Hn by lia.
  pose proof (identity_z2_matrix n Hn) as HI.
  set (E := cnot_rows n i j (z2_identity n)).
  assert (z2_matrix n E) as HE by (by apply cnot_rows_z2_matrix).
  assert (z2_matrix_product n E E = z2_identity n) as HEE.
  { unfold E at 1. rewrite <- cnot_rows_product by done.
    by apply cnot_rows_twice_identity. }
  split; [by apply cnot_rows_z2_matrix|].
  rewrite (cnot_rows_product n i j m) by done. fold E.
  exists (z2_matrix_product n inv E). split_and!.
  - by apply product_z2_matrix.
  - rewrite product_assoc, <- (product_assoc n m), H1, product_identity_l by done.
    done.
  - rewrite product_assoc, <- (product_assoc n E), HEE, product_identity_l by done.
    done.
Qed.
End Invertibility.

Section InvertibleLinearPart.
Import CNOTDihedral.

Lemma init_linear n e : __init__ n = Ok e → linear e = z2_identity n ∧ 1 ≤ n.
Proof.
  unfold __init__, SpecialPolynomial.__init__, mbind, res_mbind, res_bind, assert.
  case_bool_decide; [|done]. simpl. by intros [= <-].
Qed.





End InvertibleLinearPart.

(** ** The zero-CNOT dictionary *)

Section IdentityRows.
Import CNOTDihedral.

Lemma support_of_cons_offset (k : nat) x (row : list Z) :
  (λ je : nat * Z, Z.of_nat je.1)
    <$> filter (λ je, je.2 ≠ 0) (imap (λ j e, ((k + j)%nat, e)) (x :: row))
  = (if decide (x ≠ 0) then [Z.of_nat k] else []) ++
    ((λ je : nat * Z, Z.of_nat je.1)
       <$> filter (λ je, je.2 ≠ 0) (imap (λ j e, ((S k + j)%nat, e)) row)).
Proof.
  rewrite imap_cons, filter_cons. simpl.
  rewrite (imap_ext _ (λ j e, ((S k + j)%nat, e))) by (intros; simpl; f_equal; lia).
  case_decide; simpl; [|done]. do 2 f_equal. lia.
Qed.

Lemma support_of_zeros_offset (k b : nat) :
  (λ je : nat * Z, Z.of_nat je.1)
    <$> filter (λ je, je.2 ≠ 0) (imap (λ j e, ((k + j)%nat, e)) (replicate b 0))
  = [].
Proof.
  revert k. induction b as [|b IH]; intros k; [done|].
  change (replicate (S b) 0) with (0 :: replicate b 0).
  by rewrite support_of_cons_offset, decide_False, IH by lia.
Qed.

Lemma support_of_unit_offset (k a b : nat) :
  (λ je : nat * Z, Z.of_nat je.1)
    <$> filter (λ je, je.2 ≠ 0)
          (imap (λ j e, ((k + j)%nat, e)) (replicate a 0 ++ 1 :: replicate b 0))
  = [Z.of_nat (k + a)].
Proof.
  revert k. induction a as [|a IH]; intros k.
  - change (replicate 0 0 ++ 1 :: replicate b 0) with (1 :: replicate b 0).
    rewrite support_of_cons_offset, decide_True, support_of_zeros_offset by done.
    simpl. do 2 f_equal. lia.
  - change (replicate (S a) 0 ++ 1 :: replicate b 0)
      with (0 :: (replicate a 0 ++ 1 :: replicate b 0)).
    rewrite support_of_cons_offset, decide_False, IH by lia.
    simpl. do 2 f_equal. lia.
Qed.

Lemma identity_row n j :
  0 ≤ j < n →
  (λ c, kronecker j c) <$> py_range n
  = replicate (Z.to_nat j) 0 ++ 1 :: replicate (Z.to_nat (n - j - 1)) 0.
Proof.
  intros Hj. apply (list_eq_same_length _ _ (Z.to_nat n)).
  - rewrite length_app, length_cons, !length_replicate. lia.
  - rewrite length_fmap. apply length_seqZ.
  - intros i x y Hi Hx Hy.
    rewrite list_lookup_fmap in Hx. unfold py_range in Hx.
    rewrite lookup_seqZ_lt in Hx by lia. simpl in Hx. simplify_eq.
    unfold kronecker.
    destruct (decide (i < Z.to_nat j)%nat).
    + rewrite lookup_app_l in Hy by (rewrite length_replicate; lia).
      apply lookup_replicate in Hy as [-> _].
      by rewrite bool_decide_eq_false_2 by lia.
    + rewrite lookup_app_r in Hy by (rewrite length_replicate; lia).
      rewrite length_replicate in Hy.
      destruct (i - Z.to_nat j)%nat as [|d] eqn:Hd; simpl in Hy.
      * simplify_eq. by rewrite bool_decide_eq_true_2 by lia.
      * apply lookup_replicate in Hy as [-> _].
        by rewrite bool_decide_eq_false_2 by lia.
Qed.

(** The support of row [j] of the identity matrix is [[j]]. *)
Lemma support_of_identity_row n j :
  0 ≤ j < n → support_of ((λ c, kronecker j c) <$> py_range n) = [j].
Proof.
  intros Hj. rewrite identity_row by done.
  unfold support_of.
  etrans; [exact (support_of_unit_offset 0 (Z.to_nat j) (Z.to_nat (n - j - 1)))|].
  f_equal. lia.
Qed.

Lemma identity_lookup n j :
  0 ≤ j < n → z2_identity n !! Z.to_nat j = Some ((λ c, kronecker j c) <$> py_range n).
Proof.
  intros Hj. unfold z2_identity. by rewrite list_lookup_fmap, lookup_py_range.
Qed.
End IdentityRows.

Section DiagonalPhase.
Import CNOTDihedral.

Lemma getitem_lookup {A} (l : list A) j x :
  0 ≤ j → l !! Z.to_nat j = Some x → getitem l j = Ok x.
Proof.
  intros Hj Hx. unfold getitem, py_index.
  apply lookup_lt_Some in Hx as Hlt.
  rewrite bool_decide_eq_true_2 by lia. by rewrite Hx.
Qed.

Lemma setitem_in_range {A} (l : list A) j x :
  0 ≤ j < Z.of_nat (length l) → setitem l j x = Ok (<[Z.to_nat j := x]> l).
Proof.
  intros Hj. unfold setitem, py_index. by rewrite bool_decide_eq_true_2 by lia.
Qed.

Lemma valid_term_single n j : 0 ≤ j < n → valid_term n [j].
Proof.
  intros. split_and!; simpl; [lia| |constructor].
  apply Forall_cons_2; [done|constructor].
Qed.

Lemma get_term_single p j x :
  0 ≤ j < SpecialPolynomial.n_vars p →
  SpecialPolynomial.weight_1 p !! Z.to_nat j = Some x →
  SpecialPolynomial.get_term p [j] = Ok x.
Proof.
  intros Hj Hx. unfold SpecialPolynomial.get_term.
  rewrite check_indices_ok by (by apply valid_term_single). simpl.
  apply getitem_lookup; [lia|done].
Qed.

Lemma set_term_single p j v :
  0 ≤ j < SpecialPolynomial.n_vars p →
  j < Z.of_nat (length (SpecialPolynomial.weight_1 p)) →
  SpecialPolynomial.set_term [j] v p
  = (Ok (), SpecialPolynomial.set_weight_1
              (<[Z.to_nat j := v `mod` 8]> (SpecialPolynomial.weight_1 p)) p).
Proof.
  intros Hj Hlen. unfold SpecialPolynomial.set_term. st_unfold.
  rewrite check_indices_ok by (by apply valid_term_single).
  rewrite setitem_in_range by lia. done.
Qed.

(** [phase] on a qubit whose row has that qubit alone as its support
    changes one linear coefficient. *)
Lemma phase_single_support k j e row x :
  0 ≤ j < num_qubits e →
  SpecialPolynomial.n_vars (poly e) = num_qubits e →
  linear e !! Z.to_nat j = Some row → support_of row = [j] →
  SpecialPolynomial.weight_1 (poly e) !! Z.to_nat j = Some x →
  phase k j e
  = (Ok (),
     set_poly
       (SpecialPolynomial.set_weight_1
          (<[Z.to_nat j :=
               ((x + (if bool_decide (item (shift e) j = 1)
                      then (7 * k) `mod` 8 else k)) `mod` 8) `mod` 8]>
             (SpecialPolynomial.weight_1 (poly e)))
          (poly e)) e).
Proof.
  intros Hj Hn Hrow Hsup Hx. unfold phase.
  unfold mbind at 1, st_mbind, st_bind, st_get.
  unfold mbind at 1, st_mbind, st_bind, st_assert, assert.
  rewrite bool_decide_eq_true_2 by lia.
  unfold mbind at 1, st_mbind, st_bind.
  rewrite bool_decide_eq_true_2 by lia.
  rewrite Hrow. simpl default. rewrite Hsup. simpl combinations. simpl st_for.
  unfold mbind, st_mbind, st_bind, st_ret.
  rewrite on_poly_eta. unfold st_read. simpl.
  rewrite (get_term_single _ _ x) by (done || lia). simpl.
  replace (set_poly (poly e) e) with e by (by destruct e).
  rewrite on_poly_eta, set_term_single by (rewrite ?Hn; try done;
    apply lookup_lt_Some in Hx; lia).
  done.
Qed.
End DiagonalPhase.

Section ZeroCnotElements.
Import CNOTDihedral.

Lemma init_diagonal n :
  1 ≤ n → __init__ n = Ok (diagonal_element n (py_repeat n 0) (py_repeat n 0)).
Proof.
  intros Hn. unfold __init__, SpecialPolynomial.__init__, mbind, res_mbind, res_bind, assert.
  by rewrite bool_decide_eq_true_2 by done.
Qed.

Lemma tabulate_zero n : (λ _ : Z, 0) <$> py_range n = py_repeat n 0.
Proof.
  unfold py_repeat. rewrite <- length_py_range. by apply const_fmap.
Qed.

Lemma tabulate_ext (f g : Z → Z) n :
  (∀ q, 0 ≤ q < n → f q = g q) → f <$> py_range n = g <$> py_range n.
Proof.
  intros H. apply list_fmap_ext. intros ? q Hq%lookup_seqZ. apply H. lia.
Qed.

Lemma lookup_tabulate (f : Z → Z) n m :
  0 ≤ m < n → (f <$> py_range n) !! Z.to_nat m = Some (f m).
Proof. intros. by rewrite list_lookup_fmap, lookup_py_range. Qed.

Lemma insert_tabulate (f g : Z → Z) n m :
  0 ≤ m < n → (∀ q, 0 ≤ q < n → q ≠ m → g q = f q) →
  <[Z.to_nat m := g m]> (f <$> py_range n) = g <$> py_range n.
Proof.
  intros Hm H. apply (list_eq_same_length _ _ (Z.to_nat n)).
  - by rewrite length_fmap, length_py_range.
  - by rewrite length_insert, length_fmap, length_py_range.
  - intros k x y Hk Hx Hy.
    rewrite list_lookup_fmap in Hy. unfold py_range in Hy.
    rewrite lookup_seqZ_lt in Hy by lia. simpl in Hy. simplify_eq.
    destruct (decide (k = Z.to_nat m)) as [->|Hne].
    + rewrite list_lookup_insert_eq in Hx
        by (rewrite length_fmap, length_py_range; lia).
      simplify_eq. f_equal. lia.
    + rewrite list_lookup_insert_ne in Hx by done.
      rewrite list_lookup_fmap in Hx. unfold py_range in Hx.
      rewrite lookup_seqZ_lt in Hx by lia. simpl in Hx. simplify_eq.
      symmetry. apply H; lia.
Qed.

Lemma phase_diagonal n k m w1 sh x :
  0 ≤ m < n → w1 !! Z.to_nat m = Some x → item sh m = 0 →
  phase k m (diagonal_element n w1 sh)
  = (Ok (), diagonal_element n (<[Z.to_nat m := ((x + k) `mod` 8) `mod` 8]> w1) sh).
Proof.
  intros Hm Hx Hsh.
  rewrite (phase_single_support k m _ ((λ c, kronecker m c) <$> py_range n) x);
    simpl; try done.
  - by rewrite Hsh, bool_decide_eq_false_2.
  - by apply identity_lookup.
  - by apply support_of_identity_row.
Qed.

Lemma flip_diagonal n m w1 sh :
  0 ≤ m < n →
  flip m (diagonal_element n w1 sh)
  = (Ok (), diagonal_element n w1 (<[Z.to_nat m := (item sh m + 1) `mod` 2]> sh)).
Proof. intros Hm. by rewrite flip_ok. Qed.

Lemma int_div_exact a b : 0 < b → int_div (a - a `mod` b) b = a `div` b.
Proof.
  intros Hb. unfold int_div.
  replace (a - a `mod` b) with (a `div` b * b) by (pose proof (Z.div_mod a b); lia).
  apply Z.quot_mul. lia.
Qed.

Lemma res_fold_cons {A B} (body : B → A → res B) x l acc :
  res_fold body (x :: l) acc = (body acc x ≫= res_fold body l).
Proof. done. Qed.

Lemma res_bind_Ok {A B} (v : A) (k : A → res B) : (Ok v ≫= k) = k v.
Proof. done. Qed.

(** Below 2^53 the float quotients are the integer quotients. *)
Lemma nearest_double_small m : 0 ≤ m < 2 ^ 53 → nearest_double m = m.
Proof.
  intros Hm. unfold nearest_double. rewrite bool_decide_eq_true_2; [done|].
  destruct (decide (m = 0)) as [->|Hne]; [done|].
  rewrite Z.abs_eq by lia. apply Z.log2_lt_pow2; lia.
Qed.

Lemma truediv_multiple_small a b :
  0 < b → 0 ≤ a < 2 ^ 53 → truediv_multiple (a - a `mod` b) b = Ok (a `div` b).
Proof.
  intros Hb Ha. unfold truediv_multiple.
  assert ((a - a `mod` b) `div` b = a `div` b) as ->.
  { replace (a - a `mod` b) with (a `div` b * b) by (pose proof (Z.div_mod a b); lia).
    apply Z.div_mul. lia. }
  assert (0 ≤ a `div` b < 2 ^ 53) as Hq.
  { split; [apply Z.div_pos; lia|]. apply Z.div_lt_upper_bound; [done|]. nia. }
  cbv zeta. rewrite nearest_double_small by done.
  rewrite bool_decide_eq_true_2; [done|]. rewrite Z.abs_eq by lia.
  apply (Z.lt_trans _ (2 ^ 53)); [lia|]. apply Z.pow_lt_mono_r; lia.
Qed.

Lemma quotient_small i m : 0 ≤ i < 2 ^ 53 → 0 ≤ m → 0 ≤ i `div` 16 ^ m < 2 ^ 53.
Proof.
  intros Hi Hm. assert (0 < 16 ^ m) as Hpow by (apply Z.pow_pos_nonneg; lia).
  split; [apply Z.div_pos; lia|]. apply Z.div_lt_upper_bound; [done|]. nia.
Qed.

(** One pass of the loop over the qubits. *)
Lemma make_dict_0_step_spec n i m circ :
  0 ≤ i < 2 ^ 53 → 0 ≤ m < n →
  ∃ circ',
    make_dict_0_step (zero_cnot_element n i m, circ, i `div` 16 ^ m) m
    = Ok (zero_cnot_element n i (m + 1), circ', i `div` 16 ^ (m + 1)).
Proof.
  intros Hi Hm. unfold make_dict_0_step.
  pose proof (quotient_small i m Hi ltac:(lia)) as Hnum.
  rewrite !(truediv_multiple_small (i `div` 16 ^ m)) by (done || lia).
  rewrite res_bind_Ok. cbv zeta.
  fold (tpower_of i m). fold (xpower_of i m).
  replace ((i `div` 16 ^ m) `div` 16) with (i `div` 16 ^ (m + 1))
    by (rewrite Z.pow_add_r, Z.pow_1_r, Z.div_div by lia; done).
  set (w1 := (λ q, if bool_decide (q < m) then tpower_of i q else 0) <$> py_range n).
  set (sh := (λ q, if bool_decide (q < m) then xpower_of i q else 0) <$> py_range n).
  set (w1' := (λ q, if bool_decide (q < m + 1) then tpower_of i q else 0) <$> py_range n).
  set (sh' := (λ q, if bool_decide (q < m + 1) then xpower_of i q else 0) <$> py_range n).
  assert (zero_cnot_element n i m = diagonal_element n w1 sh) as -> by done.
  assert (zero_cnot_element n i (m + 1) = diagonal_element n w1' sh') as -> by done.
  assert (w1 !! Z.to_nat m = Some 0) as Hw1.
  { unfold w1. rewrite lookup_tabulate by done. by rewrite bool_decide_eq_false_2 by lia. }
  assert (item sh m = 0) as Hsh.
  { unfold item, sh. rewrite lookup_tabulate by done.
    by rewrite bool_decide_eq_false_2 by lia. }
  assert (0 ≤ tpower_of i m < 8) as Ht by (by apply Z.mod_pos_bound).
  assert (0 ≤ xpower_of i m < 2) as Hxp by (by apply Z.mod_pos_bound).
  assert (∃ c1, (if bool_decide (0 < tpower_of i m)
                 then elem ← run_on (phase (tpower_of i m) m) (diagonal_element n w1 sh);
                      Ok (elem, circ ++ [Tu1 (tpower_of i m) m])
                 else Ok (diagonal_element n w1 sh, circ))
                = Ok (diagonal_element n w1' sh, c1)) as [c1 ->].
  { case_bool_decide as Hpos.
    - unfold run_on. rewrite (phase_diagonal n _ m w1 sh 0) by done. simpl.
      eexists. do 3 f_equal. unfold w1, w1'.
      rewrite Z.add_0_l, Z.mod_mod, (Z.mod_small (tpower_of i m)) by lia.
      rewrite <- (insert_tabulate
                    (λ q, if bool_decide (q < m) then tpower_of i q else 0)
                    (λ q, if bool_decide (q < m + 1) then tpower_of i q else 0)
                    n m); [|done|].
      + by rewrite bool_decide_eq_true_2 by lia.
      + intros q Hq Hne.
        destruct (decide (q < m)); rewrite ?bool_decide_eq_true_2,
          ?bool_decide_eq_false_2 by lia; done.
    - eexists. do 3 f_equal. unfold w1, w1'. apply tabulate_ext. intros q Hq.
      destruct (decide (q < m)); [by rewrite !bool_decide_eq_true_2 by lia|].
      rewrite bool_decide_eq_false_2 by lia.
      destruct (decide (q = m)) as [->|]; [|by rewrite bool_decide_eq_false_2 by lia].
      rewrite bool_decide_eq_true_2 by lia. lia. }
  simpl.
  assert (∃ c2, (if bool_decide (xpower_of i m = 1)
                 then elem ← run_on (flip m) (diagonal_element n w1' sh);
                      Ok (elem, c1 ++ [Tx m])
                 else Ok (diagonal_element n w1' sh, c1))
                = Ok (diagonal_element n w1' sh', c2)) as [c2 ->].
  { case_bool_decide as Hx1.
    - unfold run_on. rewrite flip_diagonal by done. simpl.
      eexists. do 3 f_equal. rewrite Hsh. unfold sh, sh'.
      rewrite <- (insert_tabulate
                    (λ q, if bool_decide (q < m) then xpower_of i q else 0)
                    (λ q, if bool_decide (q < m + 1) then xpower_of i q else 0)
                    n m); [|done|].
      + by rewrite bool_decide_eq_true_2, Hx1 by lia.
      + intros q Hq Hne.
        destruct (decide (q < m)); rewrite ?bool_decide_eq_true_2,
          ?bool_decide_eq_false_2 by lia; done.
    - eexists. do 3 f_equal. unfold sh, sh'. apply tabulate_ext. intros q Hq.
      destruct (decide (q < m)); [by rewrite !bool_decide_eq_true_2 by lia|].
      rewrite bool_decide_eq_false_2 by lia.
      destruct (decide (q = m)) as [->|]; [|by rewrite bool_decide_eq_false_2 by lia].
      rewrite bool_decide_eq_true_2 by lia. lia. }
  simpl. by eexists.
Qed.

Lemma make_dict_0_steps n i (len : nat) m circ :
  0 ≤ i < 2 ^ 53 → 0 ≤ m → m + Z.of_nat len ≤ n →
  ∃ circ',
    res_fold make_dict_0_step (seqZ m (Z.of_nat len))
      (zero_cnot_element n i m, circ, i `div` 16 ^ m)
    = Ok (zero_cnot_element n i (m + Z.of_nat len), circ',
          i `div` 16 ^ (m + Z.of_nat len)).
Proof.
  intros Hi. revert m circ. induction len as [|len IH]; intros m circ Hm Hlen.
  - rewrite seqZ_nil by lia. simpl. rewrite Z.add_0_r. by eexists.
  - rewrite seqZ_cons, res_fold_cons by lia.
    destruct (make_dict_0_step_spec n i m circ) as [c1 ->]; [lia..|].
    rewrite res_bind_Ok. destruct (IH (m + 1) c1) as [c2 Hc2]; [lia..|].
    replace (Z.pred (Z.of_nat (S len))) with (Z.of_nat len) by lia.
    replace (Z.succ m) with (m + 1) by lia.
    rewrite Hc2. exists c2.
    by replace (m + 1 + Z.of_nat len) with (m + Z.of_nat (S len)) by lia.
Qed.

(** The entry of [i]: for every qubit [q] the linear coefficient is the
    phase power and the shift bit the flip bit of digit [q]. *)
Lemma make_dict_0_entry_spec n i :
  1 ≤ n → 0 ≤ i < 2 ^ 53 →
  ∃ circ, make_dict_0_entry n i = Ok (zero_cnot_element n i n, circ).
Proof.
  intros Hn Hi. unfold make_dict_0_entry. rewrite init_diagonal by done.
  assert (diagonal_element n (py_repeat n 0) (py_repeat n 0) = zero_cnot_element n i 0)
    as ->.
  { unfold zero_cnot_element. rewrite <- !tabulate_zero.
    f_equal; apply tabulate_ext; intros q Hq; by rewrite bool_decide_eq_false_2 by lia. }
  destruct (make_dict_0_steps n i (Z.to_nat n) 0 []) as [circ Hfold]; [lia..|].
  rewrite Z2Nat.id, Z.pow_0_r, Z.div_1_r in Hfold by lia.
  unfold py_range. rewrite res_bind_Ok, Hfold, res_bind_Ok. by eexists.
Qed.

Lemma zero_cnot_element_wf n i : 1 ≤ n → wf_elem n (zero_cnot_element n i n).
Proof.
  intros Hn.
  assert (0 ≤ int_div (n * (n - 1)) 2) by (apply Z.quot_pos; nia).
  assert (0 ≤ int_div (n * (n - 1) * (n - 2)) 6).
  { apply Z.quot_pos; [|done]. destruct (decide (n = 1)) as [->|]; [done|]. nia. }
  split; [done| |by apply identity_z2_matrix; lia|].
  - split; simpl; try done; try lia.
    + by rewrite length_fmap, length_py_range, Z2Nat.id by lia.
    + unfold py_repeat. rewrite length_replicate. lia.
    + unfold py_repeat. rewrite length_replicate. lia.
    + apply Forall_fmap, Forall_forall. intros q _. simpl.
      case_bool_decide; [by apply Z.mod_pos_bound|lia].
    + apply Forall_replicate. lia.
    + apply Forall_replicate. lia.
  - split; simpl.
    + by rewrite length_fmap, length_py_range, Z2Nat.id by lia.
    + apply Forall_fmap, Forall_forall. intros q _. simpl.
      case_bool_decide; [|by left].
      pose proof (Z.mod_pos_bound (i `div` 16 ^ q) 2). unfold xpower_of. lia.
Qed.

Lemma digit_of_powers d :
  d `mod` 16 = 2 * ((d `div` 2) `mod` 8) + d `mod` 2.
Proof.
  pose proof (Z.div_mod d 16). pose proof (Z.div_mod d 2).
  pose proof (Z.div_mod (d `div` 2) 8).
  assert ((d `div` 2) `div` 8 = d `div` 16) by (by rewrite Z.div_div by lia).
  lia.
Qed.

Lemma digits_determine (k : nat) i i' :
  0 ≤ i < 16 ^ Z.of_nat k → 0 ≤ i' < 16 ^ Z.of_nat k →
  (∀ q, 0 ≤ q < Z.of_nat k →
     (i `div` 16 ^ q) `mod` 16 = (i' `div` 16 ^ q) `mod` 16) →
  i = i'.
Proof.
  revert i i'. induction k as [|k IH]; intros i i' Hi Hi' Hd.
  - simpl in *. lia.
  - rewrite Nat2Z.inj_succ, Z.pow_succ_r in Hi, Hi' by lia.
    assert (i `div` 16 = i' `div` 16) as Hdiv.
    { apply IH.
      - split; [apply Z.div_pos; lia|]. apply Z.div_lt_upper_bound; lia.
      - split; [apply Z.div_pos; lia|]. apply Z.div_lt_upper_bound; lia.
      - intros q Hq. rewrite !Z.div_div by lia.
        replace (16 * 16 ^ q) with (16 ^ (q + 1))
          by (rewrite Z.pow_add_r, Z.pow_1_r by lia; lia).
        apply Hd. lia. }
    pose proof (Hd 0 ltac:(lia)) as H0. rewrite Z.pow_0_r, !Z.div_1_r in H0.
    pose proof (Z.div_mod i 16). pose proof (Z.div_mod i' 16). lia.
Qed.

(** Distinct numbers below 16^n give distinct elements. *)
Lemma zero_cnot_element_inj n i i' :
  1 ≤ n → 0 ≤ i < 16 ^ n → 0 ≤ i' < 16 ^ n →
  zero_cnot_element n i n = zero_cnot_element n i' n → i = i'.
Proof.
  intros Hn Hi Hi' Heq. apply (digits_determine (Z.to_nat n));
    rewrite ?Z2Nat.id by lia; [done..|].
  intros q Hq. rewrite !digit_of_powers.
  unfold zero_cnot_element, diagonal_element in Heq.
  injection Heq as Hw1 Hsh.
  apply (f_equal (λ l, l !! Z.to_nat q)) in Hw1, Hsh.
  rewrite !lookup_tabulate in Hw1, Hsh by done.
  rewrite !bool_decide_eq_true_2 in Hw1, Hsh by lia.
  unfold tpower_of, xpower_of in *. simplify_eq. lia.
Qed.
End ZeroCnotElements.

Section ZeroCnotDictionary.
Import CNOTDihedral.

Lemma zero_cnot_key_inj n i i' :
  1 ≤ n → 0 ≤ i < 16 ^ n → 0 ≤ i' < 16 ^ n →
  key (zero_cnot_element n i n) = key (zero_cnot_element n i' n) → i = i'.
Proof.
  intros Hn Hi Hi' Hkey. apply (zero_cnot_element_inj n); [done..|].
  by apply (elem_key_inj n); [apply zero_cnot_element_wf..|].
Qed.

(** On at most 13 qubits the numbers below 16^n are below 2^53. *)
Lemma pow_16_small n : 0 ≤ n ≤ 13 → 16 ^ n ≤ 2 ^ 53.
Proof.
  intros Hn. apply (Z.le_trans _ (16 ^ 13)); [apply Z.pow_le_mono_r; lia|].
  vm_compute. discriminate.
Qed.

Lemma make_dict_0_fold n (l : list Z) (obj : gmap string (t * list gate_tuple)) :
  1 ≤ n ≤ 13 → NoDup l → (∀ i, i ∈ l → 0 ≤ i < 16 ^ n) →
  (∀ i, i ∈ l → obj !! key (zero_cnot_element n i n) = None) →
  ∃ obj',
    res_fold (λ obj i,
                '(elem, circ) ← make_dict_0_entry n i;
                Ok (<[key elem := (elem, circ)]> obj)) l obj = Ok obj' ∧
    size obj' = (size obj + length l)%nat ∧
    (∀ i, i ∈ l → ∃ circ,
       obj' !! key (zero_cnot_element n i n) = Some (zero_cnot_element n i n, circ)) ∧
    (∀ k v, obj' !! k = Some v →
       obj !! k = Some v ∨
       ∃ i, i ∈ l ∧ k = key (zero_cnot_element n i n) ∧ v.1 = zero_cnot_element n i n) ∧
    (∀ k v, obj !! k = Some v → obj' !! k = Some v).
Proof.
  intros [Hn Hn13]. pose proof (pow_16_small n ltac:(lia)) as Hpow.
  revert obj. induction l as [|i l IH]; intros obj Hnd Hrange Hfresh.
  - exists obj. split_and!; [done|simpl; lia| |by left|done].
    intros i Hi. by apply elem_of_nil in Hi.
  - apply NoDup_cons in Hnd as [Hi Hnd].
    assert (0 ≤ i < 16 ^ n) as Hir by (apply Hrange; left).
    destruct (make_dict_0_entry_spec n i) as [circ Hentry]; [lia..|].
    rewrite res_fold_cons, Hentry. rewrite res_bind_Ok.
    set (obj1 := <[key (zero_cnot_element n i n) := (zero_cnot_element n i n, circ)]> obj).
    destruct (IH obj1) as (obj' & Hfold & Hsize & Hin & Hout & Hkeep); [done|..].
    { intros i' Hi'. apply Hrange. by right. }
    { intros i' Hi'. unfold obj1. rewrite lookup_insert_ne.
      - apply Hfresh. by right.
      - intros Heq. apply zero_cnot_key_inj in Heq; [|done|done|apply Hrange; by right].
        by subst. }
    exists obj'. split_and!.
    + exact Hfold.
    + rewrite Hsize. unfold obj1.
      rewrite map_size_insert_None by (apply Hfresh; left). simpl. lia.
    + intros i' [->|Hi']%elem_of_cons; [|by apply Hin].
      exists circ. apply Hkeep. unfold obj1. by rewrite lookup_insert_eq.
    + intros k v Hk. destruct (Hout k v Hk) as [Hobj1|(i' & Hi' & -> & Hv)].
      * unfold obj1 in Hobj1. apply lookup_insert_Some in Hobj1 as [[<- <-]|[_ ?]].
        -- right. exists i. split_and!; [by left|done..].
        -- by left.
      * right. exists i'. split_and!; [by right|done..].
    + intros k v Hk. apply Hkeep. unfold obj1. rewrite lookup_insert_ne; [done|].
      intros <-. rewrite Hfresh in Hk by (by left). done.
Qed.

End ZeroCnotDictionary.

(** ** Polynomial arithmetic on at most three variables *)

Section SmallPolynomials.
Import SpecialPolynomial.

Ltac poly_fields H :=
  destruct H as [?Hpos ?Hvars ?Hnc2 ?Hnc3 ?Hw0 ?Hlen1 ?Hlen2 ?Hlen3 ?Hw1 ?Hw2 ?Hw3].

Lemma terms_closed_small n : 1 ≤ n ≤ 3 → terms_closed n = true.
Proof.
  intros Hn. assert (n = 1 ∨ n = 2 ∨ n = 3) as [->|[->| ->]] by lia;
    vm_compute; reflexivity.
Qed.

Lemma terms_not_closed_4 : terms_closed 4 = false.
Proof. vm_compute. reflexivity. Qed.

Lemma check_indices_inv n l :
  check_indices n l = Ok () → (length l < 4)%nat ∧ Forall (λ x, 0 ≤ x < n) l.
Proof.
  unfold check_indices, assert, mbind, res_mbind, res_bind.
  case_bool_decide; [|done]. destruct (existsb _ l) eqn:Hex; [done|]. intros _.
  split; [lia|]. apply Forall_forall. intros x Hx.
  destruct (decide (0 ≤ x < n)) as [|Hout]; [done|].
  assert (existsb (λ x, bool_decide (x < 0) || bool_decide (n ≤ x)) l = true) as Htrue.
  { apply existsb_exists. exists x. split; [by apply list_elem_of_In|].
    apply orb_true_iff. rewrite !bool_decide_eq_true. lia. }
  congruence.
Qed.

Lemma term_ok_check n l : term_ok n l = true → check_indices n l = Ok ().
Proof. unfold term_ok. by destruct (check_indices n l) as [[]|]. Qed.

Lemma getitem_coefficient w j :
  coefficients w → 0 ≤ j < Z.of_nat (length w) →
  ∃ v, getitem w j = Ok v ∧ 0 ≤ v < 8.
Proof.
  intros Hw Hj. destruct (lookup_lt_is_Some_2 w (Z.to_nat j)) as [v Hv]; [lia|].
  exists v. split; [apply getitem_lookup; [lia|done]|].
  exact (Forall_lookup_1 _ _ _ _ Hw Hv).
Qed.

Lemma get_term_ok n p l :
  wf_poly n p → term_ok n l = true → ∃ v, get_term p l = Ok v ∧ 0 ≤ v < 8.
Proof.
  intros Hp Hl. pose proof (term_ok_check n l Hl) as Hcheck.
  destruct (check_indices_inv n l Hcheck) as [Hlen Hrange].
  poly_fields Hp. unfold get_term. rewrite Hvars, Hcheck.
  unfold term_ok in Hl. rewrite Hcheck in Hl.
  change (Ok () ≫= ?k) with (k ()). cbv beta.
  destruct l as [|i0 [|i1 [|i2 [|]]]]; simpl in Hlen; try lia.
  - by exists (weight_0 p).
  - apply Forall_cons_1 in Hrange as [? _].
    apply getitem_coefficient; [done|lia].
  - apply bool_decide_eq_true in Hl.
    apply getitem_coefficient; [done|lia].
  - apply bool_decide_eq_true in Hl.
    apply getitem_coefficient; [done|lia].
Qed.

Lemma coefficients_insert w k v :
  coefficients w → 0 ≤ v < 8 → coefficients (<[k := v]> w).
Proof.
  intros Hw Hv. destruct (decide (k < length w)%nat).
  - by apply Forall_insert.
  - by rewrite list_insert_ge by lia.
Qed.

Lemma set_term_ok n p l v :
  wf_poly n p → term_ok n l = true →
  ∃ p', set_term l v p = (Ok (), p') ∧ wf_poly n p'.
Proof.
  intros Hp Hl. pose proof (term_ok_check n l Hl) as Hcheck.
  destruct (check_indices_inv n l Hcheck) as [Hlen Hrange].
  pose proof (Z.mod_pos_bound v 8 ltac:(done)) as Hv.
  poly_fields Hp. unfold set_term. st_unfold. rewrite Hvars, Hcheck.
  unfold term_ok in Hl. rewrite Hcheck in Hl.
  destruct l as [|i0 [|i1 [|i2 [|]]]]; simpl in Hlen; try lia.
  - eexists. split; [done|]. by split.
  - apply Forall_cons_1 in Hrange as [? _].
    rewrite setitem_in_range by lia. eexists. split; [done|].
    split; simpl; try done; [by rewrite length_insert|by apply coefficients_insert].
  - apply bool_decide_eq_true in Hl.
    rewrite setitem_in_range by lia. eexists. split; [done|].
    split; simpl; try done; [by rewrite length_insert|by apply coefficients_insert].
  - apply bool_decide_eq_true in Hl.
    rewrite setitem_in_range by lia. eexists. split; [done|].
    split; simpl; try done; [by rewrite length_insert|by apply coefficients_insert].
Qed.

Lemma terms_closed_inv n t :
  terms_closed n = true → t ∈ all_terms n →
  term_ok n t = true ∧ ∀ u, u ∈ all_terms n → term_ok n (set_union t u) = true.
Proof.
  unfold terms_closed. rewrite forallb_forall. intros Hall Ht.
  apply list_elem_of_In, Hall, andb_true_iff in Ht as [Ht Hu]. split; [done|].
  intros u Hin. rewrite forallb_forall in Hu. by apply Hu, list_elem_of_In.
Qed.

Lemma st_for_ok {S A} (P : S → Prop) (body : A → M S ()) (l : list A) (s : S) :
  (∀ x s0, x ∈ l → P s0 → ∃ s1, body x s0 = (Ok (), s1) ∧ P s1) →
  P s → ∃ s', st_for l body s = (Ok (), s') ∧ P s'.
Proof.
  revert s. induction l as [|x l IH]; intros s Hbody Hs; [by exists s|].
  destruct (Hbody x s) as (s1 & Hx & Hs1); [by left|done|].
  destruct (IH s1) as (s' & Hl & Hs'); [|done|].
  { intros y s0 Hy. apply Hbody. by right. }
  exists s'. split; [|done]. simpl. st_unfold. by rewrite Hx.
Qed.

Lemma res_fold_ok {A B} (P : B → Prop) (body : B → A → res B) (l : list A) (acc : B) :
  (∀ x b, x ∈ l → P b → ∃ b', body b x = Ok b' ∧ P b') →
  P acc → ∃ r, res_fold body l acc = Ok r ∧ P r.
Proof.
  revert acc. induction l as [|x l IH]; intros acc Hbody Hacc; [by exists acc|].
  destruct (Hbody x acc) as (b' & Hx & Hb'); [by left|done|].
  destruct (IH b') as (r & Hl & Hr); [|done|].
  { intros y b Hy. apply Hbody. by right. }
  exists r. split; [|done]. simpl. by rewrite Hx.
Qed.

Lemma res_map_fmap {A B} (f : A → res B) (g : A → B) (l : list A) :
  (∀ x, x ∈ l → f x = Ok (g x)) → res_map f l = Ok (g <$> l).
Proof.
  induction l as [|x l IH]; intros Hf; [done|].
  simpl. rewrite Hf by left. rewrite IH; [done|]. intros y Hy. apply Hf. by right.
Qed.

Lemma poly_init_ok n :
  1 ≤ n → ∃ p, __init__ n = Ok p ∧ wf_poly n p ∧ weight_0 p = 0.
Proof.
  intros Hn. unfold __init__, assert. rewrite bool_decide_eq_true_2 by done.
  eexists. split; [done|]. split; [|done].
  assert (0 ≤ int_div (n * (n - 1)) 2) by (apply Z.quot_pos; nia).
  assert (0 ≤ int_div (n * (n - 1) * (n - 2)) 6).
  { apply Z.quot_pos; [|lia]. assert (n = 1 ∨ 2 ≤ n) as [->|] by lia; [done|nia]. }
  split; simpl; unfold py_repeat; rewrite ?length_replicate; try done; try lia;
    apply Forall_replicate; lia.
Qed.

Lemma mul_monomial_ok n p u :
  wf_poly n p → terms_closed n = true → u ∈ all_terms n →
  ∃ p', mul_monomial p u = Ok p' ∧ wf_poly n p'.
Proof.
  intros Hp Hclosed Hu. unfold mul_monomial. rewrite (wf_n_vars _ _ Hp).
  destruct (terms_closed_inv n u Hclosed Hu) as [Hok _].
  rewrite (term_ok_check _ _ Hok).
  destruct (poly_init_ok n (wf_n_pos _ _ Hp)) as (zero & -> & Hzero & _).
  change (Ok () ≫= ?k) with (k ()). change (Ok zero ≫= ?k) with (k zero). cbv beta.
  case_bool_decide; [by exists p|].
  match goal with
  | |- context [run_on (st_for ?l ?body) ?z] =>
      destruct (st_for_ok (wf_poly n) body l z) as (p' & Hrun & Hp'); [|done|]
  end.
  - intros t s0 Ht Hs0.
    destruct (terms_closed_inv n t Hclosed Ht) as [Hterm Hunion].
    destruct (get_term_ok n p t Hp Hterm) as (value & Hvalue & _).
    destruct (get_term_ok n s0 (set_union t u) Hs0 (Hunion u Hu)) as (cur & Hcur & _).
    destruct (set_term_ok n s0 (set_union t u) ((cur + value) `mod` 8) Hs0 (Hunion u Hu))
      as (s1 & Hset & Hs1).
    exists s1. split; [|done]. st_unfold. by rewrite Hvalue, Hcur.
  - exists p'. split; [|done]. unfold run_on. by rewrite Hrun.
Qed.

Lemma mul_int_ok n p v : wf_poly n p → ∃ p', __mul__int p v = Ok p' ∧ wf_poly n p'.
Proof.
  intros Hp. unfold __mul__int. rewrite (wf_n_vars _ _ Hp).
  destruct (poly_init_ok n (wf_n_pos _ _ Hp)) as (zero & -> & Hzero & _).
  eexists. split; [done|]. poly_fields Hp. poly_fields Hzero.
  split; simpl; rewrite ?length_fmap; try done; try congruence;
    try (apply Z.mod_pos_bound; lia);
    apply Forall_fmap, Forall_forall; intros x _; apply Z.mod_pos_bound; lia.
Qed.

Lemma coefficients_zip_with (f : Z → Z → Z) w1 w2 :
  (∀ x y, 0 ≤ f x y < 8) → coefficients (zip_with f w1 w2).
Proof.
  intros Hf. revert w2. induction w1 as [|x w1 IH]; intros [|y w2]; simpl;
    try apply Forall_nil_2. apply Forall_cons_2; [apply Hf|apply IH].
Qed.

Lemma add_ok n p q :
  wf_poly n p → wf_poly n q → ∃ r, __add__ p q = Ok r ∧ wf_poly n r.
Proof.
  intros Hp Hq. unfold __add__, assert. rewrite (wf_n_vars _ _ Hp), (wf_n_vars _ _ Hq).
  rewrite bool_decide_eq_true_2 by done.
  destruct (poly_init_ok n (wf_n_pos _ _ Hp)) as (zero & -> & Hzero & _).
  eexists. split; [done|]. poly_fields Hp. poly_fields Hq. poly_fields Hzero.
  split; simpl; rewrite ?length_zip_with; try done; try lia;
    try (apply Z.mod_pos_bound; lia);
    apply coefficients_zip_with; intros; apply Z.mod_pos_bound; lia.
Qed.

Lemma mul_ok n p q :
  wf_poly n p → wf_poly n q → terms_closed n = true →
  ∃ r, __mul__ p q = Ok r ∧ wf_poly n r.
Proof.
  intros Hp Hq Hclosed. unfold __mul__, assert.
  rewrite (wf_n_vars _ _ Hp), (wf_n_vars _ _ Hq).
  destruct (poly_init_ok n (wf_n_pos _ _ Hp)) as (zero & -> & Hzero & _).
  rewrite bool_decide_eq_true_2 by done.
  change (Ok zero ≫= ?k) with (k zero). change (Ok () ≫= ?k) with (k ()). cbv beta.
  apply res_fold_ok; [|done]. intros t b Ht Hb.
  destruct (terms_closed_inv n t Hclosed Ht) as [Hterm _].
  destruct (get_term_ok n q t Hq Hterm) as (value & -> & _).
  change (Ok value ≫= ?k) with (k value). cbv beta.
  case_bool_decide; [|by exists b].
  destruct (mul_monomial_ok n p t Hp Hclosed Ht) as (temp & -> & Htemp).
  change (Ok temp ≫= ?k) with (k temp). cbv beta.
  destruct (mul_int_ok n temp value Htemp) as (scaled & -> & Hscaled).
  by apply add_ok.
Qed.

Lemma evaluate_ok n p xval :
  wf_poly n p → Z.of_nat (length xval) = n → Forall (wf_poly n) xval →
  terms_closed n = true →
  ∃ r, evaluate p xval = Ok r ∧ wf_poly n r.
Proof.
  intros Hp Hlen Hx Hclosed. unfold evaluate, assert. rewrite (wf_n_vars _ _ Hp).
  rewrite bool_decide_eq_true_2 by done.
  assert (forallb (λ i, bool_decide (n_vars i = n)) xval = true) as ->.
  { apply forallb_forall. intros q Hq. apply bool_decide_eq_true.
    apply list_elem_of_In in Hq. rewrite Forall_forall in Hx. by apply Hx. }
  destruct (poly_init_ok n (wf_n_pos _ _ Hp)) as (zero & -> & Hzero & _).
  change (Ok () ≫= ?k) with (k ()). change (Ok zero ≫= ?k) with (k zero). cbv beta.
  change (Ok zero ≫= ?k) with (k zero). cbv beta.
  assert (wf_poly n (set_weight_0 1 zero)) as Hstart.
  { poly_fields Hzero. by split. }
  apply res_fold_ok; [|done]. intros t b Ht Hb.
  destruct (terms_closed_inv n t Hclosed Ht) as [Hterm _].
  destruct (get_term_ok n p t Hp Hterm) as (value & -> & _).
  change (Ok value ≫= ?k) with (k value). cbv beta.
  case_bool_decide; [|by exists b].
  destruct (check_indices_inv n t (term_ok_check n t Hterm)) as [_ Hrange].
  assert (∃ factors, res_map (getitem xval) t = Ok factors ∧ Forall (wf_poly n) factors)
    as (factors & -> & Hfactors).
  { clear Ht Hterm. induction t as [|j t IH]; [by exists []|].
    apply Forall_cons_1 in Hrange as [Hj Hrange].
    destruct (IH Hrange) as (ys & Hys & Hwf).
    destruct (lookup_lt_is_Some_2 xval (Z.to_nat j)) as [q Hq]; [lia|].
    exists (q :: ys). simpl. rewrite (getitem_lookup xval j q), Hys by (done || lia).
    split; [done|]. apply Forall_cons_2; [|done].
    exact (Forall_lookup_1 _ _ _ _ Hx Hq). }
  change (Ok factors ≫= ?k) with (k factors). cbv beta.
  assert (∃ newterm, res_fold __mul__ factors (set_weight_0 1 zero) = Ok newterm
                     ∧ wf_poly n newterm) as (newterm & -> & Hnewterm).
  { apply res_fold_ok; [|done]. intros q acc Hq Hacc.
    rewrite Forall_forall in Hfactors. apply mul_ok; auto. }
  change (Ok newterm ≫= ?k) with (k newterm). cbv beta.
  destruct (mul_int_ok n newterm value Hnewterm) as (scaled & -> & Hscaled).
  by apply add_ok.
Qed.
End SmallPolynomials.

(** ** Composition on at most three qubits *)

Section Composition.
Import CNOTDihedral.

Lemma bits_cases_1 row :
  Z.of_nat (length row) = 1 → bits row → ∃ x0, row = [x0] ∧ (x0 = 0 ∨ x0 = 1).
Proof.
  destruct row as [|x0 [|]]; simpl; try lia. intros _ Hb.
  apply Forall_cons_1 in Hb as [? _]. by exists x0.
Qed.

Lemma bits_cases_2 row :
  Z.of_nat (length row) = 2 → bits row →
  ∃ x0 x1, row = [x0; x1] ∧ (x0 = 0 ∨ x0 = 1) ∧ (x1 = 0 ∨ x1 = 1).
Proof.
  destruct row as [|x0 [|x1 [|]]]; simpl; try lia. intros _ Hb.
  apply Forall_cons_1 in Hb as [? Hb]. apply Forall_cons_1 in Hb as [? _].
  by exists x0, x1.
Qed.

Lemma bits_cases_3 row :
  Z.of_nat (length row) = 3 → bits row →
  ∃ x0 x1 x2, row = [x0; x1; x2] ∧
    (x0 = 0 ∨ x0 = 1) ∧ (x1 = 0 ∨ x1 = 1) ∧ (x2 = 0 ∨ x2 = 1).
Proof.
  destruct row as [|x0 [|x1 [|x2 [|]]]]; simpl; try lia. intros _ Hb.
  apply Forall_cons_1 in Hb as [? Hb]. apply Forall_cons_1 in Hb as [? Hb].
  apply Forall_cons_1 in Hb as [? _]. by exists x0, x1, x2.
Qed.

Ltac wf_poly_concrete :=
  match goal with
  | |- wf_poly ?n ?p =>
      let q := eval vm_compute in p in
      change (wf_poly n q);
      split; simpl; try done; try lia; forall_concrete lia
  end.

(** On at most three variables [new_var] builds the substituted
    variable: p_J on the support of the row, negated and incremented
    when the shift bit is 1. *)
Lemma new_var_small n row s :
  1 ≤ n ≤ 3 → Z.of_nat (length row) = n → bits row → s = 0 ∨ s = 1 →
  new_var n row s = Ok (substituted_var n row s) ∧
  wf_poly n (substituted_var n row s).
Proof.
  intros Hn Hlen Hbits Hs.
  assert (n = 1 ∨ n = 2 ∨ n = 3) as [->|[->| ->]] by lia.
  - destruct (bits_cases_1 row Hlen Hbits) as (x0 & -> & H0).
    destruct H0 as [-> | ->], Hs as [-> | ->];
      (split; [vm_compute; reflexivity|wf_poly_concrete]).
  - destruct (bits_cases_2 row Hlen Hbits) as (x0 & x1 & -> & H0 & H1).
    destruct H0 as [-> | ->], H1 as [-> | ->], Hs as [-> | ->];
      (split; [vm_compute; reflexivity|wf_poly_concrete]).
  - destruct (bits_cases_3 row Hlen Hbits) as (x0 & x1 & x2 & -> & H0 & H1 & H2).
    destruct H0 as [-> | ->], H1 as [-> | ->], H2 as [-> | ->], Hs as [-> | ->];
      (split; [vm_compute; reflexivity|wf_poly_concrete]).
Qed.

Lemma zip_with_xor v w :
  bits v → bits w → zip_with (λ x y, (x + y) `mod` 2) v w = zip_with Z.lxor v w.
Proof.
  intros Hv. revert w. induction Hv as [|x v Hx _ IH]; intros w Hw; [done|].
  destruct Hw as [|y w Hy Hw]; [done|]. simpl. f_equal; [|by apply IH].
  by destruct Hx as [-> | ->], Hy as [-> | ->].
Qed.

Lemma bits_zip_with_xor v w : bits v → bits w → bits (zip_with Z.lxor v w).
Proof.
  intros Hv. revert w. induction Hv as [|x v Hx _ IH]; intros w Hw;
    [apply Forall_nil_2|].
  destruct Hw as [|y w Hy Hw]; [apply Forall_nil_2|]. simpl.
  apply Forall_cons_2; [|by apply IH].
  destruct Hx as [-> | ->], Hy as [-> | ->]; auto.
Qed.

Lemma matrix_vector_z2_vector n a v : 0 ≤ n → z2_vector n (z2_matrix_vector n a v).
Proof.
  intros Hn. unfold z2_matrix_vector. split.
  - rewrite length_fmap, length_py_range. lia.
  - apply Forall_fmap, Forall_forall. intros i _. apply mod_2_bit.
Qed.

Lemma z2_vector_item n v i :
  z2_vector n v → 0 ≤ i < n →
  getitem v i = Ok (item v i) ∧ (item v i = 0 ∨ item v i = 1).
Proof.
  intros [Hlen Hbits] Hi.
  destruct (lookup_lt_is_Some_2 v (Z.to_nat i)) as [x Hx]; [lia|].
  unfold item. rewrite Hx. simpl. split; [apply getitem_lookup; [lia|done]|].
  exact (Forall_lookup_1 _ _ _ _ Hbits Hx).
Qed.

Lemma z2_matrix_getitem n m i :
  z2_matrix n m → 0 ≤ i < n →
  getitem m i = Ok (default [] (m !! Z.to_nat i)) ∧
  Z.of_nat (length (default [] (m !! Z.to_nat i))) = n ∧
  bits (default [] (m !! Z.to_nat i)).
Proof.
  intros [Hlen Hrows] Hi.
  destruct (lookup_lt_is_Some_2 m (Z.to_nat i)) as [row Hrow]; [lia|].
  rewrite Hrow. simpl. split; [apply getitem_lookup; [lia|done]|].
  exact (Forall_lookup_1 _ _ _ _ Hrows Hrow).
Qed.

(** C2, with the supports taken from the rows of [b.linear]: on at most
    three qubits [a * b] returns an element, it is the composition
    with polynomial p_b + p_a(v_0, ..., v_(n-1)), where v_i is the
    substituted variable of row i of [b.linear] and bit i of [b.shift],
    linear part [a.linear . b.linear] over Z_2 and shift
    [a.linear . b.shift xor a.shift], and it is again an element on n
    qubits. *)
Theorem mul_composes_by_rows_of_b (n : Z) (a b : t) :
  n ≤ 3 → wf_elem n a → wf_elem n b →
  ∃ r, __mul__ a b = Ok r ∧ composition_by_rows_of_b a b = Ok r ∧ wf_elem n r ∧
       linear r = z2_matrix_product n (linear a) (linear b) ∧
       shift r = zip_with Z.lxor (z2_matrix_vector n (linear a) (shift b)) (shift a).
Proof.
  intros Hn Ha Hb.
  pose proof (wf_n_pos _ _ (wf_poly_of _ _ Ha)) as Hpos.
  pose proof (terms_closed_small n ltac:(lia)) as Hclosed.
  set (vs := (λ i, substituted_var n (default [] (linear b !! Z.to_nat i))
                     (item (shift b) i)) <$> py_range n).
  assert (res_map (λ i, row ← getitem (linear b) i;
                        s ← getitem (shift b) i;
                        new_var n row s) (py_range n) = Ok vs) as Hvars.
  { apply res_map_fmap. intros i Hi. apply elem_of_seqZ in Hi.
    destruct (z2_matrix_getitem n (linear b) i (wf_linear _ _ Hb)) as (-> & Hlen & Hbits);
      [lia|].
    destruct (z2_vector_item n (shift b) i (wf_shift _ _ Hb)) as (-> & Hbit); [lia|].
    by apply new_var_small. }
  assert (Forall (wf_poly n) vs) as Hvs.
  { apply Forall_fmap, Forall_forall. intros i Hi. apply elem_of_seqZ in Hi.
    destruct (z2_matrix_getitem n (linear b) i (wf_linear _ _ Hb)) as (_ & Hlen & Hbits);
      [lia|].
    destruct (z2_vector_item n (shift b) i (wf_shift _ _ Hb)) as (_ & Hbit); [lia|].
    by apply new_var_small. }
  destruct (evaluate_ok n (poly a) vs) as (pv & Hpv & Hwf_pv);
    [apply Ha| |done|done|].
  { unfold vs. rewrite length_fmap, length_py_range. lia. }
  destruct (add_ok n (poly b) pv) as (p' & Hp' & Hwf_p'); [apply Hb|done|].
  destruct (poly_init_ok n Hpos) as (zero & Hzero & _).
  exists (mk n p' (z2_matrix_product n (linear a) (linear b))
            (zip_with Z.lxor (z2_matrix_vector n (linear a) (shift b)) (shift a))).
  split_and!.
  - unfold __mul__, __init__, assert.
    rewrite (wf_num_qubits _ _ Ha), (wf_num_qubits _ _ Hb).
    rewrite bool_decide_eq_true_2 by done. rewrite Hzero.
    change (Ok () ≫= ?k) with (k ()). change (Ok zero ≫= ?k) with (k zero). cbv beta.
    change (Ok ?x ≫= ?k) with (k x). cbv beta zeta. rewrite Hvars.
    change (Ok vs ≫= ?k) with (k vs). cbv beta. rewrite Hpv.
    change (Ok pv ≫= ?k) with (k pv). cbv beta. rewrite Hp'.
    change (Ok p' ≫= ?k) with (k p'). cbv beta.
    unfold set_poly, set_linear, set_shift. simpl.
    rewrite _z2matmul_product, _z2matvecmul_product, zip_with_xor; [done| |apply Ha].
    by apply matrix_vector_z2_vector; lia.
  - unfold composition_by_rows_of_b, composition_with.
    rewrite (wf_num_qubits _ _ Ha). fold vs. cbv zeta. rewrite Hpv.
    change (Ok pv ≫= ?k) with (k pv). cbv beta. by rewrite Hp'.
  - split; simpl; [done|done|by apply product_z2_matrix; lia|].
    destruct (wf_shift _ _ Ha) as [Hlen Hbits].
    destruct (matrix_vector_z2_vector n (linear a) (shift b)) as [Hlen' Hbits']; [lia|].
    split; [rewrite length_zip_with; lia|by apply bits_zip_with_xor].
  - done.
  - done.
Qed.

(** On four qubits the products that [evaluate] forms reach
    [mul_monomial] with a union of four variables: the identity after
    [phase(1, 0)], composed with the identity, raises. *)
Lemma mul_raises_on_four_qubits :
  (a ← __init__ 4; a ← run_on (phase 1 0) a; b ← __init__ 4; __mul__ a b)
  = Raise (AssertionError "no term!").
Proof. vm_compute. reflexivity. Qed.

(** C2, as stated, fails on two qubits: with [a] the identity after
    [phase(1, 1)] and [b] the identity after [cnot(0, 1)], the product
    [a * b] has polynomial x_0 + x_1 + 6 x_0 x_1 (the element that
    [cnot(0, 1)] followed by [phase(1, 1)] builds), whereas the
    composition with the supports of the rows of [a.linear] has
    polynomial x_1. *)
Lemma mul_differs_from_composition_as_specified :
  ∃ a b r r',
    generated 2 a ∧ generated 2 b ∧
    __mul__ a b = Ok r ∧ composition_as_specified a b = Ok r' ∧
    poly r = SpecialPolynomial.mk 2 1 0 0 [1; 1] [6] [] ∧
    poly r' = SpecialPolynomial.mk 2 1 0 0 [0; 1] [0] [] ∧
    __mul__ a b ≠ composition_as_specified a b ∧
    (cnot 0 1;; phase 1 1) (element_2 0 0 0 [[1; 0]; [0; 1]] 0 0) = (Ok (), r).
Proof.
  exists (element_2 0 1 0 [[1; 0]; [0; 1]] 0 0), (element_2 0 0 0 [[1; 0]; [1; 1]] 0 0),
    (element_2 1 1 6 [[1; 0]; [1; 1]] 0 0), (element_2 0 1 0 [[1; 0]; [1; 1]] 0 0).
  split_and!.
  - apply (generated_phase 2 (element_2 0 0 0 [[1; 0]; [0; 1]] 0 0) 1 1);
      [by apply generated_identity|]. vm_compute. reflexivity.
  - apply (generated_cnot 2 (element_2 0 0 0 [[1; 0]; [0; 1]] 0 0) 0 1);
      [by apply generated_identity|]. vm_compute. reflexivity.
  - vm_compute. reflexivity.
  - vm_compute. reflexivity.
  - done.
  - done.
  - intros Heq. vm_compute in Heq. done.
  - vm_compute. reflexivity.
Qed.
End Composition.

(** ** The properties at concrete elements *)

Section Instances.
Import CNOTDihedral.

(** C10 at the identity on two qubits. *)
Lemma generators_frame_witness :
  num_qubits (element_2 0 0 0 [[1; 0]; [0; 1]] 0 0) = 2 ∧
  (∀ i j, 0 ≤ i < 2 → 0 ≤ j < 2 → i ≠ j →
     ∃ e', cnot i j (element_2 0 0 0 [[1; 0]; [0; 1]] 0 0) = (Ok (), e') ∧
           poly e' = SpecialPolynomial.mk 2 1 0 0 [0; 0] [0] [] ∧ num_qubits e' = 2 ∧
           length (linear e') = 2%nat ∧
           length (shift e') = 2%nat ∧
           (∀ r, r ≠ Z.to_nat j → linear e' !! r = [[1; 0]; [0; 1]] !! r) ∧
           (∀ r, r ≠ Z.to_nat j → shift e' !! r = [0; 0] !! r)) ∧
  (∀ k i r e', phase k i (element_2 0 0 0 [[1; 0]; [0; 1]] 0 0) = (r, e') →
     linear e' = [[1; 0]; [0; 1]] ∧ shift e' = [0; 0] ∧ num_qubits e' = 2) ∧
  (∀ i, 0 ≤ i < 2 →
     ∃ e', flip i (element_2 0 0 0 [[1; 0]; [0; 1]] 0 0) = (Ok (), e') ∧
           poly e' = SpecialPolynomial.mk 2 1 0 0 [0; 0] [0] [] ∧
           linear e' = [[1; 0]; [0; 1]] ∧ num_qubits e' = 2 ∧
           length (shift e') = 2%nat ∧
           (∀ r, r ≠ Z.to_nat i → shift e' !! r = [0; 0] !! r)).
Proof.
  split; [reflexivity|].
  exact (generators_frame 2 (element_2 0 0 0 [[1; 0]; [0; 1]] 0 0) eq_refl).
Defined.

(** C4 at the identity on one qubit and the identity after [flip(0)]. *)
Lemma key_characterises_structural_equality_witness :
  wf_elem 1 (element_1 0 0) ∧ wf_elem 1 (element_1 0 1) ∧
  (key (element_1 0 0) = key (element_1 0 1)
     ↔ structurally_equal (element_1 0 0) (element_1 0 1)) ∧
  (key (element_1 0 0) = key (element_1 0 1) ↔ element_1 0 0 = element_1 0 1) ∧
  (__eq__ (element_1 0 0) (element_1 0 1) = true
     ↔ structurally_equal (element_1 0 0) (element_1 0 1)).
Proof.
  assert (wf_elem 1 (element_1 0 0)) as Ha by wf_concrete.
  assert (wf_elem 1 (element_1 0 1)) as Hb by wf_concrete.
  split; [exact Ha|]. split; [exact Hb|].
  exact (key_characterises_structural_equality 1 _ _ Ha Hb).
Defined.

(** C1 at the identity on one qubit after [phase(1, 0)]. *)
Lemma round_trip_of_generated_witness :
  (1 = 1 ∨ 1 = 2) ∧ generated 1 (element_1 1 0) ∧
  ∃ circuit fresh e',
    decompose_CNOTDihedral (element_1 1 0) = Ok circuit ∧
    __init__ 1 = Ok fresh ∧
    append_circuit circuit None fresh = (Ok (), e') ∧
    key e' = key (element_1 1 0) ∧ structurally_equal e' (element_1 1 0).
Proof.
  assert (generated 1 (element_1 1 0)) as Hgen.
  { apply (generated_phase 1 (element_1 0 0) 1 0); [|vm_compute; reflexivity].
    apply generated_identity. vm_compute. reflexivity. }
  split; [left; reflexivity|]. split; [exact Hgen|].
  exact (round_trip_of_generated 1 (element_1 1 0) (or_introl eq_refl) Hgen).
Defined.

(** C2 at the two elements of the counterexample. *)
Lemma mul_composes_by_rows_of_b_witness :
  2 ≤ 3 ∧
  wf_elem 2 (element_2 0 1 0 [[1; 0]; [0; 1]] 0 0) ∧
  wf_elem 2 (element_2 0 0 0 [[1; 0]; [1; 1]] 0 0) ∧
  ∃ r, __mul__ (element_2 0 1 0 [[1; 0]; [0; 1]] 0 0)
               (element_2 0 0 0 [[1; 0]; [1; 1]] 0 0) = Ok r ∧
       composition_by_rows_of_b (element_2 0 1 0 [[1; 0]; [0; 1]] 0 0)
                                (element_2 0 0 0 [[1; 0]; [1; 1]] 0 0) = Ok r ∧
       wf_elem 2 r ∧
       linear r = z2_matrix_product 2 [[1; 0]; [0; 1]] [[1; 0]; [1; 1]] ∧
       shift r = zip_with Z.lxor (z2_matrix_vector 2 [[1; 0]; [0; 1]] [0; 0]) [0; 0].
Proof.
  assert (wf_elem 2 (element_2 0 1 0 [[1; 0]; [0; 1]] 0 0)) as Ha by wf_concrete.
  assert (wf_elem 2 (element_2 0 0 0 [[1; 0]; [1; 1]] 0 0)) as Hb by wf_concrete.
  split; [lia|]. split; [exact Ha|]. split; [exact Hb|].
  exact (mul_composes_by_rows_of_b 2 _ _ ltac:(lia) Ha Hb).
Defined.


End Instances.

(** ** The cells of the terms *)

Section TermCells.
Import SpecialPolynomial.

Lemma consecutive_even z : (z * (z + 1)) `mod` 2 = 0.
Proof.
  destruct (Z.Even_or_Odd z) as [[k ->]|[k ->]].
  - replace (2 * k * (2 * k + 1)) with ((k * (2 * k + 1)) * 2) by lia.
    apply Z.mod_mul. lia.
  - replace ((2 * k + 1) * (2 * k + 1 + 1)) with (((2 * k + 1) * (k + 1)) * 2) by lia.
    apply Z.mod_mul. lia.
Qed.

(** Twice the offset of a pair, without the division. *)
Lemma offset_2_twice n i0 i1 :
  0 ≤ i0 → i0 < i1 → i1 < n →
  2 * offset_2 n i0 i1 = 2 * (i0 * n) - (i0 + 1) * i0 + 2 * (i1 - i0 - 1).
Proof.
  intros H0 H1 Hn. unfold offset_2, int_div.
  assert (0 ≤ 2 * (i0 * n) - (i0 + 1) * i0) as Hnum by nia.
  rewrite Z.quot_div_nonneg by lia.
  pose proof (consecutive_even i0) as Heven.
  assert ((2 * (i0 * n) - (i0 + 1) * i0) `mod` 2 = 0) as Hmod.
  { replace (2 * (i0 * n) - (i0 + 1) * i0) with (- (i0 * (i0 + 1)) + (i0 * n) * 2) by lia.
    rewrite Z.mod_add by lia. apply Z.mod_opp_l_z; [lia|done]. }
  pose proof (Z.div_mod (2 * (i0 * n) - (i0 + 1) * i0) 2 ltac:(lia)). lia.
Qed.

Lemma pairs_twice n : 0 ≤ n → 2 * int_div (n * (n - 1)) 2 = n * (n - 1) ∨ n = 0.
Proof.
  intros Hn. destruct (decide (n = 0)) as [|Hn0]; [by right|left].
  unfold int_div. rewrite Z.quot_div_nonneg by nia.
  pose proof (consecutive_even (n - 1)) as Heven.
  replace ((n - 1) * (n - 1 + 1)) with (n * (n - 1)) in Heven by lia.
  pose proof (Z.div_mod (n * (n - 1)) 2 ltac:(lia)). lia.
Qed.

Lemma offset_2_bounds n i0 i1 :
  0 ≤ i0 → i0 < i1 → i1 < n → 0 ≤ offset_2 n i0 i1 < int_div (n * (n - 1)) 2.
Proof.
  intros H0 H1 Hn. pose proof (offset_2_twice n i0 i1 H0 H1 Hn) as Hoff.
  destruct (pairs_twice n ltac:(lia)) as [Hn2|]; [|lia].
  split; [nia|].
  pose proof (Z.mul_nonneg_nonneg (n - i0 - 2) (n - i0 - 2) ltac:(lia) ltac:(lia)). nia.
Qed.

Lemma offset_2_lt n a x b y :
  0 ≤ a → a < x → x < n → b < y → y < n → a < b →
  offset_2 n a x < offset_2 n b y.
Proof.
  intros Ha Hx Hxn Hy Hyn Hab.
  pose proof (offset_2_twice n a x Ha Hx Hxn) as H1.
  pose proof (offset_2_twice n b y ltac:(lia) Hy Hyn) as H2.
  pose proof (Z.mul_nonneg_nonneg (b - a - 1) (n - b - 2) ltac:(lia) ltac:(lia)). nia.
Qed.

Lemma offset_2_inj n a x b y :
  0 ≤ a → a < x → x < n → 0 ≤ b → b < y → y < n →
  offset_2 n a x = offset_2 n b y → a = b ∧ x = y.
Proof.
  intros Ha Hx Hxn Hb Hy Hyn Heq.
  destruct (Z.lt_trichotomy a b) as [Hlt|[->|Hgt]].
  - pose proof (offset_2_lt n a x b y). lia.
  - split; [done|]. unfold offset_2 in Heq. lia.
  - pose proof (offset_2_lt n b y a x). lia.
Qed.

Lemma valid_term_1_inv n i0 : valid_term n [i0] → 0 ≤ i0 < n.
Proof. intros (_ & Hr & _). by apply Forall_cons_1 in Hr as [? _]. Qed.

Lemma valid_term_2_inv n i0 i1 : valid_term n [i0; i1] → 0 ≤ i0 ∧ i0 < i1 ∧ i1 < n.
Proof.
  intros (_ & Hr & Hinc). apply Forall_cons_1 in Hr as [? Hr].
  apply Forall_cons_1 in Hr as [? _]. apply Forall_cons_1 in Hinc as [? _].
  simpl in *. lia.
Qed.

Lemma valid_term_3_inv n i0 i1 i2 :
  valid_term n [i0; i1; i2] → 0 ≤ i0 ∧ i0 < i1 ∧ i1 < i2 ∧ i2 < n.
Proof.
  intros (_ & Hr & Hinc). apply Forall_cons_1 in Hr as [? Hr].
  apply Forall_cons_1 in Hr as [? Hr]. apply Forall_cons_1 in Hr as [? _].
  apply Forall_cons_1 in Hinc as [? Hinc]. apply Forall_cons_1 in Hinc as [? _].
  simpl in *. lia.
Qed.

Lemma getitem_insert_eq {A} (l : list A) j x :
  0 ≤ j < Z.of_nat (length l) → getitem (<[Z.to_nat j := x]> l) j = Ok x.
Proof.
  intros Hj. apply getitem_lookup; [lia|]. apply list_lookup_insert_eq. lia.
Qed.

Lemma getitem_insert_ne {A} (l : list A) j j' x :
  0 ≤ j → 0 ≤ j' → j ≠ j' → getitem (<[Z.to_nat j := x]> l) j' = getitem l j'.
Proof.
  intros Hj Hj' Hne. unfold getitem, py_index. rewrite length_insert.
  repeat case_bool_decide; try done; try lia.
  rewrite list_lookup_insert_ne by lia. done.
Qed.

(** The cubic offsets on at most four variables. *)
Lemma offset_3_small n a b c :
  n ≤ 4 → 0 ≤ a → a < b → b < c → c < n →
  0 ≤ offset_3 n a b c < int_div (n * (n - 1) * (n - 2)) 6 ∧
  ∀ a' b' c', 0 ≤ a' → a' < b' → b' < c' → c' < n →
    offset_3 n a b c = offset_3 n a' b' c' → a = a' ∧ b = b' ∧ c = c'.
Proof.
  intros Hn Ha Hb Hc Hcn.
  assert (n = 3 ∨ n = 4) as [-> | ->] by lia.
  - assert (a = 0 ∧ b = 1 ∧ c = 2) as (-> & -> & ->) by lia.
    split; [vm_compute; split; [discriminate|reflexivity]|].
    intros a' b' c' ? ? ? ? _. lia.
  - assert (a = 0 ∨ a = 1) as Ha' by lia.
    assert (b = 1 ∨ b = 2) as Hb' by lia.
    assert (c = 2 ∨ c = 3) as Hc' by lia.
    destruct Ha' as [-> | ->], Hb' as [-> | ->], Hc' as [-> | ->]; try lia;
      (split; [vm_compute; split; [discriminate|reflexivity]|]);
      intros a' b' c' Ha2 Hb2 Hc2 Hn2;
      assert (a' = 0 ∨ a' = 1) as Ha3 by lia;
      assert (b' = 1 ∨ b' = 2) as Hb3 by lia;
      assert (c' = 2 ∨ c' = 3) as Hc3 by lia;
      destruct Ha3 as [-> | ->], Hb3 as [-> | ->], Hc3 as [-> | ->]; try lia;
      vm_compute; done.
Qed.

Lemma set_term_cells (n : Z) (p : t) (L : list Z) (v : Z) :
  wf_poly n p → valid_term n L → (length L ≤ 2)%nat ∨ n ≤ 4 →
  ∃ p', set_term L v p = (Ok (), p') ∧ wf_poly n p' ∧
        get_term p' L = Ok (v `mod` 8) ∧
        ∀ L', valid_term n L' → L' ≠ L → get_term p' L' = get_term p L'.
Proof.
  intros Hp HL Hsmall. pose proof (check_indices_ok n L HL) as Hcheck.
  pose proof (Z.mod_pos_bound v 8 ltac:(done)) as Hv.
  destruct Hp as [Hpos Hvars Hnc2 Hnc3 Hw0 Hlen1 Hlen2 Hlen3 Hw1 Hw2 Hw3].
  assert (∀ q L', n_vars q = n → valid_term n L' →
            get_term q L' =
              match L' with
              | [] => Ok (weight_0 q)
              | [i0] => getitem (weight_1 q) i0
              | [i0; i1] => getitem (weight_2 q) (offset_2 n i0 i1)
              | i0 :: i1 :: i2 :: _ => getitem (weight_3 q) (offset_3 n i0 i1 i2)
              end) as Hget.
  { intros q L' Hq HL'. unfold get_term. by rewrite Hq, (check_indices_ok n L' HL'). }
  unfold set_term. st_unfold. rewrite Hvars, Hcheck.
  destruct L as [|i0 [|i1 [|i2 [|]]]].
  - eexists. split; [done|]. split; [by split|]. split; [by rewrite Hget|].
    intros L' HL' Hne. rewrite !Hget by done. by destruct L' as [|? [|? [|? ?]]].
  - apply valid_term_1_inv in HL as Hi0.
    rewrite setitem_in_range by lia. eexists. split; [done|].
    split; [split; simpl; try done; [by rewrite length_insert|by apply coefficients_insert]|].
    split; [rewrite Hget by done; simpl; apply getitem_insert_eq; lia|].
    intros L' HL' Hne. rewrite !Hget by done. destruct L' as [|j0 [|? [|? ?]]]; try done.
    simpl. apply valid_term_1_inv in HL'. apply getitem_insert_ne; [lia..|congruence].
  - pose proof (valid_term_2_inv _ _ _ HL) as (Hi0 & Hi1 & Hi1n).
    pose proof (offset_2_bounds n i0 i1 Hi0 Hi1 Hi1n) as Hoff.
    rewrite setitem_in_range by lia. eexists. split; [done|].
    split; [split; simpl; try done; [by rewrite length_insert|by apply coefficients_insert]|].
    split; [rewrite Hget by done; simpl; apply getitem_insert_eq; lia|].
    intros L' HL' Hne. rewrite !Hget by done. destruct L' as [|j0 [|j1 [|? ?]]]; try done.
    simpl. apply valid_term_2_inv in HL' as (Hj0 & Hj1 & Hj1n).
    pose proof (offset_2_bounds n j0 j1 Hj0 Hj1 Hj1n).
    apply getitem_insert_ne; [lia..|]. intros Heq.
    apply offset_2_inj in Heq as [-> ->]; [done|lia..].
  - destruct Hsmall as [Hlen|Hn]; [simpl in Hlen; lia|].
    pose proof (valid_term_3_inv _ _ _ _ HL) as (Hi0 & Hi1 & Hi2 & Hi2n).
    destruct (offset_3_small n i0 i1 i2 Hn Hi0 Hi1 Hi2 Hi2n) as [Hoff Hinj].
    rewrite setitem_in_range by lia. eexists. split; [done|].
    split; [split; simpl; try done; [by rewrite length_insert|by apply coefficients_insert]|].
    split; [rewrite Hget by done; simpl; apply getitem_insert_eq; lia|].
    intros L' HL' Hne. rewrite !Hget by done.
    destruct L' as [|j0 [|j1 [|j2 [|]]]]; try done.
    + simpl. apply valid_term_3_inv in HL' as (Hj0 & Hj1 & Hj2 & Hj2n).
      destruct (offset_3_small n j0 j1 j2 Hn Hj0 Hj1 Hj2 Hj2n) as [Hoff' _].
      apply getitem_insert_ne; [lia..|]. intros Heq.
      apply Hinj in Heq as (-> & -> & ->); [done|lia..].
    + destruct HL' as (Hlen' & _). simpl in Hlen'. lia.
  - destruct HL as (Hlen & _). simpl in Hlen. lia.
Qed.

(** What [set_term] stores, [get_term] returns, and no other term
    changes: for every index list of at most two indices, and for the
    triples when there are at most four variables. *)
Theorem set_term_then_get_term (n : Z) (p : t) (L : list Z) (v : Z) :
  wf_poly n p → valid_term n L → (length L ≤ 2)%nat ∨ n ≤ 4 →
  ∃ p', set_term L v p = (Ok (), p') ∧ wf_poly n p' ∧
        get_term p' L = Ok (v `mod` 8) ∧
        ∀ L', valid_term n L' → L' ≠ L → get_term p' L' = get_term p L'.
Proof.
  intros Hp HL Hsmall.
  destruct (set_term_cells n p L v Hp HL Hsmall) as (p' & Hset & Hwf & Hget & Hframe).
  exists p'. split; [exact Hset|]. split; [exact Hwf|]. split; [exact Hget|].
  intros L' HL' Hne. by apply Hframe.
Qed.
End TermCells.

(** ** The polynomials as a module over Z_8 *)

Section PolynomialLaws.
Import SpecialPolynomial.

Lemma add_explicit n p q :
  wf_poly n p → wf_poly n q →
  __add__ p q =
    Ok (mk n (int_div (n * (n - 1)) 2) (int_div (n * (n - 1) * (n - 2)) 6)
          ((weight_0 p + weight_0 q) `mod` 8)
          (zip_with (λ x0 x1, (x0 + x1) `mod` 8) (weight_1 p) (weight_1 q))
          (zip_with (λ x0 x1, (x0 + x1) `mod` 8) (weight_2 p) (weight_2 q))
          (zip_with (λ x0 x1, (x0 + x1) `mod` 8) (weight_3 p) (weight_3 q))).
Proof.
  intros Hp Hq. unfold __add__, __init__, assert.
  rewrite (wf_n_vars _ _ Hp), (wf_n_vars _ _ Hq).
  rewrite (bool_decide_eq_true_2 (n = n)) by done.
  rewrite (bool_decide_eq_true_2 (1 ≤ n)) by apply (wf_n_pos _ _ Hp). done.
Qed.

Lemma mul_int_explicit n p a :
  wf_poly n p →
  __mul__int p a =
    Ok (mk n (int_div (n * (n - 1)) 2) (int_div (n * (n - 1) * (n - 2)) 6)
          ((weight_0 p * a) `mod` 8)
          ((λ x, (x * a) `mod` 8) <$> weight_1 p)
          ((λ x, (x * a) `mod` 8) <$> weight_2 p)
          ((λ x, (x * a) `mod` 8) <$> weight_3 p)).
Proof.
  intros Hp. unfold __mul__int, __init__, assert. rewrite (wf_n_vars _ _ Hp).
  rewrite (bool_decide_eq_true_2 (1 ≤ n)) by apply (wf_n_pos _ _ Hp). done.
Qed.

Lemma poly_eta n p :
  wf_poly n p →
  p = mk n (int_div (n * (n - 1)) 2) (int_div (n * (n - 1) * (n - 2)) 6)
        (weight_0 p) (weight_1 p) (weight_2 p) (weight_3 p).
Proof.
  intros [_ Hvars Hnc2 Hnc3 _ _ _ _ _ _ _]. destruct p. simpl in *. congruence.
Qed.

Lemma zip_add_comm w1 w2 :
  zip_with (λ x0 x1, (x0 + x1) `mod` 8) w1 w2 = zip_with (λ x0 x1, (x0 + x1) `mod` 8) w2 w1.
Proof.
  revert w2. induction w1 as [|x w1 IH]; intros [|y w2]; simpl; try done.
  f_equal; [f_equal; lia|apply IH].
Qed.

Lemma zip_add_assoc w1 w2 w3 :
  zip_with (λ x0 x1, (x0 + x1) `mod` 8) (zip_with (λ x0 x1, (x0 + x1) `mod` 8) w1 w2) w3
  = zip_with (λ x0 x1, (x0 + x1) `mod` 8) w1 (zip_with (λ x0 x1, (x0 + x1) `mod` 8) w2 w3).
Proof.
  revert w2 w3. induction w1 as [|x w1 IH]; intros [|y w2] [|z w3]; simpl; try done.
  f_equal; [|apply IH]. rewrite Z.add_mod_idemp_l, Z.add_mod_idemp_r by lia. f_equal. lia.
Qed.

Lemma zip_add_zero w m :
  coefficients w → length w = m →
  zip_with (λ x0 x1, (x0 + x1) `mod` 8) w (replicate m 0) = w.
Proof.
  intros Hw. revert m. induction Hw as [|x w Hx _ IH]; intros [|m] Hlen; simpl in *;
    try done. f_equal; [|apply IH; lia]. rewrite Z.add_0_r. apply Z.mod_small. lia.
Qed.

Lemma zip_add_neg w m :
  length w = m →
  zip_with (λ x0 x1, (x0 + x1) `mod` 8) w ((λ x, (x * -1) `mod` 8) <$> w) = replicate m 0.
Proof.
  intros <-. induction w as [|x w IH]; simpl; [done|]. f_equal; [|apply IH].
  rewrite Z.add_mod_idemp_r by lia. replace (x + x * -1) with 0 by lia. done.
Qed.

Lemma fmap_mul_one w : coefficients w → (λ x, (x * 1) `mod` 8) <$> w = w.
Proof.
  induction 1 as [|x w Hx _ IH]; simpl; [done|]. f_equal; [|done].
  rewrite Z.mul_1_r. apply Z.mod_small. lia.
Qed.

Lemma fmap_mul_mul a b (w : list Z) :
  (λ x, (x * b) `mod` 8) <$> ((λ x, (x * a) `mod` 8) <$> w)
  = (λ x, (x * (a * b)) `mod` 8) <$> w.
Proof.
  rewrite <- list_fmap_compose. apply list_fmap_ext. intros _ x _. simpl.
  rewrite Z.mul_mod_idemp_l by lia. f_equal. lia.
Qed.

Lemma fmap_mul_zip a w1 w2 :
  (λ x, (x * a) `mod` 8) <$> zip_with (λ x0 x1, (x0 + x1) `mod` 8) w1 w2
  = zip_with (λ x0 x1, (x0 + x1) `mod` 8)
      ((λ x, (x * a) `mod` 8) <$> w1) ((λ x, (x * a) `mod` 8) <$> w2).
Proof.
  revert w2. induction w1 as [|x w1 IH]; intros [|y w2]; simpl; try done.
  f_equal; [|apply IH].
  rewrite Z.mul_mod_idemp_l, <- Z.add_mod by lia. f_equal. lia.
Qed.

Lemma fmap_mul_add a b (w : list Z) :
  (λ x, (x * (a + b)) `mod` 8) <$> w
  = zip_with (λ x0 x1, (x0 + x1) `mod` 8)
      ((λ x, (x * a) `mod` 8) <$> w) ((λ x, (x * b) `mod` 8) <$> w).
Proof.
  induction w as [|x w IH]; simpl; [done|]. f_equal; [|apply IH].
  rewrite <- Z.add_mod by lia. f_equal. lia.
Qed.

Lemma fmap_mul_period a (w : list Z) :
  (λ x, (x * (a + 8)) `mod` 8) <$> w = (λ x, (x * a) `mod` 8) <$> w.
Proof.
  apply list_fmap_ext. intros _ x _. simpl.
  replace (x * (a + 8)) with (x * a + x * 8) by lia. apply Z.mod_add. lia.
Qed.

(** The result of [__add__] and of [__mul__] by an integer is again a
    polynomial on [n] variables. *)
Lemma add_wf n p q r : wf_poly n p → wf_poly n q → __add__ p q = Ok r → wf_poly n r.
Proof. intros Hp Hq Hr. destruct (add_ok n p q Hp Hq) as (r' & Hr' & Hwf). congruence. Qed.

Lemma mul_int_wf n p a r : wf_poly n p → __mul__int p a = Ok r → wf_poly n r.
Proof. intros Hp Hr. destruct (mul_int_ok n p a Hp) as (r' & Hr' & Hwf). congruence. Qed.

(** Addition makes the polynomials on [n] variables an abelian group:
    the zero polynomial is neutral, [-1 * p] is the opposite of [p], and
    the sum is commutative and associative. *)
Theorem polynomial_addition_laws (n : Z) (p q r : t) :
  wf_poly n p → wf_poly n q → wf_poly n r →
  ∃ zero neg,
    __init__ n = Ok zero ∧ __mul__int p (-1) = Ok neg ∧
    __add__ p zero = Ok p ∧
    __add__ p neg = Ok zero ∧
    __add__ p q = __add__ q p ∧
    (pq ← __add__ p q; __add__ pq r) = (qr ← __add__ q r; __add__ p qr).
Proof.
  intros Hp Hq Hr.
  destruct (poly_init_ok n (wf_n_pos _ _ Hp)) as (zero & Hzero & Hwf_zero & _).
  destruct (mul_int_ok n p (-1) Hp) as (neg & Hneg & Hwf_neg).
  exists zero, neg. split; [done|]. split; [done|].
  assert (zero = mk n (int_div (n * (n - 1)) 2) (int_div (n * (n - 1) * (n - 2)) 6) 0
                   (py_repeat n 0) (py_repeat (int_div (n * (n - 1)) 2) 0)
                   (py_repeat (int_div (n * (n - 1) * (n - 2)) 6) 0)) as Hz.
  { unfold __init__, assert in Hzero.
    rewrite bool_decide_eq_true_2 in Hzero by apply (wf_n_pos _ _ Hp).
    by injection Hzero as <-. }
  pose proof Hp as [Hpos Hvars Hnc2 Hnc3 Hw0 Hlen1 Hlen2 Hlen3 Hw1 Hw2 Hw3].
  split_and!.
  - rewrite (add_explicit n) by done. rewrite Hz. simpl. unfold py_repeat.
    rewrite !zip_add_zero by (done || lia). rewrite Z.add_0_r, Z.mod_small by lia.
    by rewrite <- (poly_eta n p).
  - rewrite (add_explicit n) by done.
    rewrite (mul_int_explicit n) in Hneg by done. injection Hneg as <-. simpl.
    rewrite Z.add_mod_idemp_r by lia.
    replace (weight_0 p + weight_0 p * -1) with 0 by lia.
    rewrite (zip_add_neg (weight_1 p) (Z.to_nat n)) by lia.
    rewrite (zip_add_neg (weight_2 p) (Z.to_nat (int_div (n * (n - 1)) 2))) by lia.
    rewrite (zip_add_neg (weight_3 p) (Z.to_nat (int_div (n * (n - 1) * (n - 2)) 6)))
      by lia.
    by rewrite Hz.
  - rewrite !(add_explicit n) by done.
    rewrite (zip_add_comm (weight_1 p)), (zip_add_comm (weight_2 p)),
      (zip_add_comm (weight_3 p)). do 3 f_equal. lia.
  - destruct (add_ok n p q Hp Hq) as (pq & Hpq & Hwf_pq).
    destruct (add_ok n q r Hq Hr) as (qr & Hqr & Hwf_qr).
    rewrite Hpq, Hqr. rewrite !res_bind_Ok.
    rewrite (add_explicit n pq r), (add_explicit n p qr) by done.
    rewrite (add_explicit n) in Hpq, Hqr by done.
    injection Hpq as <-. injection Hqr as <-. simpl. rewrite !zip_add_assoc.
    rewrite Z.add_mod_idemp_l, Z.add_mod_idemp_r by lia. do 3 f_equal. lia.
Qed.

(** Multiplication by an integer: 1 is neutral, the product by [a] and
    then by [b] is the product by [a * b], it distributes over the sum of
    polynomials and over the sum of integers, and only [a] modulo 8
    matters. *)
Theorem scalar_multiplication_laws (n : Z) (p q : t) (a b : Z) :
  wf_poly n p → wf_poly n q →
  __mul__int p 1 = Ok p ∧
  (pa ← __mul__int p a; __mul__int pa b) = __mul__int p (a * b) ∧
  (pq ← __add__ p q; __mul__int pq a)
    = (pa ← __mul__int p a; qa ← __mul__int q a; __add__ pa qa) ∧
  __mul__int p (a + b) = (pa ← __mul__int p a; pb ← __mul__int p b; __add__ pa pb) ∧
  __mul__int p (a + 8) = __mul__int p a.
Proof.
  intros Hp Hq.
  pose proof Hp as [Hpos Hvars Hnc2 Hnc3 Hw0 Hlen1 Hlen2 Hlen3 Hw1 Hw2 Hw3].
  split_and!.
  - rewrite (mul_int_explicit n) by done. rewrite !fmap_mul_one by done.
    rewrite Z.mul_1_r, Z.mod_small by lia. by rewrite <- (poly_eta n p).
  - destruct (mul_int_ok n p a Hp) as (pa & Hpa & Hwf_pa).
    rewrite Hpa. rewrite !res_bind_Ok.
    rewrite (mul_int_explicit n pa), (mul_int_explicit n p) by done.
    rewrite (mul_int_explicit n) in Hpa by done. injection Hpa as <-. simpl.
    rewrite !fmap_mul_mul. rewrite Z.mul_mod_idemp_l by lia. do 3 f_equal. lia.
  - destruct (add_ok n p q Hp Hq) as (pq & Hpq & Hwf_pq).
    destruct (mul_int_ok n p a Hp) as (pa & Hpa & Hwf_pa).
    destruct (mul_int_ok n q a Hq) as (qa & Hqa & Hwf_qa).
    rewrite Hpq, Hpa, Hqa. rewrite !res_bind_Ok.
    rewrite (mul_int_explicit n pq) by done. rewrite (add_explicit n pa qa) by done.
    rewrite (add_explicit n) in Hpq by done.
    rewrite (mul_int_explicit n) in Hpa, Hqa by done.
    injection Hpq as <-. injection Hpa as <-. injection Hqa as <-. simpl.
    rewrite !fmap_mul_zip.
    rewrite Z.mul_mod_idemp_l, <- Z.add_mod by lia. do 3 f_equal. lia.
  - destruct (mul_int_ok n p a Hp) as (pa & Hpa & Hwf_pa).
    destruct (mul_int_ok n p b Hp) as (pb & Hpb & Hwf_pb).
    rewrite Hpa, Hpb. rewrite !res_bind_Ok.
    rewrite (add_explicit n) by done.
    rewrite (mul_int_explicit n) in Hpa, Hpb by done.
    injection Hpa as <-. injection Hpb as <-. simpl.
    rewrite (mul_int_explicit n) by done. rewrite !fmap_mul_add.
    rewrite <- Z.add_mod by lia. do 3 f_equal. lia.
  - rewrite !(mul_int_explicit n) by done. rewrite !fmap_mul_period.
    replace (weight_0 p * (a + 8)) with (weight_0 p * a + weight_0 p * 8) by lia.
    by rewrite Z.mod_add by lia.
Qed.
End PolynomialLaws.

(** ** The elements that the generators build *)

Section GeneratedElements.
Import CNOTDihedral.

Lemma st_for_preserves_in {S A} (P : S → Prop) (body : A → M S ()) (l : list A) (s : S) :
  (∀ x s0, x ∈ l → P s0 → P (state_after (body x) s0)) →
  P s → P (state_after (st_for l body) s).
Proof.
  revert s. induction l as [|x l IH]; intros s Hbody Hs; [done|].
  pose proof (Hbody x s ltac:(by left) Hs) as Hx.
  specialize (IH (state_after (body x) s)).
  unfold state_after in *. simpl. unfold mbind, st_mbind, st_bind.
  destruct (body x s) as [[[]|err] s']; simpl in *; [|done].
  apply IH; [|done]. intros y s0 Hy. apply Hbody. by right.
Qed.

Lemma set_term_state_wf n l v p :
  wf_poly n p →
  wf_poly n (state_after (SpecialPolynomial.set_term l v) p) ∧
  (l ≠ [] → SpecialPolynomial.weight_0 (state_after (SpecialPolynomial.set_term l v) p)
            = SpecialPolynomial.weight_0 p).
Proof.
  intros Hp. pose proof (Z.mod_pos_bound v 8 ltac:(done)) as Hv.
  pose proof Hp as [Hpos Hvars Hnc2 Hnc3 Hw0 Hlen1 Hlen2 Hlen3 Hw1 Hw2 Hw3].
  unfold SpecialPolynomial.set_term. st_unfold.
  destruct (SpecialPolynomial.check_indices _ l) as [[]|err]; [|done].
  destruct l as [|i0 [|i1 [|i2 l]]]; simpl.
  - split; [by split|done].
  - unfold setitem. destruct (py_index _ i0) as [k|]; [|done]. simpl. split; [|done].
    split; simpl; try done; [by rewrite length_insert|by apply coefficients_insert].
  - unfold setitem. destruct (py_index _ _) as [k|]; [|done]. simpl. split; [|done].
    split; simpl; try done; [by rewrite length_insert|by apply coefficients_insert].
  - unfold setitem. destruct (py_index _ _) as [k|]; [|done]. simpl. split; [|done].
    split; simpl; try done; [by rewrite length_insert|by apply coefficients_insert].
Qed.

Lemma combinations_nonempty {A} r (l : list A) t : t ∈ combinations (S r) l → t ≠ [].
Proof.
  induction l as [|x l IH]; simpl; [by intros ?%elem_of_nil|].
  intros [Ht|Ht]%elem_of_app; [|by apply IH].
  apply list_elem_of_fmap in Ht as (t' & -> & _). done.
Qed.

(** One loop of [phase] keeps the polynomial well formed and its
    constant term as it is, whether it finishes or raises. *)
Lemma phase_loop_wf {X} n w (term_of : X → list Z) (f : X → Z → Z) (l : list X) e :
  (∀ x, x ∈ l → term_of x ≠ []) →
  wf_poly n (poly e) ∧ SpecialPolynomial.weight_0 (poly e) = w →
  let e' := state_after (st_for l (λ x,
      value ← on_poly (st_read (λ p, SpecialPolynomial.get_term p (term_of x)));
      on_poly (SpecialPolynomial.set_term (term_of x) (f x value)))) e in
  wf_poly n (poly e') ∧ SpecialPolynomial.weight_0 (poly e') = w.
Proof.
  intros Hterms He. cbv zeta.
  apply (st_for_preserves_in
    (λ e', wf_poly n (poly e') ∧ SpecialPolynomial.weight_0 (poly e') = w)); [|done].
  intros x s0 Hx [Hwf Hw0]. unfold state_after, mbind, st_mbind, st_bind.
  unfold on_poly at 1, st_read. destruct s0 as [nq p m s]. simpl in *.
  destruct (SpecialPolynomial.get_term p (term_of x)) as [value|err]; simpl; [|done].
  destruct (set_term_state_wf n (term_of x) (f x value) p Hwf) as [Hwf' Hw'].
  unfold on_poly, state_after in *. simpl.
  destruct (SpecialPolynomial.set_term _ _ p) as [r p']. simpl in *.
  split; [done|]. rewrite Hw' by by apply Hterms. done.
Qed.

Lemma phase_state_wf n k i e :
  wf_elem n e →
  wf_elem n (state_after (phase k i) e) ∧
  SpecialPolynomial.weight_0 (poly (state_after (phase k i) e))
  = SpecialPolynomial.weight_0 (poly e).
Proof.
  intros [Hq Hpoly Hlin Hsh].
  destruct (phase_same_affine_part k i e) as (Hlin' & Hsh' & Hq').
  assert (wf_poly n (poly (state_after (phase k i) e)) ∧
          SpecialPolynomial.weight_0 (poly (state_after (phase k i) e))
          = SpecialPolynomial.weight_0 (poly e)) as [Hwf Hw0].
  { unfold phase.
    apply (st_bind_preserves
      (λ e', wf_poly n (poly e') ∧
             SpecialPolynomial.weight_0 (poly e') = SpecialPolynomial.weight_0 (poly e)));
      [by intros s0 ?| |done].
    intros self s0 H0.
    apply (st_bind_preserves
      (λ e', wf_poly n (poly e') ∧
             SpecialPolynomial.weight_0 (poly e') = SpecialPolynomial.weight_0 (poly e)));
      [intros s1 ?; unfold state_after; st_unfold; by case_bool_decide| |done].
    intros _ s1 H1.
    apply (st_bind_preserves
      (λ e', wf_poly n (poly e') ∧
             SpecialPolynomial.weight_0 (poly e') = SpecialPolynomial.weight_0 (poly e)));
      [intros s2 ?; unfold state_after; st_unfold; by case_bool_decide| |done].
    intros _ s2 H2. cbv zeta.
    apply (st_bind_preserves
      (λ e', wf_poly n (poly e') ∧
             SpecialPolynomial.weight_0 (poly e') = SpecialPolynomial.weight_0 (poly e)));
      [| |done].
    { intros s3 H3. by apply (phase_loop_wf n _ (λ j, [j])). }
    intros _ s3 H3.
    apply (st_bind_preserves
      (λ e', wf_poly n (poly e') ∧
             SpecialPolynomial.weight_0 (poly e') = SpecialPolynomial.weight_0 (poly e)));
      [| |done].
    { intros s4 H4. apply (phase_loop_wf n _ (λ j, j)); [|done].
      intros x Hx. by eapply combinations_nonempty. }
    intros _ s4 H4. apply (phase_loop_wf n _ (λ j, j)); [|done].
    intros x Hx. by eapply combinations_nonempty. }
  split; [|done]. split; [lia|done|by rewrite Hlin'|by rewrite Hsh'].
Qed.

Lemma bits_insert w k v : bits w → v = 0 ∨ v = 1 → bits (<[k := v]> w).
Proof.
  intros Hw Hv. destruct (decide (k < length w)%nat).
  - by apply Forall_insert.
  - by rewrite list_insert_ge by lia.
Qed.

Lemma cnot_state n i j e e' :
  wf_elem n e → cnot i j e = (Ok (), e') →
  0 ≤ i < n ∧ 0 ≤ j < n ∧ i ≠ j ∧
  e' = mk n (poly e) (cnot_rows n i j (linear e))
         (<[Z.to_nat j := (item (shift e) i + item (shift e) j) `mod` 2]> (shift e)) ∧
  wf_elem n e'.
Proof.
  intros [Hq Hpoly Hlin [Hlen Hbits]] Hop.
  pose proof (cnot_ok_inv _ _ _ _ Hop) as (Hi & Hj & Hij).
  rewrite cnot_ok in Hop by done. injection Hop as <-. rewrite Hq in *.
  split; [done|]. split; [done|]. split; [done|]. split; [reflexivity|].
  split; simpl; [done|done|by apply cnot_rows_z2_matrix|].
  split; [by rewrite length_insert|]. apply bits_insert; [done|apply mod_2_bit].
Qed.

Lemma flip_state n i e e' :
  wf_elem n e → flip i e = (Ok (), e') →
  0 ≤ i < n ∧
  e' = mk n (poly e) (linear e)
         (<[Z.to_nat i := (item (shift e) i + 1) `mod` 2]> (shift e)) ∧
  wf_elem n e'.
Proof.
  intros [Hq Hpoly Hlin [Hlen Hbits]] Hop.
  pose proof (flip_ok_inv _ _ _ Hop) as Hi.
  rewrite flip_ok in Hop by done. injection Hop as <-. rewrite Hq in *.
  split; [done|]. split; [reflexivity|].
  split; simpl; [done|done|done|].
  split; [by rewrite length_insert|]. apply bits_insert; [done|apply mod_2_bit].
Qed.

Lemma init_state n e :
  __init__ n = Ok e →
  1 ≤ n ∧ wf_elem n e ∧ SpecialPolynomial.weight_0 (poly e) = 0 ∧
  linear e = z2_identity n ∧ shift e = py_repeat n 0.
Proof.
  intros Hinit. pose proof (init_linear n e Hinit) as [Hlin Hn].
  destruct (poly_init_ok n Hn) as (zero & Hzero & Hwf & Hw0).
  unfold __init__ in Hinit. rewrite Hzero, res_bind_Ok in Hinit. injection Hinit as <-.
  split; [done|]. split; [|done].
  split; simpl; [done|done|by apply identity_z2_matrix; lia|].
  unfold py_repeat. split; [rewrite length_replicate; lia|].
  apply Forall_replicate. by left.
Qed.

(** Every element built from the identity by [cnot], [phase] and [flip]
    is well formed, has constant term 0 and an invertible linear part. *)
Theorem generated_elements_invariant (n : Z) (e : t) :
  generated n e →
  wf_elem n e ∧ SpecialPolynomial.weight_0 (poly e) = 0 ∧ z2_invertible n (linear e).
Proof.
  induction 1 as [e Hinit|e i j e' _ (Hwf & Hw0 & Hinv) Hop
                 |e k i e' _ (Hwf & Hw0 & Hinv) Hop|e i e' _ (Hwf & Hw0 & Hinv) Hop].
  - destruct (init_state n e Hinit) as (Hn & Hwf & Hw0 & Hlin & _).
    split_and!; [done..|]. rewrite Hlin. apply identity_invertible. lia.
  - destruct (cnot_state n i j e e' Hwf Hop) as (Hi & Hj & Hij & -> & Hwf').
    split_and!; [done..|]. simpl. by apply cnot_rows_invertible.
  - destruct (phase_state_wf n k i e Hwf) as [Hwf' Hw0'].
    destruct (phase_same_affine_part k i e) as (Hlin' & _).
    unfold state_after in *. rewrite Hop in *. simpl in *.
    split_and!; [done|congruence|by rewrite Hlin'].
  - destruct (flip_state n i e e' Hwf Hop) as (Hi & -> & Hwf').
    by split_and!.
Qed.

Lemma xor_twice a b : a = 0 ∨ a = 1 → b = 0 ∨ b = 1 → (a + (a + b) `mod` 2) `mod` 2 = b.
Proof. by intros [-> | ->] [-> | ->]. Qed.

Lemma cnot_rows_twice n i j m :
  z2_matrix n m → 0 ≤ i < n → 0 ≤ j < n → i ≠ j →
  cnot_rows n i j (cnot_rows n i j m) = m.
Proof.
  intros Hm Hi Hj Hij.
  pose proof (cnot_rows_z2_matrix n i j m Hm) as Hm'.
  apply (z2_matrix_ext n); [by apply cnot_rows_z2_matrix|done|].
  intros r c Hr Hc. rewrite !cell_cnot_rows by done.
  rewrite (bool_decide_eq_false_2 (i = j)) by done.
  rewrite (bool_decide_eq_true_2 (j = j)) by done.
  case_bool_decide; [subst r|done].
  destruct (z2_matrix_cell n m i c Hm Hi Hc) as (_ & _ & _ & Hbi).
  destruct (z2_matrix_cell n m j c Hm Hj Hc) as (_ & _ & _ & Hbj).
  by apply xor_twice.
Qed.

Lemma z2_vector_item_bit n v i : z2_vector n v → item v i = 0 ∨ item v i = 1.
Proof.
  intros [_ Hbits]. unfold item. destruct (v !! Z.to_nat i) as [x|] eqn:Hx; [|by left].
  exact (Forall_lookup_1 _ _ _ _ Hbits Hx).
Qed.

Lemma item_insert_eq (v : list Z) i x :
  0 ≤ i < Z.of_nat (length v) → item (<[Z.to_nat i := x]> v) i = x.
Proof. intros Hi. unfold item. by rewrite list_lookup_insert_eq by lia. Qed.

Lemma item_insert_ne (v : list Z) i j x :
  0 ≤ i → 0 ≤ j → i ≠ j → item (<[Z.to_nat j := x]> v) i = item v i.
Proof. intros Hi Hj Hij. unfold item. by rewrite list_lookup_insert_ne by lia. Qed.

Lemma insert_item_id (v : list Z) i :
  0 ≤ i < Z.of_nat (length v) → <[Z.to_nat i := item v i]> v = v.
Proof.
  intros Hi. apply list_insert_id. unfold item.
  destruct (lookup_lt_is_Some_2 v (Z.to_nat i)) as [x Hx]; [lia|]. by rewrite Hx.
Qed.

(** [cnot(i, j)] and [flip(i)] are involutions: applied twice to an
    element they give the element back. *)
Theorem cnot_and_flip_are_involutions (n : Z) (e : t) (i j : Z) :
  wf_elem n e → 0 ≤ i < n → 0 ≤ j < n → i ≠ j →
  (cnot i j;; cnot i j) e = (Ok (), e) ∧ (flip i;; flip i) e = (Ok (), e).
Proof.
  intros Hwf Hi Hj Hij. pose proof Hwf as [Hq Hpoly Hlin [Hlen Hbits]].
  pose proof (z2_vector_item_bit n (shift e) i (wf_shift _ _ Hwf)) as Hsi.
  pose proof (z2_vector_item_bit n (shift e) j (wf_shift _ _ Hwf)) as Hsj.
  assert (e = mk n (poly e) (linear e) (shift e)) as Heta by (destruct e; simpl in *; congruence).
  split.
  - unfold mbind, st_mbind, st_bind. rewrite cnot_ok by lia.
    rewrite cnot_ok by (simpl; lia). simpl. rewrite Hq.
    fold (cnot_rows n i j (linear e)).
    fold (cnot_rows n i j (cnot_rows n i j (linear e))).
    rewrite cnot_rows_twice by done.
    rewrite list_insert_insert_eq, item_insert_eq, item_insert_ne by lia.
    rewrite xor_twice by done. rewrite insert_item_id by lia. by rewrite <- Heta.
  - unfold mbind, st_mbind, st_bind. rewrite flip_ok by lia.
    rewrite flip_ok by (simpl; lia). simpl. rewrite Hq.
    rewrite list_insert_insert_eq, item_insert_eq by lia.
    replace (((item (shift e) i + 1) `mod` 2 + 1) `mod` 2) with (item (shift e) i)
      by (by destruct Hsi as [-> | ->]).
    rewrite insert_item_id by lia. by rewrite <- Heta.
Qed.
End GeneratedElements.

(** ** The polynomial p_J *)

Ltac enumerate H :=
  repeat (apply elem_of_cons in H as [->|H]); [..|by apply elem_of_nil in H].

Ltac concrete_in H f :=
  let l := eval vm_compute in f in change f with l in H.

Section SpecialForm.
Import SpecialPolynomial.

Lemma nil_in_sublists {A} (l : list A) : [] ∈ sublists l.
Proof. induction l as [|x l IH]; simpl; [by left|]. apply elem_of_app. by right. Qed.

Lemma increasing_in_sublists (len : nat) lo J :
  increasing_in lo (lo + Z.of_nat len) J → J ∈ sublists (seqZ lo (Z.of_nat len)).
Proof.
  revert lo J. induction len as [|len IH]; intros lo J HJ.
  - destruct J as [|x J]; [by left|]. destruct HJ as [Hx _]. lia.
  - rewrite Nat2Z.inj_succ, seqZ_cons by lia. simpl.
    replace (Z.pred (Z.succ (Z.of_nat len))) with (Z.of_nat len) by lia.
    destruct J as [|x J]; [apply elem_of_app; right; apply nil_in_sublists|].
    destruct HJ as [Hx HJ]. apply elem_of_app.
    destruct (decide (x = lo)) as [->|Hne].
    + left. apply list_elem_of_fmap. exists J. split; [done|].
      apply IH. replace (Z.succ lo + Z.of_nat len) with (lo + Z.of_nat (S len)) by lia.
      done.
    + right. apply IH.
      replace (Z.succ lo + Z.of_nat len) with (lo + Z.of_nat (S len)) by lia.
      split; [lia|done].
Qed.

Lemma increasing_in_py_range n J : 0 ≤ n → increasing_in 0 n J → J ∈ sublists (py_range n).
Proof.
  intros Hn HJ. unfold py_range. rewrite <- (Z2Nat.id n) by done.
  apply increasing_in_sublists. by rewrite Z2Nat.id by done.
Qed.

Lemma z2_vector_bit_vectors n x : z2_vector n x → x ∈ bit_vectors (Z.to_nat n).
Proof.
  intros [Hlen Hbits]. replace (Z.to_nat n) with (length x) by lia. clear Hlen.
  induction Hbits as [|b x Hb _ IH]; [by left|]. simpl.
  destruct Hb as [-> | ->]; apply elem_of_app; [left|right; apply elem_of_app; left];
    (apply list_elem_of_bind; exists x; split; [by left|done]).
Qed.

Lemma set_pj_small n p J :
  1 ≤ n ≤ 4 → wf_poly n p → J ∈ sublists (py_range n) →
  set_pj J p = (Ok (), special_form n J) ∧ wf_poly n (special_form n J).
Proof.
  intros Hn [_ Hvars Hnc2 Hnc3 _ _ _ _ _ _ _] HJ.
  destruct p as [nv c2 c3 w0 w1 w2 w3]. simpl in *. subst nv c2 c3.
  assert (n = 1 ∨ n = 2 ∨ n = 3 ∨ n = 4) as [->|[->|[->| ->]]] by lia.
  - concrete_in HJ (sublists (py_range 1)). enumerate HJ;
      (split; [vm_compute; reflexivity|
               split; simpl; try done; try lia; forall_concrete lia]).
  - concrete_in HJ (sublists (py_range 2)). enumerate HJ;
      (split; [vm_compute; reflexivity|
               split; simpl; try done; try lia; forall_concrete lia]).
  - concrete_in HJ (sublists (py_range 3)). enumerate HJ;
      (split; [vm_compute; reflexivity|
               split; simpl; try done; try lia; forall_concrete lia]).
  - concrete_in HJ (sublists (py_range 4)). enumerate HJ;
      (split; [vm_compute; reflexivity|
               split; simpl; try done; try lia; forall_concrete lia]).
Qed.

Lemma special_form_value n J x :
  1 ≤ n ≤ 4 → J ∈ sublists (py_range n) → x ∈ bit_vectors (Z.to_nat n) →
  evaluate_int (special_form n J) x = Ok (xor_at x J).
Proof.
  intros Hn HJ Hx.
  assert (n = 1 ∨ n = 2 ∨ n = 3 ∨ n = 4) as [->|[->|[->| ->]]] by lia.
  - concrete_in HJ (sublists (py_range 1)). concrete_in Hx (bit_vectors (Z.to_nat 1)).
    enumerate HJ; enumerate Hx; vm_compute; reflexivity.
  - concrete_in HJ (sublists (py_range 2)). concrete_in Hx (bit_vectors (Z.to_nat 2)).
    enumerate HJ; enumerate Hx; vm_compute; reflexivity.
  - concrete_in HJ (sublists (py_range 3)). concrete_in Hx (bit_vectors (Z.to_nat 3)).
    enumerate HJ; enumerate Hx; vm_compute; reflexivity.
  - concrete_in HJ (sublists (py_range 4)). concrete_in Hx (bit_vectors (Z.to_nat 4)).
    enumerate HJ; enumerate Hx; vm_compute; reflexivity.
Qed.

(** On at most four variables [set_pj(J)], for an increasing list [J]
    of variables, replaces the polynomial by p_J (coefficient 1 on the
    variables of [J], 6 on its pairs, 4 on its triples), whose value at a
    vector of bits is the sum modulo 2 of the bits at [J]. *)
Theorem set_pj_builds_the_parity_polynomial (n : Z) (p : t) (J : list Z) :
  n ≤ 4 → wf_poly n p → increasing_in 0 n J →
  set_pj J p = (Ok (), special_form n J) ∧
  wf_poly n (special_form n J) ∧
  ∀ x, z2_vector n x → evaluate_int (special_form n J) x = Ok (xor_at x J).
Proof.
  intros Hn Hp HJ. pose proof (wf_n_pos _ _ Hp) as Hpos.
  pose proof (increasing_in_py_range n J ltac:(lia) HJ) as HJ'.
  destruct (set_pj_small n p J ltac:(lia) Hp HJ') as [Hset Hwf].
  split; [done|]. split; [done|].
  intros x Hx. apply special_form_value; [lia|done|by apply z2_vector_bit_vectors].
Qed.
End SpecialForm.

(** ** The value of a polynomial *)

Section Values.
Import SpecialPolynomial.

Lemma elem_of_py_range2 a b x : x ∈ py_range2 a b ↔ a ≤ x < b.
Proof. unfold py_range2. rewrite elem_of_seqZ. lia. Qed.

Lemma elem_of_py_range_iff n x : x ∈ py_range n ↔ 0 ≤ x < n.
Proof. unfold py_range. rewrite elem_of_seqZ. lia. Qed.

(** The term lists hold valid index lists. *)
Lemma all_terms_valid n t : t ∈ all_terms n → valid_term n t.
Proof.
  unfold all_terms, terms0, terms1, terms2, terms3.
  rewrite !elem_of_app. intros [Ht|[Ht|[Ht|Ht]]].
  - apply list_elem_of_singleton in Ht as ->.
    split; [simpl; lia|]. split; apply Forall_nil_2.
  - apply list_elem_of_bind in Ht as (i & Ht & Hi).
    apply list_elem_of_singleton in Ht as ->. apply elem_of_py_range_iff in Hi.
    split; [simpl; lia|]. split; [forall_concrete lia|apply Forall_nil_2].
  - apply list_elem_of_bind in Ht as (i & Ht & Hi).
    apply list_elem_of_bind in Ht as (j & Ht & Hj).
    apply list_elem_of_singleton in Ht as ->.
    apply elem_of_py_range_iff in Hi. apply elem_of_py_range2 in Hj.
    split; [simpl; lia|]. split; [forall_concrete lia|forall_concrete ltac:(simpl; lia)].
  - apply list_elem_of_bind in Ht as (i & Ht & Hi).
    apply list_elem_of_bind in Ht as (j & Ht & Hj).
    apply list_elem_of_bind in Ht as (k & Ht & Hk).
    apply list_elem_of_singleton in Ht as ->.
    apply elem_of_py_range_iff in Hi. apply elem_of_py_range2 in Hj, Hk.
    split; [simpl; lia|]. split; [forall_concrete lia|forall_concrete ltac:(simpl; lia)].
Qed.

Lemma coefficient_get_term n p t :
  wf_poly n p → term_ok n t = true →
  get_term p t = Ok (coefficient p t) ∧ 0 ≤ coefficient p t < 8.
Proof.
  intros Hp Ht. destruct (get_term_ok n p t Hp Ht) as (v & Hv & Hb).
  unfold coefficient. by rewrite Hv.
Qed.

Lemma res_map_getitem (x : list Z) n t :
  Z.of_nat (length x) = n → Forall (λ j, 0 ≤ j < n) t →
  res_map (getitem x) t = Ok ((λ j, CNOTDihedral.item x j) <$> t).
Proof.
  intros Hlen. induction 1 as [|j t Hj _ IH]; [done|]. simpl.
  destruct (lookup_lt_is_Some_2 x (Z.to_nat j)) as [v Hv]; [lia|].
  rewrite (getitem_lookup x j v) by (done || lia). rewrite IH.
  unfold CNOTDihedral.item. by rewrite Hv.
Qed.

(** [evaluate] at integers is the sum over the terms of coefficient
    times monomial, reduced modulo 8. *)
Lemma evaluate_int_value n p x :
  wf_poly n p → forallb (term_ok n) (all_terms n) = true →
  Z.of_nat (length x) = n →
  evaluate_int p x = Ok (value_of p ((λ b, b `mod` 2) <$> x)).
Proof.
  intros Hp Hterms Hlen. unfold evaluate_int, value_of, assert.
  rewrite (wf_n_vars _ _ Hp). rewrite bool_decide_eq_true_2 by done.
  rewrite res_bind_Ok. cbv zeta.
  rewrite forallb_forall in Hterms.
  set (xm := (λ b, b `mod` 2) <$> x).
  assert (Z.of_nat (length xm) = n) as Hxm by (unfold xm; by rewrite length_fmap).
  assert (∀ l acc, (∀ t, t ∈ l → term_ok n t = true) →
    res_fold (λ result term,
       value ← get_term p term;
       if bool_decide (value ≠ 0) then
         factors ← res_map (getitem xm) term;
         Ok (result + value * foldl Z.mul 1 factors)
       else Ok result) l acc
    = Ok (acc + sum_over (λ t, coefficient p t * monomial xm t) l)) as Hfold.
  { induction l as [|t l IH]; intros acc Hl; [simpl; f_equal; lia|].
    rewrite res_fold_cons. cbv beta.
    destruct (coefficient_get_term n p t Hp (Hl t ltac:(by left))) as [-> _].
    rewrite res_bind_Ok.
    destruct (check_indices_inv n t (term_ok_check n t (Hl t ltac:(by left)))) as [_ Hr].
    cbn [sum_over foldr]. fold (sum_over (λ t, coefficient p t * monomial xm t) l).
    case_bool_decide as Hz.
    - rewrite (res_map_getitem xm n t) by done. rewrite !res_bind_Ok.
      rewrite IH by (intros; apply Hl; by right). f_equal. unfold monomial. lia.
    - rewrite res_bind_Ok, IH by (intros; apply Hl; by right). f_equal.
      assert (coefficient p t = 0) as -> by (destruct (decide (coefficient p t = 0)); done).
      lia. }
  rewrite Hfold by (intros t Ht; apply Hterms; by apply list_elem_of_In).
  by rewrite res_bind_Ok, Z.add_0_l.
Qed.

Lemma terms_ok_small n : 1 ≤ n ≤ 5 → forallb (term_ok n) (all_terms n) = true.
Proof.
  intros Hn. assert (n = 1 ∨ n = 2 ∨ n = 3 ∨ n = 4 ∨ n = 5) as [->|[->|[->|[->| ->]]]]
    by lia; vm_compute; reflexivity.
Qed.

Lemma getitem_item (l : list Z) i :
  0 ≤ i < Z.of_nat (length l) → getitem l i = Ok (CNOTDihedral.item l i).
Proof.
  intros Hi. destruct (lookup_lt_is_Some_2 l (Z.to_nat i)) as [v Hv]; [lia|].
  unfold CNOTDihedral.item. rewrite Hv. apply getitem_lookup; [lia|done].
Qed.

(** The cell that holds the coefficient of a term. *)
Lemma coefficient_cell n p t :
  wf_poly n p → term_ok n t = true →
  match t with
  | [] => coefficient p t = weight_0 p
  | [i0] => 0 ≤ i0 < n ∧ coefficient p t = CNOTDihedral.item (weight_1 p) i0
  | [i0; i1] =>
      0 ≤ offset_2 n i0 i1 < int_div (n * (n - 1)) 2 ∧
      coefficient p t = CNOTDihedral.item (weight_2 p) (offset_2 n i0 i1)
  | [i0; i1; i2] =>
      0 ≤ offset_3 n i0 i1 i2 < int_div (n * (n - 1) * (n - 2)) 6 ∧
      coefficient p t = CNOTDihedral.item (weight_3 p) (offset_3 n i0 i1 i2)
  | _ => False
  end.
Proof.
  intros Hp Ht. pose proof (term_ok_check n t Ht) as Hcheck.
  destruct (check_indices_inv n t Hcheck) as [Hlen Hrange].
  pose proof Hp as [Hpos Hvars Hnc2 Hnc3 Hw0 Hlen1 Hlen2 Hlen3 Hw1 Hw2 Hw3].
  unfold coefficient, get_term. rewrite Hvars, Hcheck, res_bind_Ok.
  unfold term_ok in Ht. rewrite Hcheck in Ht.
  destruct t as [|i0 [|i1 [|i2 [|]]]]; simpl in Hlen; try lia.
  - apply Forall_cons_1 in Hrange as [? _]. split; [done|].
    by rewrite getitem_item by lia.
  - apply bool_decide_eq_true in Ht. split; [done|]. by rewrite getitem_item by lia.
  - apply bool_decide_eq_true in Ht. split; [done|]. by rewrite getitem_item by lia.
Qed.

Lemma item_zip_with (f : Z → Z → Z) a b i :
  0 ≤ i < Z.of_nat (length a) → 0 ≤ i < Z.of_nat (length b) →
  CNOTDihedral.item (zip_with f a b) i = f (CNOTDihedral.item a i) (CNOTDihedral.item b i).
Proof.
  intros Ha Hb. unfold CNOTDihedral.item. rewrite lookup_zip_with.
  destruct (lookup_lt_is_Some_2 a (Z.to_nat i)) as [x ->]; [lia|].
  destruct (lookup_lt_is_Some_2 b (Z.to_nat i)) as [y ->]; [lia|]. done.
Qed.

Lemma item_fmap (f : Z → Z) a i :
  0 ≤ i < Z.of_nat (length a) →
  CNOTDihedral.item (f <$> a) i = f (CNOTDihedral.item a i).
Proof.
  intros Ha. unfold CNOTDihedral.item. rewrite list_lookup_fmap.
  destruct (lookup_lt_is_Some_2 a (Z.to_nat i)) as [x ->]; [lia|]. done.
Qed.

Lemma coefficient_add n p q r t :
  wf_poly n p → wf_poly n q → __add__ p q = Ok r → term_ok n t = true →
  coefficient r t = (coefficient p t + coefficient q t) `mod` 8.
Proof.
  intros Hp Hq Hr Ht. pose proof (add_wf n p q r Hp Hq Hr) as Hwf.
  pose proof (coefficient_cell n p t Hp Ht) as Hcp.
  pose proof (coefficient_cell n q t Hq Ht) as Hcq.
  pose proof (coefficient_cell n r t Hwf Ht) as Hcr.
  rewrite (add_explicit n) in Hr by done. injection Hr as <-.
  destruct Hp as [? ? Hpc2 Hpc3 ? ? ? ? ? ? ?], Hq as [? ? Hqc2 Hqc3 ? ? ? ? ? ? ?].
  destruct t as [|i0 [|i1 [|i2 [|]]]]; try done.
  - destruct Hcp as [? ->], Hcq as [? ->], Hcr as [? ->]. simpl.
    by rewrite item_zip_with by lia.
  - destruct Hcp as [? ->], Hcq as [? ->], Hcr as [? ->]. simpl.
    by rewrite item_zip_with by lia.
  - destruct Hcp as [? ->], Hcq as [? ->], Hcr as [? ->]. simpl.
    by rewrite item_zip_with by lia.
Qed.

Lemma coefficient_mul_int n p a r t :
  wf_poly n p → __mul__int p a = Ok r → term_ok n t = true →
  coefficient r t = (coefficient p t * a) `mod` 8.
Proof.
  intros Hp Hr Ht. pose proof (mul_int_wf n p a r Hp Hr) as Hwf.
  pose proof (coefficient_cell n p t Hp Ht) as Hcp.
  pose proof (coefficient_cell n r t Hwf Ht) as Hcr.
  rewrite (mul_int_explicit n) in Hr by done. injection Hr as <-.
  destruct Hp as [? ? Hpc2 Hpc3 ? ? ? ? ? ? ?].
  destruct t as [|i0 [|i1 [|i2 [|]]]]; try done.
  - destruct Hcp as [? ->], Hcr as [? ->]. simpl. by rewrite item_fmap by lia.
  - destruct Hcp as [? ->], Hcr as [? ->]. simpl. by rewrite item_fmap by lia.
  - destruct Hcp as [? ->], Hcr as [? ->]. simpl. by rewrite item_fmap by lia.
Qed.

Lemma sum_over_add {A} (f g : A → Z) l :
  sum_over (λ t, f t + g t) l = sum_over f l + sum_over g l.
Proof. induction l as [|t l IH]; simpl; [done|]. rewrite IH. lia. Qed.

Lemma sum_over_scale {A} (f : A → Z) c l :
  sum_over (λ t, f t * c) l = sum_over f l * c.
Proof. induction l as [|t l IH]; simpl; [done|]. rewrite IH. lia. Qed.

Lemma sum_over_congr {A} (f g : A → Z) l :
  (∀ t, t ∈ l → f t `mod` 8 = g t `mod` 8) →
  sum_over f l `mod` 8 = sum_over g l `mod` 8.
Proof.
  induction l as [|t l IH]; intros Hfg; simpl; [done|].
  rewrite Z.add_mod, (Hfg t), IH, <- Z.add_mod by (lia || (by left) || (intros; apply Hfg; by right)).
  done.
Qed.

(** Two polynomials whose coefficients differ by [d], term by term. *)
Lemma value_of_shift n p p' (d : list Z → Z) x :
  n_vars p = n → n_vars p' = n →
  (∀ t, t ∈ all_terms n → coefficient p' t = (coefficient p t + d t) `mod` 8) →
  value_of p' x = (value_of p x + sum_over (λ t, d t * monomial x t) (all_terms n)) `mod` 8.
Proof.
  intros Hp Hp' Hd. unfold value_of. rewrite Hp, Hp'.
  rewrite Z.add_mod_idemp_l by lia. rewrite <- sum_over_add.
  apply sum_over_congr. intros t Ht. rewrite (Hd t Ht).
  rewrite Z.mul_mod_idemp_l by lia. f_equal. lia.
Qed.

(** [evaluate] at integers is additive and commutes with the product by
    an integer. *)
Theorem evaluate_int_is_linear (n : Z) (p q : t) (a : Z) (x : list Z) :
  n ≤ 5 → wf_poly n p → wf_poly n q → Z.of_nat (length x) = n →
  ∃ vp vq,
    evaluate_int p x = Ok vp ∧ evaluate_int q x = Ok vq ∧
    0 ≤ vp < 8 ∧ 0 ≤ vq < 8 ∧
    (r ← __add__ p q; evaluate_int r x) = Ok ((vp + vq) `mod` 8) ∧
    (r ← __mul__int p a; evaluate_int r x) = Ok ((vp * a) `mod` 8).
Proof.
  intros Hn Hp Hq Hlen. pose proof (wf_n_pos _ _ Hp) as Hpos.
  pose proof (terms_ok_small n ltac:(lia)) as Hterms.
  set (xm := (λ b, b `mod` 2) <$> x).
  exists (value_of p xm), (value_of q xm).
  rewrite !(evaluate_int_value n) by done. fold xm.
  split; [done|]. split; [done|].
  split; [apply Z.mod_pos_bound; lia|]. split; [apply Z.mod_pos_bound; lia|].
  rewrite forallb_forall in Hterms.
  split.
  - destruct (add_ok n p q Hp Hq) as (r & Hr & Hwf). rewrite Hr, res_bind_Ok.
    rewrite (evaluate_int_value n) by (done || by apply forallb_forall).
    fold xm. f_equal.
    rewrite (value_of_shift n p r (λ t, coefficient q t) xm);
      [|apply Hp|apply Hwf|].
    + unfold value_of at 3. rewrite (wf_n_vars _ _ Hq).
      by rewrite Z.add_mod_idemp_r by lia.
    + intros t Ht. apply (coefficient_add n p q r t); [done..|].
      apply Hterms. by apply list_elem_of_In.
  - destruct (mul_int_ok n p a Hp) as (r & Hr & Hwf). rewrite Hr, res_bind_Ok.
    rewrite (evaluate_int_value n) by (done || by apply forallb_forall).
    fold xm. f_equal. unfold value_of. rewrite (wf_n_vars _ _ Hp), (wf_n_vars _ _ Hwf).
    rewrite Z.mul_mod_idemp_l by lia. rewrite <- sum_over_scale.
    apply sum_over_congr. intros t Ht.
    rewrite (coefficient_mul_int n p a r t) by (done || apply Hterms; by apply list_elem_of_In).
    rewrite Z.mul_mod_idemp_l by lia. f_equal. lia.
Qed.
End Values.

(** ** The subsets that [phase] visits *)

Section Combinations.

Lemma combinations_zero {A} (l : list A) : combinations 0 l = [[]].
Proof. by destruct l. Qed.

Lemma combinations_subset {A} r (l : list A) t a :
  t ∈ combinations r l → a ∈ t → a ∈ l.
Proof.
  revert r t. induction l as [|x l IH]; intros [|r] t Ht Ha; simpl in Ht.
  - apply list_elem_of_singleton in Ht as ->. by apply elem_of_nil in Ha.
  - by apply elem_of_nil in Ht.
  - apply list_elem_of_singleton in Ht as ->. by apply elem_of_nil in Ha.
  - apply elem_of_app in Ht as [Ht|Ht].
    + apply list_elem_of_fmap in Ht as (t' & -> & Ht').
      apply elem_of_cons in Ha as [->|Ha]; [by left|]. right. by eapply IH.
    + right. by eapply IH.
Qed.

Lemma increasing_in_lower lo hi l a : increasing_in lo hi l → a ∈ l → lo ≤ a.
Proof. intros Hl Ha. pose proof (increasing_in_elem lo hi l a Hl Ha). lia. Qed.

Lemma combinations_complete r lo hi J t :
  increasing_in lo hi J → length t = r → increasing_in lo hi t →
  (∀ a, a ∈ t → a ∈ J) → t ∈ combinations r J.
Proof.
  revert r lo t. induction J as [|x J IH]; intros r lo t HJ Hlen Ht Hsub.
  - destruct t as [|a t]; [|by specialize (Hsub a ltac:(by left)); apply elem_of_nil in Hsub].
    simpl in Hlen. subst r. by left.
  - destruct HJ as [Hx HJ]. destruct r as [|r].
    + destruct t; [|done]. by left.
    + destruct t as [|a t]; [done|]. simpl in Hlen. destruct Ht as [Ha Ht]. simpl.
      apply elem_of_app.
      assert (∀ b, b ∈ t → b ∈ J) as Htail.
      { intros b Hb. pose proof (increasing_in_lower _ _ _ _ Ht Hb) as Hlow.
        pose proof (Hsub b ltac:(by right)) as Hbin.
        apply elem_of_cons in Hbin as [->|]; [|done].
        pose proof (Hsub a ltac:(by left)) as Hain.
        apply elem_of_cons in Hain as [->|Hin]; [lia|].
        pose proof (increasing_in_lower _ _ _ _ HJ Hin). lia. }
      destruct (decide (a = x)) as [->|Hne].
      * left. apply list_elem_of_fmap. exists t. split; [done|].
        apply (IH r (x + 1)); [done|lia|done|done].
      * right. pose proof (Hsub a ltac:(by left)) as Hin.
        apply elem_of_cons in Hin as [->|Hin]; [done|].
        pose proof (increasing_in_lower _ _ _ _ HJ Hin).
        apply (IH (S r) (x + 1)); [done|simpl; lia| |].
        -- split; [lia|done].
        -- intros b [->|Hb]%elem_of_cons; [done|by apply Htail].
Qed.

Lemma combinations_nodup r lo hi J : increasing_in lo hi J → NoDup (combinations r J).
Proof.
  revert r lo. induction J as [|x J IH]; intros [|r] lo HJ; simpl.
  - apply NoDup_singleton.
  - apply NoDup_nil_2.
  - apply NoDup_singleton.
  - destruct HJ as [Hx HJ]. apply NoDup_app. split_and!.
    + apply NoDup_fmap_2; [by intros ?? [=]|by eapply IH].
    + intros t Ht1 Ht2. apply list_elem_of_fmap in Ht1 as (t' & -> & _).
      pose proof (combinations_subset _ _ _ x Ht2 ltac:(by left)) as Hin.
      pose proof (increasing_in_lower _ _ _ _ HJ Hin). lia.
    + by eapply IH.
Qed.
End Combinations.

(** ** [phase] on at most four qubits *)

Section PhaseCoefficients.
Import CNOTDihedral.

Lemma valid_term_ok n t :
  n ≤ 4 ∨ (length t ≤ 2)%nat → valid_term n t → term_ok n t = true.
Proof.
  intros Hsmall Ht. unfold term_ok. rewrite (check_indices_ok n t Ht).
  destruct t as [|i0 [|i1 [|i2 [|]]]]; try done.
  - apply valid_term_2_inv in Ht as (? & ? & ?).
    apply bool_decide_eq_true. by apply offset_2_bounds.
  - destruct Hsmall as [Hn|Hlen]; [|simpl in Hlen; lia].
    apply valid_term_3_inv in Ht as (? & ? & ? & ?).
    apply bool_decide_eq_true. by apply offset_3_small.
  - destruct Ht as (Hlen & _). simpl in Hlen. lia.
Qed.

(** A loop that replaces the coefficient [c] of every term of a list by
    [g c]. *)
Lemma update_terms n (g : Z → Z) (ts : list (list Z)) p :
  n ≤ 4 → wf_poly n p → (∀ t, t ∈ ts → valid_term n t) → NoDup ts →
  ∃ p',
    st_for ts (λ t,
      value ← st_read (λ p, SpecialPolynomial.get_term p t);
      SpecialPolynomial.set_term t (g value)) p = (Ok (), p') ∧
    wf_poly n p' ∧
    ∀ u, valid_term n u →
      coefficient p' u = if bool_decide (u ∈ ts) then g (coefficient p u) `mod` 8
                         else coefficient p u.
Proof.
  intros Hn. revert p. induction ts as [|t ts IH]; intros p Hp Hts Hnd.
  - exists p. split; [done|]. split; [done|]. intros u _.
    rewrite bool_decide_eq_false_2; [done|]. apply not_elem_of_nil.
  - apply NoDup_cons in Hnd as [Hnotin Hnd].
    pose proof (Hts t ltac:(by left)) as Ht.
    destruct (coefficient_get_term n p t Hp (valid_term_ok n t (or_introl Hn) Ht))
      as [Hget _].
    destruct (set_term_cells n p t (g (coefficient p t)) Hp Ht (or_intror Hn))
      as (p1 & Hset & Hwf1 & Hget1 & Hframe1).
    destruct (IH p1 Hwf1 ltac:(intros; apply Hts; by right) Hnd) as (p' & Hrun & Hwf' & Hco).
    exists p'. split; [|split; [done|]].
    + simpl. unfold mbind, st_mbind, st_bind, st_read. by rewrite Hget, Hset.
    + intros u Hu. rewrite (Hco u Hu).
      destruct (decide (u = t)) as [->|Hne].
      * rewrite (bool_decide_eq_false_2 (t ∈ ts)) by done.
        rewrite (bool_decide_eq_true_2 (t ∈ t :: ts)) by by left.
        unfold coefficient at 1. by rewrite Hget1.
      * assert (coefficient p1 u = coefficient p u) as ->.
        { unfold coefficient. by rewrite (Hframe1 u Hu Hne). }
        destruct (decide (u ∈ ts)) as [Hin|Hout].
        -- rewrite !bool_decide_eq_true_2; [done|by right|done].
        -- rewrite !bool_decide_eq_false_2; [done| |done].
           intros [?|?]%elem_of_cons; done.
Qed.

Lemma set_poly_poly e : set_poly (poly e) e = e.
Proof. by destruct e. Qed.

(** A loop over the polynomial of an element. *)
Lemma st_for_on_poly {X A} (c1 : X → M SpecialPolynomial.t A)
    (c2 : X → A → M SpecialPolynomial.t ()) (l : list X) e :
  st_for l (λ x, value ← on_poly (c1 x); on_poly (c2 x value)) e
  = ((st_for l (λ x, value ← c1 x; c2 x value) (poly e)).1,
     set_poly (st_for l (λ x, value ← c1 x; c2 x value) (poly e)).2 e).
Proof.
  revert e. induction l as [|x l IH]; intros e; simpl.
  - unfold st_ret. simpl. by rewrite set_poly_poly.
  - unfold mbind, st_mbind, st_bind, on_poly.
    destruct (c1 x (poly e)) as [[v|err] p1]; simpl; [|done].
    destruct (c2 x v p1) as [[[]|err] p2]; simpl; [|done].
    rewrite IH. simpl. by destruct e.
Qed.

Lemma st_for_fmap {S X Y} (f : X → Y) (body : Y → M S ()) (l : list X) (s : S) :
  st_for (f <$> l) body s = st_for l (λ x, body (f x)) s.
Proof.
  revert s. induction l as [|x l IH]; intros s; simpl; [done|].
  unfold mbind, st_mbind, st_bind. destruct (body (f x) s) as [[[]|err] s']; [apply IH|done].
Qed.

Lemma support_of_row n m i :
  z2_matrix n m → 0 ≤ i < n →
  increasing_in 0 n (support_of (default [] (m !! Z.to_nat i))).
Proof.
  intros [Hlen Hrows] Hi.
  destruct (lookup_lt_is_Some_2 m (Z.to_nat i)) as [row Hrow]; [lia|].
  rewrite Hrow. simpl. destruct (Forall_lookup_1 _ _ _ _ Hrows Hrow) as [Hlen' _].
  rewrite <- Hlen'. apply support_of_increasing.
Qed.

Lemma increasing_in_nodup lo hi l : increasing_in lo hi l → NoDup l.
Proof.
  revert lo. induction l as [|x l IH]; intros lo Hl; [apply NoDup_nil_2|].
  destruct Hl as [Hx Hl]. apply NoDup_cons. split; [|by eapply IH].
  intros Hin. pose proof (increasing_in_lower _ _ _ _ Hl Hin). lia.
Qed.

Lemma valid_term_increasing n t : valid_term n t → increasing_in 0 n t.
Proof.
  intros (_ & Hr & Hinc).
  assert (∀ lo, Forall (λ x, x < n) t → match t with [] => True | a :: _ => lo ≤ a end →
                increasing_in lo n t) as Hgen.
  { clear Hr. induction t as [|a t IH]; intros lo Hlt Hhead; [done|].
    apply Forall_cons_1 in Hlt as [Ha Hlt]. split; [lia|].
    destruct t as [|b t]; [done|]. apply Forall_cons_1 in Hinc as [Hab Hinc].
    simpl in Hab. apply IH; [done|done|lia]. }
  apply Hgen.
  - eapply Forall_impl; [exact Hr|]. simpl. lia.
  - destruct t as [|a t]; [done|]. by apply Forall_cons_1 in Hr as [[? ?] _].
Qed.

Lemma forallb_elem_of (J u : list Z) :
  forallb (λ a, bool_decide (a ∈ J)) u = true ↔ ∀ a, a ∈ u → a ∈ J.
Proof.
  rewrite forallb_forall. split.
  - intros H a Ha. apply list_elem_of_In, H in Ha. by apply bool_decide_eq_true in Ha.
  - intros H a Ha. apply bool_decide_eq_true, H. by apply list_elem_of_In.
Qed.

Lemma combinations_mem n r J u :
  increasing_in 0 n J → valid_term n u →
  u ∈ combinations r J ↔ length u = r ∧ forallb (λ a, bool_decide (a ∈ J)) u = true.
Proof.
  intros HJ Hu. rewrite forallb_elem_of. split.
  - intros Hin. split; [by eapply combinations_increasing|].
    intros a Ha. by eapply combinations_subset.
  - intros [Hlen Hsub]. apply (combinations_complete r 0 n); [done..| |done].
    by apply valid_term_increasing.
Qed.

Lemma singletons_mem (J u : list Z) :
  u ∈ (λ j, [j]) <$> J ↔ length u = 1%nat ∧ forallb (λ a, bool_decide (a ∈ J)) u = true.
Proof.
  rewrite forallb_elem_of, list_elem_of_fmap. split.
  - intros (j & -> & Hj). split; [done|]. by intros a ->%list_elem_of_singleton.
  - intros [Hlen Hsub]. destruct u as [|a [|]]; try done.
    exists a. split; [done|]. apply Hsub. by left.
Qed.

Lemma phase_loop n (g : Z → Z) {X} (term_of : X → list Z) (l : list X) e :
  n ≤ 4 → wf_poly n (poly e) →
  (∀ t, t ∈ term_of <$> l → valid_term n t) → NoDup (term_of <$> l) →
  ∃ p',
    st_for l (λ x,
      value ← on_poly (st_read (λ p, SpecialPolynomial.get_term p (term_of x)));
      on_poly (SpecialPolynomial.set_term (term_of x) (g value))) e
    = (Ok (), set_poly p' e) ∧
    wf_poly n p' ∧
    ∀ u, valid_term n u →
      coefficient p' u = if bool_decide (u ∈ term_of <$> l)
                         then g (coefficient (poly e) u) `mod` 8
                         else coefficient (poly e) u.
Proof.
  intros Hn Hp Hts Hnd.
  destruct (update_terms n g (term_of <$> l) (poly e) Hn Hp Hts Hnd) as (p' & Hrun & Hwf & Hco).
  exists p'. split; [|done].
  rewrite (st_for_on_poly (λ x, st_read (λ p, SpecialPolynomial.get_term p (term_of x)))
             (λ x value, SpecialPolynomial.set_term (term_of x) (g value))).
  rewrite st_for_fmap in Hrun. by rewrite Hrun.
Qed.

(** The coefficients after [phase(k, i)]. *)
Lemma phase_coefficients n e k i :
  n ≤ 4 → wf_elem n e → 0 ≤ i < n →
  ∃ p',
    phase k i e = (Ok (), set_poly p' e) ∧ wf_poly n p' ∧
    ∀ u, valid_term n u →
      coefficient p' u =
        (coefficient (poly e) u +
         (if bool_decide (item (shift e) i = 1) then (7 * k) `mod` 8 else k) *
         subset_weight (support_of (default [] (linear e !! Z.to_nat i))) u) `mod` 8.
Proof.
  intros Hn [Hq Hpoly Hlin Hsh] Hi.
  set (k' := if bool_decide (item (shift e) i = 1) then (7 * k) `mod` 8 else k).
  set (J := support_of (default [] (linear e !! Z.to_nat i))).
  pose proof (support_of_row n (linear e) i Hlin Hi) as HJ. fold J in HJ.
  assert (∀ r t, t ∈ combinations r J → (r ≤ 3)%nat → valid_term n t) as Hvalid.
  { intros r t Ht Hr. destruct (combinations_increasing r 0 n J t HJ Ht) as [Hinc Hlen].
    apply increasing_in_valid_term; [lia|done]. }
  destruct (phase_loop n (λ v, (v + k') `mod` 8) (λ j : Z, [j]) J e Hn Hpoly)
    as (p1 & Hrun1 & Hwf1 & Hco1).
  { intros t (j & -> & Hj)%list_elem_of_fmap.
    apply valid_term_single. by apply (increasing_in_elem 0 n J). }
  { apply NoDup_fmap_2; [by intros ?? [=]|by eapply increasing_in_nodup]. }
  destruct (phase_loop n (λ v, (v + -2 * k') `mod` 8) (λ j : list Z, j)
              (combinations 2 J) (set_poly p1 e) Hn Hwf1)
    as (p2 & Hrun2 & Hwf2 & Hco2).
  { rewrite list_fmap_id. intros t Ht. by apply (Hvalid 2%nat); [|lia]. }
  { rewrite list_fmap_id. by eapply combinations_nodup. }
  destruct (phase_loop n (λ v, (v + 4 * k') `mod` 8) (λ j : list Z, j)
              (combinations 3 J) (set_poly p2 (set_poly p1 e)) Hn Hwf2)
    as (p3 & Hrun3 & Hwf3 & Hco3).
  { rewrite list_fmap_id. intros t Ht. by apply (Hvalid 3%nat); [|lia]. }
  { rewrite list_fmap_id. by eapply combinations_nodup. }
  exists p3. split; [|split; [done|]].
  - unfold phase. unfold mbind at 1, st_mbind at 1, st_bind at 1, st_get.
    unfold mbind at 1, st_mbind at 1, st_bind at 1, st_assert, assert.
    rewrite (bool_decide_eq_true_2 (0 ≤ i)) by lia.
    unfold mbind at 1, st_mbind at 1, st_bind at 1.
    rewrite (bool_decide_eq_true_2 (i < num_qubits e)) by lia.
    cbv zeta. fold k' J.
    unfold mbind at 1, st_mbind at 1, st_bind at 1. rewrite Hrun1.
    unfold mbind at 1, st_mbind at 1, st_bind at 1. rewrite Hrun2.
    rewrite Hrun3. by destruct e.
  - intros u Hu. change (poly (set_poly p2 (set_poly p1 e))) with p2 in Hco3.
    change (poly (set_poly p1 e)) with p1 in Hco2.
    rewrite (Hco3 u Hu), (Hco2 u Hu), (Hco1 u Hu).
    rewrite !list_fmap_id.
    destruct (coefficient_get_term n (poly e) u Hpoly (valid_term_ok n u (or_introl Hn) Hu))
      as [_ Hc].
    pose proof (singletons_mem J u) as H1.
    pose proof (combinations_mem n 2 J u HJ Hu) as H2.
    pose proof (combinations_mem n 3 J u HJ Hu) as H3.
    unfold subset_weight.
    destruct (forallb (λ a, bool_decide (a ∈ J)) u) eqn:HF.
    + destruct u as [|a [|b [|c [|]]]].
      * rewrite !bool_decide_eq_false_2 by (rewrite ?H1, ?H2, ?H3; simpl; intros [? _]; lia).
        rewrite Z.mul_0_r, Z.add_0_r, Z.mod_small by lia. done.
      * rewrite (bool_decide_eq_true_2 (_ ∈ (λ j, [j]) <$> J)) by by apply H1.
        rewrite !bool_decide_eq_false_2 by (rewrite ?H2, ?H3; simpl; intros [? _]; lia).
        rewrite Z.mod_mod by lia. f_equal. lia.
      * rewrite (bool_decide_eq_true_2 (_ ∈ combinations 2 J)) by by apply H2.
        rewrite !bool_decide_eq_false_2 by (rewrite ?H1, ?H3; simpl; intros [? _]; lia).
        rewrite Z.mod_mod by lia. f_equal. lia.
      * rewrite (bool_decide_eq_true_2 (_ ∈ combinations 3 J)) by by apply H3.
        rewrite !bool_decide_eq_false_2 by (rewrite ?H1, ?H2; simpl; intros [? _]; lia).
        rewrite Z.mod_mod by lia. f_equal. lia.
      * destruct Hu as (Hlen & _). simpl in Hlen. lia.
    + rewrite !bool_decide_eq_false_2 by (rewrite ?H1, ?H2, ?H3; by intros [_ ?]).
      rewrite Z.mul_0_r, Z.add_0_r, Z.mod_small by lia. done.
Qed.

(** On at most four qubits [phase(k, i)] returns; it leaves the linear
    part and the shift, and adds to the coefficient of every non-empty
    subset of the support of row [i] the value k' (one variable), -2 k'
    (two) or 4 k' (three), where k' is [7 * k mod 8] when bit [i] of the
    shift is 1 and [k] otherwise; the other coefficients stay. *)
Theorem phase_on_at_most_four_qubits (n : Z) (e : t) (k i : Z) :
  n ≤ 4 → wf_elem n e → 0 ≤ i < n →
  ∃ e',
    phase k i e = (Ok (), e') ∧ wf_elem n e' ∧
    linear e' = linear e ∧ shift e' = shift e ∧
    ∀ u, valid_term n u →
      ∃ c, SpecialPolynomial.get_term (poly e) u = Ok c ∧
           SpecialPolynomial.get_term (poly e') u =
             Ok ((c + (if bool_decide (item (shift e) i = 1) then (7 * k) `mod` 8 else k) *
                      subset_weight (support_of (default [] (linear e !! Z.to_nat i))) u)
                 `mod` 8).
Proof.
  intros Hn He Hi.
  destruct (phase_coefficients n e k i Hn He Hi) as (p' & Hrun & Hwf & Hco).
  exists (set_poly p' e). split; [done|].
  destruct He as [Hq Hpoly Hlin Hsh].
  split; [by split|]. split; [done|]. split; [done|].
  intros u Hu. pose proof (valid_term_ok n u (or_introl Hn) Hu) as Hok.
  destruct (coefficient_get_term n (poly e) u Hpoly Hok) as [Hget _].
  destruct (coefficient_get_term n p' u Hwf Hok) as [Hget' _].
  exists (coefficient (poly e) u). split; [done|].
  simpl. by rewrite Hget', (Hco u Hu).
Qed.

Lemma fmap_mod_2_bits x : bits x → (λ b, b `mod` 2) <$> x = x.
Proof.
  induction 1 as [|b x Hb _ IH]; [done|]. rewrite fmap_cons, IH. f_equal.
  by destruct Hb as [-> | ->].
Qed.

(** The sum of the weights of the subsets of [J] at a vector of bits is
    the parity of the bits at [J]. *)
Lemma subset_weights_parity n J x :
  1 ≤ n ≤ 4 → J ∈ sublists (py_range n) → x ∈ bit_vectors (Z.to_nat n) →
  sum_over (λ t, subset_weight J t * monomial x t) (SpecialPolynomial.all_terms n) `mod` 8
  = xor_at x J.
Proof.
  intros Hn HJ Hx.
  assert (n = 1 ∨ n = 2 ∨ n = 3 ∨ n = 4) as [->|[->|[->| ->]]] by lia.
  - concrete_in HJ (sublists (py_range 1)). concrete_in Hx (bit_vectors (Z.to_nat 1)).
    enumerate HJ; enumerate Hx; vm_compute; reflexivity.
  - concrete_in HJ (sublists (py_range 2)). concrete_in Hx (bit_vectors (Z.to_nat 2)).
    enumerate HJ; enumerate Hx; vm_compute; reflexivity.
  - concrete_in HJ (sublists (py_range 3)). concrete_in Hx (bit_vectors (Z.to_nat 3)).
    enumerate HJ; enumerate Hx; vm_compute; reflexivity.
  - concrete_in HJ (sublists (py_range 4)). concrete_in Hx (bit_vectors (Z.to_nat 4)).
    enumerate HJ; enumerate Hx; vm_compute; reflexivity.
Qed.

(** The product of a row and a vector of bits is the parity of the bits
    at the support of the row. *)
Lemma row_times_vector n row x :
  1 ≤ n ≤ 4 → row ∈ bit_vectors (Z.to_nat n) → x ∈ bit_vectors (Z.to_nat n) →
  zsum (λ k, item row k * item x k) n `mod` 2 = xor_at x (support_of row).
Proof.
  intros Hn Hrow Hx.
  assert (n = 1 ∨ n = 2 ∨ n = 3 ∨ n = 4) as [->|[->|[->| ->]]] by lia.
  - concrete_in Hrow (bit_vectors (Z.to_nat 1)). concrete_in Hx (bit_vectors (Z.to_nat 1)).
    enumerate Hrow; enumerate Hx; vm_compute; reflexivity.
  - concrete_in Hrow (bit_vectors (Z.to_nat 2)). concrete_in Hx (bit_vectors (Z.to_nat 2)).
    enumerate Hrow; enumerate Hx; vm_compute; reflexivity.
  - concrete_in Hrow (bit_vectors (Z.to_nat 3)). concrete_in Hx (bit_vectors (Z.to_nat 3)).
    enumerate Hrow; enumerate Hx; vm_compute; reflexivity.
  - concrete_in Hrow (bit_vectors (Z.to_nat 4)). concrete_in Hx (bit_vectors (Z.to_nat 4)).
    enumerate Hrow; enumerate Hx; vm_compute; reflexivity.
Qed.

Lemma sum_over_scale_l {A} (f : A → Z) c l :
  sum_over (λ t, c * f t) l = c * sum_over f l.
Proof. induction l as [|t l IH]; simpl; [lia|]. rewrite IH. lia. Qed.

Lemma sum_over_ext {A} (f g : A → Z) l :
  (∀ t, f t = g t) → sum_over f l = sum_over g l.
Proof. intros H. induction l as [|t l IH]; simpl; [done|]. by rewrite H, IH. Qed.

Lemma item_tabulate (f : Z → Z) n i : 0 ≤ i < n → item (f <$> py_range n) i = f i.
Proof. intros Hi. unfold item. by rewrite lookup_tabulate. Qed.

Lemma cell_row m i row k : m !! Z.to_nat i = Some row → cell m i k = item row k.
Proof. intros Hrow. unfold cell, item. by rewrite Hrow. Qed.

(** Entry [i] of the image of a vector of bits under the affine map. *)
Lemma affine_image_item n e x i :
  1 ≤ n ≤ 4 → wf_elem n e → z2_vector n x → 0 ≤ i < n →
  item (affine_image e x) i
  = Z.lxor (xor_at x (support_of (default [] (linear e !! Z.to_nat i)))) (item (shift e) i) ∧
  (xor_at x (support_of (default [] (linear e !! Z.to_nat i))) = 0 ∨
   xor_at x (support_of (default [] (linear e !! Z.to_nat i))) = 1).
Proof.
  intros Hn [Hq Hpoly Hlin [Hlen Hbits]] Hx Hi. unfold affine_image. rewrite Hq.
  destruct (z2_matrix_getitem n (linear e) i Hlin Hi) as (_ & Hrowlen & Hrowbits).
  destruct Hlin as [Hmlen Hrows].
  destruct (lookup_lt_is_Some_2 (linear e) (Z.to_nat i)) as [row Hrow]; [lia|].
  rewrite Hrow in *. simpl in *.
  assert (zsum (λ k, cell (linear e) i k * item x k) n `mod` 2 = xor_at x (support_of row))
    as Hparity.
  { rewrite (zsum_ext _ (λ k, item row k * item x k))
      by (intros; by rewrite (cell_row _ _ row)).
    apply row_times_vector; [done|by apply z2_vector_bit_vectors..]. }
  split.
  - rewrite item_zip_with.
    + unfold z2_matrix_vector. rewrite item_tabulate by done. by rewrite Hparity.
    + unfold z2_matrix_vector. rewrite length_fmap, length_py_range. lia.
    + lia.
  - rewrite <- Hparity. apply mod_2_bit.
Qed.

(** On at most four qubits [phase(k, i)] multiplies the amplitude of
    the image of |x> by omega^(k y_i), up to the global phase
    omega^(k s_i): it adds k (y_i - s_i) to the value of the polynomial at
    [x], where y_i is bit [i] of the image of [x] under the affine map
    and s_i bit [i] of the shift, and leaves the affine map. *)
Theorem phase_acts_on_the_output_bit (n : Z) (e : t) (k i : Z) (x : list Z) :
  n ≤ 4 → wf_elem n e → 0 ≤ i < n → z2_vector n x →
  ∃ e' v,
    phase k i e = (Ok (), e') ∧
    SpecialPolynomial.evaluate_int (poly e) x = Ok v ∧
    affine_image e' x = affine_image e x ∧
    SpecialPolynomial.evaluate_int (poly e') x
    = Ok ((v + k * (item (affine_image e x) i - item (shift e) i)) `mod` 8).
Proof.
  intros Hn He Hi Hx. pose proof (wf_n_pos _ _ (wf_poly_of _ _ He)) as Hpos.
  destruct (phase_coefficients n e k i Hn He Hi) as (p' & Hrun & Hwf & Hco).
  destruct (affine_image_item n e x i ltac:(lia) He Hx Hi) as [Hy Hparity].
  pose proof (z2_vector_item_bit n (shift e) i (wf_shift _ _ He)) as Hs.
  pose proof (terms_ok_small n ltac:(lia)) as Hterms.
  pose proof Hx as [Hxlen Hxbits].
  set (J := support_of (default [] (linear e !! Z.to_nat i))) in *.
  set (k' := if bool_decide (item (shift e) i = 1) then (7 * k) `mod` 8 else k) in *.
  exists (set_poly p' e), (value_of (poly e) x).
  split; [done|]. split.
  { rewrite (evaluate_int_value n) by (done || apply He). by rewrite fmap_mod_2_bits. }
  split; [done|]. simpl poly.
  rewrite (evaluate_int_value n) by done. rewrite fmap_mod_2_bits by done. f_equal.
  rewrite (value_of_shift n (poly e) p' (λ t, k' * subset_weight J t) x);
    [|apply He|apply Hwf|intros t Ht; apply Hco; by apply all_terms_valid].
  rewrite (sum_over_ext _ (λ t, k' * (subset_weight J t * monomial x t)))
    by (intros; lia).
  rewrite sum_over_scale_l.
  pose proof (subset_weights_parity n J x ltac:(lia)
    (increasing_in_py_range n J ltac:(lia)
       (support_of_row n (linear e) i (wf_linear _ _ He) Hi))
    (z2_vector_bit_vectors n x Hx)) as Hsum.
  rewrite <- Z.add_mod_idemp_r, <- Z.mul_mod_idemp_r, Hsum by lia.
  rewrite Z.add_mod_idemp_r by lia. rewrite Hy. unfold k'.
  destruct Hs as [-> | ->], Hparity as [-> | ->]; simpl;
    [change (Z.lxor 0 0) with 0|change (Z.lxor 1 0) with 1
    |change (Z.lxor 0 1) with 1|change (Z.lxor 1 1) with 0];
    [f_equal; lia..|].
  rewrite Z.mul_1_r, Z.add_mod_idemp_r by lia.
  replace (value_of (poly e) x + 7 * k) with (value_of (poly e) x + k * (0 - 1) + k * 8)
    by lia.
  apply Z.mod_add. lia.
Qed.
End PhaseCoefficients.

(** ** The properties at concrete polynomials and elements *)

Ltac poly_concrete := split; simpl; try done; try lia; forall_concrete lia.

Section MoreInstances.
Import CNOTDihedral.

Lemma set_term_then_get_term_witness :
  wf_poly 2 (SpecialPolynomial.mk 2 1 0 0 [1; 0] [0] []) ∧ valid_term 2 [0; 1] ∧
  ((length [0; 1] ≤ 2)%nat ∨ 2 ≤ 4) ∧
  ∃ p', SpecialPolynomial.set_term [0; 1] 11 (SpecialPolynomial.mk 2 1 0 0 [1; 0] [0] [])
          = (Ok (), p') ∧ wf_poly 2 p' ∧
        SpecialPolynomial.get_term p' [0; 1] = Ok (11 `mod` 8) ∧
        ∀ L', valid_term 2 L' → L' ≠ [0; 1] →
          SpecialPolynomial.get_term p' L'
          = SpecialPolynomial.get_term (SpecialPolynomial.mk 2 1 0 0 [1; 0] [0] []) L'.
Proof.
  assert (wf_poly 2 (SpecialPolynomial.mk 2 1 0 0 [1; 0] [0] [])) as Hp by poly_concrete.
  assert (valid_term 2 [0; 1]) as HL.
  { split; [simpl; lia|]. split; [forall_concrete lia|forall_concrete ltac:(simpl; lia)]. }
  assert ((length [0; 1] ≤ 2)%nat ∨ 2 ≤ 4) as Hs by (right; lia).
  split; [exact Hp|]. split; [exact HL|]. split; [exact Hs|].
  exact (set_term_then_get_term 2 _ [0; 1] 11 Hp HL Hs).
Defined.

Lemma polynomial_addition_laws_witness :
  wf_poly 1 (SpecialPolynomial.mk 1 0 0 3 [5] [] []) ∧
  wf_poly 1 (SpecialPolynomial.mk 1 0 0 7 [6] [] []) ∧
  wf_poly 1 (SpecialPolynomial.mk 1 0 0 1 [2] [] []) ∧
  ∃ zero neg,
    SpecialPolynomial.__init__ 1 = Ok zero ∧
    SpecialPolynomial.__mul__int (SpecialPolynomial.mk 1 0 0 3 [5] [] []) (-1) = Ok neg ∧
    SpecialPolynomial.__add__ (SpecialPolynomial.mk 1 0 0 3 [5] [] []) zero
      = Ok (SpecialPolynomial.mk 1 0 0 3 [5] [] []) ∧
    SpecialPolynomial.__add__ (SpecialPolynomial.mk 1 0 0 3 [5] [] []) neg = Ok zero ∧
    SpecialPolynomial.__add__ (SpecialPolynomial.mk 1 0 0 3 [5] [] [])
                              (SpecialPolynomial.mk 1 0 0 7 [6] [] [])
    = SpecialPolynomial.__add__ (SpecialPolynomial.mk 1 0 0 7 [6] [] [])
                                (SpecialPolynomial.mk 1 0 0 3 [5] [] []) ∧
    (pq ← SpecialPolynomial.__add__ (SpecialPolynomial.mk 1 0 0 3 [5] [] [])
                                    (SpecialPolynomial.mk 1 0 0 7 [6] [] []);
     SpecialPolynomial.__add__ pq (SpecialPolynomial.mk 1 0 0 1 [2] [] []))
    = (qr ← SpecialPolynomial.__add__ (SpecialPolynomial.mk 1 0 0 7 [6] [] [])
                                      (SpecialPolynomial.mk 1 0 0 1 [2] [] []);
       SpecialPolynomial.__add__ (SpecialPolynomial.mk 1 0 0 3 [5] [] []) qr).
Proof.
  assert (wf_poly 1 (SpecialPolynomial.mk 1 0 0 3 [5] [] [])) as Hp by poly_concrete.
  assert (wf_poly 1 (SpecialPolynomial.mk 1 0 0 7 [6] [] [])) as Hq by poly_concrete.
  assert (wf_poly 1 (SpecialPolynomial.mk 1 0 0 1 [2] [] [])) as Hr by poly_concrete.
  split; [exact Hp|]. split; [exact Hq|]. split; [exact Hr|].
  exact (polynomial_addition_laws 1 _ _ _ Hp Hq Hr).
Defined.

Lemma scalar_multiplication_laws_witness :
  wf_poly 1 (SpecialPolynomial.mk 1 0 0 3 [5] [] []) ∧
  wf_poly 1 (SpecialPolynomial.mk 1 0 0 7 [6] [] []) ∧
  SpecialPolynomial.__mul__int (SpecialPolynomial.mk 1 0 0 3 [5] [] []) 1
    = Ok (SpecialPolynomial.mk 1 0 0 3 [5] [] []) ∧
  (pa ← SpecialPolynomial.__mul__int (SpecialPolynomial.mk 1 0 0 3 [5] [] []) 3;
   SpecialPolynomial.__mul__int pa 5)
    = SpecialPolynomial.__mul__int (SpecialPolynomial.mk 1 0 0 3 [5] [] []) (3 * 5) ∧
  (pq ← SpecialPolynomial.__add__ (SpecialPolynomial.mk 1 0 0 3 [5] [] [])
                                  (SpecialPolynomial.mk 1 0 0 7 [6] [] []);
   SpecialPolynomial.__mul__int pq 3)
    = (pa ← SpecialPolynomial.__mul__int (SpecialPolynomial.mk 1 0 0 3 [5] [] []) 3;
       qa ← SpecialPolynomial.__mul__int (SpecialPolynomial.mk 1 0 0 7 [6] [] []) 3;
       SpecialPolynomial.__add__ pa qa) ∧
  SpecialPolynomial.__mul__int (SpecialPolynomial.mk 1 0 0 3 [5] [] []) (3 + 5)
    = (pa ← SpecialPolynomial.__mul__int (SpecialPolynomial.mk 1 0 0 3 [5] [] []) 3;
       pb ← SpecialPolynomial.__mul__int (SpecialPolynomial.mk 1 0 0 3 [5] [] []) 5;
       SpecialPolynomial.__add__ pa pb) ∧
  SpecialPolynomial.__mul__int (SpecialPolynomial.mk 1 0 0 3 [5] [] []) (3 + 8)
    = SpecialPolynomial.__mul__int (SpecialPolynomial.mk 1 0 0 3 [5] [] []) 3.
Proof.
  assert (wf_poly 1 (SpecialPolynomial.mk 1 0 0 3 [5] [] [])) as Hp by poly_concrete.
  assert (wf_poly 1 (SpecialPolynomial.mk 1 0 0 7 [6] [] [])) as Hq by poly_concrete.
  split; [exact Hp|]. split; [exact Hq|].
  exact (scalar_multiplication_laws 1 _ _ 3 5 Hp Hq).
Defined.

Lemma generated_elements_invariant_witness :
  generated 2 (element_2 0 0 0 [[1; 0]; [1; 1]] 0 0) ∧
  wf_elem 2 (element_2 0 0 0 [[1; 0]; [1; 1]] 0 0) ∧
  SpecialPolynomial.weight_0 (poly (element_2 0 0 0 [[1; 0]; [1; 1]] 0 0)) = 0 ∧
  z2_invertible 2 (linear (element_2 0 0 0 [[1; 0]; [1; 1]] 0 0)).
Proof.
  assert (generated 2 (element_2 0 0 0 [[1; 0]; [1; 1]] 0 0)) as Hgen.
  { apply (generated_cnot 2 (element_2 0 0 0 [[1; 0]; [0; 1]] 0 0) 0 1);
      [|vm_compute; reflexivity].
    apply generated_identity. vm_compute. reflexivity. }
  split; [exact Hgen|]. exact (generated_elements_invariant 2 _ Hgen).
Defined.

Lemma cnot_and_flip_are_involutions_witness :
  wf_elem 2 (element_2 1 2 4 [[1; 0]; [1; 1]] 0 1) ∧ 0 ≤ 0 < 2 ∧ 0 ≤ 1 < 2 ∧ 0 ≠ 1 ∧
  (cnot 0 1;; cnot 0 1) (element_2 1 2 4 [[1; 0]; [1; 1]] 0 1)
    = (Ok (), element_2 1 2 4 [[1; 0]; [1; 1]] 0 1) ∧
  (flip 0;; flip 0) (element_2 1 2 4 [[1; 0]; [1; 1]] 0 1)
    = (Ok (), element_2 1 2 4 [[1; 0]; [1; 1]] 0 1).
Proof.
  assert (wf_elem 2 (element_2 1 2 4 [[1; 0]; [1; 1]] 0 1)) as He by wf_concrete.
  split; [exact He|]. split; [lia|]. split; [lia|]. split; [lia|].
  exact (cnot_and_flip_are_involutions 2 _ 0 1 He ltac:(lia) ltac:(lia) ltac:(lia)).
Defined.

Lemma set_pj_builds_the_parity_polynomial_witness :
  2 ≤ 4 ∧ wf_poly 2 (SpecialPolynomial.mk 2 1 0 3 [1; 5] [2] []) ∧
  increasing_in 0 2 [0; 1] ∧
  SpecialPolynomial.set_pj [0; 1] (SpecialPolynomial.mk 2 1 0 3 [1; 5] [2] [])
    = (Ok (), special_form 2 [0; 1]) ∧
  wf_poly 2 (special_form 2 [0; 1]) ∧
  ∀ x, z2_vector 2 x →
    SpecialPolynomial.evaluate_int (special_form 2 [0; 1]) x = Ok (xor_at x [0; 1]).
Proof.
  assert (wf_poly 2 (SpecialPolynomial.mk 2 1 0 3 [1; 5] [2] [])) as Hp by poly_concrete.
  assert (increasing_in 0 2 [0; 1]) as HJ by (simpl; lia).
  split; [lia|]. split; [exact Hp|]. split; [exact HJ|].
  exact (set_pj_builds_the_parity_polynomial 2 _ [0; 1] ltac:(lia) Hp HJ).
Defined.

Lemma evaluate_int_is_linear_witness :
  2 ≤ 5 ∧ wf_poly 2 (SpecialPolynomial.mk 2 1 0 3 [1; 5] [2] []) ∧
  wf_poly 2 (SpecialPolynomial.mk 2 1 0 0 [7; 0] [6] []) ∧
  Z.of_nat (length [1; 1]) = 2 ∧
  ∃ vp vq,
    SpecialPolynomial.evaluate_int (SpecialPolynomial.mk 2 1 0 3 [1; 5] [2] []) [1; 1]
      = Ok vp ∧
    SpecialPolynomial.evaluate_int (SpecialPolynomial.mk 2 1 0 0 [7; 0] [6] []) [1; 1]
      = Ok vq ∧
    0 ≤ vp < 8 ∧ 0 ≤ vq < 8 ∧
    (r ← SpecialPolynomial.__add__ (SpecialPolynomial.mk 2 1 0 3 [1; 5] [2] [])
                                   (SpecialPolynomial.mk 2 1 0 0 [7; 0] [6] []);
     SpecialPolynomial.evaluate_int r [1; 1]) = Ok ((vp + vq) `mod` 8) ∧
    (r ← SpecialPolynomial.__mul__int (SpecialPolynomial.mk 2 1 0 3 [1; 5] [2] []) 3;
     SpecialPolynomial.evaluate_int r [1; 1]) = Ok ((vp * 3) `mod` 8).
Proof.
  assert (wf_poly 2 (SpecialPolynomial.mk 2 1 0 3 [1; 5] [2] [])) as Hp by poly_concrete.
  assert (wf_poly 2 (SpecialPolynomial.mk 2 1 0 0 [7; 0] [6] [])) as Hq by poly_concrete.
  split; [lia|]. split; [exact Hp|]. split; [exact Hq|]. split; [reflexivity|].
  exact (evaluate_int_is_linear 2 _ _ 3 [1; 1] ltac:(lia) Hp Hq eq_refl).
Defined.

Lemma phase_on_at_most_four_qubits_witness :
  2 ≤ 4 ∧ wf_elem 2 (element_2 1 2 4 [[1; 0]; [1; 1]] 0 1) ∧ 0 ≤ 1 < 2 ∧
  ∃ e',
    phase 3 1 (element_2 1 2 4 [[1; 0]; [1; 1]] 0 1) = (Ok (), e') ∧ wf_elem 2 e' ∧
    linear e' = linear (element_2 1 2 4 [[1; 0]; [1; 1]] 0 1) ∧
    shift e' = shift (element_2 1 2 4 [[1; 0]; [1; 1]] 0 1) ∧
    ∀ u, valid_term 2 u →
      ∃ c, SpecialPolynomial.get_term (poly (element_2 1 2 4 [[1; 0]; [1; 1]] 0 1)) u = Ok c ∧
           SpecialPolynomial.get_term (poly e') u =
             Ok ((c + (if bool_decide
                            (item (shift (element_2 1 2 4 [[1; 0]; [1; 1]] 0 1)) 1 = 1)
                       then (7 * 3) `mod` 8 else 3) *
                      subset_weight
                        (support_of
                           (default [] (linear (element_2 1 2 4 [[1; 0]; [1; 1]] 0 1)
                                          !! Z.to_nat 1))) u)
                 `mod` 8).
Proof.
  assert (wf_elem 2 (element_2 1 2 4 [[1; 0]; [1; 1]] 0 1)) as He by wf_concrete.
  split; [lia|]. split; [exact He|]. split; [lia|].
  exact (phase_on_at_most_four_qubits 2 _ 3 1 ltac:(lia) He ltac:(lia)).
Defined.

Lemma phase_acts_on_the_output_bit_witness :
  2 ≤ 4 ∧ wf_elem 2 (element_2 1 2 4 [[1; 0]; [1; 1]] 0 1) ∧ 0 ≤ 1 < 2 ∧
  z2_vector 2 [1; 0] ∧
  ∃ e' v,
    phase 3 1 (element_2 1 2 4 [[1; 0]; [1; 1]] 0 1) = (Ok (), e') ∧
    SpecialPolynomial.evaluate_int (poly (element_2 1 2 4 [[1; 0]; [1; 1]] 0 1)) [1; 0]
      = Ok v ∧
    affine_image e' [1; 0] = affine_image (element_2 1 2 4 [[1; 0]; [1; 1]] 0 1) [1; 0] ∧
    SpecialPolynomial.evaluate_int (poly e') [1; 0]
    = Ok ((v + 3 * (item (affine_image (element_2 1 2 4 [[1; 0]; [1; 1]] 0 1) [1; 0]) 1
                    - item (shift (element_2 1 2 4 [[1; 0]; [1; 1]] 0 1)) 1)) `mod` 8).
Proof.
  assert (wf_elem 2 (element_2 1 2 4 [[1; 0]; [1; 1]] 0 1)) as He by wf_concrete.
  assert (z2_vector 2 [1; 0]) as Hx by (split; [done|forall_concrete lia]).
  split; [lia|]. split; [exact He|]. split; [lia|]. split; [exact Hx|].
  exact (phase_acts_on_the_output_bit 2 _ 3 1 [1; 0] ltac:(lia) He ltac:(lia) Hx).
Defined.
End MoreInstances.


(** ** The generators on the affine map *)

Section AffineAction.
Import CNOTDihedral.

Lemma zip_with_tabulate (h : Z → Z → Z) (g : Z → Z) n (s : list Z) :
  Z.of_nat (length s) = n →
  zip_with h (g <$> py_range n) s = (λ r, h (g r) (item s r)) <$> py_range n.
Proof.
  intros Hlen. apply (list_eq_same_length _ _ (Z.to_nat n)).
  - by rewrite length_fmap, length_py_range.
  - rewrite length_zip_with, length_fmap, length_py_range. lia.
  - intros k a b Hk Ha Hb.
    rewrite lookup_zip_with in Ha. rewrite list_lookup_fmap in Ha, Hb.
    assert (py_range n !! k = Some (Z.of_nat k)) as Hrange.
    { rewrite <- (Nat2Z.id k) at 1. apply lookup_py_range. lia. }
    rewrite Hrange in Ha, Hb. simpl in Ha, Hb.
    destruct (s !! k) as [v|] eqn:Hv; [|done]. simpl in Ha.
    unfold item in Hb. rewrite Nat2Z.id, Hv in Hb. simpl in Hb. congruence.
Qed.

Lemma affine_image_tabulate n e x :
  wf_elem n e →
  affine_image e x
  = (λ r, Z.lxor (zsum (λ k, cell (linear e) r k * item x k) n `mod` 2) (item (shift e) r))
      <$> py_range n.
Proof.
  intros [Hq _ _ [Hlen _]]. unfold affine_image, z2_matrix_vector. rewrite Hq.
  by apply (zip_with_tabulate Z.lxor
              (λ r, zsum (λ k, cell (linear e) r k * item x k) n `mod` 2)).
Qed.

Lemma zsum_add (f g : Z → Z) n : zsum (λ k, f k + g k) n = zsum f n + zsum g n.
Proof. apply nsum_add. Qed.

Lemma xor_sum a b s t :
  s = 0 ∨ s = 1 → t = 0 ∨ t = 1 →
  Z.lxor ((a + b) `mod` 2) ((s + t) `mod` 2)
  = Z.lxor (Z.lxor (a `mod` 2) s) (Z.lxor (b `mod` 2) t).
Proof.
  intros Hs Ht. rewrite (Z.add_mod a b) by lia.
  destruct (mod_2_bit a) as [-> | ->], (mod_2_bit b) as [-> | ->],
    Hs as [-> | ->], Ht as [-> | ->]; done.
Qed.

Lemma xor_succ a s :
  s = 0 ∨ s = 1 → Z.lxor (a `mod` 2) ((s + 1) `mod` 2) = Z.lxor (Z.lxor (a `mod` 2) s) 1.
Proof. intros Hs. destruct (mod_2_bit a) as [-> | ->], Hs as [-> | ->]; done. Qed.

(** [cnot(i, j)] and [flip(i)] leave the polynomial and act on the
    image of every vector under the affine map as the gates do: [cnot]
    replaces output bit [j] by its sum with output bit [i], [flip]
    complements output bit [i]. *)
Theorem cnot_and_flip_act_on_the_output_bits (n : Z) (e : t) (i j : Z) (x : list Z) :
  wf_elem n e → 0 ≤ i < n → 0 ≤ j < n → i ≠ j →
  ∃ e1 e2,
    cnot i j e = (Ok (), e1) ∧ flip i e = (Ok (), e2) ∧
    poly e1 = poly e ∧ poly e2 = poly e ∧
    affine_image e1 x
    = <[Z.to_nat j := Z.lxor (item (affine_image e x) i) (item (affine_image e x) j)]>
        (affine_image e x) ∧
    affine_image e2 x
    = <[Z.to_nat i := Z.lxor (item (affine_image e x) i) 1]> (affine_image e x).
Proof.
  intros He Hi Hj Hij. pose proof He as [Hq Hpoly Hlin [Hlen Hbits]].
  pose proof (z2_vector_item_bit n (shift e) i (wf_shift _ _ He)) as Hsi.
  pose proof (z2_vector_item_bit n (shift e) j (wf_shift _ _ He)) as Hsj.
  destruct (cnot i j e) as [r1 e1] eqn:Hcnot. destruct (flip i e) as [r2 e2] eqn:Hflip.
  rewrite cnot_ok in Hcnot by lia. rewrite flip_ok in Hflip by lia.
  injection Hcnot as <- <-. injection Hflip as <- <-. rewrite Hq.
  eexists _, _. split; [done|]. split; [done|]. split; [done|]. split; [done|].
  assert (wf_elem n (mk n (poly e) (cnot_rows n i j (linear e))
            (<[Z.to_nat j := (item (shift e) i + item (shift e) j) `mod` 2]> (shift e))))
    as He1.
  { split; simpl; [done|done|by apply cnot_rows_z2_matrix|].
    split; [by rewrite length_insert|]. apply bits_insert; [done|apply mod_2_bit]. }
  assert (wf_elem n (mk n (poly e) (linear e)
            (<[Z.to_nat i := (item (shift e) i + 1) `mod` 2]> (shift e)))) as He2.
  { split; simpl; [done|done|done|].
    split; [by rewrite length_insert|]. apply bits_insert; [done|apply mod_2_bit]. }
  rewrite (affine_image_tabulate n e x He). rewrite !item_tabulate by done.
  split.
  - fold (cnot_rows n i j (linear e)). rewrite (affine_image_tabulate n _ x He1). simpl.
    symmetry.
    set (f := λ r, Z.lxor (zsum (λ k, cell (linear e) r k * item x k) n `mod` 2)
                          (item (shift e) r)).
    set (g := λ r, Z.lxor (zsum (λ k, cell (cnot_rows n i j (linear e)) r k * item x k) n
                             `mod` 2)
                (item (<[Z.to_nat j := (item (shift e) i + item (shift e) j) `mod` 2]>
                         (shift e)) r)).
    change (<[Z.to_nat j := Z.lxor (f i) (f j)]> (f <$> py_range n) = g <$> py_range n).
    assert (g j = Z.lxor (f i) (f j)) as <-.
    { unfold g, f. rewrite item_insert_eq by lia.
      rewrite (zsum_mod_2 _ (λ k, cell (linear e) i k * item x k
                                  + cell (linear e) j k * item x k)).
      - rewrite zsum_add. by apply xor_sum.
      - intros k Hk. rewrite cell_cnot_rows by done.
        rewrite bool_decide_eq_true_2 by done.
        rewrite Z.mul_mod_idemp_l by lia. f_equal. lia. }
    apply (insert_tabulate f g n j); [done|]. intros q Hq' Hne. unfold g, f.
    rewrite item_insert_ne by lia. f_equal. f_equal. apply zsum_ext. intros k Hk.
    rewrite cell_cnot_rows by done. by rewrite bool_decide_eq_false_2 by done.
  - rewrite (affine_image_tabulate n _ x He2). simpl. symmetry.
    set (f := λ r, Z.lxor (zsum (λ k, cell (linear e) r k * item x k) n `mod` 2)
                          (item (shift e) r)).
    set (g := λ r, Z.lxor (zsum (λ k, cell (linear e) r k * item x k) n `mod` 2)
                (item (<[Z.to_nat i := (item (shift e) i + 1) `mod` 2]> (shift e)) r)).
    change (<[Z.to_nat i := Z.lxor (f i) 1]> (f <$> py_range n) = g <$> py_range n).
    assert (g i = Z.lxor (f i) 1) as <-.
    { unfold g, f. rewrite item_insert_eq by lia. by apply xor_succ. }
    apply (insert_tabulate f g n i); [done|]. intros q Hq' Hne. unfold g, f.
    by rewrite item_insert_ne by lia.
Qed.
End AffineAction.

(** ** Products of polynomials on at most three variables *)

Section Products.
Import SpecialPolynomial.

Lemma check_indices_valid n t : check_indices n t = Ok () → valid_term n t.
Proof.
  intros Hcheck. destruct (check_indices_inv n t Hcheck) as [Hlen Hrange].
  split; [lia|]. split; [done|].
  unfold check_indices, assert in Hcheck. cbv zeta in Hcheck.
  rewrite (bool_decide_eq_true_2 (Z.of_nat (length t) < 4)) in Hcheck by lia.
  rewrite res_bind_Ok in Hcheck.
  destruct (negb _); [|done]. rewrite res_bind_Ok in Hcheck.
  destruct (forallb _ _) eqn:Hinc; [|done].
  rewrite forallb_forall in Hinc. apply Forall_forall. intros ab Hab.
  apply list_elem_of_In, Hinc in Hab. by apply bool_decide_eq_true in Hab.
Qed.

Lemma term_ok_valid n t : term_ok n t = true → valid_term n t.
Proof. intros Ht. by apply check_indices_valid, term_ok_check. Qed.

(** Every valid index list is in the term lists. *)
Lemma all_terms_complete n t : valid_term n t → t ∈ all_terms n.
Proof.
  intros Ht. unfold all_terms, terms0, terms1, terms2, terms3. rewrite !elem_of_app.
  destruct t as [|i0 [|i1 [|i2 [|]]]].
  - left. by left.
  - right; left. apply valid_term_1_inv in Ht.
    apply list_elem_of_bind. exists i0. split; [by left|by apply elem_of_py_range_iff].
  - right; right; left. apply valid_term_2_inv in Ht as (? & ? & ?).
    apply list_elem_of_bind. exists i0. split; [|apply elem_of_py_range_iff; lia].
    apply list_elem_of_bind. exists i1. split; [by left|apply elem_of_py_range2; lia].
  - right; right; right. apply valid_term_3_inv in Ht as (? & ? & ? & ?).
    apply list_elem_of_bind. exists i0. split; [|apply elem_of_py_range_iff; lia].
    apply list_elem_of_bind. exists i1. split; [|apply elem_of_py_range2; lia].
    apply list_elem_of_bind. exists i2. split; [by left|apply elem_of_py_range2; lia].
  - destruct Ht as (Hlen & _). simpl in Hlen. lia.
Qed.

Lemma all_terms_nodup n : 1 ≤ n ≤ 4 → NoDup (all_terms n).
Proof.
  intros Hn. assert (n = 1 ∨ n = 2 ∨ n = 3 ∨ n = 4) as [->|[->|[->| ->]]] by lia;
    apply (bool_decide_unpack _); vm_compute; reflexivity.
Qed.

Lemma foldl_mul c (vs : list Z) : foldl Z.mul c vs = c * foldl Z.mul 1 vs.
Proof.
  revert c. induction vs as [|v vs IH]; intros c; simpl; [lia|].
  rewrite (IH (c * v)), (IH (1 * v)). lia.
Qed.

Lemma monomial_cons x j l : monomial x (j :: l) = CNOTDihedral.item x j * monomial x l.
Proof. unfold monomial. rewrite fmap_cons. simpl. rewrite (foldl_mul (1 * _)). lia. Qed.

Lemma monomial_app x l1 l2 : monomial x (l1 ++ l2) = monomial x l1 * monomial x l2.
Proof.
  induction l1 as [|j l1 IH]; [unfold monomial at 2; simpl; lia|].
  simpl. rewrite !monomial_cons, IH. lia.
Qed.

Lemma bit_idempotent v : v = 0 ∨ v = 1 → v * v = v.
Proof. by intros [-> | ->]. Qed.

Lemma monomial_set_insert x j l :
  (∀ k, CNOTDihedral.item x k = 0 ∨ CNOTDihedral.item x k = 1) →
  monomial x (set_insert j l) = CNOTDihedral.item x j * monomial x l.
Proof.
  intros Hx. induction l as [|y l IH]; [simpl; by rewrite monomial_cons|]. simpl.
  repeat case_bool_decide.
  - by rewrite !monomial_cons.
  - subst y. rewrite !monomial_cons.
    rewrite Z.mul_assoc, (bit_idempotent _ (Hx j)). done.
  - rewrite !monomial_cons, IH. lia.
Qed.

(** The monomial of a union is the product of the monomials, at a
    vector of bits (x^2 = x). *)
Lemma monomial_union x t u :
  (∀ k, CNOTDihedral.item x k = 0 ∨ CNOTDihedral.item x k = 1) →
  monomial x (set_union t u) = monomial x t * monomial x u.
Proof.
  intros Hx. unfold set_union. rewrite <- monomial_app.
  induction (t ++ u) as [|j l IH]; [done|]. simpl.
  by rewrite monomial_set_insert, monomial_cons, IH.
Qed.

Lemma bits_items x : bits x → ∀ k, CNOTDihedral.item x k = 0 ∨ CNOTDihedral.item x k = 1.
Proof.
  intros Hx k. unfold CNOTDihedral.item.
  destruct (x !! Z.to_nat k) as [v|] eqn:Hv; [|by left].
  exact (Forall_lookup_1 _ _ _ _ Hx Hv).
Qed.

Lemma sum_over_single {A} `{EqDecision A} (m : A → Z) (U : A) c l :
  NoDup l → U ∈ l →
  sum_over (λ u, (if bool_decide (u = U) then c else 0) * m u) l = c * m U.
Proof.
  induction l as [|a l IH]; intros Hnd HU; [by apply elem_of_nil in HU|].
  apply NoDup_cons in Hnd as [Hnotin Hnd]. simpl.
  destruct (decide (a = U)) as [->|Hne].
  - rewrite bool_decide_eq_true_2 by done.
    assert (sum_over (λ u, (if bool_decide (u = U) then c else 0) * m u) l = 0) as ->; [|lia].
    clear IH Hnd HU. induction l as [|b l IH]; [done|]. simpl.
    apply not_elem_of_cons in Hnotin as [Hb Hl].
    rewrite bool_decide_eq_false_2 by done. rewrite IH by done. lia.
  - rewrite bool_decide_eq_false_2 by done.
    apply elem_of_cons in HU as [->|HU]; [done|]. rewrite IH by done. lia.
Qed.

Lemma value_of_add n p q r x :
  wf_poly n p → wf_poly n q → forallb (term_ok n) (all_terms n) = true →
  __add__ p q = Ok r →
  value_of r x = (value_of p x + value_of q x) `mod` 8.
Proof.
  intros Hp Hq Hterms Hr. pose proof (add_wf n p q r Hp Hq Hr) as Hwf.
  rewrite forallb_forall in Hterms.
  rewrite (value_of_shift n p r (λ t, coefficient q t) x); [|apply Hp|apply Hwf|].
  - unfold value_of at 3. rewrite (wf_n_vars _ _ Hq).
    by rewrite Z.add_mod_idemp_r by lia.
  - intros t Ht. apply (coefficient_add n p q r t); [done..|].
    apply Hterms. by apply list_elem_of_In.
Qed.

Lemma value_of_mul_int n p a r x :
  wf_poly n p → forallb (term_ok n) (all_terms n) = true →
  __mul__int p a = Ok r →
  value_of r x = (value_of p x * a) `mod` 8.
Proof.
  intros Hp Hterms Hr. pose proof (mul_int_wf n p a r Hp Hr) as Hwf.
  rewrite forallb_forall in Hterms.
  unfold value_of. rewrite (wf_n_vars _ _ Hp), (wf_n_vars _ _ Hwf).
  rewrite Z.mul_mod_idemp_l by lia. rewrite <- sum_over_scale.
  apply sum_over_congr. intros t Ht.
  rewrite (coefficient_mul_int n p a r t) by (done || apply Hterms; by apply list_elem_of_In).
  rewrite Z.mul_mod_idemp_l by lia. f_equal. lia.
Qed.

Lemma item_replicate m i : CNOTDihedral.item (replicate m 0) i = 0.
Proof.
  unfold CNOTDihedral.item. destruct (replicate m 0 !! Z.to_nat i) as [v|] eqn:Hv; [|done].
  by apply lookup_replicate in Hv as [-> _].
Qed.

Lemma coefficient_zero n zero t :
  __init__ n = Ok zero → term_ok n t = true → coefficient zero t = 0.
Proof.
  intros Hzero Ht.
  assert (1 ≤ n) as Hn.
  { unfold __init__, assert in Hzero. by case_bool_decide. }
  destruct (poly_init_ok n Hn) as (z & Hz & Hwf & Hw0).
  assert (z = zero) as -> by congruence.
  pose proof (coefficient_cell n zero t Hwf Ht) as Hcell.
  unfold __init__, assert in Hzero. rewrite bool_decide_eq_true_2 in Hzero by done.
  injection Hzero as <-. unfold py_repeat in *.
  destruct t as [|i0 [|i1 [|i2 [|]]]]; try done.
  - destruct Hcell as [_ ->]. apply item_replicate.
  - destruct Hcell as [_ ->]. apply item_replicate.
  - destruct Hcell as [_ ->]. apply item_replicate.
Qed.

Lemma value_of_zero n zero x :
  __init__ n = Ok zero → forallb (term_ok n) (all_terms n) = true → value_of zero x = 0.
Proof.
  intros Hzero Hterms. rewrite forallb_forall in Hterms.
  assert (n_vars zero = n) as Hvars.
  { unfold __init__, assert in Hzero. case_bool_decide; [|done]. by injection Hzero as <-. }
  unfold value_of. rewrite Hvars.
  rewrite (sum_over_congr _ (λ _, 0)).
  - assert (∀ l : list (list Z), sum_over (λ _, 0) l = 0) as ->; [|done].
    induction l as [|t l IH]; simpl; [done|]. by rewrite IH.
  - intros t Ht. rewrite (coefficient_zero n zero t Hzero); [done|].
    apply Hterms. by apply list_elem_of_In.
Qed.

(** Adding [c] to the coefficient of the term [U] adds [c] times the
    monomial of [U] to the value. *)
Lemma value_of_set_term n p U c x :
  1 ≤ n ≤ 4 → wf_poly n p → valid_term n U →
  ∃ p', set_term U ((coefficient p U + c) `mod` 8) p = (Ok (), p') ∧ wf_poly n p' ∧
        value_of p' x = (value_of p x + c * monomial x U) `mod` 8.
Proof.
  intros Hn Hp HU. assert (n ≤ 4) as Hn4 by lia.
  destruct (set_term_cells n p U ((coefficient p U + c) `mod` 8) Hp HU
              (or_intror Hn4)) as (p' & Hset & Hwf & Hget & Hframe).
  exists p'. split; [done|]. split; [done|].
  rewrite (value_of_shift n p p' (λ u, if bool_decide (u = U) then c else 0) x);
    [|apply Hp|apply Hwf|].
  - rewrite sum_over_single; [done|by apply all_terms_nodup|by apply all_terms_complete].
  - intros u Hu. pose proof (all_terms_valid n u Hu) as Hvalid.
    case_bool_decide as Heq.
    + subst u. unfold coefficient at 1. rewrite Hget. by rewrite Z.mod_mod by lia.
    + unfold coefficient at 1. rewrite (Hframe u Hvalid Heq).
      destruct (coefficient_get_term n p u Hp
                  (valid_term_ok n u (or_introl Hn4) Hvalid)) as [Hg Hb].
      rewrite Hg. rewrite Z.add_0_r, Z.mod_small by lia. done.
Qed.

Lemma mul_monomial_loop n p T x l res :
  1 ≤ n ≤ 3 → wf_poly n p → T ∈ all_terms n → wf_poly n res →
  (∀ t, t ∈ l → t ∈ all_terms n) →
  ∃ res',
    st_for l (λ term,
       value ← st_read (λ _, get_term p term);
       cur ← st_read (λ result, get_term result (set_union term T));
       set_term (set_union term T) ((cur + value) `mod` 8)) res = (Ok (), res') ∧
    wf_poly n res' ∧
    value_of res' x
    = (value_of res x + sum_over (λ t, coefficient p t * monomial x (set_union t T)) l)
      `mod` 8.
Proof.
  intros Hn Hp HT. pose proof (terms_closed_small n Hn) as Hclosed.
  revert res. induction l as [|t l IH]; intros res Hres Hl.
  - exists res. split; [done|]. split; [done|]. simpl. rewrite Z.add_0_r.
    unfold value_of. by rewrite Z.mod_mod by lia.
  - pose proof (Hl t ltac:(by left)) as Ht.
    destruct (terms_closed_inv n t Hclosed Ht) as [Hterm Hunion].
    destruct (coefficient_get_term n p t Hp Hterm) as [Hvalue _].
    pose proof (Hunion T HT) as HU.
    destruct (coefficient_get_term n res (set_union t T) Hres HU) as [Hcur _].
    destruct (value_of_set_term n res (set_union t T) (coefficient p t) x
                ltac:(lia) Hres (term_ok_valid n _ HU)) as (res1 & Hset & Hwf1 & Hval1).
    destruct (IH res1 Hwf1 ltac:(intros; apply Hl; by right)) as (res' & Hrun & Hwf' & Hval').
    exists res'. split; [|split; [done|]].
    + simpl. unfold mbind, st_mbind, st_bind, st_read. by rewrite Hvalue, Hcur, Hset.
    + rewrite Hval', Hval1. simpl. rewrite Z.add_mod_idemp_l by lia. f_equal. lia.
Qed.

(** The value of [mul_monomial]. *)
Lemma mul_monomial_value n p T x :
  1 ≤ n ≤ 3 → wf_poly n p → T ∈ all_terms n → bits x →
  ∃ r, mul_monomial p T = Ok r ∧ wf_poly n r ∧
       value_of r x = (value_of p x * monomial x T) `mod` 8.
Proof.
  intros Hn Hp HT Hx. pose proof (terms_closed_small n Hn) as Hclosed.
  destruct (terms_closed_inv n T Hclosed HT) as [Hok _].
  destruct (poly_init_ok n ltac:(lia)) as (zero & Hzero & Hwf0 & _).
  unfold mul_monomial. rewrite (wf_n_vars _ _ Hp), (term_ok_check _ _ Hok), Hzero.
  rewrite !res_bind_Ok. case_bool_decide as Hempty.
  - exists p. split; [done|]. split; [done|].
    destruct T; [|done]. unfold monomial. simpl. rewrite Z.mul_1_r.
    unfold value_of. by rewrite Z.mod_mod by lia.
  - cbv zeta.
    destruct (mul_monomial_loop n p T x (all_terms n) zero Hn Hp HT Hwf0 ltac:(done))
      as (r & Hrun & Hwf & Hval).
    exists r. unfold run_on. rewrite Hrun. split; [done|]. split; [done|].
    rewrite Hval, (value_of_zero n zero x Hzero (terms_ok_small n ltac:(lia))), Z.add_0_l.
    unfold value_of. rewrite (wf_n_vars _ _ Hp). rewrite Z.mul_mod_idemp_l by lia.
    rewrite <- sum_over_scale. f_equal. apply sum_over_ext. intros t.
    rewrite monomial_union by by apply bits_items. lia.
Qed.

Lemma mul_loop_value n p q x l res :
  1 ≤ n ≤ 3 → wf_poly n p → wf_poly n q → bits x → wf_poly n res →
  (∀ t, t ∈ l → t ∈ all_terms n) →
  ∃ res',
    res_fold (λ result term,
       value ← get_term q term;
       if bool_decide (value ≠ 0) then
         temp ← mul_monomial p term;
         temp ← __mul__int temp value;
         __add__ result temp
       else Ok result) l res = Ok res' ∧
    wf_poly n res' ∧
    value_of res' x
    = (value_of res x + sum_over (λ t, coefficient q t * (value_of p x * monomial x t)) l)
      `mod` 8.
Proof.
  intros Hn Hp Hq Hx. pose proof (terms_ok_small n ltac:(lia)) as Hterms.
  pose proof Hterms as Hterms'. rewrite forallb_forall in Hterms'.
  revert res. induction l as [|t l IH]; intros res Hres Hl.
  - exists res. split; [done|]. split; [done|]. simpl. rewrite Z.add_0_r.
    unfold value_of. by rewrite Z.mod_mod by lia.
  - pose proof (Hl t ltac:(by left)) as Ht.
    pose proof (Hterms' t ltac:(by apply list_elem_of_In)) as Hterm.
    destruct (coefficient_get_term n q t Hq Hterm) as [Hvalue _].
    rewrite res_fold_cons. cbv beta. rewrite Hvalue, res_bind_Ok.
    cbn [sum_over foldr].
    fold (sum_over (λ t, coefficient q t * (value_of p x * monomial x t)) l).
    case_bool_decide as Hz.
    + destruct (mul_monomial_value n p t x Hn Hp Ht Hx) as (temp & Htemp & Hwft & Hvalt).
      destruct (mul_int_ok n temp (coefficient q t) Hwft) as (scaled & Hscaled & Hwfs).
      destruct (add_ok n res scaled Hres Hwfs) as (res1 & Hres1 & Hwf1).
      rewrite Htemp, res_bind_Ok, Hscaled, res_bind_Ok, Hres1, res_bind_Ok.
      destruct (IH res1 Hwf1 ltac:(intros; apply Hl; by right)) as (res' & Hrun & Hwf' & Hval').
      exists res'. split; [done|]. split; [done|].
      rewrite Hval', (value_of_add n res scaled res1 x Hres Hwfs Hterms Hres1).
      rewrite (value_of_mul_int n temp _ scaled x Hwft Hterms Hscaled), Hvalt.
      rewrite Z.mul_mod_idemp_l, Z.add_mod_idemp_r, Z.add_mod_idemp_l by lia.
      f_equal. lia.
    + rewrite res_bind_Ok.
      destruct (IH res Hres ltac:(intros; apply Hl; by right)) as (res' & Hrun & Hwf' & Hval').
      exists res'. split; [done|]. split; [done|]. rewrite Hval'.
      assert (coefficient q t = 0) as -> by (destruct (decide (coefficient q t = 0)); done).
      f_equal; lia.
Qed.

(** The value of the product of two polynomials. *)
Lemma mul_value n p q x :
  1 ≤ n ≤ 3 → wf_poly n p → wf_poly n q → bits x →
  ∃ r, __mul__ p q = Ok r ∧ wf_poly n r ∧
       value_of r x = (value_of p x * value_of q x) `mod` 8.
Proof.
  intros Hn Hp Hq Hx.
  destruct (poly_init_ok n ltac:(lia)) as (zero & Hzero & Hwf0 & _).
  unfold __mul__, assert. rewrite (wf_n_vars _ _ Hp), (wf_n_vars _ _ Hq), Hzero.
  rewrite (bool_decide_eq_true_2 (n = n)) by done. rewrite !res_bind_Ok.
  destruct (mul_loop_value n p q x (all_terms n) zero Hn Hp Hq Hx Hwf0 ltac:(done))
    as (r & Hrun & Hwf & Hval).
  exists r. split; [done|]. split; [done|].
  rewrite Hval, (value_of_zero n zero x Hzero (terms_ok_small n ltac:(lia))), Z.add_0_l.
  unfold value_of at 3. rewrite (wf_n_vars _ _ Hq).
  rewrite Z.mul_mod_idemp_r by lia. rewrite <- sum_over_scale_l. f_equal.
  apply sum_over_ext. intros t. lia.
Qed.

Lemma product_value n x fs acc :
  1 ≤ n ≤ 3 → bits x → wf_poly n acc → Forall (wf_poly n) fs →
  ∃ r, res_fold __mul__ fs acc = Ok r ∧ wf_poly n r ∧
       value_of r x
       = (value_of acc x * foldl Z.mul 1 ((λ f, value_of f x) <$> fs)) `mod` 8.
Proof.
  intros Hn Hx Hacc Hfs. revert acc Hacc.
  induction Hfs as [|f fs Hf _ IH]; intros acc Hacc.
  - exists acc. split; [done|]. split; [done|]. simpl. rewrite Z.mul_1_r.
    unfold value_of. by rewrite Z.mod_mod by lia.
  - destruct (mul_value n acc f x Hn Hacc Hf Hx) as (r1 & Hr1 & Hwf1 & Hval1).
    destruct (IH r1 Hwf1) as (r & Hr & Hwf & Hval).
    exists r. rewrite res_fold_cons, Hr1, res_bind_Ok. split; [done|]. split; [done|].
    rewrite Hval, Hval1, fmap_cons. simpl. rewrite (foldl_mul (1 * _)).
    rewrite Z.mul_mod_idemp_l by lia. f_equal. lia.
Qed.

Lemma res_map_getitem_polys (vars : list t) n l :
  Z.of_nat (length vars) = n → Forall (λ j, 0 ≤ j < n) l →
  ∃ fs, res_map (getitem vars) l = Ok fs ∧
        (∀ f, f ∈ fs → f ∈ vars) ∧
        ∀ g : t → Z, g <$> fs = (λ j, CNOTDihedral.item (g <$> vars) j) <$> l.
Proof.
  intros Hlen. induction 1 as [|j l Hj _ (fs & Hfs & Hin & Hmap)].
  - exists []. split; [done|]. split; [by intros f ?%elem_of_nil|done].
  - destruct (lookup_lt_is_Some_2 vars (Z.to_nat j)) as [f Hf]; [lia|].
    exists (f :: fs). split.
    { cbn [res_map]. rewrite (getitem_lookup vars j f) by (done || lia).
      by rewrite res_bind_Ok, Hfs. }
    split.
    + intros f' [->|Hf']%elem_of_cons; [by eapply list_elem_of_lookup_2|by apply Hin].
    + intros g. rewrite !fmap_cons, Hmap. f_equal.
      unfold CNOTDihedral.item. by rewrite list_lookup_fmap, Hf.
Qed.

Lemma value_of_one n zero x :
  1 ≤ n ≤ 3 → __init__ n = Ok zero →
  wf_poly n (set_weight_0 1 zero) ∧ value_of (set_weight_0 1 zero) x = 1.
Proof.
  intros Hn Hzero. destruct (poly_init_ok n ltac:(lia)) as (z & Hz & Hwf0 & Hw0).
  assert (z = zero) as -> by congruence.
  assert (valid_term n []) as Hnil.
  { split; [simpl; lia|]. split; apply Forall_nil_2. }
  destruct (value_of_set_term n zero [] 1 x ltac:(lia) Hwf0 Hnil)
    as (p' & Hset & Hwf & Hval).
  assert (coefficient zero [] = 0) as Hc.
  { apply (coefficient_zero n); [done|]. by apply valid_term_ok; [left; lia|]. }
  rewrite Hc in Hset. unfold set_term in Hset. st_unfold.
  assert (check_indices (n_vars zero) [] = Ok ()) as Hchk.
  { apply check_indices_ok. split; [simpl; lia|]. split; apply Forall_nil_2. }
  rewrite Hchk in Hset. injection Hset as <-.
  change (((0 + 1) `mod` 8) `mod` 8) with 1 in *. split; [done|].
  rewrite Hval, (value_of_zero n zero x Hzero (terms_ok_small n ltac:(lia))). done.
Qed.

Lemma evaluate_loop_value n p vars x l res :
  1 ≤ n ≤ 3 → wf_poly n p → Z.of_nat (length vars) = n → Forall (wf_poly n) vars →
  bits x → wf_poly n res → (∀ t, t ∈ l → t ∈ all_terms n) →
  ∀ zero, __init__ n = Ok zero →
  ∃ res',
    res_fold (λ result term,
       value ← get_term p term;
       if bool_decide (value ≠ 0) then
         factors ← res_map (getitem vars) term;
         newterm ← res_fold __mul__ factors (set_weight_0 1 zero);
         scaled ← __mul__int newterm value;
         __add__ result scaled
       else Ok result) l res = Ok res' ∧
    wf_poly n res' ∧
    value_of res' x
    = (value_of res x
       + sum_over (λ t, coefficient p t * monomial ((λ v, value_of v x) <$> vars) t) l)
      `mod` 8.
Proof.
  intros Hn Hp Hlen Hvars Hx Hres Hl zero Hzero.
  pose proof (terms_ok_small n ltac:(lia)) as Hterms.
  pose proof Hterms as Hterms'. rewrite forallb_forall in Hterms'.
  destruct (value_of_one n zero x Hn Hzero) as [Hwf1 Hval1].
  revert res Hres. induction l as [|t l IH]; intros res Hres.
  - exists res. split; [done|]. split; [done|]. simpl. rewrite Z.add_0_r.
    unfold value_of. by rewrite Z.mod_mod by lia.
  - pose proof (Hl t ltac:(by left)) as Ht.
    pose proof (Hterms' t ltac:(by apply list_elem_of_In)) as Hterm.
    destruct (coefficient_get_term n p t Hp Hterm) as [Hvalue _].
    destruct (check_indices_inv n t (term_ok_check n t Hterm)) as [_ Hrange].
    rewrite res_fold_cons. cbv beta. rewrite Hvalue, res_bind_Ok.
    cbn [sum_over foldr].
    fold (sum_over (λ t, coefficient p t * monomial ((λ v, value_of v x) <$> vars) t) l).
    specialize (IH ltac:(intros; apply Hl; by right)).
    case_bool_decide as Hz.
    + destruct (res_map_getitem_polys vars n t Hlen Hrange) as (fs & Hfs & Hin & Hmap).
      assert (Forall (wf_poly n) fs) as Hwfs.
      { apply Forall_forall. intros f Hf. rewrite Forall_forall in Hvars. by apply Hvars, Hin. }
      destruct (product_value n x fs _ Hn Hx Hwf1 Hwfs) as (newterm & Hnew & Hwfn & Hvaln).
      destruct (mul_int_ok n newterm (coefficient p t) Hwfn) as (scaled & Hscaled & Hwfsc).
      destruct (add_ok n res scaled Hres Hwfsc) as (res1 & Hres1 & Hwfr1).
      rewrite Hfs, res_bind_Ok, Hnew, res_bind_Ok, Hscaled, res_bind_Ok, Hres1, res_bind_Ok.
      destruct (IH res1 Hwfr1) as (res' & Hrun & Hwf' & Hval').
      exists res'. split; [done|]. split; [done|].
      rewrite Hval', (value_of_add n res scaled res1 x Hres Hwfsc Hterms Hres1).
      rewrite (value_of_mul_int n newterm _ scaled x Hwfn Hterms Hscaled), Hvaln, Hval1.
      rewrite (Hmap (λ f, value_of f x)). fold (monomial ((λ v, value_of v x) <$> vars) t).
      rewrite Z.mul_1_l, Z.mul_mod_idemp_l, Z.add_mod_idemp_r, Z.add_mod_idemp_l by lia.
      f_equal. lia.
    + rewrite res_bind_Ok. destruct (IH res Hres) as (res' & Hrun & Hwf' & Hval').
      exists res'. split; [done|]. split; [done|]. rewrite Hval'.
      assert (coefficient p t = 0) as -> by (destruct (decide (coefficient p t = 0)); done).
      f_equal; lia.
Qed.

(** The value of [evaluate] at polynomials: the value of the polynomial
    at the values of the substituted polynomials. *)
Lemma evaluate_value n p vars x :
  1 ≤ n ≤ 3 → wf_poly n p → Z.of_nat (length vars) = n → Forall (wf_poly n) vars →
  bits x →
  ∃ r, evaluate p vars = Ok r ∧ wf_poly n r ∧
       value_of r x = value_of p ((λ v, value_of v x) <$> vars).
Proof.
  intros Hn Hp Hlen Hvars Hx.
  destruct (poly_init_ok n ltac:(lia)) as (zero & Hzero & Hwf0 & _).
  unfold evaluate, assert. rewrite (wf_n_vars _ _ Hp).
  rewrite (bool_decide_eq_true_2 (Z.of_nat (length vars) = n)) by done.
  assert (forallb (λ i, bool_decide (n_vars i = n)) vars = true) as ->.
  { apply forallb_forall. intros q Hq. apply bool_decide_eq_true.
    apply list_elem_of_In in Hq. rewrite Forall_forall in Hvars. by apply Hvars. }
  rewrite Hzero, !res_bind_Ok. cbv zeta.
  destruct (evaluate_loop_value n p vars x (all_terms n) zero Hn Hp Hlen Hvars Hx Hwf0
              ltac:(done) zero Hzero) as (r & Hrun & Hwf & Hval).
  exists r. split; [done|]. split; [done|].
  rewrite Hval, (value_of_zero n zero x Hzero (terms_ok_small n ltac:(lia))), Z.add_0_l.
  unfold value_of at 2. by rewrite (wf_n_vars _ _ Hp).
Qed.
End Products.

(** ** Composition as the composition of the actions *)

Section CompositionAction.
Import CNOTDihedral.

(** The value of a substituted variable at a vector of bits: the parity
    of the bits at the support of the row, plus the shift bit. *)
Lemma substituted_var_value n row s x :
  1 ≤ n ≤ 3 → row ∈ bit_vectors (Z.to_nat n) → s = 0 ∨ s = 1 →
  x ∈ bit_vectors (Z.to_nat n) →
  value_of (substituted_var n row s) x = Z.lxor (xor_at x (support_of row)) s.
Proof.
  intros Hn Hrow Hs Hx.
  assert (n = 1 ∨ n = 2 ∨ n = 3) as [->|[->| ->]] by lia.
  - concrete_in Hrow (bit_vectors (Z.to_nat 1)). concrete_in Hx (bit_vectors (Z.to_nat 1)).
    destruct Hs as [-> | ->]; enumerate Hrow; enumerate Hx; vm_compute; reflexivity.
  - concrete_in Hrow (bit_vectors (Z.to_nat 2)). concrete_in Hx (bit_vectors (Z.to_nat 2)).
    destruct Hs as [-> | ->]; enumerate Hrow; enumerate Hx; vm_compute; reflexivity.
  - concrete_in Hrow (bit_vectors (Z.to_nat 3)). concrete_in Hx (bit_vectors (Z.to_nat 3)).
    destruct Hs as [-> | ->]; enumerate Hrow; enumerate Hx; vm_compute; reflexivity.
Qed.

Lemma lxor_bits u v : u = 0 ∨ u = 1 → v = 0 ∨ v = 1 → Z.lxor u v = (u + v) `mod` 2.
Proof. by intros [-> | ->] [-> | ->]. Qed.

Lemma affine_image_bits n e x : wf_elem n e → z2_vector n (affine_image e x).
Proof.
  intros He. pose proof He as [Hq Hpoly Hlin [Hlen Hbits]].
  assert (0 ≤ n) as Hn by lia.
  rewrite (affine_image_tabulate n e x He). split.
  - rewrite length_fmap, length_py_range. lia.
  - apply Forall_fmap, Forall_forall. intros i _. simpl.
    pose proof (z2_vector_item_bit n (shift e) i (wf_shift _ _ He)) as Hs.
    destruct (mod_2_bit (zsum (λ k, cell (linear e) i k * item x k) n)) as [-> | ->],
      Hs as [-> | ->]; auto.
Qed.

(** The affine map of a composition is the composition of the affine
    maps. *)
Lemma affine_image_composition n a b r x :
  wf_elem n a → wf_elem n b → wf_elem n r →
  linear r = z2_matrix_product n (linear a) (linear b) →
  shift r = zip_with Z.lxor (z2_matrix_vector n (linear a) (shift b)) (shift a) →
  affine_image r x = affine_image a (affine_image b x).
Proof.
  intros Ha Hb Hr Hlin Hsh. assert (0 ≤ n) as Hn by (destruct Ha as [_ _ _ [? _]]; lia).
  rewrite (affine_image_tabulate n r x Hr), (affine_image_tabulate n a _ Ha).
  apply tabulate_ext. intros i Hi.
  pose proof (z2_vector_item_bit n (shift a) i (wf_shift _ _ Ha)) as Hca.
  rewrite Hsh, Hlin. unfold z2_matrix_vector.
  rewrite (zip_with_tabulate Z.lxor
             (λ r, zsum (λ k, cell (linear a) r k * item (shift b) k) n `mod` 2))
    by (destruct Ha as [_ _ _ [? _]]; done).
  rewrite item_tabulate by done.
  set (u := zsum (λ k, cell (z2_matrix_product n (linear a) (linear b)) i k * item x k) n
            `mod` 2).
  set (v := zsum (λ k, cell (linear a) i k * item (shift b) k) n `mod` 2).
  set (w := zsum (λ k, cell (linear a) i k * item (affine_image b x) k) n `mod` 2).
  assert (w = (u + v) `mod` 2) as Hw.
  { unfold w, u, v. rewrite <- Z.add_mod by lia. rewrite <- zsum_add.
    rewrite (affine_image_tabulate n b x Hb).
    transitivity (zsum (λ l, zsum (λ k, cell (linear a) i l * cell (linear b) l k * item x k) n
                             + cell (linear a) i l * item (shift b) l) n `mod` 2).
    - apply zsum_mod_2. intros l Hl. rewrite item_tabulate by done.
      pose proof (z2_vector_item_bit n (shift b) l (wf_shift _ _ Hb)) as Hcb.
      rewrite lxor_bits by (done || apply mod_2_bit).
      rewrite Z.add_mod_idemp_l, Z.mul_mod_idemp_r by lia. f_equal.
      rewrite Z.mul_add_distr_l. f_equal. unfold zsum. rewrite <- nsum_mul_l.
      apply nsum_ext. intros k _. lia.
    - rewrite zsum_add, (zsum_add _ (λ k, cell (linear a) i k * item (shift b) k)).
      rewrite (Z.add_mod (zsum _ _)), (Z.add_mod (zsum (λ k, cell (z2_matrix_product _ _ _) _ _ * _) _))
        by lia.
      f_equal. f_equal. unfold zsum at 1 2. rewrite nsum_swap.
      apply nsum_mod_2. intros k Hk.
      rewrite cell_product by lia. rewrite Z.mul_mod_idemp_l by lia. f_equal.
      unfold zsum. rewrite <- nsum_mul_r. apply nsum_ext. intros l _. lia. }
  rewrite Hw. destruct (mod_2_bit (zsum (λ k, cell (z2_matrix_product n (linear a) (linear b)) i k
                                            * item x k) n)) as [Hu|Hu],
    (mod_2_bit (zsum (λ k, cell (linear a) i k * item (shift b) k) n)) as [Hv|Hv];
    fold u in Hu; fold v in Hv; rewrite Hu, Hv; by destruct Hca as [-> | ->].
Qed.

Lemma evaluate_int_bits n p x :
  1 ≤ n ≤ 5 → wf_poly n p → z2_vector n x →
  SpecialPolynomial.evaluate_int p x = Ok (value_of p x) ∧ 0 ≤ value_of p x < 8.
Proof.
  intros Hn Hp [Hlen Hbits]. split; [|apply Z.mod_pos_bound; lia].
  rewrite (evaluate_int_value n) by (done || by apply terms_ok_small).
  by rewrite fmap_mod_2_bits.
Qed.

(** The parts of [a * b] on at most three qubits. *)
Lemma mul_parts n a b :
  n ≤ 3 → wf_elem n a → wf_elem n b →
  ∃ pv p',
    SpecialPolynomial.evaluate (poly a)
      ((λ i, substituted_var n (default [] (linear b !! Z.to_nat i)) (item (shift b) i))
         <$> py_range n) = Ok pv ∧
    wf_poly n pv ∧
    SpecialPolynomial.__add__ (poly b) pv = Ok p' ∧ wf_poly n p' ∧
    __mul__ a b
    = Ok (mk n p' (z2_matrix_product n (linear a) (linear b))
            (zip_with Z.lxor (z2_matrix_vector n (linear a) (shift b)) (shift a))) ∧
    Forall (wf_poly n)
      ((λ i, substituted_var n (default [] (linear b !! Z.to_nat i)) (item (shift b) i))
         <$> py_range n).
Proof.
  intros Hn Ha Hb.
  pose proof (wf_n_pos _ _ (wf_poly_of _ _ Ha)) as Hpos.
  pose proof (terms_closed_small n ltac:(lia)) as Hclosed.
  set (vs := (λ i, substituted_var n (default [] (linear b !! Z.to_nat i))
                     (item (shift b) i)) <$> py_range n).
  assert (res_map (λ i, row ← getitem (linear b) i;
                        s ← getitem (shift b) i;
                        new_var n row s) (py_range n) = Ok vs) as Hvars.
  { apply res_map_fmap. intros i Hi. apply elem_of_seqZ in Hi.
    destruct (z2_matrix_getitem n (linear b) i (wf_linear _ _ Hb)) as (-> & Hlen & Hbits);
      [lia|].
    destruct (z2_vector_item n (shift b) i (wf_shift _ _ Hb)) as (-> & Hbit); [lia|].
    rewrite !res_bind_Ok. by apply new_var_small. }
  assert (Forall (wf_poly n) vs) as Hvs.
  { apply Forall_fmap, Forall_forall. intros i Hi. apply elem_of_seqZ in Hi.
    destruct (z2_matrix_getitem n (linear b) i (wf_linear _ _ Hb)) as (_ & Hlen & Hbits);
      [lia|].
    destruct (z2_vector_item n (shift b) i (wf_shift _ _ Hb)) as (_ & Hbit); [lia|].
    by apply new_var_small. }
  destruct (evaluate_ok n (poly a) vs) as (pv & Hpv & Hwf_pv);
    [apply Ha| |done|done|].
  { unfold vs. rewrite length_fmap, length_py_range. lia. }
  destruct (add_ok n (poly b) pv) as (p' & Hp' & Hwf_p'); [apply Hb|done|].
  destruct (poly_init_ok n Hpos) as (zero & Hzero & _).
  exists pv, p'. split; [done|]. split; [done|]. split; [done|]. split; [done|].
  split; [|done].
  unfold __mul__, __init__, assert.
  rewrite (wf_num_qubits _ _ Ha), (wf_num_qubits _ _ Hb).
  rewrite (bool_decide_eq_true_2 (n = n)) by done. rewrite Hzero, !res_bind_Ok.
  cbv zeta. rewrite Hvars, res_bind_Ok, Hpv, res_bind_Ok, Hp', res_bind_Ok.
  unfold set_poly, set_linear, set_shift. simpl.
  rewrite _z2matmul_product, _z2matvecmul_product, zip_with_xor; [done| |apply Ha].
  by apply matrix_vector_z2_vector; lia.
Qed.

(** On at most three qubits the composition [a * b] acts as [b]
    followed by [a]: the image of a vector of bits under its affine map
    is the image under the map of [a] of its image under the map of [b],
    and the value of its polynomial at [x] is the value of the polynomial
    of [b] at [x] plus the value of the polynomial of [a] at the image of
    [x] under the map of [b]. *)
Theorem composition_acts_as_b_then_a (n : Z) (a b : t) (x : list Z) :
  n ≤ 3 → wf_elem n a → wf_elem n b → z2_vector n x →
  ∃ r vb va,
    __mul__ a b = Ok r ∧ wf_elem n r ∧
    SpecialPolynomial.evaluate_int (poly b) x = Ok vb ∧
    SpecialPolynomial.evaluate_int (poly a) (affine_image b x) = Ok va ∧
    SpecialPolynomial.evaluate_int (poly r) x = Ok ((vb + va) `mod` 8) ∧
    affine_image r x = affine_image a (affine_image b x).
Proof.
  intros Hn Ha Hb Hx. pose proof (wf_n_pos _ _ (wf_poly_of _ _ Ha)) as Hpos.
  destruct (mul_parts n a b Hn Ha Hb) as (pv & p' & Hpv & Hwf_pv & Hp' & Hwf_p' & Hmul & Hvs).
  set (vs := (λ i, substituted_var n (default [] (linear b !! Z.to_nat i))
                     (item (shift b) i)) <$> py_range n) in *.
  set (r := mk n p' (z2_matrix_product n (linear a) (linear b))
              (zip_with Z.lxor (z2_matrix_vector n (linear a) (shift b)) (shift a))).
  assert (wf_elem n r) as Hr.
  { split; simpl; [done|done|by apply product_z2_matrix; lia|].
    destruct (wf_shift _ _ Ha) as [Hlen Hbits].
    destruct (matrix_vector_z2_vector n (linear a) (shift b)) as [Hlen' Hbits']; [lia|].
    split; [rewrite length_zip_with; lia|by apply bits_zip_with_xor]. }
  pose proof (affine_image_bits n b x Hb) as Hy.
  destruct (evaluate_int_bits n (poly b) x ltac:(lia) (wf_poly_of _ _ Hb) Hx) as [Hvb _].
  destruct (evaluate_int_bits n (poly a) (affine_image b x) ltac:(lia)
              (wf_poly_of _ _ Ha) Hy) as [Hva _].
  destruct (evaluate_int_bits n p' x ltac:(lia) Hwf_p' Hx) as [Hvr _].
  exists r, (value_of (poly b) x), (value_of (poly a) (affine_image b x)).
  split; [done|]. split; [done|]. split; [done|]. split; [done|]. split.
  - simpl. rewrite Hvr. f_equal.
    rewrite (value_of_add n (poly b) pv p' x (wf_poly_of _ _ Hb) Hwf_pv
               (terms_ok_small n ltac:(lia)) Hp').
    f_equal. f_equal.
    destruct (SpecialPolynomial.evaluate (poly a) vs) as [pv'|] eqn:Hev; [|done].
    injection Hpv as ->.
    destruct (evaluate_value n (poly a) vs x ltac:(lia) (wf_poly_of _ _ Ha)) as (pv2 & Hpv2 & _ & Hval);
      [unfold vs; rewrite length_fmap, length_py_range; lia|done|apply Hx|].
    assert (pv2 = pv) as -> by congruence. rewrite Hval. f_equal.
    unfold vs. rewrite <- list_fmap_compose.
    rewrite (affine_image_tabulate n b x Hb). apply tabulate_ext. intros i Hi. simpl.
    destruct (z2_matrix_getitem n (linear b) i (wf_linear _ _ Hb) Hi) as (_ & Hlen & Hbits).
    destruct (affine_image_item n b x i ltac:(lia) Hb Hx Hi) as [Hitem _].
    rewrite (affine_image_tabulate n b x Hb), item_tabulate in Hitem by done.
    rewrite Hitem. apply substituted_var_value; [lia| | |by apply z2_vector_bit_vectors].
    + by apply z2_vector_bit_vectors.
    + by apply (z2_vector_item_bit n (shift b) i), Hb.
  - by apply (affine_image_composition n a b r x).
Qed.
End CompositionAction.

Section ProductTheorems.
Import SpecialPolynomial.

(** On at most three variables [mul_monomial] returns for every valid
    monomial, and what it returns is the product: its value at a vector
    of bits is the value of [self] times the monomial. *)
Theorem mul_monomial_multiplies_by_the_monomial (n : Z) (p : t) (T x : list Z) :
  n ≤ 3 → wf_poly n p → valid_term n T → z2_vector n x →
  ∃ r v,
    mul_monomial p T = Ok r ∧ wf_poly n r ∧
    evaluate_int p x = Ok v ∧
    evaluate_int r x = Ok ((v * monomial x T) `mod` 8).
Proof.
  intros Hn Hp HT Hx. pose proof (wf_n_pos _ _ Hp) as Hpos.
  destruct (mul_monomial_value n p T x ltac:(lia) Hp (all_terms_complete n T HT) (proj2 Hx))
    as (r & Hr & Hwf & Hval).
  destruct (evaluate_int_bits n p x ltac:(lia) Hp Hx) as [Hvp _].
  destruct (evaluate_int_bits n r x ltac:(lia) Hwf Hx) as [Hvr _].
  exists r, (value_of p x). split; [done|]. split; [done|]. split; [done|].
  by rewrite Hvr, Hval.
Qed.

(** On at most three variables the product of two polynomials returns,
    and its value at a vector of bits is the product of the values, in
    either order of the factors. *)
Theorem polynomial_product_value (n : Z) (p q : t) (x : list Z) :
  n ≤ 3 → wf_poly n p → wf_poly n q → z2_vector n x →
  ∃ r r' vp vq,
    __mul__ p q = Ok r ∧ __mul__ q p = Ok r' ∧ wf_poly n r ∧ wf_poly n r' ∧
    evaluate_int p x = Ok vp ∧ evaluate_int q x = Ok vq ∧
    evaluate_int r x = Ok ((vp * vq) `mod` 8) ∧
    evaluate_int r' x = Ok ((vp * vq) `mod` 8).
Proof.
  intros Hn Hp Hq Hx. pose proof (wf_n_pos _ _ Hp) as Hpos.
  destruct (mul_value n p q x ltac:(lia) Hp Hq (proj2 Hx)) as (r & Hr & Hwf & Hval).
  destruct (mul_value n q p x ltac:(lia) Hq Hp (proj2 Hx)) as (r' & Hr' & Hwf' & Hval').
  destruct (evaluate_int_bits n p x ltac:(lia) Hp Hx) as [Hvp _].
  destruct (evaluate_int_bits n q x ltac:(lia) Hq Hx) as [Hvq _].
  destruct (evaluate_int_bits n r x ltac:(lia) Hwf Hx) as [Hvr _].
  destruct (evaluate_int_bits n r' x ltac:(lia) Hwf' Hx) as [Hvr' _].
  exists r, r', (value_of p x), (value_of q x).
  split; [done|]. split; [done|]. split; [done|]. split; [done|].
  split; [done|]. split; [done|]. split; [by rewrite Hvr, Hval|].
  rewrite Hvr', Hval'. f_equal. f_equal. lia.
Qed.

(** On at most three variables [evaluate] at a vector of polynomials is
    substitution: when the polynomials take the values 0 or 1 at a vector
    of bits [x], the value of the result at [x] is the value of [self] at
    the vector of their values. *)
Theorem evaluate_at_polynomials_substitutes (n : Z) (p : t) (vars : list t) (x : list Z) :
  n ≤ 3 → wf_poly n p → Z.of_nat (length vars) = n → Forall (wf_poly n) vars →
  z2_vector n x →
  (∀ v, v ∈ vars → evaluate_int v x = Ok 0 ∨ evaluate_int v x = Ok 1) →
  ∃ r ys v,
    evaluate p vars = Ok r ∧ wf_poly n r ∧
    res_map (λ v, evaluate_int v x) vars = Ok ys ∧
    evaluate_int p ys = Ok v ∧ evaluate_int r x = Ok v.
Proof.
  intros Hn Hp Hlen Hvars Hx Hbit. pose proof (wf_n_pos _ _ Hp) as Hpos.
  destruct (evaluate_value n p vars x ltac:(lia) Hp Hlen Hvars (proj2 Hx))
    as (r & Hr & Hwf & Hval).
  set (ys := (λ v, value_of v x) <$> vars) in *.
  assert (res_map (λ v, evaluate_int v x) vars = Ok ys) as Hys.
  { apply res_map_fmap. intros v Hv. rewrite Forall_forall in Hvars.
    by apply (evaluate_int_bits n); [lia|apply Hvars|]. }
  assert (z2_vector n ys) as Hybits.
  { split; [unfold ys; by rewrite length_fmap|].
    apply Forall_fmap, Forall_forall. intros v Hv. simpl.
    rewrite Forall_forall in Hvars.
    destruct (evaluate_int_bits n v x ltac:(lia) (Hvars v Hv) Hx) as [Hev _].
    destruct (Hbit v Hv) as [H0|H1]; [left|right]; congruence. }
  destruct (evaluate_int_bits n p ys ltac:(lia) Hp Hybits) as [Hvp _].
  destruct (evaluate_int_bits n r x ltac:(lia) Hwf Hx) as [Hvr _].
  exists r, ys, (value_of p ys). split; [done|]. split; [done|]. split; [done|].
  split; [done|]. by rewrite Hvr, Hval.
Qed.
End ProductTheorems.

Section ProductInstances.
Import CNOTDihedral.

Lemma cnot_and_flip_act_on_the_output_bits_witness :
  wf_elem 2 (element_2 1 2 4 [[1; 0]; [1; 1]] 0 1) ∧ 0 ≤ 0 < 2 ∧ 0 ≤ 1 < 2 ∧ 0 ≠ 1 ∧
  ∃ e1 e2,
    cnot 0 1 (element_2 1 2 4 [[1; 0]; [1; 1]] 0 1) = (Ok (), e1) ∧
    flip 0 (element_2 1 2 4 [[1; 0]; [1; 1]] 0 1) = (Ok (), e2) ∧
    poly e1 = poly (element_2 1 2 4 [[1; 0]; [1; 1]] 0 1) ∧
    poly e2 = poly (element_2 1 2 4 [[1; 0]; [1; 1]] 0 1) ∧
    affine_image e1 [1; 0]
    = <[Z.to_nat 1 :=
          Z.lxor (item (affine_image (element_2 1 2 4 [[1; 0]; [1; 1]] 0 1) [1; 0]) 0)
                 (item (affine_image (element_2 1 2 4 [[1; 0]; [1; 1]] 0 1) [1; 0]) 1)]>
        (affine_image (element_2 1 2 4 [[1; 0]; [1; 1]] 0 1) [1; 0]) ∧
    affine_image e2 [1; 0]
    = <[Z.to_nat 0 :=
          Z.lxor (item (affine_image (element_2 1 2 4 [[1; 0]; [1; 1]] 0 1) [1; 0]) 0) 1]>
        (affine_image (element_2 1 2 4 [[1; 0]; [1; 1]] 0 1) [1; 0]).
Proof.
  assert (wf_elem 2 (element_2 1 2 4 [[1; 0]; [1; 1]] 0 1)) as He by wf_concrete.
  split; [exact He|]. split; [lia|]. split; [lia|]. split; [lia|].
  exact (cnot_and_flip_act_on_the_output_bits 2 _ 0 1 [1; 0] He
           ltac:(lia) ltac:(lia) ltac:(lia)).
Defined.

Lemma mul_monomial_multiplies_by_the_monomial_witness :
  2 ≤ 3 ∧ wf_poly 2 (SpecialPolynomial.mk 2 1 0 3 [1; 5] [2] []) ∧ valid_term 2 [0; 1] ∧
  z2_vector 2 [1; 1] ∧
  ∃ r v,
    SpecialPolynomial.mul_monomial (SpecialPolynomial.mk 2 1 0 3 [1; 5] [2] []) [0; 1] = Ok r ∧
    wf_poly 2 r ∧
    SpecialPolynomial.evaluate_int (SpecialPolynomial.mk 2 1 0 3 [1; 5] [2] []) [1; 1] = Ok v ∧
    SpecialPolynomial.evaluate_int r [1; 1] = Ok ((v * monomial [1; 1] [0; 1]) `mod` 8).
Proof.
  assert (wf_poly 2 (SpecialPolynomial.mk 2 1 0 3 [1; 5] [2] [])) as Hp by poly_concrete.
  assert (valid_term 2 [0; 1]) as HT.
  { split; [simpl; lia|]. split; [forall_concrete lia|forall_concrete ltac:(simpl; lia)]. }
  assert (z2_vector 2 [1; 1]) as Hx by (split; [done|forall_concrete lia]).
  split; [lia|]. split; [exact Hp|]. split; [exact HT|]. split; [exact Hx|].
  exact (mul_monomial_multiplies_by_the_monomial 2 _ [0; 1] [1; 1] ltac:(lia) Hp HT Hx).
Defined.

Lemma polynomial_product_value_witness :
  2 ≤ 3 ∧ wf_poly 2 (SpecialPolynomial.mk 2 1 0 3 [1; 5] [2] []) ∧
  wf_poly 2 (SpecialPolynomial.mk 2 1 0 0 [7; 0] [6] []) ∧ z2_vector 2 [1; 1] ∧
  ∃ r r' vp vq,
    SpecialPolynomial.__mul__ (SpecialPolynomial.mk 2 1 0 3 [1; 5] [2] [])
                              (SpecialPolynomial.mk 2 1 0 0 [7; 0] [6] []) = Ok r ∧
    SpecialPolynomial.__mul__ (SpecialPolynomial.mk 2 1 0 0 [7; 0] [6] [])
                              (SpecialPolynomial.mk 2 1 0 3 [1; 5] [2] []) = Ok r' ∧
    wf_poly 2 r ∧ wf_poly 2 r' ∧
    SpecialPolynomial.evaluate_int (SpecialPolynomial.mk 2 1 0 3 [1; 5] [2] []) [1; 1]
      = Ok vp ∧
    SpecialPolynomial.evaluate_int (SpecialPolynomial.mk 2 1 0 0 [7; 0] [6] []) [1; 1]
      = Ok vq ∧
    SpecialPolynomial.evaluate_int r [1; 1] = Ok ((vp * vq) `mod` 8) ∧
    SpecialPolynomial.evaluate_int r' [1; 1] = Ok ((vp * vq) `mod` 8).
Proof.
  assert (wf_poly 2 (SpecialPolynomial.mk 2 1 0 3 [1; 5] [2] [])) as Hp by poly_concrete.
  assert (wf_poly 2 (SpecialPolynomial.mk 2 1 0 0 [7; 0] [6] [])) as Hq by poly_concrete.
  assert (z2_vector 2 [1; 1]) as Hx by (split; [done|forall_concrete lia]).
  split; [lia|]. split; [exact Hp|]. split; [exact Hq|]. split; [exact Hx|].
  exact (polynomial_product_value 2 _ _ [1; 1] ltac:(lia) Hp Hq Hx).
Defined.

Lemma evaluate_at_polynomials_substitutes_witness :
  1 ≤ 3 ∧ wf_poly 1 (SpecialPolynomial.mk 1 0 0 3 [5] [] []) ∧
  Z.of_nat (length [SpecialPolynomial.mk 1 0 0 1 [7] [] []]) = 1 ∧
  Forall (wf_poly 1) [SpecialPolynomial.mk 1 0 0 1 [7] [] []] ∧
  z2_vector 1 [1] ∧
  (∀ v, v ∈ [SpecialPolynomial.mk 1 0 0 1 [7] [] []] →
     SpecialPolynomial.evaluate_int v [1] = Ok 0 ∨
     SpecialPolynomial.evaluate_int v [1] = Ok 1) ∧
  ∃ r ys v,
    SpecialPolynomial.evaluate (SpecialPolynomial.mk 1 0 0 3 [5] [] [])
      [SpecialPolynomial.mk 1 0 0 1 [7] [] []] = Ok r ∧
    wf_poly 1 r ∧
    res_map (λ v, SpecialPolynomial.evaluate_int v [1])
      [SpecialPolynomial.mk 1 0 0 1 [7] [] []] = Ok ys ∧
    SpecialPolynomial.evaluate_int (SpecialPolynomial.mk 1 0 0 3 [5] [] []) ys = Ok v ∧
    SpecialPolynomial.evaluate_int r [1] = Ok v.
Proof.
  assert (wf_poly 1 (SpecialPolynomial.mk 1 0 0 3 [5] [] [])) as Hp by poly_concrete.
  assert (wf_poly 1 (SpecialPolynomial.mk 1 0 0 1 [7] [] [])) as Hv by poly_concrete.
  assert (Forall (wf_poly 1) [SpecialPolynomial.mk 1 0 0 1 [7] [] []]) as Hvars
    by (apply Forall_cons_2; [exact Hv|apply Forall_nil_2]).
  assert (z2_vector 1 [1]) as Hx by (split; [done|forall_concrete lia]).
  assert (∀ v, v ∈ [SpecialPolynomial.mk 1 0 0 1 [7] [] []] →
            SpecialPolynomial.evaluate_int v [1] = Ok 0 ∨
            SpecialPolynomial.evaluate_int v [1] = Ok 1) as Hbit.
  { intros v ->%list_elem_of_singleton. left. vm_compute. reflexivity. }
  assert (Z.of_nat (length [SpecialPolynomial.mk 1 0 0 1 [7] [] []]) = 1) as Hlen
    by reflexivity.
  split; [lia|]. split; [exact Hp|]. split; [exact Hlen|]. split; [exact Hvars|].
  split; [exact Hx|]. split; [exact Hbit|].
  exact (evaluate_at_polynomials_substitutes 1 _ _ [1] ltac:(lia) Hp Hlen Hvars Hx Hbit).
Defined.

Lemma composition_acts_as_b_then_a_witness :
  2 ≤ 3 ∧ wf_elem 2 (element_2 0 1 0 [[1; 0]; [0; 1]] 0 0) ∧
  wf_elem 2 (element_2 0 0 0 [[1; 0]; [1; 1]] 0 0) ∧ z2_vector 2 [1; 0] ∧
  ∃ r vb va,
    __mul__ (element_2 0 1 0 [[1; 0]; [0; 1]] 0 0) (element_2 0 0 0 [[1; 0]; [1; 1]] 0 0)
      = Ok r ∧ wf_elem 2 r ∧
    SpecialPolynomial.evaluate_int (poly (element_2 0 0 0 [[1; 0]; [1; 1]] 0 0)) [1; 0]
      = Ok vb ∧
    SpecialPolynomial.evaluate_int (poly (element_2 0 1 0 [[1; 0]; [0; 1]] 0 0))
      (affine_image (element_2 0 0 0 [[1; 0]; [1; 1]] 0 0) [1; 0]) = Ok va ∧
    SpecialPolynomial.evaluate_int (poly r) [1; 0] = Ok ((vb + va) `mod` 8) ∧
    affine_image r [1; 0]
    = affine_image (element_2 0 1 0 [[1; 0]; [0; 1]] 0 0)
        (affine_image (element_2 0 0 0 [[1; 0]; [1; 1]] 0 0) [1; 0]).
Proof.
  assert (wf_elem 2 (element_2 0 1 0 [[1; 0]; [0; 1]] 0 0)) as Ha by wf_concrete.
  assert (wf_elem 2 (element_2 0 0 0 [[1; 0]; [1; 1]] 0 0)) as Hb by wf_concrete.
  assert (z2_vector 2 [1; 0]) as Hx by (split; [done|forall_concrete lia]).
  split; [lia|]. split; [exact Ha|]. split; [exact Hb|]. split; [exact Hx|].
  exact (composition_acts_as_b_then_a 2 _ _ [1; 0] ltac:(lia) Ha Hb Hx).
Defined.
End ProductInstances.

(** ** The circuits that the synthesis returns *)

Section Synthesis.
Import CNOTDihedral.

Lemma synthesis_check_all n :
  n = 1 ∨ n = 2 → forallb (synthesis_check n) (elements n) = true.
Proof. intros [-> | ->]; vm_compute; reflexivity. Qed.

(** The circuit that the synthesis returns for an element built by the
    generators on one or two qubits acts on the qubits of the element
    and consists of one to eleven gates, each a [u1] with an angle
    k * pi / 4 for 1 <= k <= 7, an [x], an [id] or a [cx] on two
    different qubits; at most three of them are [cx], and none is
    exactly when the linear part is the identity and the quadratic
    coefficient is 0. *)
Theorem synthesis_uses_the_gate_set (n : Z) (e : t) :
  n = 1 ∨ n = 2 → generated n e →
  ∃ c, decompose_CNOTDihedral e = Ok c ∧
       circ_num_qubits c = n ∧
       Forall (λ g, synthesis_gate n g = true) (definition c) ∧
       (1 ≤ length (definition c) ≤ 11)%nat ∧
       (cx_count c ≤ 3)%nat ∧
       (cx_count c = 0%nat ↔
        linear e = z2_identity n ∧
        Forall (λ c, c = 0) (SpecialPolynomial.weight_2 (poly e))).
Proof.
  intros Hn Hgen. pose proof (generated_is_element n e Hn Hgen) as He.
  pose proof (elements_forall n _ (synthesis_check_all n Hn) e He) as Hcheck.
  unfold synthesis_check in Hcheck.
  destruct (decompose_CNOTDihedral e) as [c|]; [|done].
  rewrite !andb_true_iff, !bool_decide_eq_true in Hcheck.
  destruct Hcheck as ((((Hq & Hgates) & Hlen) & Hcx) & Hzero).
  exists c. split; [done|]. split; [done|].
  split; [|done]. apply Forall_forall. intros g Hg.
  rewrite forallb_forall in Hgates. by apply Hgates, list_elem_of_In.
Qed.
End Synthesis.

(** ** Transcription stays within the generated elements *)

Section Transcription.
Import CNOTDihedral.

Lemma st_for_invariant {S A} (P : S → Prop) (body : A → M S ()) (l : list A) (s s' : S) :
  (∀ x s0 s1, x ∈ l → P s0 → body x s0 = (Ok (), s1) → P s1) →
  P s → st_for l body s = (Ok (), s') → P s'.
Proof.
  revert s. induction l as [|x l IH]; intros s Hbody Hs; simpl.
  - unfold st_ret. by intros [= <-].
  - unfold mbind, st_mbind, st_bind.
    destruct (body x s) as [[[]|err] s1] eqn:Hx; [|done].
    apply IH; [|by apply (Hbody x s s1); [left|..]].
    intros y s0 s2 Hy. apply Hbody. by right.
Qed.

Lemma apply_instruction_generated n gate_name qargs instr e e' :
  generated n e → apply_instruction gate_name qargs instr e = (Ok (), e') →
  generated n e'.
Proof.
  intros Hgen. unfold apply_instruction, lift. st_unfold.
  unfold mbind, st_mbind, st_bind.
  destruct (res_map (getitem qargs) (qregs instr)) as [new_qubits|]; simpl; [|done].
  case_bool_decide.
  { destruct (getitem new_qubits 0) as [q|]; simpl; [|done].
    by apply generated_flip. }
  case_bool_decide.
  { destruct (getitem (params instr) 0) as [theta|]; simpl; [|done].
    destruct (getitem new_qubits 0) as [q|]; simpl; [|done].
    by apply generated_phase. }
  case_bool_decide.
  { destruct (getitem new_qubits 0) as [q0|]; simpl; [|done].
    destruct (getitem new_qubits 1) as [q1|]; simpl; [|done].
    by apply generated_cnot. }
  case_bool_decide; [|done]. unfold st_ret. by intros [= <-].
Qed.

(** Whatever the circuit and the qubits it is mapped to, a transcription
    that returns has applied generators only: from an element built by
    the generators it leads to an element built by the generators. *)
Theorem append_circuit_stays_generated (n : Z) (circuit : QuantumCircuit)
    (qargs : option (list Z)) (e e' : t) :
  generated n e → append_circuit circuit qargs e = (Ok (), e') → generated n e'.
Proof.
  intros Hgen. unfold append_circuit. st_unfold. unfold mbind, st_mbind, st_bind. simpl.
  apply (st_for_invariant (generated n)); [|done].
  intros instr s0 s1 _ Hs0. by apply apply_instruction_generated.
Qed.
End Transcription.

(** ** The products of matrices over Z_2 *)

Section MatrixLaws.
Import CNOTDihedral.

Lemma kronecker_sym r c : kronecker r c = kronecker c r.
Proof. unfold kronecker. repeat case_bool_decide; done || lia. Qed.

Lemma product_identity_r n a :
  z2_matrix n a → z2_matrix_product n a (z2_identity n) = a.
Proof.
  intros Ha. assert (0 ≤ n) by (destruct Ha; lia).
  apply (z2_matrix_ext n); [by apply product_z2_matrix|done|].
  intros r c Hr Hc. rewrite cell_product by done.
  rewrite (zsum_ext _ (λ k, kronecker c k * cell a r k)).
  2: { intros k Hk. rewrite cell_identity, kronecker_sym by done. lia. }
  rewrite zsum_delta by done.
  destruct (z2_matrix_cell n a r c Ha Hr Hc) as (_ & _ & _ & Hbit).
  by apply bit_mod_2.
Qed.

Lemma vector_tabulate n (v : list Z) :
  Z.of_nat (length v) = n → item v <$> py_range n = v.
Proof.
  intros Hlen. apply (list_eq_same_length _ _ (Z.to_nat n)).
  - lia.
  - by rewrite length_fmap, length_py_range.
  - intros i x y Hi Hx Hy.
    rewrite <- (Nat2Z.id i), lookup_tabulate in Hx by lia.
    unfold item in Hx. rewrite Nat2Z.id, Hy in Hx. by injection Hx as <-.
Qed.

Lemma matrix_vector_assoc n a b v :
  z2_matrix_vector n (z2_matrix_product n a b) v
  = z2_matrix_vector n a (z2_matrix_vector n b v).
Proof.
  unfold z2_matrix_vector at 1 2.
  apply list_fmap_ext. intros ? i Hi%lookup_seqZ.
  rewrite (zsum_mod_2 _ (λ k, zsum (λ l, cell a i l * cell b l k * item v k) n)).
  2: { intros k Hk. rewrite cell_product by lia.
       rewrite Z.mul_mod_idemp_l by done. unfold zsum. by rewrite nsum_mul_r. }
  rewrite (zsum_mod_2 (λ k, cell a i k * item _ k)
             (λ l, zsum (λ k, cell a i l * cell b l k * item v k) n)).
  2: { intros l Hl. unfold z2_matrix_vector. rewrite item_tabulate by lia.
       rewrite Z.mul_mod_idemp_r by done. unfold zsum. rewrite <- nsum_mul_l.
       f_equal. apply nsum_ext. intros. lia. }
  unfold zsum. by rewrite nsum_swap.
Qed.

Lemma identity_vector n v : z2_vector n v → z2_matrix_vector n (z2_identity n) v = v.
Proof.
  intros [Hlen Hbits]. rewrite <- (vector_tabulate n v Hlen) at 2.
  unfold z2_matrix_vector. apply tabulate_ext. intros i Hi.
  rewrite (zsum_ext _ (λ k, kronecker i k * item v k)).
  2: { intros k Hk. by rewrite cell_identity. }
  rewrite zsum_delta by done. apply bit_mod_2.
  by apply (z2_vector_item_bit n).
Qed.

(** The two products of the class are the products of matrices over
    Z_2: on n x n matrices and vectors of length n over Z_2 the matrix
    product is associative with the identity matrix as unit on both
    sides, it acts on vectors ((a b) v = a (b v), 1 v = v), and the
    results are again over Z_2 and of the same size. *)
Theorem z2_products_are_matrix_products (n : Z) (a b c : list (list Z)) (v : list Z) :
  z2_matrix n a → z2_matrix n b → z2_matrix n c → z2_vector n v →
  z2_matrix n (_z2matmul n a b) ∧
  z2_vector n (_z2matvecmul n a v) ∧
  _z2matmul n (_z2matmul n a b) c = _z2matmul n a (_z2matmul n b c) ∧
  _z2matmul n (z2_identity n) a = a ∧
  _z2matmul n a (z2_identity n) = a ∧
  _z2matvecmul n (_z2matmul n a b) v = _z2matvecmul n a (_z2matvecmul n b v) ∧
  _z2matvecmul n (z2_identity n) v = v.
Proof.
  intros Ha Hb Hc Hv. assert (0 ≤ n) as Hn by (destruct Ha; lia).
  rewrite !_z2matmul_product, !_z2matvecmul_product.
  split; [by apply product_z2_matrix|].
  split; [by apply matrix_vector_z2_vector|].
  split; [apply product_assoc|].
  split; [by apply product_identity_l|].
  split; [by apply product_identity_r|].
  split; [apply matrix_vector_assoc|].
  by apply identity_vector.
Qed.
End MatrixLaws.

(** ** The generators as left multiplications *)

Section LeftMultiplication.
Import CNOTDihedral.

(** The zero polynomial evaluates to the zero polynomial. *)
Lemma evaluate_zero n zero vars :
  1 ≤ n ≤ 5 → SpecialPolynomial.__init__ n = Ok zero → Z.of_nat (length vars) = n →
  Forall (wf_poly n) vars →
  SpecialPolynomial.evaluate zero vars = Ok zero.
Proof.
  intros Hn Hzero Hlen Hvars.
  destruct (poly_init_ok n ltac:(lia)) as (z & Hz & Hwf & _).
  assert (z = zero) as -> by congruence.
  unfold SpecialPolynomial.evaluate, assert. rewrite (wf_n_vars _ _ Hwf).
  rewrite (bool_decide_eq_true_2 (Z.of_nat (length vars) = n)) by done.
  assert (forallb (λ i, bool_decide (SpecialPolynomial.n_vars i = n)) vars = true) as ->.
  { apply forallb_forall. intros q Hq. apply bool_decide_eq_true.
    apply list_elem_of_In in Hq. rewrite Forall_forall in Hvars. by apply Hvars. }
  rewrite Hzero, !res_bind_Ok. cbv zeta.
  pose proof (terms_ok_small n Hn) as Hterms. rewrite forallb_forall in Hterms.
  assert (∀ l, (∀ t, t ∈ l → t ∈ SpecialPolynomial.all_terms n) →
    res_fold (λ result term,
       value ← SpecialPolynomial.get_term zero term;
       if bool_decide (value ≠ 0) then
         factors ← res_map (getitem vars) term;
         newterm ← res_fold SpecialPolynomial.__mul__ factors
                     (SpecialPolynomial.set_weight_0 1 zero);
         scaled ← SpecialPolynomial.__mul__int newterm value;
         SpecialPolynomial.__add__ result scaled
       else Ok result) l zero = Ok zero) as Hloop.
  { induction l as [|t l IH]; intros Hl; [done|].
    rewrite res_fold_cons.
    assert (term_ok n t = true) as Ht.
    { apply Hterms, list_elem_of_In, Hl. by left. }
    destruct (coefficient_get_term n zero t Hwf Ht) as [-> _].
    rewrite (coefficient_zero n zero t Hzero Ht), res_bind_Ok.
    rewrite (bool_decide_eq_false_2 (0 ≠ 0)) by (intros H; by apply H).
    cbv beta iota. rewrite res_bind_Ok.
    apply IH. intros u Hu. apply Hl. by right. }
  by apply Hloop.
Qed.

Lemma add_zero_r n p zero :
  wf_poly n p → SpecialPolynomial.__init__ n = Ok zero →
  SpecialPolynomial.__add__ p zero = Ok p.
Proof.
  intros Hp Hzero.
  destruct (poly_init_ok n (wf_n_pos _ _ Hp)) as (z & Hz & Hwf & _).
  assert (z = zero) as -> by congruence.
  rewrite (add_explicit n) by done.
  unfold SpecialPolynomial.__init__, assert in Hzero.
  rewrite bool_decide_eq_true_2 in Hzero by apply (wf_n_pos _ _ Hp).
  injection Hzero as <-.
  pose proof Hp as [Hpos Hvars Hnc2 Hnc3 Hw0 Hlen1 Hlen2 Hlen3 Hw1 Hw2 Hw3].
  simpl. unfold py_repeat.
  rewrite !zip_add_zero by (done || lia). rewrite Z.add_0_r, Z.mod_small by lia.
  by rewrite <- (poly_eta n p).
Qed.

Lemma res_map_ok {A B} (P : B → Prop) (f : A → res B) (l : list A) :
  (∀ x, x ∈ l → ∃ y, f x = Ok y ∧ P y) →
  ∃ ys, res_map f l = Ok ys ∧ Forall P ys ∧ length ys = length l.
Proof.
  induction l as [|x l IH]; intros Hf.
  - exists []. by split; [|split; [apply Forall_nil_2|]].
  - destruct (Hf x) as (y & Hy & HPy); [by left|].
    destruct IH as (ys & Hys & HP & Hlen); [intros z Hz; apply Hf; by right|].
    exists (y :: ys). simpl. rewrite Hy, res_bind_Ok, Hys, res_bind_Ok.
    split; [done|]. split; [by apply Forall_cons_2|]. simpl. by rewrite Hlen.
Qed.

(** The substituted variables exist on at most four qubits. *)
Lemma new_var_ok n m i s :
  1 ≤ n ≤ 4 → z2_matrix n m → 0 ≤ i < n →
  ∃ v, new_var n (default [] (m !! Z.to_nat i)) s = Ok v ∧ wf_poly n v.
Proof.
  intros Hn Hm Hi. unfold new_var.
  destruct (poly_init_ok n ltac:(lia)) as (zero & Hzero & Hwf & _).
  rewrite Hzero, res_bind_Ok. cbv zeta.
  pose proof (support_of_row n m i Hm Hi) as HJ.
  apply increasing_in_py_range in HJ; [|lia].
  destruct (set_pj_small n zero _ Hn Hwf HJ) as [Hset Hwf_pj].
  unfold run_on. rewrite Hset, res_bind_Ok.
  case_bool_decide; [|by eexists].
  destruct (mul_int_ok n _ (-1) Hwf_pj) as (neg & Hneg & Hwf_neg).
  rewrite Hneg, res_bind_Ok. eexists. split; [done|].
  destruct Hwf_neg as [Hpos Hvars Hnc2 Hnc3 Hw0 Hlen1 Hlen2 Hlen3 Hw1 Hw2 Hw3].
  split; simpl; try done. apply Z.mod_pos_bound. lia.
Qed.

(** The product with an element whose polynomial is zero. *)
Lemma mul_by_zero_poly n a e :
  1 ≤ n ≤ 4 → wf_elem n a → wf_elem n e →
  SpecialPolynomial.__init__ n = Ok (poly a) →
  __mul__ a e
  = Ok (mk n (poly e) (z2_matrix_product n (linear a) (linear e))
          (zip_with (λ x0 x1, (x0 + x1) `mod` 2)
             (z2_matrix_vector n (linear a) (shift e)) (shift a))).
Proof.
  intros Hn Ha He Hzero.
  unfold __mul__, __init__, assert.
  rewrite (wf_num_qubits _ _ Ha), (wf_num_qubits _ _ He).
  rewrite (bool_decide_eq_true_2 (n = n)) by done. rewrite Hzero, !res_bind_Ok.
  cbv zeta.
  destruct (res_map_ok (wf_poly n)
              (λ i, row ← getitem (linear e) i;
                    s ← getitem (shift e) i;
                    new_var n row s) (py_range n)) as (vs & Hvs & Hwf_vs & Hlen).
  { intros i Hi. apply elem_of_seqZ in Hi.
    destruct (z2_matrix_getitem n (linear e) i (wf_linear _ _ He)) as (-> & _); [lia|].
    destruct (z2_vector_item n (shift e) i (wf_shift _ _ He)) as (-> & _); [lia|].
    rewrite !res_bind_Ok. apply new_var_ok; [done|apply He|lia]. }
  rewrite Hvs, res_bind_Ok.
  rewrite (evaluate_zero n (poly a) vs) by
    (try done; try lia; rewrite Hlen, length_py_range; lia).
  rewrite res_bind_Ok, (add_zero_r n (poly e) (poly a)) by (done || apply He).
  rewrite res_bind_Ok. unfold set_poly, set_linear, set_shift. simpl.
  by rewrite _z2matmul_product, _z2matvecmul_product.
Qed.

Lemma zeros_insert m j : <[j := 0]> (replicate m 0) = replicate m 0.
Proof.
  destruct (decide (j < m)%nat) as [Hj|Hj].
  - apply list_insert_id. by apply lookup_replicate_2.
  - apply list_insert_ge. rewrite length_replicate. lia.
Qed.

(** The shift of [c * e] when [c] is [cnot(i, j)] of the identity. *)
Lemma cnot_shift_product n i j s :
  z2_vector n s → 0 ≤ i < n → 0 ≤ j < n → i ≠ j →
  zip_with (λ x0 x1, (x0 + x1) `mod` 2)
    (z2_matrix_vector n (cnot_rows n i j (z2_identity n)) s) (py_repeat n 0)
  = <[Z.to_nat j := (item s i + item s j) `mod` 2]> s.
Proof.
  intros Hs Hi Hj Hij. pose proof Hs as [Hlen Hbits].
  pose proof (identity_z2_matrix n ltac:(lia)) as HI.
  set (g := λ r, if bool_decide (r = j) then (item s i + item s j) `mod` 2 else item s r).
  assert (∀ q, 0 ≤ q < n → q ≠ j → g q = item s q) as Hg.
  { intros q _ Hq. unfold g. by rewrite bool_decide_eq_false_2. }
  pose proof (insert_tabulate (item s) g n j Hj Hg) as Hins.
  rewrite (vector_tabulate n s Hlen) in Hins. unfold g at 1 in Hins.
  rewrite (bool_decide_eq_true_2 (j = j)) in Hins by done.
  rewrite Hins.
  unfold z2_matrix_vector, py_repeat.
  rewrite (zip_with_tabulate (λ x0 x1, (x0 + x1) `mod` 2)) by (rewrite length_replicate; lia).
  apply tabulate_ext. intros r Hr. rewrite item_replicate, Z.add_0_r, Z.mod_mod by lia.
  unfold g. case_bool_decide as Hrj.
  - subst r.
    rewrite (zsum_mod_2 _ (λ k, kronecker i k * item s k + kronecker j k * item s k)).
    + by rewrite zsum_add, !zsum_delta.
    + intros k Hk. rewrite cell_cnot_rows by done.
      rewrite bool_decide_eq_true_2 by done. rewrite !cell_identity by done.
      rewrite Z.mul_mod_idemp_l by lia. f_equal. lia.
  - rewrite (zsum_ext _ (λ k, kronecker r k * item s k)).
    + rewrite zsum_delta by done. apply bit_mod_2. by apply (z2_vector_item_bit n).
    + intros k Hk. rewrite cell_cnot_rows by done.
      rewrite bool_decide_eq_false_2 by done. by rewrite cell_identity.
Qed.

(** The shift of [f * e] when [f] is [flip(i)] of the identity. *)
Lemma flip_shift_product n i s v :
  z2_vector n s → 0 ≤ i < n →
  zip_with (λ x0 x1, (x0 + x1) `mod` 2) s (<[Z.to_nat i := v]> (py_repeat n 0))
  = <[Z.to_nat i := (item s i + v) `mod` 2]> s.
Proof.
  intros Hs Hi. pose proof Hs as [Hlen Hbits].
  set (g := λ r, if bool_decide (r = i) then (item s i + v) `mod` 2 else item s r).
  assert (∀ q, 0 ≤ q < n → q ≠ i → g q = item s q) as Hg.
  { intros q _ Hq. unfold g. by rewrite bool_decide_eq_false_2. }
  pose proof (insert_tabulate (item s) g n i Hi Hg) as Hins.
  rewrite (vector_tabulate n s Hlen) in Hins. unfold g at 1 in Hins.
  rewrite (bool_decide_eq_true_2 (i = i)) in Hins by done.
  rewrite Hins.
  rewrite <- (vector_tabulate n s Hlen) at 1.
  rewrite (zip_with_tabulate (λ x0 x1, (x0 + x1) `mod` 2))
    by (unfold py_repeat; rewrite length_insert, length_replicate; lia).
  apply tabulate_ext. intros r Hr. unfold g, py_repeat. case_bool_decide as Hri.
  - subst r. by rewrite item_insert_eq by (rewrite length_replicate; lia).
  - rewrite item_insert_ne, item_replicate, Z.add_0_r by lia.
    apply bit_mod_2. by apply (z2_vector_item_bit n).
Qed.

(** [cnot(i, j)] and [flip(i)] are left multiplications: on at most
    four qubits, applying one of them to an element [e] gives the
    product [g * e] of [e] with the element [g] that the same call
    builds from the identity; the identity itself is a left unit. *)
Theorem cnot_and_flip_are_left_multiplications (n : Z) (e : t) (i j : Z) :
  n ≤ 4 → wf_elem n e → 0 ≤ i < n → 0 ≤ j < n → i ≠ j →
  ∃ one c f e1 e2,
    __init__ n = Ok one ∧
    cnot i j one = (Ok (), c) ∧ flip i one = (Ok (), f) ∧
    cnot i j e = (Ok (), e1) ∧ flip i e = (Ok (), e2) ∧
    __mul__ one e = Ok e ∧ __mul__ c e = Ok e1 ∧ __mul__ f e = Ok e2.
Proof.
  intros Hn He Hi Hj Hij. pose proof He as [Hq Hpoly Hlin Hsh].
  pose proof Hsh as [Hlen Hbits].
  destruct (poly_init_ok n ltac:(lia)) as (zero & Hzero & Hwf0 & _).
  set (one := mk n zero (z2_identity n) (py_repeat n 0)).
  assert (__init__ n = Ok one) as Hone by (unfold __init__; by rewrite Hzero).
  destruct (init_state n one Hone) as (_ & Hwf_one & _).
  set (c := mk n zero (cnot_rows n i j (z2_identity n)) (py_repeat n 0)).
  set (f := mk n zero (z2_identity n) (<[Z.to_nat i := (0 + 1) `mod` 2]> (py_repeat n 0))).
  set (e1 := mk n (poly e) (cnot_rows n i j (linear e))
               (<[Z.to_nat j := (item (shift e) i + item (shift e) j) `mod` 2]> (shift e))).
  set (e2 := mk n (poly e) (linear e)
               (<[Z.to_nat i := (item (shift e) i + 1) `mod` 2]> (shift e))).
  assert (cnot i j one = (Ok (), c)) as Hc.
  { rewrite cnot_ok by (simpl; lia). simpl. unfold c, py_repeat.
    rewrite !item_replicate. change ((0 + 0) `mod` 2) with 0. by rewrite zeros_insert. }
  assert (flip i one = (Ok (), f)) as Hf.
  { rewrite flip_ok by (simpl; lia). simpl. unfold f, py_repeat.
    by rewrite !item_replicate. }
  assert (cnot i j e = (Ok (), e1)) as He1 by (rewrite cnot_ok by lia; by rewrite Hq).
  assert (flip i e = (Ok (), e2)) as He2 by (rewrite flip_ok by lia; by rewrite Hq).
  exists one, c, f, e1, e2.
  split; [done|]. split; [done|]. split; [done|]. split; [done|]. split; [done|].
  assert (wf_elem n c) as Hwf_c.
  { split; simpl; [done|done|by apply cnot_rows_z2_matrix, Hwf_one|apply Hwf_one]. }
  assert (wf_elem n f) as Hwf_f.
  { split; simpl; [done|done|apply Hwf_one|].
    destruct (wf_shift _ _ Hwf_one) as [Hlen0 Hbits0]. simpl in *.
    split; [by rewrite length_insert|]. apply bits_insert; [done|by right]. }
  assert (1 ≤ n ≤ 4) as Hn' by lia.
  rewrite (mul_by_zero_poly n one e Hn' Hwf_one He Hzero),
    (mul_by_zero_poly n c e Hn' Hwf_c He Hzero),
    (mul_by_zero_poly n f e Hn' Hwf_f He Hzero).
  simpl. rewrite product_identity_l, identity_vector by done.
  rewrite <- cnot_rows_product by done.
  rewrite cnot_shift_product, flip_shift_product by done.
  split; [|done]. f_equal.
  pose proof (flip_shift_product n i (shift e) 0 Hsh Hi) as Hz.
  unfold py_repeat in Hz. rewrite zeros_insert, Z.add_0_r in Hz.
  rewrite bit_mod_2 in Hz by by apply (z2_vector_item_bit n).
  rewrite insert_item_id in Hz by lia.
  unfold py_repeat. rewrite Hz.
  destruct e; simpl in *. by subst.
Qed.
End LeftMultiplication.

(** ** Right multiplication *)

Section RightMultiplication.
Import CNOTDihedral.

(** [self.__rmul__(other)] runs the computation of [other * self'],
    where [self'] is [self] with the shift of [other], and then takes
    the shift from [self]. *)
Lemma rmul_as_mul a b :
  num_qubits a = num_qubits b →
  __rmul__ a b
  = (m ← __mul__ b (set_shift (shift b) a);
     Ok (set_shift
           (zip_with (λ x0 x1, (x0 + x1) `mod` 2)
              (_z2matvecmul (num_qubits a) (linear b) (shift a)) (shift b)) m)).
Proof.
  intros Hq. unfold __rmul__, __mul__, assert. simpl. rewrite <- Hq.
  rewrite (bool_decide_eq_true_2 (num_qubits a = num_qubits a)) by done.
  rewrite !res_bind_Ok.
  destruct (__init__ (num_qubits a)) as [result|]; [|done]. rewrite !res_bind_Ok.
  cbv zeta.
  destruct (res_map _ (py_range (num_qubits a))) as [vs|]; [|done].
  rewrite !res_bind_Ok.
  destruct (SpecialPolynomial.evaluate (poly b) vs) as [p|]; [|done].
  rewrite !res_bind_Ok.
  destruct (SpecialPolynomial.__add__ (poly a) p) as [p'|]; [|done].
  by rewrite !res_bind_Ok.
Qed.

(** On at most three qubits [self.__rmul__(other)] returns an element
    with the linear part and the shift of [other * self]; its polynomial
    is that of [other * self'], where [self'] is [self] with the shift
    of [other] in place of its own, so that the result is [other * self]
    when the two shifts are equal. *)
Theorem rmul_substitutes_with_the_shift_of_other (n : Z) (a b : t) :
  n ≤ 3 → wf_elem n a → wf_elem n b →
  ∃ m m' r,
    __mul__ b a = Ok m ∧ __mul__ b (set_shift (shift b) a) = Ok m' ∧
    __rmul__ a b = Ok r ∧
    num_qubits r = num_qubits m ∧ linear r = linear m ∧ shift r = shift m ∧
    poly r = poly m' ∧
    (shift a = shift b → r = m).
Proof.
  intros Hn Ha Hb.
  assert (wf_elem n (set_shift (shift b) a)) as Ha'.
  { destruct Ha as [Hq Hpoly Hlin Hsh]. split; simpl; [done|done|done|apply Hb]. }
  destruct (mul_parts n b a Hn Hb Ha) as (pv & p & _ & _ & _ & _ & Hm & _).
  destruct (mul_parts n b _ Hn Hb Ha') as (pv' & p' & _ & _ & _ & _ & Hm' & _).
  rewrite rmul_as_mul by (rewrite (wf_num_qubits _ _ Ha), (wf_num_qubits _ _ Hb); done).
  rewrite Hm, Hm', res_bind_Ok. eexists _, _, _.
  split; [done|]. split; [done|]. split; [done|]. simpl.
  destruct (wf_shift _ _ Ha) as [Hlen Hbits].
  rewrite (wf_num_qubits _ _ Ha).
  rewrite _z2matvecmul_product, zip_with_xor
    by (try apply Hb; by apply matrix_vector_z2_vector; lia).
  split; [done|]. split; [done|]. split; [done|]. split; [done|].
  intros Heq. unfold set_shift in Hm'. rewrite <- Heq in Hm'.
  assert ({| num_qubits := num_qubits a; poly := poly a; linear := linear a;
             shift := shift a |} = a) as Heta by by destruct a.
  rewrite Heta, Hm in Hm'. injection Hm' as <-. done.
Qed.
End RightMultiplication.

(** ** The next CNOT dictionary *)

Section NextDictionary.
Import CNOTDihedral.

Lemma res_fold_app {A B} (body : B → A → res B) l1 l2 acc :
  res_fold body (l1 ++ l2) acc = (res_fold body l1 acc ≫= res_fold body l2).
Proof.
  revert acc. induction l1 as [|x l1 IH]; intros acc; [done|].
  rewrite <- app_comm_cons, !res_fold_cons.
  destruct (body acc x) as [b|]; [|done]. rewrite !res_bind_Ok. apply IH.
Qed.

(** Two nested loops are one loop over the pairs. *)
Lemma res_fold_flatten {A G B} (f : A → B → G → res B) (l : list A) (gs : list G) acc :
  res_fold (λ b x, res_fold (f x) gs b) l acc
  = res_fold (λ b xg, f xg.1 b xg.2) (x ← l; g ← gs; [(x, g)]) acc.
Proof.
  revert acc. induction l as [|x l IH]; intros acc; [done|].
  rewrite res_fold_cons, bind_cons, res_fold_app.
  assert (∀ b, res_fold (f x) gs b
               = res_fold (λ b xg, f xg.1 b xg.2) (g ← gs; [(x, g)]) b) as ->.
  { clear IH. induction gs as [|g gs IHg]; intros b; [done|].
    rewrite bind_cons. simpl. destruct (f x b g) as [b'|]; [|done].
    rewrite !res_bind_Ok. apply IHg. }
  destruct (res_fold _ (gs ≫= _) acc) as [b|]; [|done].
  rewrite !res_bind_Ok. apply IH.
Qed.

(** A loop invariant that knows the passes that are over. *)
Lemma res_fold_prefix {A B} (P : list A → B → Prop) (body : B → A → res B) l acc r :
  (∀ pre x b b', P pre b → body b x = Ok b' → P (pre ++ [x]) b') →
  P [] acc → res_fold body l acc = Ok r → P l r.
Proof.
  intros Hbody.
  assert (∀ l0 pre acc0, P pre acc0 → res_fold body l0 acc0 = Ok r → P (pre ++ l0) r) as H.
  { induction l0 as [|x l0 IH]; intros pre acc0 HP.
    - simpl. intros [= <-]. by rewrite app_nil_r.
    - rewrite res_fold_cons. destruct (body acc0 x) as [b'|] eqn:Hx; [|done].
      rewrite res_bind_Ok. intros Hr.
      rewrite cons_middle, app_assoc. apply (IH _ b'); [|done]. by apply (Hbody _ _ acc0). }
  intros HP Hr. by apply (H l [] acc).
Qed.

Lemma elem_of_next_gates n i j tpower :
  (i, j, tpower) ∈ next_gates n ↔ 0 ≤ i < n ∧ 0 ≤ j < n ∧ i ≠ j ∧ 0 ≤ tpower < 4.
Proof.
  unfold next_gates. rewrite list_elem_of_bind. split.
  - intros (i' & Hin & Hi'). apply elem_of_py_range_iff in Hi'.
    apply list_elem_of_bind in Hin as (j' & Hin & Hj'). apply elem_of_py_range_iff in Hj'.
    case_bool_decide; [|by apply elem_of_nil in Hin].
    apply list_elem_of_bind in Hin as (t' & Hin & Ht'). apply elem_of_py_range_iff in Ht'.
    apply list_elem_of_singleton in Hin. simplify_eq. done.
  - intros (Hi & Hj & Hij & Ht). exists i. split; [|by apply elem_of_py_range_iff].
    apply list_elem_of_bind. exists j. split; [|by apply elem_of_py_range_iff].
    rewrite bool_decide_eq_true_2 by done.
    apply list_elem_of_bind. exists tpower. split; [|by apply elem_of_py_range_iff].
    by apply list_elem_of_singleton.
Qed.

Lemma length_bind_const {A B} (f : A → list B) (l : list A) c :
  (∀ x, x ∈ l → length (f x) = c) → length (l ≫= f) = (length l * c)%nat.
Proof.
  induction l as [|x l IH]; intros Hf; [done|].
  rewrite bind_cons, length_app, Hf, IH by (try left; intros; apply Hf; by right).
  simpl. lia.
Qed.

Lemma length_bind_except {B} (g : Z → list B) (l : list Z) i c :
  NoDup l → i ∈ l → (∀ j, length (g j) = c) →
  length (l ≫= λ j, if bool_decide (i ≠ j) then g j else []) = ((length l - 1) * c)%nat.
Proof.
  intros Hnd Hi Hg. induction Hnd as [|x l Hx Hnd IH]; [by apply elem_of_nil in Hi|].
  rewrite bind_cons, length_app. case_bool_decide as Hix.
  - apply elem_of_cons in Hi as [->|Hi]; [done|]. rewrite Hg, IH by done.
    destruct l; [by apply elem_of_nil in Hi|]. simpl. lia.
  - assert (i = x) as -> by (destruct (decide (i = x)); [done|by destruct Hix]).
    rewrite (length_bind_const _ l c).
    + simpl. lia.
    + intros j Hj. rewrite bool_decide_eq_true_2; [apply Hg|]. by intros <-.
Qed.

Lemma length_next_gates n :
  0 ≤ n → Z.of_nat (length (next_gates n)) = 4 * (n ^ 2 - n).
Proof.
  intros Hn. unfold next_gates.
  destruct (decide (n = 0)) as [->|Hne]; [done|].
  rewrite (length_bind_const _ _ ((Z.to_nat n - 1) * 4)%nat).
  - rewrite length_py_range. nia.
  - intros i Hi. rewrite <- (length_py_range n).
    apply length_bind_except; [apply NoDup_seqZ|done|].
    intros j. by rewrite (length_bind_const _ _ 1%nat).
Qed.

Lemma prior_has_key (dicts : list (dict (t * list gate_tuple))) k :
  existsb (dict_has k) dicts = true ↔ ∃ d, d ∈ dicts ∧ k ∈ d.*1.
Proof.
  rewrite existsb_exists. split.
  - intros (d & Hd & Hk). exists d. split; [by apply list_elem_of_In|].
    by apply bool_decide_eq_true in Hk.
  - intros (d & Hd & Hk). exists d. split; [by apply list_elem_of_In|].
    by apply bool_decide_eq_true.
Qed.

(** One pass of the innermost loop keeps the invariant. *)
Lemma make_dict_next_step_invariant dicts passes pass obj obj' :
  next_invariant dicts passes obj →
  make_dict_next_step dicts pass.1 obj pass.2 = Ok obj' →
  next_invariant dicts (passes ++ [pass]) obj'.
Proof.
  intros (Hnd & Hlen & Hitems & Hall). unfold make_dict_next_step.
  destruct (next_entry pass.1 pass.2) as [[new_elem new_circ]|] eqn:Hnew; [|done].
  rewrite res_bind_Ok.
  assert (∀ k new, (k, new) ∈ obj →
            k = key new.1 ∧ (∀ d, d ∈ dicts → k ∉ d.*1) ∧
            ∃ pass0, pass0 ∈ passes ++ [pass] ∧ next_entry pass0.1 pass0.2 = Ok new)
    as Hitems'.
  { intros k new Hin. destruct (Hitems k new Hin) as (Hk & Hd & pass0 & Hp & Hn).
    split; [done|]. split; [done|]. exists pass0. split; [|done].
    apply elem_of_app. by left. }
  destruct (existsb (dict_has (key new_elem)) dicts) eqn:Hprior; simpl.
  { intros [= <-]. apply prior_has_key in Hprior.
    split; [done|]. split; [rewrite length_app; simpl; lia|]. split; [done|].
    intros pass0 new [Hp|Hp%list_elem_of_singleton]%elem_of_app Hn; [by apply (Hall pass0)|].
    subst pass0. left. rewrite Hnew in Hn. by injection Hn as <-. }
  assert (∀ d, d ∈ dicts → key new_elem ∉ d.*1) as Hfresh.
  { intros d Hd Hk. assert (existsb (dict_has (key new_elem)) dicts = true) as Ht.
    { apply prior_has_key. by exists d. }
    congruence. }
  unfold dict_has at 1. case_bool_decide as Hobj; simpl; intros [= <-].
  { split; [done|]. split; [rewrite length_app; simpl; lia|]. split; [done|].
    intros pass0 new [Hp|Hp%list_elem_of_singleton]%elem_of_app Hn; [by apply (Hall pass0)|].
    subst pass0. right. rewrite Hnew in Hn. by injection Hn as <-. }
  split.
  { rewrite fmap_app. apply NoDup_app. split; [done|]. split; [|apply NoDup_singleton].
    intros k Hk Hk'%list_elem_of_singleton. simpl in Hk'. by subst k. }
  split; [rewrite !length_app; simpl; lia|]. split.
  - intros k new [Hin|Hin%list_elem_of_singleton]%elem_of_app; [by apply Hitems'|].
    injection Hin as -> ->. split; [done|]. split; [done|].
    exists pass. split; [|done]. apply elem_of_app. right. by apply list_elem_of_singleton.
  - intros pass0 new [Hp|Hp%list_elem_of_singleton]%elem_of_app Hn.
    + destruct (Hall pass0 new Hp Hn) as [Hd|Hk]; [by left|].
      right. rewrite fmap_app. apply elem_of_app. by left.
    + subst pass0. right. rewrite fmap_app. apply elem_of_app. right.
      rewrite Hnew in Hn. injection Hn as <-. by apply list_elem_of_singleton.
Qed.

(** The nested loops of [make_dict_next] as one loop over the passes. *)
Lemma make_dict_next_loop n (dicts : list (dict (t * list gate_tuple))) last obj :
  res_fold
    (λ obj entry, res_fold (make_dict_next_step dicts entry) (next_gates n) obj)
    (dict_values last) [] = Ok obj →
  next_invariant dicts (entry ← dict_values last; g ← next_gates n; [(entry, g)]) obj.
Proof.
  rewrite (res_fold_flatten (make_dict_next_step dicts)).
  apply (res_fold_prefix (next_invariant dicts)).
  - intros pre pass b b'. apply make_dict_next_step_invariant.
  - split; [apply NoDup_nil_2|]. split; [done|].
    split; [by intros k new ?%elem_of_nil|by intros pass new ?%elem_of_nil].
Qed.

(** When [make_dict_next] returns: the keys of the new dictionary are
    distinct and in none of the prior dictionaries; every item is stored
    under the key of its element and was built from an entry of the last
    prior dictionary by [cnot(i, j)], followed by [phase(tpower, j)]
    when [tpower > 0], with the gates appended to the circuit of the
    entry; every element built in this way has its key in a prior
    dictionary or in the new one; and there are no more than
    4 (n^2 - n) |G(m)| items. *)
Theorem make_dict_next_entries (n : Z)
    (dicts_prior : list (dict (t * list gate_tuple)))
    (obj : dict (t * list gate_tuple)) :
  make_dict_next n dicts_prior = Ok obj →
  ∃ last,
    getitem dicts_prior (-1) = Ok last ∧
    NoDup obj.*1 ∧
    Z.of_nat (length obj) ≤ 4 * (n ^ 2 - n) * Z.of_nat (length last) ∧
    (∀ k new, (k, new) ∈ obj →
       k = key new.1 ∧ (∀ d, d ∈ dicts_prior → k ∉ d.*1) ∧
       ∃ entry i j tpower,
         entry ∈ dict_values last ∧
         0 ≤ i < n ∧ 0 ≤ j < n ∧ i ≠ j ∧ 0 ≤ tpower < 4 ∧
         next_entry entry (i, j, tpower) = Ok new) ∧
    (∀ entry i j tpower new,
       entry ∈ dict_values last →
       0 ≤ i < n → 0 ≤ j < n → i ≠ j → 0 ≤ tpower < 4 →
       next_entry entry (i, j, tpower) = Ok new →
       (∃ d, d ∈ dicts_prior ∧ key new.1 ∈ d.*1) ∨ key new.1 ∈ obj.*1).
Proof.
  unfold make_dict_next, assert. case_bool_decide as Hn; [|done].
  rewrite res_bind_Ok.
  destruct (getitem dicts_prior (-1)) as [last|]; [|done]. rewrite res_bind_Ok.
  intros (Hnd & Hlen & Hitems & Hall)%make_dict_next_loop.
  exists last. split; [done|]. split; [done|]. split.
  { rewrite (length_bind_const _ _ (length (next_gates n))) in Hlen.
    - pose proof (length_next_gates n ltac:(lia)) as Hg.
      unfold dict_values in Hlen. rewrite length_fmap in Hlen. nia.
    - intros entry _. by rewrite (length_bind_const _ _ 1%nat), Nat.mul_1_r. }
  split.
  - intros k new Hin. destruct (Hitems k new Hin) as (Hk & Hd & pass & Hp & Hnew).
    split; [done|]. split; [done|].
    apply list_elem_of_bind in Hp as (entry & Hp & Hentry).
    apply list_elem_of_bind in Hp as (g & Hp & Hg).
    apply list_elem_of_singleton in Hp. subst pass. simpl in Hnew.
    destruct g as [[i j] tpower]. apply elem_of_next_gates in Hg.
    exists entry, i, j, tpower. by destruct_and!.
  - intros entry i j tpower new Hentry Hi Hj Hij Ht Hnew.
    apply (Hall (entry, (i, j, tpower)) new); [|done].
    apply list_elem_of_bind. exists entry. split; [|done].
    apply list_elem_of_bind. exists (i, j, tpower).
    split; [by apply list_elem_of_singleton|]. by apply elem_of_next_gates.
Qed.

Lemma next_entry_ok n entry i j tpower :
  1 ≤ n ≤ 4 → wf_elem n entry.1 → 0 ≤ i < n → 0 ≤ j < n → i ≠ j →
  ∃ new, next_entry entry (i, j, tpower) = Ok new ∧ wf_elem n new.1.
Proof.
  intros Hn Hwf Hi Hj Hij. destruct entry as [elem circ]. simpl in Hwf.
  unfold next_entry, run_on.
  destruct (cnot i j elem) as [r e1] eqn:Hcnot.
  pose proof Hcnot as Hok. rewrite cnot_ok in Hok by (rewrite ?(wf_num_qubits _ _ Hwf); lia).
  injection Hok as <- _.
  destruct (cnot_state n i j elem e1 Hwf Hcnot) as (_ & _ & _ & _ & Hwf1).
  rewrite res_bind_Ok. cbv zeta. case_bool_decide; [|by eexists].
  destruct (phase_coefficients n e1 tpower j ltac:(lia) Hwf1 Hj) as (p' & -> & Hwf_p' & _).
  rewrite res_bind_Ok. eexists. split; [done|]. simpl.
  destruct Hwf1 as [Hq Hpoly Hlin Hsh]. by split.
Qed.

Lemma next_entry_generated n entry g new :
  generated n entry.1 → next_entry entry g = Ok new → generated n new.1.
Proof.
  intros Hgen. destruct entry as [elem circ], g as [[i j] tpower]. simpl in Hgen.
  unfold next_entry, run_on.
  destruct (cnot i j elem) as [[[]|] e1] eqn:Hcnot; [|done].
  rewrite res_bind_Ok. cbv zeta.
  pose proof (generated_cnot n elem i j e1 Hgen Hcnot) as Hgen1.
  case_bool_decide; [|by intros [= <-]].
  destruct (phase tpower j e1) as [[[]|] e2] eqn:Hphase; [|done].
  rewrite res_bind_Ok. intros [= <-]. simpl. by apply (generated_phase n e1 tpower j).
Qed.

(** [make_dict_next] checks the number of qubits first and then takes
    the last prior dictionary: it raises an assertion error below one
    qubit, and [IndexError] for an empty list of dictionaries.  On at
    most four qubits it returns whenever the elements of the last prior
    dictionary are well formed, and the elements of the new dictionary
    are then well formed, too, and built by the generators when those of
    the last prior dictionary are. *)
Theorem make_dict_next_returns (n : Z) (dicts_prior : list (dict (t * list gate_tuple)))
    (last : dict (t * list gate_tuple)) :
  1 ≤ n ≤ 4 →
  getitem dicts_prior (-1) = Ok last →
  Forall (λ entry, wf_elem n entry.1) (dict_values last) →
  (∀ m ds, m < 1 →
     make_dict_next m ds = Raise (AssertionError "num_qubits too small!")) ∧
  make_dict_next n [] = Raise IndexError ∧
  ∃ obj, make_dict_next n dicts_prior = Ok obj ∧
         Forall (λ item, wf_elem n item.2.1) obj ∧
         (Forall (λ entry, generated n entry.1) (dict_values last) →
          Forall (λ item, generated n item.2.1) obj).
Proof.
  intros Hn Hlast Hwf. split_and!.
  - intros m ds Hm. unfold make_dict_next, assert.
    by rewrite bool_decide_eq_false_2 by lia.
  - unfold make_dict_next, assert. by rewrite bool_decide_eq_true_2 by lia.
  - unfold make_dict_next, assert.
    rewrite bool_decide_eq_true_2 by lia. rewrite res_bind_Ok, Hlast, res_bind_Ok.
    destruct (res_fold_ok (λ obj, Forall (λ item, wf_elem n item.2.1) obj)
                (λ obj entry,
                   res_fold (make_dict_next_step dicts_prior entry) (next_gates n) obj)
                (dict_values last) []) as (obj & Hobj & Hwf_obj); [|apply Forall_nil_2|].
    { intros entry obj0 Hentry Hobj0.
      rewrite Forall_forall in Hwf. specialize (Hwf entry Hentry).
      apply (res_fold_ok (λ obj, Forall (λ item, wf_elem n item.2.1) obj)); [|done].
      intros [[i j] tpower] obj1 (Hi & Hj & Hij & _)%elem_of_next_gates Hobj1.
      destruct (next_entry_ok n entry i j tpower Hn Hwf Hi Hj Hij)
        as ([ne nc] & Hnew & Hwf').
      unfold make_dict_next_step. rewrite Hnew, res_bind_Ok.
      destruct (negb _ && negb _); eexists; (split; [done|]); [|done].
      apply Forall_app. split; [done|]. by apply Forall_singleton. }
    exists obj. split; [done|]. split; [done|]. intros Hgen.
    apply make_dict_next_loop in Hobj as (_ & _ & Hitems & _).
    apply Forall_forall. intros [k new] Hin.
    destruct (Hitems k new Hin) as (_ & _ & pass & Hp & Hnew).
    apply list_elem_of_bind in Hp as (entry & Hp & Hentry).
    apply list_elem_of_bind in Hp as (g & Hp & Hg).
    apply list_elem_of_singleton in Hp. subst pass. simpl in *.
    rewrite Forall_forall in Hgen.
    apply (next_entry_generated n entry g); [by apply Hgen|done].
Qed.
End NextDictionary.

(** ** The gate lists of the zero-CNOT dictionary *)

Section ZeroCnotCircuits.
Import CNOTDihedral.

(** The gate list after one pass of the inner loop of [make_dict_0]. *)
Lemma make_dict_0_step_circuit n i m elem circ st :
  0 ≤ i < 2 ^ 53 → 0 ≤ m →
  make_dict_0_step (elem, circ, i `div` 16 ^ m) m = Ok st →
  st.1.2 = circ ++ zero_cnot_gates i m ∧ (generated n elem → generated n st.1.1).
Proof.
  intros Hi Hm. unfold make_dict_0_step.
  pose proof (quotient_small i m Hi Hm) as Hnum.
  rewrite !(truediv_multiple_small (i `div` 16 ^ m)) by (done || lia).
  rewrite res_bind_Ok. cbv zeta.
  fold (tpower_of i m). fold (xpower_of i m). unfold zero_cnot_gates, run_on.
  destruct (bool_decide (0 < tpower_of i m)), (bool_decide (xpower_of i m = 1)).
  - destruct (phase (tpower_of i m) m elem) as [[[]|] e1] eqn:Hphase; [|done].
    rewrite !res_bind_Ok.
    destruct (flip m e1) as [[[]|] e2] eqn:Hflip; [|done].
    rewrite !res_bind_Ok. intros [= <-]. simpl. split; [by rewrite <- app_assoc|].
    intros Hgen. apply (generated_flip n e1 m); [|done].
    by apply (generated_phase n elem (tpower_of i m) m).
  - destruct (phase (tpower_of i m) m elem) as [[[]|] e1] eqn:Hphase; [|done].
    rewrite !res_bind_Ok. intros [= <-]. simpl. split; [done|].
    intros Hgen. by apply (generated_phase n elem (tpower_of i m) m).
  - rewrite !res_bind_Ok.
    destruct (flip m elem) as [[[]|] e2] eqn:Hflip; [|done].
    rewrite !res_bind_Ok. intros [= <-]. simpl. split; [done|].
    intros Hgen. by apply (generated_flip n elem m).
  - rewrite !res_bind_Ok. intros [= <-]. simpl. by rewrite app_nil_r.
Qed.

Lemma make_dict_0_steps_circuit n i (len : nat) m circ :
  0 ≤ i < 2 ^ 53 → 0 ≤ m → m + Z.of_nat len ≤ n →
  generated n (zero_cnot_element n i m) →
  res_fold make_dict_0_step (seqZ m (Z.of_nat len))
    (zero_cnot_element n i m, circ, i `div` 16 ^ m)
  = Ok (zero_cnot_element n i (m + Z.of_nat len),
        circ ++ (seqZ m (Z.of_nat len) ≫= zero_cnot_gates i),
        i `div` 16 ^ (m + Z.of_nat len)) ∧
  generated n (zero_cnot_element n i (m + Z.of_nat len)).
Proof.
  intros Hi. revert m circ. induction len as [|len IH]; intros m circ Hm Hlen Hgen.
  - rewrite seqZ_nil by lia. simpl. by rewrite Z.add_0_r, app_nil_r.
  - rewrite seqZ_cons, res_fold_cons, bind_cons by lia.
    destruct (make_dict_0_step_spec n i m circ) as [c1 Hstep]; [lia..|].
    destruct (make_dict_0_step_circuit n i m _ circ _ Hi Hm Hstep) as [Hc1 Hgen1].
    simpl in Hc1, Hgen1. subst c1. rewrite Hstep, res_bind_Ok.
    replace (Z.pred (Z.of_nat (S len))) with (Z.of_nat len) by lia.
    replace (Z.succ m) with (m + 1) by lia.
    destruct (IH (m + 1) (circ ++ zero_cnot_gates i m)) as [Hfold Hgen2];
      [lia|lia|by apply Hgen1|].
    replace (m + 1 + Z.of_nat len) with (m + Z.of_nat (S len)) in * by lia.
    by rewrite Hfold, <- app_assoc.
Qed.

(** The entry of [i]: its element and its gate list. *)
Lemma make_dict_0_entry_circuit n i :
  1 ≤ n → 0 ≤ i < 2 ^ 53 →
  make_dict_0_entry n i = Ok (zero_cnot_element n i n, zero_cnot_circuit n i) ∧
  generated n (zero_cnot_element n i n).
Proof.
  intros Hn Hi. unfold make_dict_0_entry.
  assert (__init__ n = Ok (zero_cnot_element n i 0)) as Hinit.
  { rewrite init_diagonal by done. do 2 f_equal.
    unfold zero_cnot_element. rewrite <- !tabulate_zero.
    f_equal; apply tabulate_ext; intros q Hq; by rewrite bool_decide_eq_false_2 by lia. }
  destruct (make_dict_0_steps_circuit n i (Z.to_nat n) 0 []) as [Hfold Hgen];
    [lia..|by apply generated_identity|].
  rewrite Z2Nat.id, Z.pow_0_r, Z.div_1_r in Hfold by lia.
  rewrite Z2Nat.id in Hgen by lia.
  unfold py_range. by rewrite Hinit, res_bind_Ok, Hfold, res_bind_Ok.
Qed.

Lemma zero_cnot_gates_shape n i q :
  0 ≤ q < n →
  Forall (λ g, match g with
               | Tu1 k j => 1 ≤ k ≤ 7 ∧ j = q
               | Tx j => j = q
               | Tcx _ _ => False
               end) (zero_cnot_gates i q) ∧
  (length (zero_cnot_gates i q) ≤ 2)%nat.
Proof.
  intros Hq. unfold zero_cnot_gates.
  assert (0 ≤ tpower_of i q < 8) by (by apply Z.mod_pos_bound).
  repeat case_bool_decide; simpl; (split; [forall_concrete ltac:(lia || done)|lia]).
Qed.

(** The gate lists of the zero-CNOT dictionary on at most 13 qubits
    (where the float quotients of the loop are exact): the entry of every
    number [i] below 16^n holds the element of [i] with the gate list
    that names, qubit by qubit in increasing order, the [u1] gate of the
    phase power of the qubit when it is not 0 and then the [x] gate when
    the flip bit is 1; every entry of the dictionary is one of these, its
    element is built by the generators, and its gate list has at most
    2 n gates, none of them a [cx]. *)
Theorem make_dict_0_gate_lists (n : Z) :
  1 ≤ n ≤ 13 →
  ∃ obj,
    make_dict_0 n = Ok obj ∧
    (∀ i, 0 ≤ i < 16 ^ n →
       obj !! key (zero_cnot_element n i n)
       = Some (zero_cnot_element n i n, zero_cnot_circuit n i)) ∧
    (∀ k elem circ, obj !! k = Some (elem, circ) →
       generated n elem ∧
       (∃ i, 0 ≤ i < 16 ^ n ∧ elem = zero_cnot_element n i n ∧
             circ = zero_cnot_circuit n i) ∧
       Z.of_nat (length circ) ≤ 2 * n ∧
       Forall (λ g, match g with
                    | Tu1 tpower j => 1 ≤ tpower ≤ 7 ∧ 0 ≤ j < n
                    | Tx j => 0 ≤ j < n
                    | Tcx _ _ => False
                    end) circ).
Proof.
  intros [Hn Hn13]. pose proof (pow_16_small n ltac:(lia)) as Hpow.
  destruct (make_dict_0_fold n (py_range (16 ^ n)) ∅)
    as (obj & Hfold & _ & Hin & _ & _); [lia|apply NoDup_seqZ| | |].
  { intros i Hi%elem_of_seqZ. lia. }
  { intros i _. apply lookup_empty. }
  assert (∀ k v, obj !! k = Some v →
            ∃ i, i ∈ py_range (16 ^ n) ∧ make_dict_0_entry n i = Ok v) as Hvalues.
  { refine (res_fold_prefix
              (λ pre (obj : gmap string (t * list gate_tuple)),
                 ∀ k v, obj !! k = Some v → ∃ i, i ∈ pre ∧ make_dict_0_entry n i = Ok v)
              _ _ _ _ _ _ Hfold).
    - intros pre i b b' Hb Hstep k v Hk.
      destruct (make_dict_0_entry n i) as [[elem circ]|] eqn:Hentry; [|done].
      rewrite res_bind_Ok in Hstep. injection Hstep as <-.
      apply lookup_insert_Some in Hk as [[<- <-]|[_ Hk]].
      + exists i. split; [|done]. apply elem_of_app. right. by apply list_elem_of_singleton.
      + destruct (Hb k v Hk) as (i' & Hi' & Hv). exists i'. split; [|done].
        apply elem_of_app. by left.
    - intros k v Hk. by rewrite lookup_empty in Hk. }
  assert (∀ k elem circ, obj !! k = Some (elem, circ) →
            ∃ i, 0 ≤ i < 16 ^ n ∧ elem = zero_cnot_element n i n ∧
                 circ = zero_cnot_circuit n i) as Hshape.
  { intros k elem circ Hk. destruct (Hvalues _ _ Hk) as (i & Hi%elem_of_seqZ & Hentry).
    destruct (make_dict_0_entry_circuit n i Hn ltac:(lia)) as [Hspec _].
    rewrite Hspec in Hentry. injection Hentry as <- <-. exists i. split; [lia|done]. }
  exists obj. split.
  { unfold make_dict_0, assert. rewrite bool_decide_eq_true_2 by done.
    by rewrite res_bind_Ok. }
  split.
  - intros i Hi. destruct (Hin i) as [circ Hcirc]; [apply elem_of_seqZ; lia|].
    destruct (Hshape _ _ _ Hcirc) as (i' & Hi' & Hel & ->).
    apply zero_cnot_element_inj in Hel; [|done..]. by subst i'.
  - intros k elem circ Hk. destruct (Hshape _ _ _ Hk) as (i & Hi & -> & ->).
    split; [apply make_dict_0_entry_circuit; lia|].
    split; [by exists i|].
    unfold zero_cnot_circuit. split.
    + assert (∀ l : list Z, (∀ q, q ∈ l → 0 ≤ q < n) →
                (length (l ≫= λ q, zero_cnot_gates i q) ≤ 2 * length l)%nat) as Hlen.
      { induction l as [|q l IH]; intros Hl; [done|].
        rewrite bind_cons, length_app. simpl.
        destruct (zero_cnot_gates_shape n i q) as [_ Hq]; [apply Hl; by left|].
        specialize (IH ltac:(intros; apply Hl; by right)). lia. }
      specialize (Hlen (py_range n) ltac:(by intros q ?%elem_of_py_range_iff)).
      rewrite length_py_range in Hlen. lia.
    + apply Forall_forall. intros g (q & Hg & Hq%elem_of_py_range_iff)%list_elem_of_bind.
      destruct (zero_cnot_gates_shape n i q Hq) as [Hgates _].
      rewrite Forall_forall in Hgates. specialize (Hgates g Hg).
      destruct g; [destruct Hgates as [? ->]|subst|]; done.
Qed.
End ZeroCnotCircuits.

(** ** The synthesis outside its classes *)

Section SynthesisDomain.
Import CNOTDihedral.

Lemma when_false {S} (c : M S unit) (s : S) : when false c s = (Ok (), s).
Proof. done. Qed.

(** Outside the classes it knows the synthesis does one of three
    things.  It fails an assertion for an element on three or more
    qubits, for an element whose constant term is not 0, and for a
    one-qubit element whose linear part is not [[1]].  For a two-qubit
    element with constant term 0 it returns the empty circuit, without
    any error, when the linear part is none of the six invertible
    matrices, and also when the linear part is the identity and the
    quadratic coefficient is odd. *)
Theorem synthesis_outside_the_classes (e : t) :
  (3 ≤ num_qubits e →
   decompose_CNOTDihedral e
   = Raise (AssertionError
              "cannot decompose a CNOT-Dihedral element with more than 2 qubits")) ∧
  (num_qubits e < 3 → SpecialPolynomial.weight_0 (poly e) ≠ 0 →
   decompose_CNOTDihedral e = Raise (AssertionError "")) ∧
  (num_qubits e = 1 → linear e ≠ [[1]] →
   decompose_CNOTDihedral e = Raise (AssertionError "")) ∧
  (num_qubits e = 2 → SpecialPolynomial.weight_0 (poly e) = 0 →
   linear e ∉ invertible_2 →
   decompose_CNOTDihedral e = Ok (mk_circuit "circuit" 2 [])) ∧
  (num_qubits e = 2 → SpecialPolynomial.weight_0 (poly e) = 0 →
   linear e = [[1; 0]; [0; 1]] →
   ∀ k0 k1 c, shift e = [k0; k1] → SpecialPolynomial.weight_2 (poly e) = [c] →
     c `mod` 2 = 1 →
     decompose_CNOTDihedral e = Ok (mk_circuit "circuit" 2 [])).
Proof.
  unfold decompose_CNOTDihedral, assert. split_and!.
  - intros Hq. rewrite (bool_decide_eq_false_2 (num_qubits e < 3)) by lia. reflexivity.
  - intros Hq Hw. rewrite (bool_decide_eq_true_2 (num_qubits e < 3)) by lia. rewrite res_bind_Ok.
    unfold run_on, decompose_1, decompose_2, lift, assert. st_unfold.
    rewrite (bool_decide_eq_false_2 (SpecialPolynomial.weight_0 (poly e) = 0)) by done.
    case_bool_decide; reflexivity.
  - intros Hq Hlin. rewrite (bool_decide_eq_true_2 (num_qubits e < 3)) by lia. rewrite res_bind_Ok.
    rewrite (bool_decide_eq_true_2 (num_qubits e = 1)) by done.
    unfold run_on, decompose_1, lift, assert. st_unfold.
    rewrite (bool_decide_eq_false_2 (linear e = [[1]])) by done.
    case_bool_decide; reflexivity.
  - intros Hq Hw Hlin. rewrite (bool_decide_eq_true_2 (num_qubits e < 3)) by lia. rewrite res_bind_Ok.
    rewrite (bool_decide_eq_false_2 (num_qubits e = 1)) by lia.
    unfold run_on, decompose_2, lift, assert. st_unfold.
    rewrite (bool_decide_eq_true_2 (SpecialPolynomial.weight_0 (poly e) = 0)) by done.
    rewrite !(bool_decide_eq_false_2 (linear e = _))
      by (intros Heq; apply Hlin; rewrite Heq; unfold invertible_2; set_solver).
    rewrite Hq. reflexivity.
  - intros Hq Hw Hlin k0 k1 c Hsh Hw2 Hc.
    rewrite (bool_decide_eq_true_2 (num_qubits e < 3)) by lia. rewrite res_bind_Ok.
    rewrite (bool_decide_eq_false_2 (num_qubits e = 1)) by lia.
    unfold run_on, decompose_2, lift, assert. st_unfold.
    rewrite (bool_decide_eq_true_2 (SpecialPolynomial.weight_0 (poly e) = 0)) by done.
    rewrite Hlin, Hsh, Hw2, Hq.
    rewrite !(bool_decide_eq_false_2 ([c] = _)) by (intros [= ->]; done).
    reflexivity.
Qed.
End SynthesisDomain.

(** ** Further instances *)

Section FurtherInstances.
Import CNOTDihedral.

Lemma synthesis_uses_the_gate_set_witness :
  (2 = 1 ∨ 2 = 2) ∧ generated 2 (element_2 1 0 0 [[1; 0]; [1; 1]] 0 0) ∧
  ∃ c, decompose_CNOTDihedral (element_2 1 0 0 [[1; 0]; [1; 1]] 0 0) = Ok c ∧
       circ_num_qubits c = 2 ∧
       Forall (λ g, synthesis_gate 2 g = true) (definition c) ∧
       (1 ≤ length (definition c) ≤ 11)%nat ∧
       (cx_count c ≤ 3)%nat ∧
       (cx_count c = 0%nat ↔
        linear (element_2 1 0 0 [[1; 0]; [1; 1]] 0 0) = z2_identity 2 ∧
        Forall (λ c, c = 0)
          (SpecialPolynomial.weight_2 (poly (element_2 1 0 0 [[1; 0]; [1; 1]] 0 0)))).
Proof.
  assert (generated 2 (element_2 1 0 0 [[1; 0]; [1; 1]] 0 0)) as Hgen.
  { apply (generated_phase 2 (element_2 0 0 0 [[1; 0]; [1; 1]] 0 0) 1 0);
      [|vm_compute; reflexivity].
    apply (generated_cnot 2 (element_2 0 0 0 [[1; 0]; [0; 1]] 0 0) 0 1);
      [|vm_compute; reflexivity].
    apply generated_identity. vm_compute. reflexivity. }
  split; [right; reflexivity|]. split; [exact Hgen|].
  exact (synthesis_uses_the_gate_set 2 _ (or_intror eq_refl) Hgen).
Defined.

Lemma append_circuit_stays_generated_witness :
  generated 2 (element_2 0 0 0 [[1; 0]; [0; 1]] 0 0) ∧
  append_circuit
    (mk_circuit "circuit" 2 [mk_instr "x" [] [0]; mk_instr "cx" [] [0; 1]])
    (Some [1; 0]) (element_2 0 0 0 [[1; 0]; [0; 1]] 0 0)
  = (Ok (), element_2 0 0 0 [[1; 1]; [0; 1]] 1 1) ∧
  generated 2 (element_2 0 0 0 [[1; 1]; [0; 1]] 1 1).
Proof.
  assert (generated 2 (element_2 0 0 0 [[1; 0]; [0; 1]] 0 0)) as Hgen.
  { apply generated_identity. vm_compute. reflexivity. }
  assert (append_circuit
            (mk_circuit "circuit" 2 [mk_instr "x" [] [0]; mk_instr "cx" [] [0; 1]])
            (Some [1; 0]) (element_2 0 0 0 [[1; 0]; [0; 1]] 0 0)
          = (Ok (), element_2 0 0 0 [[1; 1]; [0; 1]] 1 1)) as Happ
    by (vm_compute; reflexivity).
  split; [exact Hgen|]. split; [exact Happ|].
  exact (append_circuit_stays_generated 2 _ _ _ _ Hgen Happ).
Defined.

Lemma z2_products_are_matrix_products_witness :
  z2_matrix 2 [[1; 1]; [0; 1]] ∧ z2_matrix 2 [[0; 1]; [1; 1]] ∧
  z2_matrix 2 [[1; 0]; [1; 1]] ∧ z2_vector 2 [1; 0] ∧
  z2_matrix 2 (_z2matmul 2 [[1; 1]; [0; 1]] [[0; 1]; [1; 1]]) ∧
  z2_vector 2 (_z2matvecmul 2 [[1; 1]; [0; 1]] [1; 0]) ∧
  _z2matmul 2 (_z2matmul 2 [[1; 1]; [0; 1]] [[0; 1]; [1; 1]]) [[1; 0]; [1; 1]]
  = _z2matmul 2 [[1; 1]; [0; 1]] (_z2matmul 2 [[0; 1]; [1; 1]] [[1; 0]; [1; 1]]) ∧
  _z2matmul 2 (z2_identity 2) [[1; 1]; [0; 1]] = [[1; 1]; [0; 1]] ∧
  _z2matmul 2 [[1; 1]; [0; 1]] (z2_identity 2) = [[1; 1]; [0; 1]] ∧
  _z2matvecmul 2 (_z2matmul 2 [[1; 1]; [0; 1]] [[0; 1]; [1; 1]]) [1; 0]
  = _z2matvecmul 2 [[1; 1]; [0; 1]] (_z2matvecmul 2 [[0; 1]; [1; 1]] [1; 0]) ∧
  _z2matvecmul 2 (z2_identity 2) [1; 0] = [1; 0].
Proof.
  assert (z2_matrix 2 [[1; 1]; [0; 1]]) as Ha
    by (split; [done|]; forall_concrete ltac:(split; [done|]; forall_concrete lia)).
  assert (z2_matrix 2 [[0; 1]; [1; 1]]) as Hb
    by (split; [done|]; forall_concrete ltac:(split; [done|]; forall_concrete lia)).
  assert (z2_matrix 2 [[1; 0]; [1; 1]]) as Hc
    by (split; [done|]; forall_concrete ltac:(split; [done|]; forall_concrete lia)).
  assert (z2_vector 2 [1; 0]) as Hv by (split; [done|forall_concrete lia]).
  split; [exact Ha|]. split; [exact Hb|]. split; [exact Hc|]. split; [exact Hv|].
  exact (z2_products_are_matrix_products 2 _ _ _ _ Ha Hb Hc Hv).
Defined.

Lemma cnot_and_flip_are_left_multiplications_witness :
  2 ≤ 4 ∧ wf_elem 2 (element_2 1 2 4 [[1; 0]; [1; 1]] 0 1) ∧
  0 ≤ 0 < 2 ∧ 0 ≤ 1 < 2 ∧ 0 ≠ 1 ∧
  ∃ one c f e1 e2,
    __init__ 2 = Ok one ∧
    cnot 0 1 one = (Ok (), c) ∧ flip 0 one = (Ok (), f) ∧
    cnot 0 1 (element_2 1 2 4 [[1; 0]; [1; 1]] 0 1) = (Ok (), e1) ∧
    flip 0 (element_2 1 2 4 [[1; 0]; [1; 1]] 0 1) = (Ok (), e2) ∧
    __mul__ one (element_2 1 2 4 [[1; 0]; [1; 1]] 0 1)
      = Ok (element_2 1 2 4 [[1; 0]; [1; 1]] 0 1) ∧
    __mul__ c (element_2 1 2 4 [[1; 0]; [1; 1]] 0 1) = Ok e1 ∧
    __mul__ f (element_2 1 2 4 [[1; 0]; [1; 1]] 0 1) = Ok e2.
Proof.
  assert (wf_elem 2 (element_2 1 2 4 [[1; 0]; [1; 1]] 0 1)) as He by wf_concrete.
  assert (0 ≤ 0 < 2) as H0 by lia. assert (0 ≤ 1 < 2) as H1 by lia.
  assert (0 ≠ 1) as H01 by lia.
  split; [lia|]. split; [exact He|]. split; [exact H0|]. split; [exact H1|].
  split; [exact H01|].
  exact (cnot_and_flip_are_left_multiplications 2 _ 0 1 ltac:(lia) He H0 H1 H01).
Defined.

Lemma rmul_substitutes_with_the_shift_of_other_witness :
  2 ≤ 3 ∧ wf_elem 2 (element_2 1 2 4 [[1; 0]; [1; 1]] 0 1) ∧
  wf_elem 2 (element_2 3 0 2 [[1; 1]; [0; 1]] 1 1) ∧
  ∃ m m' r,
    __mul__ (element_2 3 0 2 [[1; 1]; [0; 1]] 1 1) (element_2 1 2 4 [[1; 0]; [1; 1]] 0 1)
      = Ok m ∧
    __mul__ (element_2 3 0 2 [[1; 1]; [0; 1]] 1 1)
      (set_shift (shift (element_2 3 0 2 [[1; 1]; [0; 1]] 1 1))
         (element_2 1 2 4 [[1; 0]; [1; 1]] 0 1)) = Ok m' ∧
    __rmul__ (element_2 1 2 4 [[1; 0]; [1; 1]] 0 1) (element_2 3 0 2 [[1; 1]; [0; 1]] 1 1)
      = Ok r ∧
    num_qubits r = num_qubits m ∧ linear r = linear m ∧ shift r = shift m ∧
    poly r = poly m' ∧
    (shift (element_2 1 2 4 [[1; 0]; [1; 1]] 0 1)
     = shift (element_2 3 0 2 [[1; 1]; [0; 1]] 1 1) → r = m).
Proof.
  assert (wf_elem 2 (element_2 1 2 4 [[1; 0]; [1; 1]] 0 1)) as Ha by wf_concrete.
  assert (wf_elem 2 (element_2 3 0 2 [[1; 1]; [0; 1]] 1 1)) as Hb by wf_concrete.
  split; [lia|]. split; [exact Ha|]. split; [exact Hb|].
  exact (rmul_substitutes_with_the_shift_of_other 2 _ _ ltac:(lia) Ha Hb).
Defined.

Lemma make_dict_next_entries_witness :
  ∃ obj,
    make_dict_next 2 identity_dictionary = Ok obj ∧
    ∃ last,
      getitem identity_dictionary (-1) = Ok last ∧
      NoDup obj.*1 ∧
      Z.of_nat (length obj) ≤ 4 * (2 ^ 2 - 2) * Z.of_nat (length last) ∧
      (∀ k new, (k, new) ∈ obj →
         k = key new.1 ∧ (∀ d, d ∈ identity_dictionary → k ∉ d.*1) ∧
         ∃ entry i j tpower,
           entry ∈ dict_values last ∧
           0 ≤ i < 2 ∧ 0 ≤ j < 2 ∧ i ≠ j ∧ 0 ≤ tpower < 4 ∧
           next_entry entry (i, j, tpower) = Ok new) ∧
      (∀ entry i j tpower new,
         entry ∈ dict_values last →
         0 ≤ i < 2 → 0 ≤ j < 2 → i ≠ j → 0 ≤ tpower < 4 →
         next_entry entry (i, j, tpower) = Ok new →
         (∃ d, d ∈ identity_dictionary ∧ key new.1 ∈ d.*1) ∨ key new.1 ∈ obj.*1).
Proof.
  destruct (make_dict_next 2 identity_dictionary) as [obj|] eqn:Hobj;
    [|vm_compute in Hobj; discriminate].
  exists obj. split; [reflexivity|].
  exact (make_dict_next_entries 2 identity_dictionary obj Hobj).
Defined.

Lemma make_dict_next_returns_witness :
  1 ≤ 2 ≤ 4 ∧
  getitem identity_dictionary (-1)
  = Ok [(key (element_2 0 0 0 [[1; 0]; [0; 1]] 0 0),
         (element_2 0 0 0 [[1; 0]; [0; 1]] 0 0, []))] ∧
  Forall (λ entry, wf_elem 2 entry.1)
    (dict_values [(key (element_2 0 0 0 [[1; 0]; [0; 1]] 0 0),
                   (element_2 0 0 0 [[1; 0]; [0; 1]] 0 0, @nil gate_tuple))]) ∧
  (∀ m ds, m < 1 →
     make_dict_next m ds = Raise (AssertionError "num_qubits too small!")) ∧
  make_dict_next 2 [] = Raise IndexError ∧
  ∃ obj, make_dict_next 2 identity_dictionary = Ok obj ∧
         Forall (λ item, wf_elem 2 item.2.1) obj ∧
         (Forall (λ entry, generated 2 entry.1)
            (dict_values [(key (element_2 0 0 0 [[1; 0]; [0; 1]] 0 0),
                           (element_2 0 0 0 [[1; 0]; [0; 1]] 0 0, @nil gate_tuple))]) →
          Forall (λ item, generated 2 item.2.1) obj).
Proof.
  assert (1 ≤ 2 ≤ 4) as Hn by lia.
  assert (getitem identity_dictionary (-1)
          = Ok [(key (element_2 0 0 0 [[1; 0]; [0; 1]] 0 0),
                 (element_2 0 0 0 [[1; 0]; [0; 1]] 0 0, []))]) as Hlast by reflexivity.
  assert (Forall (λ entry, wf_elem 2 entry.1)
            (dict_values [(key (element_2 0 0 0 [[1; 0]; [0; 1]] 0 0),
                           (element_2 0 0 0 [[1; 0]; [0; 1]] 0 0, @nil gate_tuple))]))
    as Hwf by (forall_concrete wf_concrete).
  split; [exact Hn|]. split; [exact Hlast|]. split; [exact Hwf|].
  exact (make_dict_next_returns 2 identity_dictionary _ Hn Hlast Hwf).
Defined.

Lemma make_dict_0_gate_lists_witness :
  1 ≤ 1 ≤ 13 ∧
  ∃ obj,
    make_dict_0 1 = Ok obj ∧
    (∀ i, 0 ≤ i < 16 ^ 1 →
       obj !! key (zero_cnot_element 1 i 1)
       = Some (zero_cnot_element 1 i 1, zero_cnot_circuit 1 i)) ∧
    (∀ k elem circ, obj !! k = Some (elem, circ) →
       generated 1 elem ∧
       (∃ i, 0 ≤ i < 16 ^ 1 ∧ elem = zero_cnot_element 1 i 1 ∧
             circ = zero_cnot_circuit 1 i) ∧
       Z.of_nat (length circ) ≤ 2 * 1 ∧
       Forall (λ g, match g with
                    | Tu1 tpower j => 1 ≤ tpower ≤ 7 ∧ 0 ≤ j < 1
                    | Tx j => 0 ≤ j < 1
                    | Tcx _ _ => False
                    end) circ).
Proof.
  split; [lia|]. exact (make_dict_0_gate_lists 1 ltac:(lia)).
Defined.

(** A two-qubit element whose linear part is not invertible, and one
    with an odd quadratic coefficient: the synthesis returns the empty
    circuit for both. *)
Lemma synthesis_outside_the_classes_witness :
  decompose_CNOTDihedral (element_2 1 2 0 [[1; 1]; [1; 1]] 0 1)
  = Ok (mk_circuit "circuit" 2 []) ∧
  decompose_CNOTDihedral (element_2 1 2 3 [[1; 0]; [0; 1]] 0 1)
  = Ok (mk_circuit "circuit" 2 []).
Proof.
  split.
  - destruct (synthesis_outside_the_classes (element_2 1 2 0 [[1; 1]; [1; 1]] 0 1))
      as (_ & _ & _ & Hempty & _).
    apply Hempty; [reflexivity|reflexivity|].
    unfold invertible_2. intros Hin.
    repeat (apply elem_of_cons in Hin as [Hin|Hin]; [discriminate|]).
    by apply elem_of_nil in Hin.
  - destruct (synthesis_outside_the_classes (element_2 1 2 3 [[1; 0]; [0; 1]] 0 1))
      as (_ & _ & _ & _ & Hodd).
    by apply (Hodd eq_refl eq_refl eq_refl 0 1 3).
Defined.
End FurtherInstances.

(** ** Phases add up *)

Ltac list_of_length w H :=
  repeat (destruct w as [|? w]; simpl in H; try lia).

Ltac split_terms HF :=
  repeat match type of HF with
         | Forall _ (_ :: _) =>
             let H := fresh "Hterm" in
             apply Forall_cons in HF as [H HF]; vm_compute in H
         end.

Section PhaseLaws.
Import CNOTDihedral.

(** On at most four variables a polynomial is its coefficients. *)
Lemma wf_poly_ext n p q :
  n ≤ 4 → wf_poly n p → wf_poly n q →
  (∀ u, valid_term n u → coefficient p u = coefficient q u) → p = q.
Proof.
  intros Hn Hp Hq Hco.
  assert (Forall (λ u, coefficient p u = coefficient q u) (SpecialPolynomial.all_terms n))
    as HF.
  { apply Forall_forall. intros u Hu. by apply Hco, all_terms_valid. }
  clear Hco.
  destruct Hp as [Hpos Hvars Hnc2 Hnc3 _ Hlen1 Hlen2 Hlen3 _ _ _].
  destruct Hq as [_ Hvars' Hnc2' Hnc3' _ Hlen1' Hlen2' Hlen3' _ _ _].
  destruct p as [nv c2 c3 w0 w1 w2 w3], q as [nv' c2' c3' w0' w1' w2' w3'].
  simpl in *. subst nv c2 c3 nv' c2' c3'.
  assert (length w1 = Z.to_nat n) as L1 by lia.
  assert (length w2 = Z.to_nat (int_div (n * (n - 1)) 2)) as L2 by lia.
  assert (length w3 = Z.to_nat (int_div (n * (n - 1) * (n - 2)) 6)) as L3 by lia.
  assert (length w1' = Z.to_nat n) as L1' by lia.
  assert (length w2' = Z.to_nat (int_div (n * (n - 1)) 2)) as L2' by lia.
  assert (length w3' = Z.to_nat (int_div (n * (n - 1) * (n - 2)) 6)) as L3' by lia.
  clear Hlen1 Hlen2 Hlen3 Hlen1' Hlen2' Hlen3'.
  assert (n = 1 ∨ n = 2 ∨ n = 3 ∨ n = 4) as [->|[->|[->| ->]]] by lia.
  - change (Z.to_nat 1) with 1%nat in *.
    change (Z.to_nat (int_div (1 * (1 - 1)) 2)) with 0%nat in *.
    change (Z.to_nat (int_div (1 * (1 - 1) * (1 - 2)) 6)) with 0%nat in *.
    list_of_length w1 L1. list_of_length w2 L2. list_of_length w3 L3.
    list_of_length w1' L1'. list_of_length w2' L2'. list_of_length w3' L3'.
    concrete_in HF (SpecialPolynomial.all_terms 1). split_terms HF. congruence.
  - change (Z.to_nat 2) with 2%nat in *.
    change (Z.to_nat (int_div (2 * (2 - 1)) 2)) with 1%nat in *.
    change (Z.to_nat (int_div (2 * (2 - 1) * (2 - 2)) 6)) with 0%nat in *.
    list_of_length w1 L1. list_of_length w2 L2. list_of_length w3 L3.
    list_of_length w1' L1'. list_of_length w2' L2'. list_of_length w3' L3'.
    concrete_in HF (SpecialPolynomial.all_terms 2). split_terms HF. congruence.
  - change (Z.to_nat 3) with 3%nat in *.
    change (Z.to_nat (int_div (3 * (3 - 1)) 2)) with 3%nat in *.
    change (Z.to_nat (int_div (3 * (3 - 1) * (3 - 2)) 6)) with 1%nat in *.
    list_of_length w1 L1. list_of_length w2 L2. list_of_length w3 L3.
    list_of_length w1' L1'. list_of_length w2' L2'. list_of_length w3' L3'.
    concrete_in HF (SpecialPolynomial.all_terms 3). split_terms HF. congruence.
  - change (Z.to_nat 4) with 4%nat in *.
    change (Z.to_nat (int_div (4 * (4 - 1)) 2)) with 6%nat in *.
    change (Z.to_nat (int_div (4 * (4 - 1) * (4 - 2)) 6)) with 4%nat in *.
    list_of_length w1 L1. list_of_length w2 L2. list_of_length w3 L3.
    list_of_length w1' L1'. list_of_length w2' L2'. list_of_length w3' L3'.
    concrete_in HF (SpecialPolynomial.all_terms 4). split_terms HF. congruence.
Qed.

Lemma coefficient_small n p u : wf_poly n p → n ≤ 4 → valid_term n u → 0 ≤ coefficient p u < 8.
Proof.
  intros Hp Hn Hu. apply (coefficient_get_term n); [done|].
  apply valid_term_ok; [by left|done].
Qed.

Lemma mod_8_congr c a b s :
  a `mod` 8 = b `mod` 8 → (c + a * s) `mod` 8 = (c + b * s) `mod` 8.
Proof.
  intros Hab. rewrite (Z.add_mod c (a * s)), (Z.add_mod c (b * s)) by lia.
  rewrite (Z.mul_mod a s), (Z.mul_mod b s) by lia. by rewrite Hab.
Qed.

(** The factor that [phase(k, i)] applies to the weights of the
    subsets, by the shift bit of the qubit. *)
Lemma phase_factor_add (b : bool) k l :
  ((if b then (7 * k) `mod` 8 else k) + (if b then (7 * l) `mod` 8 else l)) `mod` 8
  = (if b then (7 * (k + l)) `mod` 8 else k + l) `mod` 8.
Proof.
  destruct b; [|done].
  rewrite <- Z.add_mod, Z.mod_mod by lia. f_equal. lia.
Qed.

(** [phase] on the element [e] with the polynomial replaced. *)
Lemma phase_after n e p k i :
  n ≤ 4 → wf_elem n e → wf_poly n p → 0 ≤ i < n →
  ∃ p',
    phase k i (set_poly p e) = (Ok (), set_poly p' e) ∧ wf_poly n p' ∧
    ∀ u, valid_term n u →
      coefficient p' u =
        (coefficient p u +
         (if bool_decide (item (shift e) i = 1) then (7 * k) `mod` 8 else k) *
         subset_weight (support_of (default [] (linear e !! Z.to_nat i))) u) `mod` 8.
Proof.
  intros Hn He Hp Hi.
  assert (wf_elem n (set_poly p e)) as He'.
  { destruct He as [Hq Hpoly Hlin Hsh]. by split. }
  destruct (phase_coefficients n (set_poly p e) k i Hn He' Hi) as (p' & Hphase & Hwf & Hco).
  exists p'. split; [done|]. split; [done|]. exact Hco.
Qed.

(** The phases of a qubit add up, and phases commute: on at most four
    qubits [phase(k, i)] followed by [phase(l, i)] is [phase(k + l, i)],
    [phase(0, i)] changes nothing, [phase(k + 8, i)] is [phase(k, i)],
    [phase(k, i)] and [phase(l, j)] give the same element in either
    order, and a phase after a flip of its qubit is the flip after the
    opposite phase. *)
Theorem phases_add_and_commute (n : Z) (e : t) (i j k l : Z) :
  n ≤ 4 → wf_elem n e → 0 ≤ i < n → 0 ≤ j < n →
  ∃ ei ej eij ekl f g h,
    phase k i e = (Ok (), ei) ∧ phase l j e = (Ok (), ej) ∧
    phase l j ei = (Ok (), eij) ∧ phase k i ej = (Ok (), eij) ∧
    phase (k + l) i e = (Ok (), ekl) ∧ phase l i ei = (Ok (), ekl) ∧
    phase 0 i e = (Ok (), e) ∧ phase (k + 8) i e = (Ok (), ei) ∧
    flip i e = (Ok (), f) ∧ phase k i f = (Ok (), g) ∧
    phase (- k) i e = (Ok (), h) ∧ flip i h = (Ok (), g).
Proof.
  intros Hn He Hi Hj. pose proof He as [Hq Hpoly Hlin Hsh].
  pose proof Hsh as [Hlen Hbits].
  pose proof (phase_after n e (poly e)) as Hfirst. rewrite set_poly_poly in Hfirst.
  destruct (Hfirst k i Hn He Hpoly Hi) as (pi & Hpi & Hwf_i & Hco_i).
  destruct (Hfirst l j Hn He Hpoly Hj) as (pj & Hpj & Hwf_j & Hco_j).
  destruct (phase_after n e pi l j Hn He Hwf_i Hj) as (pij & Hpij & Hwf_ij & Hco_ij).
  destruct (phase_after n e pj k i Hn He Hwf_j Hi) as (pji & Hpji & Hwf_ji & Hco_ji).
  destruct (Hfirst (k + l) i Hn He Hpoly Hi) as (pkl & Hpkl & Hwf_kl & Hco_kl).
  destruct (phase_after n e pi l i Hn He Hwf_i Hi) as (pil & Hpil & Hwf_il & Hco_il).
  destruct (Hfirst 0 i Hn He Hpoly Hi) as (p0 & Hp0 & Hwf_0 & Hco_0).
  destruct (Hfirst (k + 8) i Hn He Hpoly Hi) as (p8 & Hp8 & Hwf_8 & Hco_8).
  destruct (Hfirst (- k) i Hn He Hpoly Hi) as (ph & Hph & Hwf_h & Hco_h).
  set (f := mk n (poly e) (linear e)
              (<[Z.to_nat i := (item (shift e) i + 1) `mod` 2]> (shift e))).
  assert (flip i e = (Ok (), f)) as Hf by (rewrite flip_ok by lia; by rewrite Hq).
  destruct (flip_state n i e f He Hf) as (_ & _ & Hwf_f).
  destruct (phase_coefficients n f k i Hn Hwf_f Hi) as (pg & Hpg & Hwf_g & Hco_g).
  assert (pji = pij) as ->.
  { apply (wf_poly_ext n); [done..|]. intros u Hu.
    rewrite Hco_ji, Hco_ij, Hco_i, Hco_j by done.
    rewrite !Z.add_mod_idemp_l by lia. f_equal. lia. }
  assert (pil = pkl) as ->.
  { apply (wf_poly_ext n); [done..|]. intros u Hu.
    rewrite Hco_il, Hco_kl, Hco_i by done. rewrite Z.add_mod_idemp_l by lia.
    rewrite <- Z.add_assoc, <- Z.mul_add_distr_r.
    apply mod_8_congr, phase_factor_add. }
  assert (p0 = poly e) as ->.
  { apply (wf_poly_ext n); [done..|]. intros u Hu. rewrite Hco_0 by done.
    replace (if bool_decide (item (shift e) i = 1) then (7 * 0) `mod` 8 else 0) with 0
      by (destruct (bool_decide (item (shift e) i = 1)); reflexivity).
    rewrite Z.mul_0_l, Z.add_0_r. apply Z.mod_small. by apply (coefficient_small n). }
  assert (p8 = pi) as ->.
  { apply (wf_poly_ext n); [done..|]. intros u Hu. rewrite Hco_8, Hco_i by done.
    apply mod_8_congr. destruct (bool_decide (item (shift e) i = 1)).
    - f_equal. replace (7 * (k + 8)) with (7 * k + 7 * 8) by lia. apply Z.mod_add. lia.
    - replace (k + 8) with (k + 1 * 8) by lia. apply Z.mod_add. lia. }
  assert (pg = ph) as ->.
  { apply (wf_poly_ext n); [done..|]. intros u Hu. rewrite Hco_g, Hco_h by done.
    simpl. rewrite item_insert_eq by lia. apply mod_8_congr.
    destruct (z2_vector_item_bit n (shift e) i Hsh) as [-> | ->].
    - rewrite (bool_decide_eq_true_2 ((0 + 1) `mod` 2 = 1)) by done.
      rewrite (bool_decide_eq_false_2 (0 = 1)) by done. rewrite Z.mod_mod by lia.
      replace (7 * k) with (- k + k * 8) by lia. apply Z.mod_add. lia.
    - rewrite (bool_decide_eq_false_2 ((1 + 1) `mod` 2 = 1)) by done.
      rewrite (bool_decide_eq_true_2 (1 = 1)) by done. rewrite Z.mod_mod by lia.
      replace (7 * - k) with (k + - k * 8) by lia. symmetry. apply Z.mod_add. lia. }
  rewrite set_poly_poly in Hp0.
  exists (set_poly pi e), (set_poly pj e), (set_poly pij e), (set_poly pkl e), f,
    (set_poly ph f), (set_poly ph e).
  split; [done|]. split; [done|]. split; [done|]. split; [done|]. split; [done|].
  split; [done|]. split; [done|]. split; [done|]. split; [done|]. split; [done|].
  split; [done|]. rewrite flip_ok by (simpl; lia). simpl. by rewrite Hq.
Qed.
End PhaseLaws.

Section PhaseInstances.
Import CNOTDihedral.

Lemma phases_add_and_commute_witness :
  2 ≤ 4 ∧ wf_elem 2 (element_2 1 2 4 [[1; 0]; [1; 1]] 0 1) ∧ 0 ≤ 0 < 2 ∧ 0 ≤ 1 < 2 ∧
  ∃ ei ej eij ekl f g h,
    phase 3 0 (element_2 1 2 4 [[1; 0]; [1; 1]] 0 1) = (Ok (), ei) ∧
    phase 6 1 (element_2 1 2 4 [[1; 0]; [1; 1]] 0 1) = (Ok (), ej) ∧
    phase 6 1 ei = (Ok (), eij) ∧ phase 3 0 ej = (Ok (), eij) ∧
    phase (3 + 6) 0 (element_2 1 2 4 [[1; 0]; [1; 1]] 0 1) = (Ok (), ekl) ∧
    phase 6 0 ei = (Ok (), ekl) ∧
    phase 0 0 (element_2 1 2 4 [[1; 0]; [1; 1]] 0 1)
      = (Ok (), element_2 1 2 4 [[1; 0]; [1; 1]] 0 1) ∧
    phase (3 + 8) 0 (element_2 1 2 4 [[1; 0]; [1; 1]] 0 1) = (Ok (), ei) ∧
    flip 0 (element_2 1 2 4 [[1; 0]; [1; 1]] 0 1) = (Ok (), f) ∧
    phase 3 0 f = (Ok (), g) ∧
    phase (- 3) 0 (element_2 1 2 4 [[1; 0]; [1; 1]] 0 1) = (Ok (), h) ∧
    flip 0 h = (Ok (), g).
Proof.
  assert (wf_elem 2 (element_2 1 2 4 [[1; 0]; [1; 1]] 0 1)) as He by wf_concrete.
  assert (0 ≤ 0 < 2) as H0 by lia. assert (0 ≤ 1 < 2) as H1 by lia.
  split; [lia|]. split; [exact He|]. split; [exact H0|]. split; [exact H1|].
  exact (phases_add_and_commute 2 _ 0 1 3 6 ltac:(lia) He H0 H1).
Defined.
End PhaseInstances.

(** ** The group law on at most three qubits *)

Ltac monomials_in H :=
  repeat match type of H with
         | context [monomial ?x ?t] =>
             let v := eval vm_compute in (monomial x t) in
             change (monomial x t) with v in H
         end.

(** The coefficient of [u] from the value at the indicator vector [x]
    of [u], once the coefficients of the subsets of [u] are known. *)
Ltac coefficient_from_value n p q Hp Hq Hval u x :=
  let E := fresh "E" in
  assert (coefficient p u = coefficient q u) as E;
  [ let Hv := fresh "Hv" in
    let Hu := fresh "Hu" in
    assert (valid_term n u) as Hu
      by (split; [simpl; lia|split; forall_concrete ltac:(simpl; lia)]);
    pose proof (coefficient_small n p u Hp ltac:(lia) Hu);
    pose proof (coefficient_small n q u Hq ltac:(lia) Hu);
    assert (value_of p x = value_of q x) as Hv
      by (apply Hval; split; [done|forall_concrete lia]);
    unfold value_of in Hv;
    rewrite (wf_n_vars _ _ Hp), (wf_n_vars _ _ Hq) in Hv;
    concrete_in Hv (SpecialPolynomial.all_terms n);
    cbn [sum_over foldr] in Hv; monomials_in Hv;
    Z.div_mod_to_equations; lia
  | ].

Section GroupLaw.
Import CNOTDihedral.

(** On at most three variables a polynomial is its values at the
    vectors of bits. *)
Lemma value_ext n p q :
  n ≤ 3 → wf_poly n p → wf_poly n q →
  (∀ x, z2_vector n x → value_of p x = value_of q x) → p = q.
Proof.
  intros Hn Hp Hq Hval. pose proof (wf_n_pos _ _ Hp) as Hpos.
  apply (wf_poly_ext n); [lia|done|done|].
  assert (n = 1 ∨ n = 2 ∨ n = 3) as [->|[->| ->]] by lia.
  - coefficient_from_value 1 p q Hp Hq Hval (@nil Z) [0].
    coefficient_from_value 1 p q Hp Hq Hval [0] [1].
    intros u Hu%all_terms_complete. concrete_in Hu (SpecialPolynomial.all_terms 1).
    enumerate Hu; assumption.
  - coefficient_from_value 2 p q Hp Hq Hval (@nil Z) [0; 0].
    coefficient_from_value 2 p q Hp Hq Hval [0] [1; 0].
    coefficient_from_value 2 p q Hp Hq Hval [1] [0; 1].
    coefficient_from_value 2 p q Hp Hq Hval [0; 1] [1; 1].
    intros u Hu%all_terms_complete. concrete_in Hu (SpecialPolynomial.all_terms 2).
    enumerate Hu; assumption.
  - coefficient_from_value 3 p q Hp Hq Hval (@nil Z) [0; 0; 0].
    coefficient_from_value 3 p q Hp Hq Hval [0] [1; 0; 0].
    coefficient_from_value 3 p q Hp Hq Hval [1] [0; 1; 0].
    coefficient_from_value 3 p q Hp Hq Hval [2] [0; 0; 1].
    coefficient_from_value 3 p q Hp Hq Hval [0; 1] [1; 1; 0].
    coefficient_from_value 3 p q Hp Hq Hval [0; 2] [1; 0; 1].
    coefficient_from_value 3 p q Hp Hq Hval [1; 2] [0; 1; 1].
    coefficient_from_value 3 p q Hp Hq Hval [0; 1; 2] [1; 1; 1].
    intros u Hu%all_terms_complete. concrete_in Hu (SpecialPolynomial.all_terms 3).
    enumerate Hu; assumption.
Qed.

(** The product [a * b] with its action: the affine map and the values
    of the polynomial. *)
Lemma mul_action n a b :
  n ≤ 3 → wf_elem n a → wf_elem n b →
  ∃ r, __mul__ a b = Ok r ∧ wf_elem n r ∧
       linear r = z2_matrix_product n (linear a) (linear b) ∧
       ∀ x, z2_vector n x →
         affine_image r x = affine_image a (affine_image b x) ∧
         value_of (poly r) x
         = (value_of (poly b) x + value_of (poly a) (affine_image b x)) `mod` 8.
Proof.
  intros Hn Ha Hb. pose proof (wf_n_pos _ _ (wf_poly_of _ _ Ha)) as Hpos.
  destruct (mul_parts n a b Hn Ha Hb) as (pv & p' & Hpv & Hwf_pv & Hp' & Hwf_p' & Hmul & Hvs).
  set (vs := (λ i, substituted_var n (default [] (linear b !! Z.to_nat i))
                     (item (shift b) i)) <$> py_range n) in *.
  set (r := mk n p' (z2_matrix_product n (linear a) (linear b))
              (zip_with Z.lxor (z2_matrix_vector n (linear a) (shift b)) (shift a))).
  assert (wf_elem n r) as Hr.
  { split; simpl; [done|done|by apply product_z2_matrix; lia|].
    destruct (wf_shift _ _ Ha) as [Hlen Hbits].
    destruct (matrix_vector_z2_vector n (linear a) (shift b)) as [Hlen' Hbits']; [lia|].
    split; [rewrite length_zip_with; lia|by apply bits_zip_with_xor]. }
  exists r. split; [done|]. split; [done|]. split; [done|]. intros x Hx.
  split; [by apply (affine_image_composition n a b r x)|]. simpl.
  rewrite (value_of_add n (poly b) pv p' x (wf_poly_of _ _ Hb) Hwf_pv
             (terms_ok_small n ltac:(lia)) Hp').
  f_equal. f_equal.
  destruct (evaluate_value n (poly a) vs x ltac:(lia) (wf_poly_of _ _ Ha))
    as (pv2 & Hpv2 & _ & Hval);
    [unfold vs; rewrite length_fmap, length_py_range; lia|done|apply Hx|].
  assert (pv2 = pv) as -> by congruence. rewrite Hval. f_equal.
  unfold vs. rewrite <- list_fmap_compose.
  rewrite (affine_image_tabulate n b x Hb). apply tabulate_ext. intros i Hi. simpl.
  destruct (z2_matrix_getitem n (linear b) i (wf_linear _ _ Hb) Hi) as (_ & Hlen & Hbits).
  destruct (affine_image_item n b x i ltac:(lia) Hb Hx Hi) as [Hitem _].
  rewrite (affine_image_tabulate n b x Hb), item_tabulate in Hitem by done.
  rewrite Hitem. apply substituted_var_value; [lia| | |by apply z2_vector_bit_vectors].
  + by apply z2_vector_bit_vectors.
  + by apply (z2_vector_item_bit n (shift b) i), Hb.
Qed.

(** An element is its polynomial and the images of the vectors of bits
    under its affine map. *)
Lemma affine_image_zero n e :
  wf_elem n e → affine_image e (py_repeat n 0) = shift e.
Proof.
  intros He. pose proof He as [Hq Hpoly Hlin [Hlen Hbits]].
  rewrite (affine_image_tabulate n e _ He).
  transitivity (item (shift e) <$> py_range n); [|by apply vector_tabulate].
  apply tabulate_ext. intros r Hr.
  rewrite (zsum_ext _ (λ _, 0)).
  - unfold zsum. rewrite nsum_zero by done. simpl.
    by destruct (z2_vector_item_bit n (shift e) r (wf_shift _ _ He)) as [-> | ->].
  - intros k Hk. unfold py_repeat. rewrite item_replicate. lia.
Qed.


Lemma elem_ext n e1 e2 :
  n ≤ 3 → wf_elem n e1 → wf_elem n e2 →
  linear e1 = linear e2 →
  (∀ x, z2_vector n x →
     affine_image e1 x = affine_image e2 x ∧
     value_of (poly e1) x = value_of (poly e2) x) →
  e1 = e2.
Proof.
  intros Hn H1 H2 Hlin Hact.
  assert (0 ≤ n) as Hpos by (pose proof (wf_n_pos _ _ (wf_poly_of _ _ H1)); lia).
  assert (z2_vector n (py_repeat n 0)) as Hzero.
  { unfold py_repeat. split; [rewrite length_replicate; lia|].
    apply Forall_replicate. by left. }
  assert (shift e1 = shift e2) as Hsh.
  { rewrite <- (affine_image_zero n e1 H1), <- (affine_image_zero n e2 H2).
    by apply Hact. }
  assert (poly e1 = poly e2) as Hpoly.
  { apply (value_ext n); [done|apply H1|apply H2|]. intros x Hx. by apply Hact. }
  pose proof (wf_num_qubits _ _ H1) as Hq1. pose proof (wf_num_qubits _ _ H2) as Hq2.
  destruct e1, e2. simpl in *. congruence.
Qed.

Lemma affine_image_one n one x :
  __init__ n = Ok one → z2_vector n x → affine_image one x = x.
Proof.
  intros Hone Hx. destruct (init_state n one Hone) as (Hn & Hwf & _ & Hlin & Hsh).
  unfold affine_image. rewrite (wf_num_qubits _ _ Hwf), Hlin, Hsh, identity_vector by done.
  destruct Hx as [Hlen Hbits]. unfold py_repeat.
  replace (Z.to_nat n) with (length x) by lia. clear Hlen.
  induction Hbits as [|b x Hb _ IH]; [done|]. simpl. f_equal; [|done].
  by destruct Hb as [-> | ->].
Qed.

(** On at most three qubits the composition is associative and the
    identity is its unit on both sides: [(a * b) * c] and [a * (b * c)]
    are the same element, and so are [a * 1], [1 * a] and [a]. *)
Theorem composition_is_associative (n : Z) (a b c : t) :
  n ≤ 3 → wf_elem n a → wf_elem n b → wf_elem n c →
  ∃ one ab bc abc,
    __init__ n = Ok one ∧
    __mul__ a b = Ok ab ∧ __mul__ b c = Ok bc ∧
    __mul__ ab c = Ok abc ∧ __mul__ a bc = Ok abc ∧
    __mul__ a one = Ok a ∧ __mul__ one a = Ok a.
Proof.
  intros Hn Ha Hb Hc. pose proof (wf_n_pos _ _ (wf_poly_of _ _ Ha)) as Hpos.
  destruct (poly_init_ok n Hpos) as (zero & Hzero & Hwf0 & _).
  set (one := mk n zero (z2_identity n) (py_repeat n 0)).
  assert (__init__ n = Ok one) as Hone by (unfold __init__; by rewrite Hzero).
  destruct (init_state n one Hone) as (_ & Hwf_one & _).
  pose proof (terms_ok_small n ltac:(lia)) as Hterms.
  destruct (mul_action n a b Hn Ha Hb) as (ab & Hab & Hwf_ab & Hlin_ab & Hact_ab).
  destruct (mul_action n b c Hn Hb Hc) as (bc & Hbc & Hwf_bc & Hlin_bc & Hact_bc).
  destruct (mul_action n ab c Hn Hwf_ab Hc) as (abc & Habc & Hwf_abc & Hlin_abc & Hact_abc).
  destruct (mul_action n a bc Hn Ha Hwf_bc) as (abc' & Habc' & Hwf_abc' & Hlin_abc' & Hact_abc').
  destruct (mul_action n a one Hn Ha Hwf_one) as (a1 & Ha1 & Hwf_a1 & Hlin_a1 & Hact_a1).
  destruct (mul_action n one a Hn Hwf_one Ha) as (a2 & Ha2 & Hwf_a2 & Hlin_a2 & Hact_a2).
  assert (abc' = abc) as ->.
  { apply (elem_ext n); [done..| |].
    - by rewrite Hlin_abc', Hlin_abc, Hlin_ab, Hlin_bc, product_assoc.
    - intros x Hx. pose proof (affine_image_bits n c x Hc) as Hcx.
      destruct (Hact_abc x Hx) as [-> ->]. destruct (Hact_abc' x Hx) as [-> ->].
      destruct (Hact_ab _ Hcx) as [-> ->]. destruct (Hact_bc x Hx) as [-> ->].
      split; [done|].
      rewrite Z.add_mod_idemp_l, Z.add_mod_idemp_r by lia. f_equal. lia. }
  assert (a1 = a) as ->.
  { apply (elem_ext n); [done..| |].
    - rewrite Hlin_a1. apply product_identity_r, Ha.
    - intros x Hx. destruct (Hact_a1 x Hx) as [-> ->].
      rewrite (affine_image_one n one x Hone Hx). split; [done|].
      change (poly one) with zero. rewrite (value_of_zero n zero x Hzero Hterms).
      unfold value_of. by rewrite Z.add_0_l, Z.mod_mod by lia. }
  assert (a2 = a) as ->.
  { apply (elem_ext n); [done..| |].
    - rewrite Hlin_a2. apply product_identity_l, Ha.
    - intros x Hx. destruct (Hact_a2 x Hx) as [-> ->].
      pose proof (affine_image_bits n a x Ha) as Hax.
      rewrite (affine_image_one n one _ Hone Hax). split; [done|].
      change (poly one) with zero. rewrite (value_of_zero n zero _ Hzero Hterms).
      unfold value_of. by rewrite Z.add_0_r, Z.mod_mod by lia. }
  by exists one, ab, bc, abc.
Qed.
End GroupLaw.

Section GroupLawInstances.
Import CNOTDihedral.

Lemma composition_is_associative_witness :
  2 ≤ 3 ∧ wf_elem 2 (element_2 1 2 4 [[1; 0]; [1; 1]] 0 1) ∧
  wf_elem 2 (element_2 3 0 2 [[1; 1]; [0; 1]] 1 1) ∧
  wf_elem 2 (element_2 0 5 6 [[0; 1]; [1; 0]] 1 0) ∧
  ∃ one ab bc abc,
    __init__ 2 = Ok one ∧
    __mul__ (element_2 1 2 4 [[1; 0]; [1; 1]] 0 1) (element_2 3 0 2 [[1; 1]; [0; 1]] 1 1)
      = Ok ab ∧
    __mul__ (element_2 3 0 2 [[1; 1]; [0; 1]] 1 1) (element_2 0 5 6 [[0; 1]; [1; 0]] 1 0)
      = Ok bc ∧
    __mul__ ab (element_2 0 5 6 [[0; 1]; [1; 0]] 1 0) = Ok abc ∧
    __mul__ (element_2 1 2 4 [[1; 0]; [1; 1]] 0 1) bc = Ok abc ∧
    __mul__ (element_2 1 2 4 [[1; 0]; [1; 1]] 0 1) one
      = Ok (element_2 1 2 4 [[1; 0]; [1; 1]] 0 1) ∧
    __mul__ one (element_2 1 2 4 [[1; 0]; [1; 1]] 0 1)
      = Ok (element_2 1 2 4 [[1; 0]; [1; 1]] 0 1).
Proof.
  assert (wf_elem 2 (element_2 1 2 4 [[1; 0]; [1; 1]] 0 1)) as Ha by wf_concrete.
  assert (wf_elem 2 (element_2 3 0 2 [[1; 1]; [0; 1]] 1 1)) as Hb by wf_concrete.
  assert (wf_elem 2 (element_2 0 5 6 [[0; 1]; [1; 0]] 1 0)) as Hc by wf_concrete.
  split; [lia|]. split; [exact Ha|]. split; [exact Hb|]. split; [exact Hc|].
  exact (composition_is_associative 2 _ _ _ ltac:(lia) Ha Hb Hc).
Defined.
End GroupLawInstances.

(** ** The dictionary without CNOT from fourteen qubits on *)

Section Collision.
Import CNOTDihedral.

(** The loop of [make_dict_0] keeps the keys that are there, adds at
    most one key in every pass, and has the key of the element of every
    number it has passed. *)
Lemma make_dict_0_loop_size n (l : list Z) (acc obj : gmap string (t * list gate_tuple)) :
  res_fold (λ obj i,
              '(elem, circ) ← make_dict_0_entry n i;
              Ok (<[key elem := (elem, circ)]> obj)) l acc = Ok obj →
  (size obj ≤ size acc + length l)%nat ∧
  (∀ k, is_Some (acc !! k) → is_Some (obj !! k)) ∧
  (∀ i e c, i ∈ l → make_dict_0_entry n i = Ok (e, c) → is_Some (obj !! key e)).
Proof.
  revert acc. induction l as [|i l IH]; intros acc.
  - simpl. intros [= <-]. split; [lia|]. split; [done|].
    intros i e c Hi. by apply elem_of_nil in Hi.
  - rewrite res_fold_cons.
    destruct (make_dict_0_entry n i) as [[e c]|] eqn:Hentry; [|done].
    rewrite res_bind_Ok. intros (Hsize & Hkeep & Hkeys)%IH.
    assert (size (<[key e := (e, c)]> acc) ≤ S (size acc))%nat as Hstep.
    { destruct (acc !! key e) as [v|] eqn:Hk.
      - rewrite map_size_insert_Some by (rewrite Hk; by eexists). lia.
      - rewrite map_size_insert_None by done. lia. }
    split; [simpl; lia|]. split.
    + intros k Hk. apply Hkeep. destruct (decide (k = key e)) as [->|Hne].
      * rewrite lookup_insert_eq. by eexists.
      * by rewrite lookup_insert_ne.
    + intros i' e' c' [->|Hi']%elem_of_cons He'; [|by apply (Hkeys i' e' c')].
      apply Hkeep. rewrite Hentry in He'. injection He' as <- <-.
      rewrite lookup_insert_eq. by eexists.
Qed.

(** Two numbers with the same element leave the dictionary short of
    16^n entries. *)
Lemma make_dict_0_collision n i1 i2 e c1 c2 obj :
  0 ≤ i1 < i2 → i2 < 16 ^ n →
  make_dict_0_entry n i1 = Ok (e, c1) → make_dict_0_entry n i2 = Ok (e, c2) →
  make_dict_0 n = Ok obj → Z.of_nat (size obj) < 16 ^ n.
Proof.
  intros Hi1 Hi2 He1 He2. unfold make_dict_0, assert, py_range.
  destruct (bool_decide (1 ≤ n)); [|done]. rewrite res_bind_Ok.
  set (N := 16 ^ n) in *.
  replace N with (i2 + (1 + (N - i2 - 1))) at 1 by lia.
  rewrite (seqZ_app 0 i2), (seqZ_app (0 + i2) 1) by lia.
  assert (seqZ (0 + i2) 1 = [i2]) as ->.
  { rewrite seqZ_cons, seqZ_nil by lia. reflexivity. }
  rewrite res_fold_app.
  destruct (res_fold _ (seqZ 0 i2) ∅) as [obj1|] eqn:H1; [|done].
  rewrite res_bind_Ok. cbn [app]. rewrite res_fold_cons, He2, res_bind_Ok.
  intros H3.
  apply make_dict_0_loop_size in H1 as (Hs1 & _ & Hk1).
  apply make_dict_0_loop_size in H3 as (Hs3 & _ & _).
  destruct (Hk1 i1 e c1) as [v Hv]; [apply elem_of_seqZ; lia|done|].
  rewrite map_size_insert_Some in Hs3 by (rewrite Hv; by eexists).
  rewrite map_size_empty in Hs1. rewrite !length_seqZ in *. lia.
Qed.

(** When the loop of [make_dict_0] returns, every pass has returned. *)
Lemma make_dict_0_loop_returns n (l : list Z) (acc obj : gmap string (t * list gate_tuple)) i :
  res_fold (λ obj i,
              '(elem, circ) ← make_dict_0_entry n i;
              Ok (<[key elem := (elem, circ)]> obj)) l acc = Ok obj →
  i ∈ l → ∃ e c, make_dict_0_entry n i = Ok (e, c).
Proof.
  revert acc. induction l as [|i' l IH]; intros acc Hfold Hi.
  { by apply elem_of_nil in Hi. }
  rewrite res_fold_cons in Hfold.
  destruct (make_dict_0_entry n i') as [[e c]|] eqn:Hentry; [|done].
  rewrite res_bind_Ok in Hfold.
  apply elem_of_cons in Hi as [->|Hi]; [by exists e, c|by apply (IH _ Hfold)].
Qed.

(** The numbers 2^54 and 2^54 + 2 get the same element, whatever the
    number of qubits: the first pass of the inner loop leaves both with
    the untouched identity and the number 2^50. *)
Lemma make_dict_0_entry_collides n :
  1 ≤ n →
  entry_element (make_dict_0_entry n (2 ^ 54))
  = entry_element (make_dict_0_entry n (2 ^ 54 + 2)).
Proof.
  intros Hn. unfold make_dict_0_entry.
  destruct (__init__ n) as [elem|]; [|done]. rewrite !res_bind_Ok.
  unfold py_range. rewrite (seqZ_cons 0 n) by lia. rewrite !res_fold_cons.
  assert (make_dict_0_step (elem, [], 2 ^ 54) 0
          = make_dict_0_step (elem, [], 2 ^ 54 + 2) 0) as ->
    by (vm_compute; reflexivity).
  reflexivity.
Qed.

(** From 14 qubits on, a dictionary that [make_dict_0] returns has fewer
    than 16^n entries. *)
Lemma make_dict_0_is_short_from_fourteen_qubits n obj :
  14 ≤ n → make_dict_0 n = Ok obj → Z.of_nat (size obj) < 16 ^ n.
Proof.
  intros Hn Hobj.
  assert (16 ^ 14 ≤ 16 ^ n) as Hpow by (apply Z.pow_le_mono_r; lia).
  assert (2 ^ 54 + 2 < 16 ^ n) as Hlt.
  { eapply Z.lt_le_trans; [|exact Hpow]. reflexivity. }
  assert (0 < 2 ^ 54) as Hpos by reflexivity.
  pose proof Hobj as Hfold. unfold make_dict_0, assert in Hfold.
  rewrite (bool_decide_eq_true_2 (1 ≤ n)) in Hfold by lia.
  rewrite res_bind_Ok in Hfold.
  destruct (make_dict_0_loop_returns n _ _ _ (2 ^ 54) Hfold) as (e1 & c1 & H1).
  { apply elem_of_seqZ. lia. }
  destruct (make_dict_0_loop_returns n _ _ _ (2 ^ 54 + 2) Hfold) as (e2 & c2 & H2).
  { apply elem_of_seqZ. lia. }
  pose proof (make_dict_0_entry_collides n ltac:(lia)) as Heq.
  rewrite H1, H2 in Heq. injection Heq as <-.
  apply (make_dict_0_collision n (2 ^ 54) (2 ^ 54 + 2) e1 c1 c2 obj); [lia|lia|done..].
Qed.

End Collision.

(** ** The failures of the operations *)

Section FailureKinds.
Import CNOTDihedral.

Lemma check_indices_violation n l :
  SpecialPolynomial.check_indices n l =
    match term_violation n l with
    | Some msg => Raise (AssertionError msg)
    | None => Ok ()
    end.
Proof.
  unfold SpecialPolynomial.check_indices, term_violation, assert. cbv zeta.
  destruct (decide (4 ≤ length l)%nat) as [Hlen|Hlen].
  { rewrite (bool_decide_eq_false_2 (Z.of_nat (length l) < 4)) by lia.
    by rewrite (bool_decide_eq_true_2 (4 ≤ length l)%nat). }
  rewrite (bool_decide_eq_true_2 (Z.of_nat (length l) < 4)) by lia.
  rewrite (bool_decide_eq_false_2 (4 ≤ length l)%nat) by done.
  rewrite res_bind_Ok.
  destruct (existsb _ l) eqn:Hex.
  { apply existsb_exists in Hex as (x & Hx & Hb).
    rewrite (bool_decide_eq_true_2 (Exists _ l)); [done|].
    apply Exists_exists. exists x. split; [by apply list_elem_of_In|].
    apply orb_true_iff in Hb as [Hb|Hb]; apply bool_decide_eq_true in Hb; lia. }
  rewrite (bool_decide_eq_false_2 (Exists _ l)).
  2: { intros (x & Hx & Hb)%Exists_exists.
       apply not_true_iff_false in Hex. apply Hex. apply existsb_exists.
       exists x. split; [by apply list_elem_of_In|].
       apply orb_true_iff.
       destruct Hb; [left|right]; by apply bool_decide_eq_true. }
  simpl negb. cbv iota. rewrite res_bind_Ok.
  destruct (forallb _ _) eqn:Hall.
  - rewrite bool_decide_eq_true_2; [done|].
    apply Forall_forall. intros ab Hab.
    rewrite forallb_forall in Hall. apply list_elem_of_In in Hab.
    specialize (Hall ab Hab). by apply bool_decide_eq_true in Hall.
  - rewrite bool_decide_eq_false_2; [done|].
    intros Hf. apply not_true_iff_false in Hall. apply Hall.
    apply forallb_forall. intros ab Hab. apply bool_decide_eq_true.
    rewrite Forall_forall in Hf. by apply Hf, list_elem_of_In.
Qed.

Lemma term_violation_none n l : term_violation n l = None → valid_term n l.
Proof.
  intros Hnone. apply check_indices_valid.
  by rewrite check_indices_violation, Hnone.
Qed.

Lemma getitem_error {A} (l : list A) i err :
  getitem l i = Raise err → err = IndexError.
Proof.
  unfold getitem. destruct (py_index l i) as [k|]; [|by intros [= <-]].
  destruct (l !! k); [done|by intros [= <-]].
Qed.

Lemma get_term_error p l err :
  SpecialPolynomial.get_term p l = Raise err →
  (∃ msg, err = AssertionError msg) ∨ err = IndexError.
Proof.
  unfold SpecialPolynomial.get_term. rewrite check_indices_violation.
  destruct (term_violation _ l) as [msg|]; [intros [= <-]; left; by exists msg|].
  rewrite res_bind_Ok. intros Hget. right.
  destruct l as [|? [|? [|? ?]]]; [done|by apply getitem_error in Hget..].
Qed.

Lemma set_term_error l v p err p' :
  SpecialPolynomial.set_term l v p = (Raise err, p') →
  (∃ msg, err = AssertionError msg) ∨ err = IndexError.
Proof.
  intros Hset.
  destruct (set_term_outcome l v p) as [(q & Hq & _)|(err' & Hq & Hvalid)];
    rewrite Hq in Hset; [done|]. injection Hset as -> _.
  destruct (term_violation (SpecialPolynomial.n_vars p) l) as [msg|] eqn:Hv.
  - left. exists msg. revert Hq. unfold SpecialPolynomial.set_term. st_unfold.
    rewrite check_indices_violation, Hv. by intros [= <-].
  - right. by apply Hvalid, term_violation_none.
Qed.

(** A loop of [phase] raises nothing but a failed assertion or an
    [IndexError]. *)
Lemma phase_loop_error {X} (term_of : X → list Z) (f : X → Z → Z) (l : list X) e err e' :
  st_for l (λ x,
    value ← on_poly (st_read (λ p, SpecialPolynomial.get_term p (term_of x)));
    on_poly (SpecialPolynomial.set_term (term_of x) (f x value))) e = (Raise err, e') →
  (∃ msg, err = AssertionError msg) ∨ err = IndexError.
Proof.
  revert e. induction l as [|x l IH]; intros e; simpl.
  { unfold st_ret. done. }
  unfold mbind at 1, st_mbind, st_bind.
  unfold mbind at 1, st_mbind, st_bind.
  rewrite on_poly_eta. unfold st_read at 1. simpl.
  replace (set_poly (poly e) e) with e by (by destruct e).
  destruct (SpecialPolynomial.get_term (poly e) (term_of x)) as [v|err0] eqn:Hget.
  2: { intros [= <- <-]. by apply (get_term_error _ _ _ Hget). }
  rewrite on_poly_eta.
  destruct (SpecialPolynomial.set_term (term_of x) (f x v) (poly e))
    as [[[]|err0] p'] eqn:Hset; simpl.
  - apply IH.
  - intros [= <- <-]. by apply (set_term_error _ _ _ _ _ Hset).
Qed.

Lemma phase_error k i e err e' :
  phase k i e = (Raise err, e') →
  (∃ msg, err = AssertionError msg) ∨ err = IndexError.
Proof.
  unfold phase.
  unfold mbind at 1, st_mbind, st_bind, st_get.
  unfold mbind at 1, st_mbind, st_bind, st_assert, assert.
  destruct (bool_decide (0 ≤ i)); [|intros [= <- <-]; left; by eexists].
  unfold mbind at 1, st_mbind, st_bind.
  destruct (bool_decide (i < num_qubits e)); [|intros [= <- <-]; left; by eexists].
  set (k' := if bool_decide _ then _ else k).
  set (support := support_of _).
  unfold mbind at 1, st_mbind, st_bind.
  destruct (st_for support _ e) as [[[]|err1] e1] eqn:Hloop1.
  2: { intros [= <- <-].
       by apply (phase_loop_error (λ j, [j]) (λ _ v, (v + k') `mod` 8)) in Hloop1. }
  unfold mbind at 1, st_mbind, st_bind.
  destruct (st_for (combinations 2 support) _ e1) as [[[]|err2] e2] eqn:Hloop2.
  2: { intros [= <- <-].
       by apply (phase_loop_error (λ t, t) (λ _ v, (v + -2 * k') `mod` 8)) in Hloop2. }
  intros Hloop3.
  by apply (phase_loop_error (λ t, t) (λ _ v, (v + 4 * k') `mod` 8)) in Hloop3.
Qed.

(** [phase] on a well-formed element: a qubit out of range fails the
    assertion that names it, with the element as it was; a qubit in
    range fails no assertion, and on at most four qubits the call
    returns. *)
Lemma phase_failure_kind n k i e r e' :
  wf_elem n e → phase k i e = (r, e') →
  match qubit_violation n i with
  | Some msg => r = Raise (AssertionError msg) ∧ e' = e
  | None => not_assertion r ∧ (n ≤ 4 → r = Ok ())
  end.
Proof.
  intros Hwf Hphase. pose proof Hwf as [Hq _ _ _]. unfold qubit_violation.
  destruct (decide (i < 0)) as [Hneg|Hneg].
  { rewrite (bool_decide_eq_true_2 (i < 0)) by done.
    revert Hphase. unfold phase.
    unfold mbind at 1, st_mbind, st_bind, st_get.
    unfold mbind at 1, st_mbind, st_bind, st_assert, assert.
    rewrite (bool_decide_eq_false_2 (0 ≤ i)) by lia. by intros [= <- <-]. }
  rewrite (bool_decide_eq_false_2 (i < 0)) by done.
  destruct (decide (n ≤ i)) as [Hbig|Hbig].
  { rewrite (bool_decide_eq_true_2 (n ≤ i)) by done.
    revert Hphase. unfold phase.
    unfold mbind at 1, st_mbind, st_bind, st_get.
    unfold mbind at 1, st_mbind, st_bind, st_assert, assert.
    rewrite (bool_decide_eq_true_2 (0 ≤ i)) by lia.
    unfold mbind at 1, st_mbind, st_bind.
    rewrite (bool_decide_eq_false_2 (i < num_qubits e)) by lia. by intros [= <- <-]. }
  rewrite (bool_decide_eq_false_2 (n ≤ i)) by done. split.
  - intros msg ->.
    destruct (phase_assertion n k i e msg e' Hwf Hphase) as [_ [[? _]|[? _]]]; lia.
  - intros Hn. destruct (phase_coefficients n e k i Hn Hwf ltac:(lia)) as (p' & Hp & _).
    rewrite Hp in Hphase. by injection Hphase as <- _.
Qed.

(** [set_term] and [get_term] on a well-formed polynomial: an index list
    that violates a check fails the assertion of the first check it
    violates, [set_term] leaving the polynomial as it was; an index list
    that passes them fails no assertion, and the call returns when the
    list has at most two indices or the polynomial at most four
    variables. *)
Lemma set_term_failure_kind n l v p r p' :
  wf_poly n p → SpecialPolynomial.set_term l v p = (r, p') →
  match term_violation n l with
  | Some msg => r = Raise (AssertionError msg) ∧ p' = p
  | None => not_assertion r ∧ (n ≤ 4 ∨ (length l ≤ 2)%nat → r = Ok ())
  end.
Proof.
  intros Hp Hset. pose proof Hp as [_ Hvars _ _ _ _ _ _ _ _ _].
  destruct (term_violation n l) as [msg|] eqn:Hv.
  - revert Hset. unfold SpecialPolynomial.set_term. st_unfold.
    rewrite Hvars, check_indices_violation, Hv. by intros [= <- <-].
  - pose proof (term_violation_none n l Hv) as Hvalid. split.
    + intros msg ->.
      destruct (set_term_outcome l v p) as [(q & Hq & _)|(err' & Hq & Herr)];
        rewrite Hq in Hset; [done|]. injection Hset as Hset _.
      rewrite Herr in Hset by (by rewrite Hvars). done.
    + intros Hsmall.
      destruct (set_term_ok n p l v Hp (valid_term_ok n l Hsmall Hvalid)) as (q & Hq & _).
      rewrite Hq in Hset. by injection Hset as <- _.
Qed.

Lemma get_term_failure_kind n l p :
  wf_poly n p →
  match term_violation n l with
  | Some msg => SpecialPolynomial.get_term p l = Raise (AssertionError msg)
  | None => not_assertion (SpecialPolynomial.get_term p l) ∧
            (n ≤ 4 ∨ (length l ≤ 2)%nat → ∃ v, SpecialPolynomial.get_term p l = Ok v)
  end.
Proof.
  intros Hp. pose proof Hp as [_ Hvars _ _ _ _ _ _ _ _ _].
  destruct (term_violation n l) as [msg|] eqn:Hv.
  - unfold SpecialPolynomial.get_term. by rewrite Hvars, check_indices_violation, Hv.
  - pose proof (term_violation_none n l Hv) as Hvalid. split.
    + apply get_term_not_assertion. by rewrite Hvars.
    + intros Hsmall.
      destruct (get_term_ok n p l Hp (valid_term_ok n l Hsmall Hvalid)) as (v & Hget & _).
      by exists v.
Qed.

(** Composition checks the qubit counts first. *)
Lemma composition_failure_kind a b :
  num_qubits a ≠ num_qubits b →
  __mul__ a b = Raise (AssertionError "not same num_qubits!") ∧
  __rmul__ a b = Raise (AssertionError "not same num_qubits!").
Proof.
  intros Hne. unfold __mul__, __rmul__, assert.
  by rewrite (bool_decide_eq_false_2 (num_qubits a = num_qubits b)).
Qed.

(** On at most three qubits, composition of two well-formed elements
    returns, in either orientation. *)
Lemma composition_returns n a b :
  n ≤ 3 → wf_elem n a → wf_elem n b →
  (∃ r, __mul__ a b = Ok r) ∧ (∃ r, __rmul__ a b = Ok r).
Proof.
  intros Hn Ha Hb. split.
  - destruct (mul_parts n a b Hn Ha Hb) as (pv & p & _ & _ & _ & _ & Hm & _).
    by eexists.
  - assert (wf_elem n (set_shift (shift b) a)) as Ha'.
    { destruct Ha as [Hq Hpoly Hlin Hsh]. split; simpl; [done|done|done|apply Hb]. }
    destruct (mul_parts n b _ Hn Hb Ha') as (pv & p & _ & _ & _ & _ & Hm & _).
    rewrite rmul_as_mul by (rewrite (wf_num_qubits _ _ Ha), (wf_num_qubits _ _ Hb); done).
    rewrite Hm, res_bind_Ok. by eexists.
Qed.

(** An instruction that returns leaves a well-formed element
    well-formed. *)
Lemma apply_instruction_wf n gate_name qargs instr e e' :
  wf_elem n e → apply_instruction gate_name qargs instr e = (Ok (), e') →
  wf_elem n e'.
Proof.
  intros Hwf. unfold apply_instruction, lift. st_unfold.
  unfold mbind, st_mbind, st_bind.
  destruct (res_map (getitem qargs) (qregs instr)) as [new_qubits|]; simpl; [|done].
  case_bool_decide.
  { destruct (getitem new_qubits 0) as [q|]; simpl; [|done].
    intros Hop. by destruct (flip_state n q e e' Hwf Hop) as (_ & _ & ?). }
  case_bool_decide.
  { destruct (getitem (params instr) 0) as [theta|]; simpl; [|done].
    destruct (getitem new_qubits 0) as [q|]; simpl; [|done].
    intros Hop. destruct (phase_state_wf n (int_of theta) q e Hwf) as [Hwf' _].
    unfold state_after in Hwf'. by rewrite Hop in Hwf'. }
  case_bool_decide.
  { destruct (getitem new_qubits 0) as [q0|]; simpl; [|done].
    destruct (getitem new_qubits 1) as [q1|]; simpl; [|done].
    intros Hop. by destruct (cnot_state n q0 q1 e e' Hwf Hop) as (_ & _ & _ & _ & ?). }
  case_bool_decide; [|done]. unfold st_ret. by intros [= <-].
Qed.

(** An instruction that raises on a well-formed element leaves it as it
    was, unless it is a phase gate that raises [IndexError], which needs
    more than four qubits. *)
Lemma apply_instruction_failure n gate_name qargs instr e err e' :
  wf_elem n e → apply_instruction gate_name qargs instr e = (Raise err, e') →
  e' = e ∨ (err = IndexError ∧ name instr = "u1" ∧ 4 < n).
Proof.
  intros Hwf. unfold apply_instruction, lift. st_unfold.
  unfold mbind, st_mbind, st_bind.
  destruct (res_map (getitem qargs) (qregs instr)) as [new_qubits|]; simpl;
    [|intros [= _ <-]; by left].
  case_bool_decide.
  { destruct (getitem new_qubits 0) as [q|]; simpl; [|intros [= _ <-]; by left].
    intros Hop. left. by apply (flip_validates q e err e'). }
  case_bool_decide as Hu1.
  { destruct (getitem (params instr) 0) as [theta|]; simpl; [|intros [= _ <-]; by left].
    destruct (getitem new_qubits 0) as [q|]; simpl; [|intros [= _ <-]; by left].
    intros Hop. pose proof (phase_failure_kind n _ q e _ e' Hwf Hop) as Hkind.
    destruct (qubit_violation n q) as [msg|]; [left; by destruct Hkind|].
    destruct Hkind as [Hnot Hsmall]. right.
    destruct (phase_error _ _ _ _ _ Hop) as [[msg ->]| ->]; [by destruct (Hnot msg)|].
    split; [done|]. split; [done|].
    destruct (decide (n ≤ 4)) as [Hn|Hn]; [by specialize (Hsmall Hn)|lia]. }
  case_bool_decide.
  { destruct (getitem new_qubits 0) as [q0|]; simpl; [|intros [= _ <-]; by left].
    destruct (getitem new_qubits 1) as [q1|]; simpl; [|intros [= _ <-]; by left].
    intros Hop. left. by apply (cnot_validates q0 q1 e err e'). }
  case_bool_decide; [done|]. intros [= _ <-]. by left.
Qed.

(** On six qubits, after [cnot(2, 5)] and [cnot(4, 5)], the call
    [phase(1, 5)] raises [IndexError] from its third loop, with the
    linear and quadratic coefficients of the first two loops changed. *)
Lemma phase_raises_after_its_first_loops :
  ∃ e e', six_qubit_example = Ok e ∧ wf_elem 6 e ∧
          phase 1 5 e = (Raise IndexError, e') ∧
          SpecialPolynomial.weight_1 (poly e') ≠ SpecialPolynomial.weight_1 (poly e) ∧
          SpecialPolynomial.weight_2 (poly e') ≠ SpecialPolynomial.weight_2 (poly e).
Proof.
  destruct six_qubit_example as [e|] eqn:He; [|by vm_compute in He].
  vm_compute in He. injection He as <-.
  eexists _, _. split; [reflexivity|]. split; [wf_concrete|].
  split; [vm_compute; reflexivity|]. split; vm_compute; discriminate.
Qed.

(** C8, amended: [cnot] and [flip] check their arguments before they
    change anything and fail exactly when a precondition is violated,
    with the assertion of the first violated one; [phase] on a
    well-formed element fails the assertion of its first violated
    precondition for a qubit out of range, before any change, and fails
    no assertion otherwise; [set_term] and [get_term] fail the assertion
    of the first violated check of the index list and no assertion
    otherwise, and [set_term] leaves the polynomial as it was whenever
    it raises; composition in either orientation fails its assertion
    when the qubit counts differ, and returns for well-formed operands
    on at most three qubits; [append_circuit] applies the
    operations in order and, when one of them fails, raises its
    exception with the element as the operations before it left it,
    unless the failed one is a phase gate that raises [IndexError]
    (for which there must be more than four qubits). *)
Theorem failures_of_the_operations (n : Z) (e : t) :
  wf_elem n e →
  (∀ i j, validates_before_mutating (cnot i j) ∧
          ∀ r e', cnot i j e = (r, e') →
            match cnot_violation n i j with
            | Some msg => r = Raise (AssertionError msg) ∧ e' = e
            | None => r = Ok ()
            end) ∧
  (∀ i, validates_before_mutating (flip i) ∧
        ∀ r e', flip i e = (r, e') →
          match qubit_violation n i with
          | Some msg => r = Raise (AssertionError msg) ∧ e' = e
          | None => r = Ok ()
          end) ∧
  (∀ k i r e', phase k i e = (r, e') →
     match qubit_violation n i with
     | Some msg => r = Raise (AssertionError msg) ∧ e' = e
     | None => not_assertion r ∧ (n ≤ 4 → r = Ok ())
     end) ∧
  (∀ l v, validates_before_mutating (SpecialPolynomial.set_term l v) ∧
          ∀ r p', SpecialPolynomial.set_term l v (poly e) = (r, p') →
            match term_violation n l with
            | Some msg => r = Raise (AssertionError msg) ∧ p' = poly e
            | None => not_assertion r ∧ (n ≤ 4 ∨ (length l ≤ 2)%nat → r = Ok ())
            end) ∧
  (∀ l, match term_violation n l with
        | Some msg => SpecialPolynomial.get_term (poly e) l = Raise (AssertionError msg)
        | None => not_assertion (SpecialPolynomial.get_term (poly e) l) ∧
                  (n ≤ 4 ∨ (length l ≤ 2)%nat →
                   ∃ v, SpecialPolynomial.get_term (poly e) l = Ok v)
        end) ∧
  (∀ b, (num_qubits b ≠ n →
           __mul__ e b = Raise (AssertionError "not same num_qubits!") ∧
           __rmul__ e b = Raise (AssertionError "not same num_qubits!") ∧
           __mul__ b e = Raise (AssertionError "not same num_qubits!") ∧
           __rmul__ b e = Raise (AssertionError "not same num_qubits!")) ∧
        (wf_elem n b → n ≤ 3 →
           (∃ r, __mul__ e b = Ok r) ∧ (∃ r, __rmul__ e b = Ok r))) ∧
  (∀ circuit_name nq qargs prefix instr rest e1 err e2,
     let qs := match qargs with Some q => q | None => py_range n end in
     append_circuit (mk_circuit circuit_name nq prefix) qargs e = (Ok (), e1) →
     apply_instruction circuit_name qs instr e1 = (Raise err, e2) →
     append_circuit (mk_circuit circuit_name nq (prefix ++ instr :: rest)) qargs e
       = (Raise err, e2) ∧
     (e2 = e1 ∨ (err = IndexError ∧ name instr = "u1" ∧ 4 < n))).
Proof.
  intros Hwf. pose proof Hwf as [Hq Hpoly _ _]. split_and!.
  - intros i j. split; [apply cnot_validates|]. rewrite <- Hq. apply cnot_failure_kind.
  - intros i. split; [apply flip_validates|]. rewrite <- Hq. apply flip_failure_kind.
  - intros k i r e'. by apply phase_failure_kind.
  - intros l v. split; [apply set_term_validates|].
    intros r p'. by apply set_term_failure_kind.
  - intros l. by apply get_term_failure_kind.
  - intros b. split.
    + intros Hb.
      destruct (composition_failure_kind e b) as [-> ->]; [congruence|].
      destruct (composition_failure_kind b e) as [-> ->]; [congruence|]. done.
    + intros Hb Hn. by apply (composition_returns n).
  - intros circuit_name nq qargs prefix instr rest e1 err e2 qs Hprefix Hinstr.
    assert (wf_elem n e1) as Hwf1.
    { revert Hprefix. unfold append_circuit, mbind, st_mbind, st_bind, st_get. simpl.
      apply (st_for_invariant (wf_elem n)); [|done].
      intros x s0 s1 _ Hs0. by apply apply_instruction_wf. }
    split; [|by apply (apply_instruction_failure n circuit_name qs instr e1 err e2)].
    revert Hprefix Hinstr.
    unfold append_circuit, mbind, st_mbind, st_bind, st_get. simpl.
    rewrite Hq. apply st_for_app_fail.
Qed.
End FailureKinds.

Section FailureInstances.
Import CNOTDihedral.

(** C8 at the identity on one qubit. *)
Lemma failures_of_the_operations_witness :
  wf_elem 1 (element_1 0 0) ∧
  (∀ i j, validates_before_mutating (cnot i j) ∧
          ∀ r e', cnot i j (element_1 0 0) = (r, e') →
            match cnot_violation 1 i j with
            | Some msg => r = Raise (AssertionError msg) ∧ e' = element_1 0 0
            | None => r = Ok ()
            end) ∧
  (∀ i, validates_before_mutating (flip i) ∧
        ∀ r e', flip i (element_1 0 0) = (r, e') →
          match qubit_violation 1 i with
          | Some msg => r = Raise (AssertionError msg) ∧ e' = element_1 0 0
          | None => r = Ok ()
          end) ∧
  (∀ k i r e', phase k i (element_1 0 0) = (r, e') →
     match qubit_violation 1 i with
     | Some msg => r = Raise (AssertionError msg) ∧ e' = element_1 0 0
     | None => not_assertion r ∧ (1 ≤ 4 → r = Ok ())
     end) ∧
  (∀ l v, validates_before_mutating (SpecialPolynomial.set_term l v) ∧
          ∀ r p', SpecialPolynomial.set_term l v (poly (element_1 0 0)) = (r, p') →
            match term_violation 1 l with
            | Some msg => r = Raise (AssertionError msg) ∧ p' = poly (element_1 0 0)
            | None => not_assertion r ∧ (1 ≤ 4 ∨ (length l ≤ 2)%nat → r = Ok ())
            end) ∧
  (∀ l, match term_violation 1 l with
        | Some msg => SpecialPolynomial.get_term (poly (element_1 0 0)) l
                      = Raise (AssertionError msg)
        | None => not_assertion (SpecialPolynomial.get_term (poly (element_1 0 0)) l) ∧
                  (1 ≤ 4 ∨ (length l ≤ 2)%nat →
                   ∃ v, SpecialPolynomial.get_term (poly (element_1 0 0)) l = Ok v)
        end) ∧
  (∀ b, (num_qubits b ≠ 1 →
           __mul__ (element_1 0 0) b = Raise (AssertionError "not same num_qubits!") ∧
           __rmul__ (element_1 0 0) b = Raise (AssertionError "not same num_qubits!") ∧
           __mul__ b (element_1 0 0) = Raise (AssertionError "not same num_qubits!") ∧
           __rmul__ b (element_1 0 0) = Raise (AssertionError "not same num_qubits!")) ∧
        (wf_elem 1 b → 1 ≤ 3 →
           (∃ r, __mul__ (element_1 0 0) b = Ok r) ∧
           (∃ r, __rmul__ (element_1 0 0) b = Ok r))) ∧
  (∀ circuit_name nq qargs prefix instr rest e1 err e2,
     let qs := match qargs with Some q => q | None => py_range 1 end in
     append_circuit (mk_circuit circuit_name nq prefix) qargs (element_1 0 0)
       = (Ok (), e1) →
     apply_instruction circuit_name qs instr e1 = (Raise err, e2) →
     append_circuit (mk_circuit circuit_name nq (prefix ++ instr :: rest)) qargs
       (element_1 0 0) = (Raise err, e2) ∧
     (e2 = e1 ∨ (err = IndexError ∧ name instr = "u1" ∧ 4 < 1))).
Proof.
  assert (wf_elem 1 (element_1 0 0)) as He by wf_concrete.
  split; [exact He|]. exact (failures_of_the_operations 1 (element_1 0 0) He).
Defined.
End FailureInstances.
